(** * Chromatic polynomials: a shallow embedding of [sage/graphs/chrompoly.pyx]

    The development follows the source file: the polynomial ring [ZZ['x']],
    the graph objects the two algorithms consume, the breadth first
    chord decomposition, [contract_and_count], the assembly of the
    coefficient vector, and the stack machine of
    [chromatic_polynomial_with_cache]. *)

From Stdlib Require Import ZArith List Bool Lia String Ascii Sorted Permutation.
From stdpp Require Import base option list gmap sets strings.

Open Scope Z_scope.

(** ** Polynomials over the integers, [ZZ['x']]

    A polynomial is its coefficient sequence from degree 0 upward, without
    trailing zeros, so that equality of lists is equality of polynomials. *)
Module Poly.

Definition poly := list Z.

Definition coeff (p : poly) (d : nat) : Z := nth d p 0.

Fixpoint norm (p : poly) : poly :=
  match p with
  | [] => []
  | a :: q =>
      match norm q with
      | [] => if a =? 0 then [] else [a]
      | q' => a :: q'
      end
  end.

Fixpoint add_raw (p q : poly) : poly :=
  match p, q with
  | [], _ => q
  | _, [] => p
  | a :: p', b :: q' => (a + b) :: add_raw p' q'
  end.

Definition scale_raw (c : Z) (p : poly) : poly := map (Z.mul c) p.

Fixpoint mul_raw (p q : poly) : poly :=
  match p with
  | [] => []
  | a :: p' => add_raw (scale_raw a q) (0 :: mul_raw p' q)
  end.

Definition zero : poly := [].
Definition one : poly := [1].
Definition gen : poly := [0; 1].
Definition of_coeffs (cs : list Z) : poly := norm cs.
Definition add (p q : poly) : poly := norm (add_raw p q).
Definition scale (c : Z) (p : poly) : poly := norm (scale_raw c p).
Definition sub (p q : poly) : poly := norm (add_raw p (scale_raw (-1) q)).
Definition mul (p q : poly) : poly := norm (mul_raw p q).

Fixpoint pow (p : poly) (n : nat) : poly :=
  match n with
  | O => one
  | S n' => mul p (pow p n')
  end.

Definition prod (ps : list poly) : poly := fold_right mul one ps.

Fixpoint eval (p : poly) (k : Z) : Z :=
  match p with
  | [] => 0
  | a :: q => a + k * eval q k
  end.

(** [x * (x - 1)^(n - 1)], the chromatic polynomial of a tree on [n]
    vertices as both algorithms write it. *)
Definition tree_poly (n : nat) : poly := mul gen (pow (sub gen one) (n - 1)).

End Poly.

(** ** Graph objects *)

(** Modelled from the spec: the Sage graph class is not part of the source
    file; the algorithms use it through the operations below (emptiness,
    loops, connectivity, components, relabelling, edge deletion and
    contraction).  A graph value is a list of vertex labels and a list of
    edges; loops and parallel edges may occur. *)
Module Graph.

Record t := mk { verts : list nat; edges : list (nat * nat) }.

Definition order (g : t) : nat := length (verts g).
Definition size (g : t) : nat := length (edges g).
Definition is_empty (g : t) : bool := Nat.eqb (order g) 0.

Definition memb (x : nat) (l : list nat) : bool := existsb (Nat.eqb x) l.

Definition same_edge (e f : nat * nat) : bool :=
  (Nat.eqb e.1 f.1 && Nat.eqb e.2 f.2) || (Nat.eqb e.1 f.2 && Nat.eqb e.2 f.1).

Definition has_edge (g : t) (u v : nat) : bool :=
  existsb (same_edge (u, v)) (edges g).

Definition has_loops (g : t) : bool :=
  existsb (fun e => Nat.eqb e.1 e.2) (edges g).

(** [neighbor_iterator]: every neighbour once, in vertex order. *)
Definition neighbors (g : t) (v : nat) : list nat :=
  List.filter (fun u => has_edge g u v) (verts g).

Fixpoint dedup_edges (es : list (nat * nat)) : list (nat * nat) :=
  match es with
  | [] => []
  | e :: r =>
      let r' := dedup_edges r in
      if existsb (same_edge e) r' then r' else e :: r'
  end.

Definition remove_multiple_edges (g : t) : t :=
  mk (verts g) (rev (dedup_edges (rev (edges g)))).

Definition remove_loops (g : t) : t :=
  mk (verts g) (List.filter (fun e => negb (Nat.eqb e.1 e.2)) (edges g)).

Fixpoint index_of (x : nat) (l : list nat) : nat :=
  match l with
  | [] => 0
  | y :: r => if Nat.eqb x y then 0%nat else S (index_of x r)
  end.

(** [relabel(inplace=False)]: the vertex at position [i] becomes [i]. *)
Definition relabel (g : t) : t :=
  mk (seq 0 (order g))
     (map (fun e => (index_of e.1 (verts g), index_of e.2 (verts g))) (edges g)).

(** Vertices reachable from the vertices of [seen], by rounds. *)
Fixpoint reach (g : t) (rounds : nat) (seen : list nat) : list nat :=
  match rounds with
  | O => seen
  | S r =>
      reach g r
        (fold_left
           (fun acc v =>
              fold_left (fun acc' u => if memb u acc' then acc' else acc' ++ [u])
                        (neighbors g v) acc)
           seen seen)
  end.

Definition component (g : t) (v : nat) : list nat :=
  reach g (order g) [v].

Definition is_connected (g : t) : bool :=
  match verts g with
  | [] => true
  | v :: _ => forallb (fun u => memb u (component g v)) (verts g)
  end.

Definition subgraph (g : t) (vs : list nat) : t :=
  mk (List.filter (fun v => memb v vs) (verts g))
     (List.filter (fun e => memb e.1 vs && memb e.2 vs) (edges g)).

Fixpoint components_from (g : t) (fuel : nat) (todo : list nat) : list t :=
  match fuel, todo with
  | S f, v :: rest =>
      let c := component g v in
      subgraph g c :: components_from g f (List.filter (fun u => negb (memb u c)) rest)
  | _, _ => []
  end.

Definition connected_components_subgraphs (g : t) : list t :=
  components_from g (order g) (verts g).

Fixpoint nodupb (l : list nat) : bool :=
  match l with
  | [] => true
  | x :: r => negb (memb x r) && nodupb r
  end.

(** A graph value is well formed when its vertices are listed once and the
    ends of its edges are vertices, as those of every Sage graph are. *)
Definition wf (g : t) : bool :=
  nodupb (verts g) && forallb (fun e => memb e.1 (verts g) && memb e.2 (verts g)) (edges g).

Definition is_tree (g : t) : bool :=
  negb (is_empty g) && Nat.eqb (order g) (size g + 1) && is_connected g.

Fixpoint remove_first_edge (e : nat * nat) (es : list (nat * nat)) :=
  match es with
  | [] => []
  | f :: r => if same_edge e f then r else f :: remove_first_edge e r
  end.

Definition delete_edge (g : t) (u w : nat) : t :=
  mk (verts g) (remove_first_edge (u, w) (edges g)).

Definition add_edge (g : t) (u w : nat) : t :=
  mk (verts g) (edges g ++ [(u, w)]).

(** [merge_vertices([u, w])]: [w] disappears, the edges from [w] to a
    vertex other than [u] are carried over to [u]. *)
Definition merge_vertices (g : t) (u w : nat) : t :=
  let keep := List.filter (fun e => negb (Nat.eqb e.1 w) && negb (Nat.eqb e.2 w)) (edges g) in
  let moved :=
    flat_map (fun e =>
      if Nat.eqb e.1 w && negb (Nat.eqb e.2 u) && negb (Nat.eqb e.2 w) then [(u, e.2)]
      else if Nat.eqb e.2 w && negb (Nat.eqb e.1 u) && negb (Nat.eqb e.1 w) then [(u, e.1)]
      else []) (edges g) in
  mk (List.filter (fun v => negb (Nat.eqb v w)) (verts g)) (keep ++ moved).

(** [bridges(labels=False)]: the edges whose removal separates their ends. *)
Definition bridges (g : t) : list (nat * nat) :=
  List.filter (fun e => negb (memb e.2 (component (delete_edge g e.1 e.2) e.1))) (edges g).

End Graph.

(** ** Exceptions, the interpreter state and the monad of effects *)

Inductive exn :=
  | ValueError_algorithm      (* algorithm must be C or Python *)
  | ValueError_something      (* something goes wrong *)
  | TypeError
  | AttributeError
  | IndexError
  | StopIteration
  | RecursionError
  | KeyboardInterrupt
  | MemoryError.

(** The [mpz_t] cells the C code initialises and clears by hand. *)
Inductive mpz := Tot (i : nat) | Coeffs (i : nat) | Coeff | Mneg.

Definition mpz_eqb (a b : mpz) : bool :=
  match a, b with
  | Tot i, Tot j | Coeffs i, Coeffs j => Nat.eqb i j
  | Coeff, Coeff | Mneg, Mneg => true
  | _, _ => false
  end.

(** The state a call runs in: the graph objects of the caller and of the
    call, the [mpz_t] cells that are initialised and not yet cleared, and
    the interrupts that [sig_check] will meet ([signals n] is what the
    [n]-th check raises, if anything). *)
Record world := World {
  heap : gmap nat Graph.t;
  live : list mpz;
  ticks : nat;
  signals : nat -> option exn
}.

(** How a computation ends when it does not return: a Python exception, an
    access of the C part that is out of bounds or uninitialised, or the end
    of the fuel of the model. *)
Inductive abort :=
  | Raise (e : exn)
  | Undefined
  | OutOfFuel.

Inductive outcome (A : Type) :=
  | Ret (a : A)
  | Abort (x : abort).
Arguments Ret {A} a.
Arguments Abort {A} x.

Definition M (A : Type) : Type := world -> outcome A * world.

Definition ret {A} (a : A) : M A := fun w => (Ret a, w).
Definition raise {A} (e : exn) : M A := fun w => (Abort (Raise e), w).
Definition undefined {A} : M A := fun w => (Abort Undefined, w).
Definition out_of_fuel {A} : M A := fun w => (Abort OutOfFuel, w).

Definition bind {A B} (c : M A) (k : A -> M B) : M B :=
  fun w =>
    match c w with
    | (Ret a, w') => k a w'
    | (Abort x, w') => (Abort x, w')
    end.

Notation "'let*' x ':=' c 'in' k" := (bind c (fun x => k))
  (at level 10, x pattern, c at level 100, k at level 200).
Notation "'run' c 'then' k" := (bind c (fun _ => k))
  (at level 10, c at level 100, k at level 200).

Definition of_option {A} (o : option A) : M A :=
  match o with Some a => ret a | None => undefined end.

(** [try: c except BaseException: h; raise] *)
Definition try_except_reraise {A} (c : M A) (h : M unit) : M A :=
  fun w =>
    match c w with
    | (Abort (Raise e), w') =>
        match h w' with
        | (Ret _, w'') => (Abort (Raise e), w'')
        | (Abort x, w'') => (Abort x, w'')
        end
    | r => r
    end.

Fixpoint mapM {A B} (f : A -> M B) (l : list A) : M (list B) :=
  match l with
  | [] => ret []
  | a :: r => let* b := f a in let* bs := mapM f r in ret (b :: bs)
  end.

(** *** Graph objects in the heap *)

Definition alloc (g : Graph.t) : M nat :=
  fun w =>
    let l := fresh (dom (heap w)) in
    (Ret l, World (<[l := g]> (heap w)) (live w) (ticks w) (signals w)).

Definition read (l : nat) : M Graph.t :=
  fun w => match heap w !! l with Some g => (Ret g, w) | None => (Abort Undefined, w) end.

(** An operation that changes the object at [l] in place. *)
Definition modify (l : nat) (f : Graph.t -> Graph.t) : M unit :=
  fun w =>
    match heap w !! l with
    | Some g => (Ret tt, World (<[l := f g]> (heap w)) (live w) (ticks w) (signals w))
    | None => (Abort Undefined, w)
    end.

(** *** [mpz_init], [mpz_clear], [sig_check] *)

Definition mpz_init (c : mpz) : M unit :=
  fun w => (Ret tt, World (heap w) (live w ++ [c]) (ticks w) (signals w)).

Definition mpz_clear (c : mpz) : M unit :=
  fun w => (Ret tt, World (heap w) (List.filter (fun d => negb (mpz_eqb c d)) (live w))
                          (ticks w) (signals w)).

Definition sig_check : M unit :=
  fun w =>
    let w' := World (heap w) (live w) (S (ticks w)) (signals w) in
    match signals w (ticks w) with
    | Some e => (Abort (Raise e), w')
    | None => (Ret tt, w')
    end.

Fixpoint for_each {A} (f : A -> M unit) (l : list A) : M unit :=
  match l with
  | [] => ret tt
  | a :: r => run f a then for_each f r
  end.

(** ** The chord decomposition (breadth first search from vertex 0)

    [chords1[i]] and [chords2[i]] are kept together as the pair at index
    [i].  [queue] and [parent] are written at consecutive indices
    ([top] and [next_v] advance together), so the written part of each
    array is a list that grows at its end; [parent[0]] is never written. *)

Definition chord := (nat * nat)%type.

(** The test of the bubble sort: the chord before stays before. *)
Definition chord_gt (c d : chord) : bool :=
  Nat.ltb d.1 c.1 || (Nat.eqb c.1 d.1 && Nat.ltb d.2 c.2).

Definition chord_lt (c d : chord) : bool := chord_gt d c.

(** The new chord sits at the end and moves towards the front; the list is
    given last element first. *)
Fixpoint bubble (before : list chord) (c : chord) : list chord :=
  match before with
  | [] => [c]
  | p :: before' => if chord_gt p c then c :: before else p :: bubble before' c
  end.

Definition insert_chord (chords : list chord) (c : chord) : list chord :=
  rev (bubble (rev chords) c).

Record bfs_state := Bfs {
  bfs_reorder : list Z;
  queue : list nat;
  parent : list nat;
  chords : list chord
}.

(** One neighbour [u] of the vertex [v] taken from the queue.  [nverts] is
    the length of [queue] and [parent], [cap] that of the chord arrays. *)
Definition bfs_visit (nverts : nat) (cap : Z) (v : nat) (st : bfs_state) (u : nat)
  : option bfs_state :=
  ru ← bfs_reorder st !! u;
  rv ← bfs_reorder st !! v;
  if ru =? -1 then
    let next_v := length (queue st) in
    if Nat.ltb next_v nverts then
      Some (Bfs (<[u := Z.of_nat next_v]> (bfs_reorder st))
                (queue st ++ [u])
                (parent st ++ [Z.to_nat rv])
                (chords st))
    else None
  else if rv <? ru then
    if Z.of_nat (length (chords st)) <? cap then
      Some (Bfs (bfs_reorder st) (queue st) (parent st)
                (insert_chord (chords st) (Z.to_nat ru, Z.to_nat rv)))
    else None
  else Some st.

Fixpoint bfs_neighbors (nverts : nat) (cap : Z) (v : nat) (st : bfs_state)
  (us : list nat) : option bfs_state :=
  match us with
  | [] => Some st
  | u :: us' => st' ← bfs_visit nverts cap v st u; bfs_neighbors nverts cap v st' us'
  end.

(** [while top > bot]: [bot] counts up to [top], and [top] is at most
    [nverts], so [nverts - bot] rounds remain. *)
Fixpoint bfs_loop (g : Graph.t) (nverts : nat) (cap : Z) (rounds bot : nat)
  (st : bfs_state) : option bfs_state :=
  if Nat.ltb bot (length (queue st)) then
    match rounds with
    | O => None
    | S rounds' =>
        v ← queue st !! bot;
        st' ← bfs_neighbors nverts cap v st (Graph.neighbors g v);
        bfs_loop g nverts cap rounds' (S bot) st'
    end
  else Some st.

Definition bfs_init (nverts : nat) : bfs_state :=
  Bfs (0 :: repeat (-1) (nverts - 1)) [0%nat] [0%nat] [].

Definition bfs (g : Graph.t) : option bfs_state :=
  let nverts := Graph.order g in
  let nedges := Graph.size g in
  bfs_loop g nverts (Z.of_nat nedges - Z.of_nat nverts + 1) nverts 0 (bfs_init nverts).

(** ** [contract_and_count] *)

(** [parent[z]]: index 0 was never written. *)
Definition parent_at (parent : list nat) (z : nat) : option nat :=
  match z with
  | O => None
  | S _ => parent !! z
  end.

Definition ordered_pair (a b : nat) : chord :=
  if Nat.ltb b a then (a, b) else (b, a).

(** The [while j < num_chords and chords1[j] == z] loop: the insertion list,
    [parent_checked] and the chords from [j] on. *)
Fixpoint scan_group (z x1 pz px1 : nat) (rest : list chord)
  (parent_checked : bool) (ins : list chord) : list chord * bool * list chord :=
  match rest with
  | (h, xj) :: rest' =>
      if Nat.eqb h z then
        let '(pc, ins1) :=
          if Nat.ltb xj pz then
            (true, if Nat.eqb px1 pz then ins else ins ++ [ordered_pair x1 pz])
          else (parent_checked, ins) in
        let ins2 := if Nat.eqb px1 xj then ins1 else ins1 ++ [(x1, xj)] in
        scan_group z x1 pz px1 rest' pc ins2
      else (ins, parent_checked, rest)
  | [] => (ins, parent_checked, [])
  end.

(** The two-way merge of the remaining chords with the insertion list. *)
Fixpoint merge_chords (cs : list chord) : list chord -> list chord :=
  fix go (ins : list chord) : list chord :=
    match cs, ins with
    | [], _ => ins
    | _, [] => cs
    | c :: cs', d :: ins' =>
        if chord_gt c d then c :: merge_chords cs' ins
        else if chord_lt c d then d :: go ins'
        else c :: merge_chords cs' ins'
    end.

(** Contracting the chord [(z, x1)] at index [i]; [rest] are the chords
    after it.  The four work arrays have [num_chords] entries. *)
Definition contract_chord (num_chords : nat) (parent : list nat) (z x1 : nat)
  (rest : list chord) : option (list chord) :=
  pz ← parent_at parent z;
  px1 ← parent_at parent x1;
  let '(ins, parent_checked, rest') := scan_group z x1 pz px1 rest false [] in
  let ins' :=
    if parent_checked then ins
    else if Nat.eqb px1 pz then ins else ins ++ [ordered_pair x1 pz] in
  let new_chords := merge_chords rest' ins' in
  if Nat.leb (length ins') num_chords && Nat.leb (length new_chords) num_chords
  then Some new_chords else None.

(** [mpz_add_ui(tot[nverts], tot[nverts], 1)] *)
Definition tot_incr (tot : list Z) (nverts : nat) : option (list Z) :=
  t ← tot !! nverts; Some (<[nverts := t + 1]> tot).

(** The [for i in range(num_chords)] loop, over the chords from [i] on. *)
Definition contract_loop (rec : list chord -> list Z -> M (list Z))
  (num_chords : nat) (parent : list nat)
  : list chord -> list Z -> M (list Z) :=
  fix loop (cs : list chord) (tot : list Z) : M (list Z) :=
    match cs with
    | [] => ret tot
    | (z, x1) :: rest =>
        run sig_check then
        let* new_chords := of_option (contract_chord num_chords parent z x1 rest) in
        let* tot1 := rec new_chords tot in
        loop rest tot1
    end.

(** The recursion passes [nverts - 1]; at [nverts = 0] it would index the
    histogram below its first entry. *)
Fixpoint contract_and_count (nverts : nat) (chords : list chord)
  (parent : list nat) (tot : list Z) : M (list Z) :=
  match chords with
  | [] => of_option (tot_incr tot nverts)
  | _ :: _ =>
      match nverts with
      | O => undefined
      | S n' =>
          let* tot' :=
            contract_loop (fun new_chords t => contract_and_count n' new_chords parent t)
                          (length chords) parent chords tot in
          of_option (tot_incr tot' nverts)
      end
  end.

(** ** The assembly of the coefficient vector *)

(** [mpz_addmul(coeffs[k], a, b)] *)
Definition addmul (coeffs : list Z) (k : nat) (a b : Z) : list Z :=
  <[k := nth k coeffs 0 + a * b]> coeffs.

(** The [for j from 1 <= j < i] loop, [steps] rounds from [j] on;
    [mpz_divexact_ui] is the quotient of an exact division. *)
Fixpoint binomial_loop (m ti : Z) (i j steps : nat) (coeff : Z) (coeffs : list Z)
  : list Z :=
  match steps with
  | O => coeffs
  | S steps' =>
      let c1 := coeff * (Z.of_nat j - Z.of_nat i) in
      let c2 := c1 / Z.of_nat j in
      let c3 := c2 * m in
      let coeffs' := addmul coeffs (i - j) c3 ti in
      let c4 := c3 * m in
      binomial_loop m ti i (S j) steps' c4 coeffs'
  end.

(** The body of [for i from nverts >= i > 0], on the state [(m, coeffs)]. *)
Definition assemble_body (tot : list Z) (i : nat) (st : Z * list Z) : Z * list Z :=
  let '(m, coeffs) := st in
  let ti := nth i tot 0 in
  if Z.sgn ti =? 0 then (m, coeffs)
  else
    let m' := - m in
    let coeffs' := addmul coeffs i m' ti in
    (m', binomial_loop m' ti i 1 (i - 1) 1 coeffs').

(** The iterations [i], [i - 1], ..., [1]. *)
Fixpoint assemble_from (tot : list Z) (i : nat) (st : Z * list Z) : Z * list Z :=
  match i with
  | O => st
  | S i' => assemble_from tot i' (assemble_body tot i st)
  end.

Definition assemble (tot : list Z) (nverts : nat) : list Z :=
  snd (assemble_from tot nverts (-1, repeat 0 (nverts + 1))).

(** ** The digraph [D] of intermediate values *)

(** The key of a graph in the cache: a frozen set of edges. *)
Definition key := gset (nat * nat).

(** What a vertex of [D] holds: a graph, a key or a polynomial. *)
Inductive dval :=
  | VGraph (l : nat)            (* a graph object of the heap *)
  | VKey (k : key)
  | VPoly (p : Poly.poly).

(** Modelled from the spec: the Sage digraph class is not part of the source
    file.  A vertex may carry an object ([set_vertex], [get_vertex]);
    [add_vertex()] names the new vertex by the least integer not in use;
    deleting a vertex removes its edges and its object. *)
Module DiGraph.

Record t := mk { verts : list nat; assoc : gmap nat dval; edges : list (nat * nat) }.

Definition init1 : t := mk [0%nat] ∅ [].

Definition set_vertex (d : t) (v : nat) (x : dval) : t :=
  mk (verts d) (<[v := x]> (assoc d)) (edges d).

Definition get_vertex (d : t) (v : nat) : option dval := assoc d !! v.

Fixpoint least_unused (used : list nat) (tries c : nat) : nat :=
  match tries with
  | O => c
  | S tries' => if Graph.memb c used then least_unused used tries' (S c) else c
  end.

Definition add_vertex (d : t) : nat * t :=
  let w := least_unused (verts d) (length (verts d)) 0 in
  (w, mk (verts d ++ [w]) (assoc d) (edges d)).

Definition add_edge (d : t) (u v : nat) : t :=
  mk (verts d) (assoc d) (edges d ++ [(u, v)]).

Definition neighbor_out (d : t) (v : nat) : list nat :=
  map snd (List.filter (fun e => Nat.eqb e.1 v) (edges d)).

Definition delete_vertices (d : t) (vs : list nat) : t :=
  mk (List.filter (fun x => negb (Graph.memb x vs)) (verts d))
     (fold_right (fun x m => delete x m) (assoc d) vs)
     (List.filter (fun e => negb (Graph.memb e.1 vs) && negb (Graph.memb e.2 vs)) (edges d)).

End DiGraph.

(** ** [chromatic_polynomial_with_cache] *)

(** The command of a stack entry: the tuple [com], its first component and
    the integers that follow. *)
Definition com := (string * list nat)%type.

Record cache_state := CState {
  cD : DiGraph.t;
  cache : gmap key Poly.poly;
  stack : list (bool * nat * com)     (* the top of the stack first *)
}.

Definition norm_edge (e : nat * nat) : nat * nat :=
  if Nat.leb e.1 e.2 then e else (e.2, e.1).

Definition get_poly (d : DiGraph.t) (v : nat) : M Poly.poly :=
  match DiGraph.get_vertex d v with
  | Some (VPoly p) => ret p
  | _ => raise TypeError
  end.

Definition get_key (d : DiGraph.t) (v : nat) : M key :=
  match DiGraph.get_vertex d v with
  | Some (VKey k) => ret k
  | _ => raise TypeError
  end.

(** [str.lower()] on the letters that matter here, A to Z. *)
Definition lower_ascii (c : ascii) : ascii :=
  let n := nat_of_ascii c in
  if Nat.leb 65 n && Nat.leb n 90 then ascii_of_nat (n + 32) else c.

Fixpoint lower (s : string) : string :=
  match s with
  | EmptyString => EmptyString
  | String c r => String (lower_ascii c) (lower r)
  end.

(** [for i from lo <= i <= hi], as the list of its indices. *)
Definition range_incl (lo hi : nat) : list nat := seq lo (S hi - lo).

Section WithCanonicalLabel.

(** [canonical_label] belongs to the graph library: any relabelling that is
    the same on isomorphic graphs. *)
Variable canonical_label : Graph.t -> Graph.t.

(** [frozenset(g.canonical_label().edges(labels=False, sort=False))] *)
Definition key_of (g : Graph.t) : key :=
  list_to_set (map norm_edge (Graph.edges (canonical_label g))).

(** A polynomial becomes the value of [v] and of the cache at [k]. *)
Definition resolve (st : cache_state) (v : nat) (k : key) (p : Poly.poly)
  (stk : list (bool * nat * com)) : cache_state :=
  CState (DiGraph.set_vertex (cD st) v (VPoly p)) (<[k := p]> (cache st)) stk.

(** The loop over the connected components of a first visit. *)
Fixpoint spawn_components (v : nat) (hs : list Graph.t) (d : DiGraph.t)
  (stk : list (bool * nat * com)) : M (DiGraph.t * list (bool * nat * com)) :=
  match hs with
  | [] => ret (d, stk)
  | h :: hs' =>
      let* l := alloc h in
      let '(w, d1) := DiGraph.add_vertex d in
      let d2 := DiGraph.set_vertex d1 w (VGraph l) in
      let d3 := DiGraph.add_edge d2 v w in
      spawn_components v hs' d3 ((true, w, ("_"%string, [])) :: stk)
  end.

Definition first_visit (st : cache_state) (v : nat)
  (stk : list (bool * nat * com)) : M cache_state :=
  match DiGraph.get_vertex (cD st) v with
  | Some (VGraph l) =>
      let* g := read l in
      let k := key_of g in
      match cache st !! k with
      | Some p => ret (CState (DiGraph.set_vertex (cD st) v (VPoly p)) (cache st) stk)
      | None =>
          if Graph.is_empty g then ret (resolve st v k Poly.one stk)
          else if Graph.has_loops g then ret (resolve st v k Poly.zero stk)
          else if negb (Graph.is_connected g) then
            let d1 := DiGraph.set_vertex (cD st) v (VKey k) in
            let stk1 := (false, v, ("*"%string, [])) :: stk in
            let* (d2, stk2) :=
              spawn_components v (Graph.connected_components_subgraphs g) d1 stk1 in
            ret (CState d2 (cache st) stk2)
          else if Nat.eqb (Graph.order g) (Graph.size g + 1) then
            ret (resolve st v k (Poly.tree_poly (Graph.order g)) stk)
          else
            let '(a, d1) := DiGraph.add_vertex (cD st) in
            let '(b, d2) := DiGraph.add_vertex d1 in
            let d3 := DiGraph.add_edge (DiGraph.add_edge d2 v a) v b in
            let d4 := DiGraph.set_vertex d3 v (VKey k) in
            let stk1 := (false, v, ("-"%string, [a; b])) :: stk in
            match Graph.bridges g ++ Graph.edges g with
            | [] => raise StopIteration
            | (u, w) :: _ =>
                run modify l (fun g => Graph.delete_edge g u w) then
                let* g1 := read l in
                let* la := alloc g1 in
                let d5 := DiGraph.set_vertex d4 a (VGraph la) in
                let stk2 := (true, a, ("_"%string, [])) :: stk1 in
                run modify l (fun g => Graph.add_edge g u w) then
                run modify l (fun g => Graph.merge_vertices g u w) then
                run modify l Graph.remove_multiple_edges then
                let d6 := DiGraph.set_vertex d5 b (VGraph l) in
                ret (CState d6 (cache st) ((true, b, ("_"%string, [])) :: stk2))
            end
      end
  | _ => raise AttributeError
  end.

(** One round of [while stack]: pop an entry and act on it. *)
Definition cache_step (st : cache_state) (entry : bool * nat * com)
  (stk : list (bool * nat * com)) : M cache_state :=
  let '(firstseen, v, c) := entry in
  if firstseen then first_visit st v stk
  else if String.eqb (fst c) "*" then
    let* k := get_key (cD st) v in
    let* ps := mapM (get_poly (cD st)) (DiGraph.neighbor_out (cD st) v) in
    let p := Poly.prod ps in
    let st1 := resolve st v k p stk in
    ret (CState (DiGraph.delete_vertices (cD st1) (DiGraph.neighbor_out (cD st1) v))
                (cache st1) stk)
  else if String.eqb (fst c) "-" then
    let* k := get_key (cD st) v in
    match snd c with
    | a :: b :: _ =>
        let* pa := get_poly (cD st) a in
        let* pb := get_poly (cD st) b in
        let st1 := resolve st v k (Poly.sub pa pb) stk in
        ret (CState (DiGraph.delete_vertices (cD st1) (DiGraph.neighbor_out (cD st1) v))
                    (cache st1) stk)
    | _ => raise IndexError
    end
  else raise ValueError_something.

Fixpoint cache_loop (fuel : nat) (st : cache_state) : M cache_state :=
  match stack st with
  | [] => ret st
  | entry :: stk =>
      match fuel with
      | O => out_of_fuel
      | S fuel' => let* st' := cache_step st entry stk in cache_loop fuel' st'
      end
  end.

Definition chromatic_polynomial_with_cache (fuel : nat) (G : nat) : M Poly.poly :=
  let* g := read G in
  if Graph.is_empty g then ret Poly.one
  else if Graph.has_loops g then ret Poly.zero
  else
    let* G' := alloc (Graph.relabel g) in
    run modify G' Graph.remove_multiple_edges then
    let d := DiGraph.set_vertex DiGraph.init1 0 (VGraph G') in
    let* st := cache_loop fuel (CState d ∅ [(true, 0%nat, ("_"%string, []))]) in
    get_poly (cD st) 0.

(** ** [chromatic_polynomial] *)

(** The part after the early returns: relabel a copy, decompose, count,
    assemble. *)
Definition chromatic_polynomial_main (G : nat) : M Poly.poly :=
  let* g0 := read G in
  let* G' := alloc (Graph.relabel g0) in
  run modify G' Graph.remove_multiple_edges then
  run modify G' Graph.remove_loops then
  let* g := read G' in
  let nverts := Graph.order g in
  run mpz_init (Tot 0) then
  run for_each (fun i => mpz_init (Tot i)) (seq 1 (nverts - 1)) then
  run mpz_init (Tot nverts) then
  let* st := of_option (bfs g) in
  let* tot :=
    try_except_reraise
      (contract_and_count nverts (chords st) (parent st) (repeat 0 (nverts + 1)))
      (for_each (fun i => mpz_clear (Tot i)) (seq 0 nverts)) in
  run for_each (fun i => mpz_init (Coeffs i)) (range_incl 0 nverts) then
  run mpz_init Coeff then
  run mpz_init Mneg then
  let f := Poly.of_coeffs (assemble tot nverts) in
  run for_each (fun i => run mpz_clear (Tot i) then mpz_clear (Coeffs i))
               (range_incl 0 nverts) then
  run mpz_clear Coeff then
  run mpz_clear Mneg then
  ret f.

(** [depth] bounds the nesting of recursive calls, [steps] the rounds of
    the loop of the cached algorithm. *)
Fixpoint chromatic_polynomial (depth steps : nat) (G : nat) (algorithm : string)
  : M Poly.poly :=
  let algorithm := lower algorithm in
  if negb (existsb (String.eqb algorithm) ["c"; "python"]%string) then
    raise ValueError_algorithm
  else if String.eqb algorithm "python" then
    chromatic_polynomial_with_cache steps G
  else
    let* g := read G in
    if Graph.is_empty g then ret Poly.one
    else if Graph.has_loops g then ret Poly.zero
    else if negb (Graph.is_connected g) then
      let* hs := mapM alloc (Graph.connected_components_subgraphs g) in
      let* ps :=
        mapM (fun h =>
                match depth with
                | O => raise RecursionError
                | S depth' => chromatic_polynomial depth' steps h "C"
                end) hs in
      ret (Poly.prod ps)
    else if Graph.is_tree g then ret (Poly.tree_poly (Graph.order g))
    else chromatic_polynomial_main G.

End WithCanonicalLabel.

(** ** A canonical labelling to run the cached algorithm with *)

(** Modelled from the spec: the canonical form of the Sage graph class is
    not part of the source file.  The vertices without an edge get the
    first labels; among the relabellings of the other vertices by the
    remaining labels, the one whose sorted edge list is greatest is
    taken. *)
Module Canon.

Fixpoint insert_everywhere (x : nat) (l : list nat) : list (list nat) :=
  match l with
  | [] => [[x]]
  | y :: r => (x :: l) :: map (cons y) (insert_everywhere x r)
  end.

Fixpoint perms (l : list nat) : list (list nat) :=
  match l with
  | [] => [[]]
  | x :: r => flat_map (insert_everywhere x) (perms r)
  end.

Definition edge_leb (e f : nat * nat) : bool :=
  Nat.ltb e.1 f.1 || (Nat.eqb e.1 f.1 && Nat.leb e.2 f.2).

Fixpoint insert_sorted (e : nat * nat) (l : list (nat * nat)) :=
  match l with
  | [] => [e]
  | f :: r => if edge_leb e f then e :: l else f :: insert_sorted e r
  end.

Definition sort_edges (l : list (nat * nat)) := fold_right insert_sorted [] l.

Fixpoint edges_leb (l m : list (nat * nat)) : bool :=
  match l, m with
  | [], _ => true
  | _ :: _, [] => false
  | e :: l', f :: m' =>
      if edge_leb e f then (if edge_leb f e then edges_leb l' m' else true) else false
  end.

Definition touched (es : list (nat * nat)) (v : nat) : bool :=
  existsb (fun e => Nat.eqb e.1 v || Nat.eqb e.2 v) es.

(** The vertices without an edge first, the others after them. *)
Definition arrange (g : Graph.t) : Graph.t :=
  Graph.mk (List.filter (fun v => negb (touched (Graph.edges g) v)) (Graph.verts g)
            ++ List.filter (touched (Graph.edges g)) (Graph.verts g))
           (Graph.edges g).

Definition isolated (g : Graph.t) : nat :=
  length (List.filter (fun v => negb (touched (Graph.edges g) v)) (Graph.verts g)).

(** The sorted edge list when the vertex at place [i] gets the label at
    place [i] of [sigma]. *)
Definition relabel_by (g : Graph.t) (sigma : list nat) : list (nat * nat) :=
  sort_edges
    (map (fun e => norm_edge (nth (Graph.index_of e.1 (Graph.verts g)) sigma 0%nat,
                              nth (Graph.index_of e.2 (Graph.verts g)) sigma 0%nat))
         (Graph.edges g)).

Definition canonical_label (g : Graph.t) : Graph.t :=
  let a := arrange g in
  let n := Graph.order g in
  let m := isolated g in
  let cands := map (fun p => relabel_by a (seq 0 m ++ p)) (perms (seq m (n - m))) in
  Graph.mk (seq 0 n)
    (fold_right (fun c best => if edges_leb best c then c else best)
                (relabel_by a (seq 0 n)) cands).

End Canon.

(** ** Inputs of the examples *)

Definition K3 : Graph.t := Graph.mk [0; 1; 2]%nat [(0, 1); (1, 2); (0, 2)]%nat.

(** The world of a caller that holds one graph, at location 0, and meets no
    interrupt. *)
Definition caller_world (g : Graph.t) : world :=
  World {[ 0%nat := g ]} [] 0 (fun _ => None).

(** ** Observations on the cached algorithm *)

(** The shape of a stack entry that the loop knows how to handle. *)
Definition entry_ok (e : bool * nat * com) : Prop :=
  e.1.1 = true \/ fst e.2 = "*"%string \/ fst e.2 = "-"%string.


(** ** A program logic for the monad of effects

    [hoare P c Q R]: from a world where [P] holds, [c] returns a value and a
    world related by [Q], or stops with an abort and a world related by [R]. *)

Definition hoare {A} (P : world -> Prop) (c : M A)
  (Q : A -> world -> Prop) (R : abort -> world -> Prop) : Prop :=
  forall w, P w ->
    match c w with
    | (Ret a, w') => Q a w'
    | (Abort x, w') => R x w'
    end.


(** What a round of the loop does with the key of its node: it adopts the
    cached polynomial, computes a closed form and stores it, expands the
    node into children (nothing is stored yet), or combines the children
    and stores the result. *)
Inductive event :=
  | Adopted (k : key)
  | Computed (k : key)
  | Expanded (k : key)
  | Combined (k : key)
  | Other.

(** A completed round of [while stack]. *)
Record round := Round {
  r_before : cache_state;
  r_world : world;
  r_after : cache_state;
  r_world' : world
}.

Section Observers.

Variable canonical_label : Graph.t -> Graph.t.

Definition event_of (st : cache_state) (entry : bool * nat * com) (w : world)
  : event :=
  let '(firstseen, v, c) := entry in
  match DiGraph.get_vertex (cD st) v with
  | Some (VGraph l) =>
      match heap w !! l with
      | Some g =>
          let k := key_of canonical_label g in
          if negb firstseen then Other
          else match cache st !! k with
               | Some _ => Adopted k
               | None =>
                   if Graph.is_empty g then Computed k
                   else if Graph.has_loops g then Computed k
                   else if negb (Graph.is_connected g) then Expanded k
                   else if Nat.eqb (Graph.order g) (Graph.size g + 1) then Computed k
                   else Expanded k
               end
      | None => Other
      end
  | Some (VKey k) => if firstseen then Other else Combined k
  | _ => Other
  end.

(** The rounds that [cache_loop] completes, each with the state and the
    world in which its entry was popped and the ones that it left. *)
Fixpoint cache_rounds (fuel : nat) (st : cache_state) (w : world) : list round :=
  match stack st, fuel with
  | entry :: stk, S fuel' =>
      match cache_step canonical_label st entry stk w with
      | (Ret st', w') => Round st w st' w' :: cache_rounds fuel' st' w'
      | _ => []
      end
  | _, _ => []
  end.

(** The rounds of one call of [chromatic_polynomial_with_cache]. *)
Definition with_cache_rounds (fuel G : nat) (w : world) : list round :=
  match
    (let* g := read G in
     if Graph.is_empty g || Graph.has_loops g then ret None
     else
       let* G' := alloc (Graph.relabel g) in
       run modify G' Graph.remove_multiple_edges then
       ret (Some G')) w
  with
  | (Ret (Some G'), w') =>
      cache_rounds fuel
        (CState (DiGraph.set_vertex DiGraph.init1 0 (VGraph G')) ∅
                [(true, 0%nat, ("_"%string, []))]) w'
  | _ => []
  end.

(** The graph of the pending node that a round visits for the first time,
    and its key. *)
Definition node_graph (r : round) : option Graph.t :=
  match stack (r_before r) with
  | (true, v, _) :: _ =>
      match DiGraph.get_vertex (cD (r_before r)) v with
      | Some (VGraph l) => heap (r_world r) !! l
      | _ => None
      end
  | _ => None
  end.

Definition node_key (r : round) : option key :=
  option_map (key_of canonical_label) (node_graph r).

(** The round is the first visit of a pending node whose graph has the key
    [k]. *)
Definition visits (k : key) (r : round) : Prop := node_key r = Some k.

(** The round adopts the polynomial that the cache holds under [k]: the
    node gets this polynomial and nothing else happens.  The entry is
    popped and nothing is pushed; the cache, the other vertices of the
    digraph and the graph objects are what they were. *)
Definition adopts (k : key) (r : round) : Prop :=
  exists v c stk p,
    stack (r_before r) = (true, v, c) :: stk /\
    cache (r_before r) !! k = Some p /\
    r_after r
    = CState (DiGraph.set_vertex (cD (r_before r)) v (VPoly p)) (cache (r_before r)) stk /\
    r_world' r = r_world r.

Definition stored (k : key) (e : event) : bool :=
  match e with
  | Computed k' | Combined k' => bool_decide (k' = k)
  | _ => false
  end.

End Observers.

(** Two disjoint triangles, the disconnected graph of the tests. *)
Definition two_triangles : Graph.t :=
  Graph.mk [0; 1; 2; 3; 4; 5]%nat [(0, 1); (1, 2); (0, 2); (3, 4); (4, 5); (3, 5)]%nat.

(** Two vertices and no edge, [Graph(2)] of the tests of the source. *)
Definition two_points : Graph.t := Graph.mk [0; 1]%nat [].

(** The first [sig_check] meets a keyboard interrupt. *)
Definition interrupted_world (g : Graph.t) : world :=
  World {[ 0%nat := g ]} [] 0
        (fun n => match n with O => Some KeyboardInterrupt | S _ => None end).

(** ** Notions used to state the properties of the assembly *)

(** Pascal's triangle. *)
Fixpoint binom (n k : nat) : Z :=
  match k, n with
  | O, _ => 1
  | S _, O => 0
  | S k', S n' => binom n' k' + binom n' k
  end.

(** The sign [(-1)^k]. *)
Definition alt (k : nat) : Z := if Nat.even k then 1 else -1.

(** [k] rounds of the assembly loop from round [i] down: the state in
    which the loop reaches round [i - k]. *)
Fixpoint assemble_steps (tot : list Z) (i k : nat) (st : Z * list Z) : Z * list Z :=
  match k with
  | O => st
  | S k' => assemble_steps tot (i - 1) k' (assemble_body tot i st)
  end.

(** Between two histograms: the entries from [lo] to [hi] grew, the others
    did not change. *)
Definition bumped (lo hi : nat) (t t' : list Z) : Prop :=
  length t' = length t /\
  (forall j, (lo <= j <= hi)%nat -> nth j t 0 < nth j t' 0) /\
  (forall j, (j < lo \/ hi < j)%nat -> nth j t' 0 = nth j t 0).

(** ** Notions used to state that the caller's objects are left alone *)

(** Every graph object of [w0] is in [w] with the same value. *)
Definition frame (w0 w : world) : Prop :=
  forall l g, heap w0 !! l = Some g -> heap w !! l = Some g.

(** [keeps Inv c Q]: [c] maintains the invariant [Inv] of the world however it
    ends, and a value it returns satisfies [Q]. *)
Definition keeps {A} (Inv : world -> Prop) (c : M A) (Q : A -> Prop) : Prop :=
  hoare Inv c (fun a w => Inv w /\ Q a) (fun _ w => Inv w).

(** ** Notions used to reason about the graph operations *)

(** A walk from [u] to [v]: each step goes to a neighbour. *)
Inductive conn (g : Graph.t) (u : nat) : nat -> Prop :=
  | conn_refl : conn g u u
  | conn_step v x : conn g u v -> In x (Graph.neighbors g v) -> conn g u x.

(** The ends of the edges are vertices. *)
Definition closed_graph (g : Graph.t) : Prop :=
  forall e, In e (Graph.edges g) -> In e.1 (Graph.verts g) /\ In e.2 (Graph.verts g).

(** The measure that decreases along deletion, contraction and the passage
    to a component of a disconnected graph. *)
Definition graph_measure (g : Graph.t) : nat := (Graph.order g + Graph.size g)%nat.

(** The contraction as the cached algorithm makes it: put the edge back,
    merge its ends, drop the parallel edges. *)
Definition contract_edge (g : Graph.t) (u w : nat) : Graph.t :=
  Graph.remove_multiple_edges
    (Graph.merge_vertices (Graph.add_edge (Graph.delete_edge g u w) u w) u w).

(** ** Notions used to follow the loop of the cached algorithm *)

(** [n] rounds of the loop lead from one state to another. *)
Definition steps_to (canonical_label : Graph.t -> Graph.t) (n : nat)
  (st : cache_state) (w : world) (st' : cache_state) (w' : world) : Prop :=
  forall fuel,
    cache_loop canonical_label (n + fuel) st w = cache_loop canonical_label fuel st' w'.

(** The edges of the digraph join vertices, and only vertices carry objects. *)
Definition dwf (d : DiGraph.t) : Prop :=
  (forall e, In e (DiGraph.edges d) -> In e.1 (DiGraph.verts d) /\ In e.2 (DiGraph.verts d)) /\
  (forall x y, DiGraph.assoc d !! x = Some y -> In x (DiGraph.verts d)).

(** The digraph [d] after a node [v] got the children [wps], each with its
    polynomial. *)
Definition with_children (d : DiGraph.t) (v : nat) (wps : list (nat * Poly.poly))
  : DiGraph.t :=
  DiGraph.mk (DiGraph.verts d ++ map fst wps)
             (foldr (fun wp m => <[wp.1 := VPoly wp.2]> m) (DiGraph.assoc d) wps)
             (DiGraph.edges d ++ map (fun wp => (v, wp.1)) wps).

(** Every object of [w] is in [w'] with the same value. *)
Definition heap_ext (w w' : world) : Prop :=
  forall l g, heap w !! l = Some g -> heap w' !! l = Some g.

(** The same, but for the object at [l]. *)
Definition heap_frame (l : nat) (w w' : world) : Prop :=
  forall l' g, l' <> l -> heap w !! l' = Some g -> heap w' !! l' = Some g.

(** ** Proper colourings

    A colouring gives a colour to every vertex; the ones considered give
    the vertices of the list [vs] each a colour below [k] and agree with
    [f0] elsewhere.  It is proper for a list of edges when the two ends of
    every edge differ. *)

Definition upd (f : nat -> nat) (v c : nat) : nat -> nat :=
  fun x => if Nat.eqb x v then c else f x.

Fixpoint colorings (k : nat) (vs : list nat) (f0 : nat -> nat) : list (nat -> nat) :=
  match vs with
  | [] => [f0]
  | v :: vs' => flat_map (fun c => colorings k vs' (upd f0 v c)) (seq 0 k)
  end.

Definition proper (es : list (nat * nat)) (f : nat -> nat) : bool :=
  forallb (fun e => negb (Nat.eqb (f e.1) (f e.2))) es.

(** The number of proper colourings of [g] with [k] colours, by
    enumeration. *)
Definition count_colorings (g : Graph.t) (k : nat) : nat :=
  length (List.filter (proper (Graph.edges g))
                      (colorings k (Graph.verts g) (fun _ => 0%nat))).

(** The same count as a nested sum, with a weight in place of the test. *)
Fixpoint sumz (k : nat) (F : nat -> Z) : Z :=
  match k with
  | O => 0
  | S k' => sumz k' F + F k'
  end.

Fixpoint cntw (k : nat) (vs : list nat) (wt : (nat -> nat) -> Z) (f0 : nat -> nat) : Z :=
  match vs with
  | [] => wt f0
  | v :: vs' => sumz k (fun c => cntw k vs' wt (upd f0 v c))
  end.

Definition ind (b : (nat -> nat) -> bool) (f : nat -> nat) : Z := if b f then 1 else 0.

(** The colours below [k] that no vertex of [N] has under [f]. *)
Definition avail (k : nat) (N : list nat) (f : nat -> nat) : Z :=
  Z.of_nat (length (List.filter (fun c => forallb (fun y => negb (Nat.eqb c (f y))) N)
                                (seq 0 k))).

(** A weight that looks at the colouring only through its values. *)
Definition wt_ext (wt : (nat -> nat) -> Z) : Prop :=
  forall f f', (forall x, f x = f' x) -> wt f = wt f'.

(** The edges from [z] to the vertices of [N]. *)
Definition star (z : nat) (N : list nat) : list (nat * nat) := map (fun y => (z, y)) N.

(** An edge list does not touch the vertex [z]. *)
Definition avoids (es : list (nat * nat)) (z : nat) : Prop :=
  forall e, In e es -> e.1 <> z /\ e.2 <> z.

(** ** The spanning tree and its chords, as a graph on [0, ..., n - 1] *)

(** The tree edges of the vertices 1, ..., n - 1. *)
Definition tree_edges (parent : list nat) (n : nat) : list (nat * nat) :=
  map (fun i => (i, nth i parent 0%nat)) (seq 1 (n - 1)).

(** The number of proper colourings of the tree on [n] vertices with the
    chords [cs]. *)
Definition cnt_tc (k : nat) (parent : list nat) (n : nat) (cs : list chord) : Z :=
  cntw k (seq 0 n) (ind (proper (tree_edges parent n ++ cs))) (fun _ => 0%nat).

(** The parents of a breadth first search: below their vertex, and in the
    order of the vertices. *)
Definition parent_ok (parent : list nat) : Prop :=
  (forall i, (1 <= i < length parent)%nat -> (nth i parent 0 < i)%nat) /\
  (forall i j, (1 <= i <= j)%nat -> (j < length parent)%nat ->
     (nth i parent 0 <= nth j parent 0)%nat).

(** A chord goes from a vertex to a lower one that is above its parent. *)
Definition chord_ok (parent : list nat) (n : nat) (c : chord) : Prop :=
  (nth c.1 parent 0 < c.2)%nat /\ (c.2 < c.1)%nat /\ (c.1 < n)%nat.

Definition chords_ok (parent : list nat) (n : nat) (cs : list chord) : Prop :=
  (n <= length parent)%nat /\
  StronglySorted (fun c d => chord_gt c d = true) cs /\
  Forall (chord_ok parent n) cs.

(** The chords at the head of a list that start at [z], by their lower
    ends, and the chords after them. *)
Fixpoint group_of (z : nat) (rest : list chord) : list nat :=
  match rest with
  | (h, xj) :: r => if Nat.eqb h z then xj :: group_of z r else []
  | [] => []
  end.

Fixpoint after_group (z : nat) (rest : list chord) : list chord :=
  match rest with
  | (h, xj) :: r => if Nat.eqb h z then after_group z r else rest
  | [] => []
  end.

(** No interrupt is pending. *)
Definition quiet (w : world) : Prop := forall t, signals w t = None.

(** The number of colourings of a tree on [i] vertices, and the value that
    a histogram of tree sizes stands for: the tree of size [i] counts with
    the sign [(-1)^i]. *)
Definition tree_count (k i : nat) : Z :=
  Z.of_nat k * (Z.of_nat k - 1) ^ Z.of_nat (i - 1).

Definition hist_value (k : nat) (tot : list Z) : Z :=
  sumz (length tot) (fun i => nth i tot 0 * alt i * tree_count k i).

(** ** The state of the breadth first search *)

(** The vertex at a place of the queue, and the parent of a place. *)
Definition qv (st : bfs_state) (i : nat) : nat := nth i (queue st) 0%nat.
Definition pv (st : bfs_state) (i : nat) : nat := nth i (parent st) 0%nat.

(** The state while the vertex at the place [bot] of the queue is looked
    at, [done] being its neighbours already seen. *)
Record bfs_inv (g : Graph.t) (n bot : nat) (done : list nat) (st : bfs_state) : Prop := {
  inv_len_R : length (bfs_reorder st) = n;
  inv_len_P : length (parent st) = length (queue st);
  inv_bot : (bot < length (queue st))%nat;
  inv_root : qv st 0 = 0%nat;
  inv_R_in : forall i, (i < length (queue st))%nat ->
    bfs_reorder st !! qv st i = Some (Z.of_nat i) /\ (qv st i < n)%nat;
  inv_R_out : forall u, (u < n)%nat -> ~ In u (queue st) ->
    bfs_reorder st !! u = Some (-1);
  inv_par : forall i, (1 <= i < length (queue st))%nat ->
    (pv st i < i)%nat /\ (pv st i <= bot)%nat /\ (pv st i = bot -> In (qv st i) done);
  inv_mono : forall i j, (1 <= i <= j)%nat -> (j < length (queue st))%nat ->
    (pv st i <= pv st j)%nat;
  inv_sorted : StronglySorted (fun c d => chord_gt c d = true) (chords st);
  inv_chord : forall a b, In (a, b) (chords st) ->
    (pv st a < b)%nat /\ (b < a)%nat /\ (a < length (queue st))%nat /\ (b <= bot)%nat /\
    (b = bot -> In (qv st a) done);
  inv_fwd : forall j u,
    ((j < bot)%nat /\ In u (Graph.neighbors g (qv st j))) \/ (j = bot /\ In u done) ->
    exists i, (i < length (queue st))%nat /\ qv st i = u /\
              ((j < i)%nat -> pv st i = j \/ In (i, j) (chords st));
  inv_tree_edge : forall i, (1 <= i < length (queue st))%nat ->
    Graph.has_edge g (qv st i) (qv st (pv st i)) = true;
  inv_chord_edge : forall a b, In (a, b) (chords st) ->
    Graph.has_edge g (qv st a) (qv st b) = true
}.

(** [returns c w Q]: from the world [w] the computation [c] returns, with a
    value and a world that satisfy [Q]. *)
Definition returns {A} (c : M A) (w : world) (Q : A -> world -> Prop) : Prop :=
  match c w with
  | (Ret a, w') => Q a w'
  | (Abort _, _) => False
  end.

(** A step that returns and leaves the heap and the pending interrupts. *)
Definition simple (c : M unit) : Prop :=
  forall w, exists w', c w = (Ret tt, w') /\ signals w' = signals w /\ heap w' = heap w.

(** A coefficient list without zeros at its end, as the polynomial ring
    keeps them. *)
Definition normal (p : Poly.poly) : Prop := Poly.norm p = p.

(** No two edges of the list join the same vertices. *)
Fixpoint simpleb (es : list (nat * nat)) : bool :=
  match es with
  | [] => true
  | e :: r => negb (existsb (Graph.same_edge e) r) && simpleb r
  end.

(** The ends, other than [u], of the edges at [w]. *)
Definition others (es : list (nat * nat)) (u w : nat) : list nat :=
  flat_map (fun e =>
    if Nat.eqb e.1 w && negb (Nat.eqb e.2 u) && negb (Nat.eqb e.2 w) then [e.2]
    else if Nat.eqb e.2 w && negb (Nat.eqb e.1 u) && negb (Nat.eqb e.1 w) then [e.1]
    else []) es.

(** The edges that do not touch [w]. *)
Definition away (es : list (nat * nat)) (w : nat) : list (nat * nat) :=
  List.filter (fun e => negb (Nat.eqb e.1 w) && negb (Nat.eqb e.2 w)) es.

(** The graphs that the cached algorithm stores under a key: well formed,
    without loops and parallel edges, and with an edge unless they are a
    single vertex. *)
Definition admissible (g : Graph.t) : Prop :=
  Graph.wf g = true /\ Graph.has_loops g = false /\ simpleb (Graph.edges g) = true /\
  (1 <= Graph.order g)%nat /\ (Graph.size g = 0%nat -> Graph.order g = 1%nat).

(** The keys tell apart the graphs with different numbers of colourings. *)
Definition faithful (canonical_label : Graph.t -> Graph.t) : Prop :=
  forall g h, admissible g -> admissible h ->
    key_of canonical_label g = key_of canonical_label h ->
    forall k, count_colorings g k = count_colorings h k.

(** ** Notions of the proofs *)

(** What a step of the cached loop does to the cache: the stored keys stay,
    and the key that the step stores is there afterwards. *)
Definition cache_post (st : cache_state) (e : event) (st' : cache_state) : Prop :=
  (forall k, is_Some (cache st !! k) -> is_Some (cache st' !! k)) /\
  (forall k, stored k e = true -> is_Some (cache st' !! k)).

(** The graph objects that the digraph [D] refers to were made by the call. *)
Definition d_owned (w0 : world) (d : DiGraph.t) : Prop :=
  forall v l, DiGraph.get_vertex d v = Some (VGraph l) -> heap w0 !! l = None.

(** One round of the search for the vertices that a walk reaches. *)
Definition add_new (acc : list nat) (u : nat) : list nat :=
  if Graph.memb u acc then acc else acc ++ [u].

Definition expand (g : Graph.t) (seen : list nat) : list nat :=
  fold_left (fun acc v => fold_left add_new (Graph.neighbors g v) acc) seen seen.

(** A set of vertices that no edge leaves. *)
Definition closed_set (g : Graph.t) (S : list nat) : Prop :=
  forall x y, In x S -> In y (Graph.neighbors g x) -> In y S.

(** The graphs that the cached loop splits into components, and those it
    reduces by deleting and contracting the edge [(u, w)]. *)
Definition splits (g : Graph.t) : Prop :=
  Graph.is_empty g = false /\ Graph.has_loops g = false /\ Graph.is_connected g = false.

Definition reduces (g : Graph.t) (u w : nat) : Prop :=
  Graph.is_empty g = false /\ Graph.has_loops g = false /\ Graph.is_connected g = true /\
  Nat.eqb (Graph.order g) (Graph.size g + 1) = false /\
  exists r, Graph.bridges g ++ Graph.edges g = (u, w) :: r.

(** A pending node with a graph of measure below [n] gets resolved. *)
Definition resolves (canonical_label : Graph.t -> Graph.t) (adm : Graph.t -> Prop)
  (Q : Graph.t -> Poly.poly -> Prop) (P : gmap key Poly.poly -> Prop) (n : nat) : Prop :=
  forall g, (graph_measure g < n)%nat -> adm g ->
  forall d c v c0 rest w l,
    DiGraph.get_vertex d v = Some (VGraph l) -> heap w !! l = Some g ->
    dwf d -> In v (DiGraph.verts d) -> DiGraph.neighbor_out d v = [] -> P c ->
    exists n' p c' w',
      steps_to canonical_label n' (CState d c ((true, v, c0) :: rest)) w
               (CState (DiGraph.set_vertex d v (VPoly p)) c' rest) w' /\
      Q g p /\ P c' /\ heap_frame l w w'.

(** The digraph after the first visit of a node that is split by deletion
    and contraction. *)
Definition split_node (d : DiGraph.t) (v : nat) (k : key) (a b la l : nat) : DiGraph.t :=
  DiGraph.set_vertex
    (DiGraph.set_vertex
       (DiGraph.set_vertex
          (DiGraph.add_edge
             (DiGraph.add_edge
                (DiGraph.mk ((DiGraph.verts d ++ [a]) ++ [b]) (DiGraph.assoc d) (DiGraph.edges d))
                v a) v b)
          v (VKey k))
       a (VGraph la))
    b (VGraph l).

(** Two edge lists with the same edges, whatever their order, their
    orientation and their repetitions. *)
Definition same_edges (es es' : list (nat * nat)) : Prop :=
  (forall e, In e es -> exists e', In e' es' /\ Graph.same_edge e e' = true) /\
  (forall e, In e es' -> exists e', In e' es /\ Graph.same_edge e e' = true).

(** The chords after the contraction of the chord [(z, x1)], the first of
    the list. *)
Definition contracted (parent : list nat) (z x1 : nat) (rest : list chord) : list chord :=
  merge_chords (after_group z rest)
    (star x1 (group_of z rest) ++
     (if Nat.eqb (nth x1 parent 0%nat) (nth z parent 0%nat) then []
      else [(x1, nth z parent 0%nat)])).

(** What a call on [n] vertices does to the histogram. *)
Definition counts (parent : list nat) (n : nat) (cs : list chord) (tot : list Z) (w : world)
  (d : nat -> Z) : Prop :=
  exists tot' w',
    contract_and_count n cs parent tot w = (Ret tot', w') /\
    length tot' = length tot /\ quiet w' /\ nth 0 tot' 0 = nth 0 tot 0 /\
    forall k, hist_value k tot' = hist_value k tot + d k.

(** The state when the search ends: every place of the queue has been
    looked at. *)
Definition bfs_final (g : Graph.t) (n : nat) (st : bfs_state) : Prop :=
  exists b, bfs_inv g n b (Graph.neighbors g (qv st b)) st /\ S b = length (queue st).

(** The graph that the search runs on. *)
Definition prepared (g : Graph.t) : Graph.t :=
  Graph.remove_loops (Graph.remove_multiple_edges (Graph.relabel g)).

(** What is known of the polynomial of a node, and of the cache, when the
    cached algorithm counts the colourings. *)
Definition counts_for (g : Graph.t) (p : Poly.poly) : Prop :=
  normal p /\ forall k : nat, Poly.eval p (Z.of_nat k) = Z.of_nat (count_colorings g k).

Definition cache_counts (canonical_label : Graph.t -> Graph.t) (c : gmap key Poly.poly) : Prop :=
  forall k p, c !! k = Some p ->
    forall g, admissible g -> key_of canonical_label g = k -> counts_for g p.

(** A labelling that keeps the first [m] places and permutes the others. *)
Definition labels (m n : nat) (sigma : list nat) : Prop :=
  exists p, Permutation (seq m (n - m)) p /\ sigma = seq 0 m ++ p.

(** The cached algorithm returns [p] on the graph [g], in whatever world
    holds the graph, once its loop has enough rounds. *)
Definition cached_polynomial (canonical_label : Graph.t -> Graph.t) (g : Graph.t)
  (p : Poly.poly) : Prop :=
  forall l w, heap w !! l = Some g ->
    exists n, forall steps, (n <= steps)%nat ->
      exists w', chromatic_polynomial_with_cache canonical_label steps l w = (Ret p, w').

(** ** Notions used to follow the rounds of the cached algorithm *)

Section Traces.

Variable canonical_label : Graph.t -> Graph.t.

(** The rounds [T], one after the other, lead the loop from one state to
    another. *)
Inductive runs : list round -> cache_state -> world -> cache_state -> world -> Prop :=
  | runs_nil st w : runs [] st w st w
  | runs_cons st w entry stk st1 w1 T st' w' :
      stack st = entry :: stk ->
      cache_step canonical_label st entry stk w = (Ret st1, w1) ->
      runs T st1 w1 st' w' ->
      runs (Round st w st1 w1 :: T) st w st' w'.

(** The record of a round that the loop made. *)
Definition is_round (r : round) : Prop :=
  exists entry stk,
    stack (r_before r) = entry :: stk /\
    cache_step canonical_label (r_before r) entry stk (r_world r)
    = (Ret (r_after r), r_world' r).

(** The later of two visits of the same key finds the key in the cache. *)
Definition later_hit (r1 r2 : round) : Prop :=
  forall k, visits canonical_label k r1 -> visits canonical_label k r2 ->
    is_Some (cache (r_before r2) !! k).

(** A stretch of rounds that starts with the cache [c] and ends with the
    cache [c']: the cache only grows, every key that was visited is in the
    cache at the end, and the later of two visits of a key finds it
    there. *)
Definition seg_ok (c : gmap key Poly.poly) (T : list round) (c' : gmap key Poly.poly)
  : Prop :=
  (forall k, is_Some (c !! k) -> is_Some (c' !! k)) /\
  Forall (fun r => forall k, is_Some (c !! k) -> is_Some (cache (r_before r) !! k)) T /\
  (forall r k, In r T -> visits canonical_label k r -> is_Some (c' !! k)) /\
  ForallOrdPairs later_hit T.

End Traces.

(** The graph [h] has fewer vertices than [g], or as many and more
    colourings with that many colours: what deletion, contraction and the
    passage to a component make of [g]. *)
Definition below (h g : Graph.t) : Prop :=
  (Graph.order h < Graph.order g)%nat \/
  (Graph.order h = Graph.order g /\
   (count_colorings g (Graph.order g) < count_colorings h (Graph.order g))%nat).

(** The nodes that the rounds [T] visit hold admissible graphs that
    satisfy [P]. *)
Definition visits_within (P : Graph.t -> Prop) (T : list round) : Prop :=
  Forall (fun r => forall h, node_graph r = Some h -> admissible h /\ P h) T.

(** A pending node with an admissible graph of measure below [n] gets
    resolved, by a stretch of rounds whose visits, after the first one, are
    visits of graphs below the graph of the node. *)
Definition resolves_traced (canonical_label : Graph.t -> Graph.t) (n : nat) : Prop :=
  forall g, (graph_measure g < n)%nat -> admissible g ->
  forall d c v c0 rest w l,
    DiGraph.get_vertex d v = Some (VGraph l) -> heap w !! l = Some g ->
    dwf d -> In v (DiGraph.verts d) -> DiGraph.neighbor_out d v = [] ->
    exists st1 w1 T p c' w',
      runs canonical_label (Round (CState d c ((true, v, c0) :: rest)) w st1 w1 :: T)
           (CState d c ((true, v, c0) :: rest)) w
           (CState (DiGraph.set_vertex d v (VPoly p)) c' rest) w' /\
      heap_frame l w w' /\
      seg_ok canonical_label c
             (Round (CState d c ((true, v, c0) :: rest)) w st1 w1 :: T) c' /\
      visits_within (fun h => below h g) T.


(** ** Further inputs of the examples *)

(** The square with a diagonal: four vertices, five edges. *)
Definition square_diag : Graph.t :=
  Graph.mk [0; 1; 2; 3]%nat [(0, 1); (1, 2); (2, 3); (3, 0); (0, 2)]%nat.

(** What the breadth first search leaves on the square with a diagonal. *)
Definition square_diag_bfs : bfs_state :=
  Bfs [0; 1; 2; 3] [0; 1; 2; 3]%nat [0; 0; 0; 0]%nat [(3, 2); (2, 1)]%nat.

(** ** Further notions used to state what the loops compute *)

(** The number of nonzero entries of the histogram at the sizes from [lo]
    to [hi]. *)
Definition nonzeros (tot : list Z) (lo hi : nat) : nat :=
  length (List.filter (fun j => negb (nth j tot 0 =? 0)) (seq lo (S hi - lo))).

(** The dividend and the divisor of every [mpz_divexact_ui] that the loop
    [for j from 1 <= j < i] makes, [steps] rounds from [j] on. *)
Fixpoint binomial_divisions (m : Z) (i j steps : nat) (coeff : Z) : list (Z * Z) :=
  match steps with
  | O => []
  | S steps' =>
      let c1 := coeff * (Z.of_nat j - Z.of_nat i) in
      let c2 := c1 / Z.of_nat j in
      let c3 := c2 * m in
      let c4 := c3 * m in
      (c1, Z.of_nat j) :: binomial_divisions m i (S j) steps' c4
  end.

(** A polynomial of degree [n] with the leading coefficient 1. *)
Definition monic (p : Poly.poly) (n : nat) : Prop :=
  Poly.coeff p n = 1 /\ forall d, (n < d)%nat -> Poly.coeff p d = 0.

(** ** Further notions used to state what a call leaves behind *)

(** Every [mpz_t] cell that is initialised and not yet cleared is one of
    the cells [S]. *)
Definition cells (S : mpz -> Prop) (w : world) : Prop :=
  forall c, In c (live w) -> S c.

(** ** Further inputs of the examples *)

(** The triangle under other names, with its vertices and edges in another
    order and one edge twice. *)
Definition K3_renamed : Graph.t :=
  Graph.mk [9; 5; 7]%nat [(7, 5); (9, 7); (5, 9); (5, 7)]%nat.

(** The state in which [chromatic_polynomial_with_cache] enters its loop,
    the graph object being at the location [l]. *)
Definition root_digraph (l : nat) : DiGraph.t :=
  DiGraph.set_vertex DiGraph.init1 0 (VGraph l).

Definition root_state (l : nat) (c : gmap key Poly.poly) : cache_state :=
  CState (root_digraph l) c [(true, 0%nat, ("_"%string, []))].

(** What a computation returns, or [a] when it does not return. *)
Definition returned {A} (r : outcome A * world) (a : A) : A :=
  match fst r with Ret x => x | Abort _ => a end.

(** The abort is an exception that a [sig_check] met: one of the pending
    interrupts [sigma]. *)
Definition interrupt_of (sigma : nat -> option exn) (x : abort) : Prop :=
  exists e t, x = Raise e /\ sigma t = Some e.


(** * Properties *)

Lemma hoare_ret {A} (a : A) (Q : A -> world -> Prop) R :
  hoare (Q a) (ret a) Q R.
Proof. intros w H. exact H. Qed.

Lemma hoare_bind {A B} P (c : M A) (k : A -> M B) Q1 Q R :
  hoare P c Q1 R ->
  (forall a, hoare (Q1 a) (k a) Q R) ->
  hoare P (bind c k) Q R.
Proof.
  intros Hc Hk w HP. unfold bind. specialize (Hc w HP).
  destruct (c w) as [[a|x] w']; [exact (Hk a w' Hc) | exact Hc].
Qed.

Lemma hoare_conseq {A} (P P' : world -> Prop) (c : M A)
  (Q Q' : A -> world -> Prop) (R R' : abort -> world -> Prop) :
  hoare P' c Q' R' ->
  (forall w, P w -> P' w) ->
  (forall a w, Q' a w -> Q a w) ->
  (forall x w, R' x w -> R x w) ->
  hoare P c Q R.
Proof.
  intros H HP HQ HR w Hw. specialize (H w (HP w Hw)).
  destruct (c w) as [[a|x] w']; auto.
Qed.

Lemma hoare_pre {A} (P : world -> Prop) (c : M A) Q R :
  (forall w, P w -> hoare (fun w' => w' = w) c Q R) -> hoare P c Q R.
Proof. intros H w Hw. exact (H w Hw w eq_refl). Qed.

Lemma hoare_abort {A} (x : abort) (P : world -> Prop) (Q : A -> world -> Prop)
  (R : abort -> world -> Prop) :
  (forall w, P w -> R x w) -> hoare P (fun w => (Abort x, w)) Q R.
Proof. intros H w Hw. exact (H w Hw). Qed.

Lemma hoare_of_option {A} (o : option A) (P : world -> Prop) Q R :
  (forall a w, o = Some a -> P w -> Q a w) ->
  (forall w, o = None -> P w -> R Undefined w) ->
  hoare P (of_option o) Q R.
Proof. intros HS HN w Hw. destruct o; simpl; auto. Qed.

Lemma hoare_mapM {A B} (I : world -> Prop) (f : A -> M B) (l : list A)
  (Qe : B -> Prop) R :
  (forall a, hoare I (f a) (fun b w => Qe b /\ I w) R) ->
  hoare I (mapM f l) (fun bs w => Forall Qe bs /\ I w) R.
Proof.
  intros Hf. induction l as [|a l IH]; simpl.
  - intros w Hw. simpl. auto.
  - eapply hoare_bind; [apply Hf|]. intros b. simpl.
    apply hoare_pre. intros w [Hb Hw].
    eapply hoare_bind.
    + eapply hoare_conseq; [apply IH | intros ? ?; subst; exact Hw | | intros x w1 H; exact H].
      intros bs w' H. exact (conj Hb H).
    + intros bs w' [Hb' [Hbs Hw']]. simpl. split; [constructor|]; assumption.
Qed.

Lemma hoare_for_each {A} (I : world -> Prop) (f : A -> M unit) (l : list A) R :
  (forall a, hoare I (f a) (fun _ w => I w) R) ->
  hoare I (for_each f l) (fun _ w => I w) R.
Proof.
  intros Hf. induction l as [|a l IH]; simpl.
  - intros w Hw. exact Hw.
  - eapply hoare_bind; [apply Hf|]. intros u. exact IH.
Qed.

(** ** Rejection of an unknown algorithm *)

Section Properties.

Variable canonical_label : Graph.t -> Graph.t.

(** C8. For every [algorithm] whose lower-case form is neither [c] nor
    [python], [chromatic_polynomial] raises the ValueError of the algorithm
    check, whatever the graph, and the world it leaves is the world it was
    called in: nothing was computed, allocated or changed. *)
Theorem chromatic_polynomial_rejects_unknown_algorithm
  (depth steps G : nat) (algorithm : string) (w : world) :
  lower algorithm <> "c"%string ->
  lower algorithm <> "python"%string ->
  chromatic_polynomial canonical_label depth steps G algorithm w
  = (Abort (Raise ValueError_algorithm), w).
Proof.
  intros Hc Hp.
  apply String.eqb_neq in Hc, Hp.
  destruct depth; simpl; rewrite Hc, Hp; reflexivity.
Qed.

End Properties.

Lemma chromatic_polynomial_rejects_unknown_algorithm_witness :
  chromatic_polynomial Canon.canonical_label 1 10 0 "Foo" (caller_world K3)
  = (Abort (Raise ValueError_algorithm), caller_world K3).
Proof.
  apply (chromatic_polynomial_rejects_unknown_algorithm
           Canon.canonical_label 1 10 0 "Foo" (caller_world K3));
    vm_compute; discriminate.
Defined.

(** ** The stack of the cached algorithm holds only entries it can handle *)

Section StackShape.

Variable canonical_label : Graph.t -> Graph.t.

Let anyw : world -> Prop := fun _ => True.
Let ns : abort -> world -> Prop := fun x _ => x <> Raise ValueError_something.
Let stack_ok : cache_state -> world -> Prop :=
  fun st _ => Forall entry_ok (stack st).

Lemma read_ns l : hoare anyw (read l) (fun _ => anyw) ns.
Proof. intros w _. unfold read. destruct (heap w !! l); simpl; [exact I|discriminate]. Qed.

Lemma modify_ns l f : hoare anyw (modify l f) (fun _ => anyw) ns.
Proof. intros w _. unfold modify. destruct (heap w !! l); simpl; [exact I|discriminate]. Qed.

Lemma alloc_ns g : hoare anyw (alloc g) (fun _ => anyw) ns.
Proof. intros w _. exact I. Qed.

Lemma get_key_ns d v : hoare anyw (get_key d v) (fun _ => anyw) ns.
Proof.
  intros w _. unfold get_key.
  destruct (DiGraph.get_vertex d v) as [[]|]; simpl; first [exact I|discriminate].
Qed.

Lemma get_poly_ns d v : hoare anyw (get_poly d v) (fun _ => anyw) ns.
Proof.
  intros w _. unfold get_poly.
  destruct (DiGraph.get_vertex d v) as [[]|]; simpl; first [exact I|discriminate].
Qed.

Lemma mapM_ns {A B} (f : A -> M B) l :
  (forall a, hoare anyw (f a) (fun _ => anyw) ns) ->
  hoare anyw (mapM f l) (fun _ => anyw) ns.
Proof.
  intros Hf.
  eapply hoare_conseq;
    [apply (hoare_mapM anyw f l (fun _ => True) ns) | auto | intros; exact I | auto].
  intros a. eapply hoare_conseq; [apply Hf | auto | intros; split; exact I | auto].
Qed.

Lemma spawn_components_stack v hs d stk :
  Forall entry_ok stk ->
  hoare anyw (spawn_components v hs d stk)
        (fun r _ => Forall entry_ok (snd r)) ns.
Proof.
  revert d stk. induction hs as [|h hs IH]; intros d stk Hs; simpl.
  - intros w _. exact Hs.
  - eapply hoare_bind; [apply alloc_ns|]. intros l.
    destruct (DiGraph.add_vertex d) as [w1 d1]. apply IH.
    constructor; [left; reflexivity | exact Hs].
Qed.

Lemma first_visit_stack st v stk :
  Forall entry_ok stk ->
  hoare anyw (first_visit canonical_label st v stk) stack_ok ns.
Proof.
  intros Hs. unfold first_visit.
  destruct (DiGraph.get_vertex (cD st) v) as [[l|k|p]|];
    try (intros w _; simpl; discriminate).
  eapply hoare_bind; [apply read_ns|]. intros g.
  destruct (cache st !! key_of canonical_label g); [intros w _; exact Hs|].
  destruct (Graph.is_empty g); [intros w _; exact Hs|].
  destruct (Graph.has_loops g); [intros w _; exact Hs|].
  destruct (negb (Graph.is_connected g)).
  { eapply hoare_bind.
    - apply spawn_components_stack.
      constructor; [right; left; reflexivity | exact Hs].
    - intros [d2 stk2] w H. exact H. }
  destruct (Nat.eqb _ _); [intros w _; exact Hs|].
  destruct (DiGraph.add_vertex (cD st)) as [a d1].
  destruct (DiGraph.add_vertex d1) as [b d2].
  destruct (Graph.bridges g ++ Graph.edges g) as [|[u w1] ?];
    [intros w _; simpl; discriminate|].
  eapply hoare_bind; [apply modify_ns|]. intros _u1.
  eapply hoare_bind; [apply read_ns|]. intros g1.
  eapply hoare_bind; [apply alloc_ns|]. intros la.
  eapply hoare_bind; [apply modify_ns|]. intros _u2.
  eapply hoare_bind; [apply modify_ns|]. intros _u3.
  eapply hoare_bind; [apply modify_ns|]. intros _u4.
  intros w _. unfold stack_ok. simpl.
  constructor; [left; reflexivity|].
  constructor; [left; reflexivity|].
  constructor; [right; right; reflexivity | exact Hs].
Qed.

Lemma cache_step_stack st entry stk :
  entry_ok entry -> Forall entry_ok stk ->
  hoare anyw (cache_step canonical_label st entry stk) stack_ok ns.
Proof.
  intros He Hs. destruct entry as [[firstseen v] c]. unfold cache_step.
  destruct firstseen; [apply first_visit_stack; exact Hs|].
  destruct (String.eqb (fst c) "*") eqn:E1.
  { eapply hoare_bind; [apply get_key_ns|]. intros k.
    eapply hoare_bind; [apply mapM_ns; intros; apply get_poly_ns|]. intros ps.
    intros w _. exact Hs. }
  destruct (String.eqb (fst c) "-") eqn:E2.
  { eapply hoare_bind; [apply get_key_ns|]. intros k.
    destruct (snd c) as [|a [|b r]]; try (intros w _; simpl; discriminate).
    eapply hoare_bind; [apply get_poly_ns|]. intros pa.
    eapply hoare_bind; [apply get_poly_ns|]. intros pb.
    intros w _. exact Hs. }
  exfalso. apply String.eqb_neq in E1, E2.
  destruct He as [H|[H|H]]; simpl in H; congruence.
Qed.

Lemma cache_loop_stack fuel st :
  Forall entry_ok (stack st) ->
  hoare anyw (cache_loop canonical_label fuel st) stack_ok ns.
Proof.
  revert st. induction fuel as [|fuel IH]; intros st Hs; simpl.
  - destruct (stack st) eqn:E; intros w _; simpl; [|discriminate].
    unfold stack_ok. rewrite E. constructor.
  - destruct (stack st) as [|entry stk] eqn:E.
    + intros w _. unfold stack_ok. simpl. rewrite E. constructor.
    + inversion Hs; subst.
      eapply hoare_bind; [apply cache_step_stack; assumption|].
      intros st' w H. apply IH; [exact H | exact I].
Qed.

(** C10. Whatever the graph, the fuel and the world,
    [chromatic_polynomial_with_cache] never raises the ValueError of the
    final [else] branch of its loop: every entry of its stack is a first
    visit or carries the tag of a product or of a difference. *)
Theorem with_cache_never_goes_wrong (fuel G : nat) (w : world) :
  fst (chromatic_polynomial_with_cache canonical_label fuel G w)
  <> Abort (Raise ValueError_something).
Proof.
  assert (H : hoare anyw (chromatic_polynomial_with_cache canonical_label fuel G)
                    (fun _ => anyw) ns).
  { unfold chromatic_polynomial_with_cache.
    eapply hoare_bind; [apply read_ns|]. intros g.
    destruct (Graph.is_empty g); [intros ? _; exact I|].
    destruct (Graph.has_loops g); [intros ? _; exact I|].
    eapply hoare_bind; [apply alloc_ns|]. intros G'.
    eapply hoare_bind; [apply modify_ns|]. intros _u.
    eapply hoare_bind.
    - eapply hoare_conseq;
        [apply cache_loop_stack | auto | intros; exact I | auto].
      simpl. constructor; [left; reflexivity | constructor].
    - intros st. apply get_poly_ns. }
  specialize (H w I).
  destruct (chromatic_polynomial_with_cache canonical_label fuel G w) as [[p|x] w'];
    simpl; [discriminate|]. intros E. injection E as ->. exact (H eq_refl).
Qed.

End StackShape.

(** ** Disconnected graphs, interrupts, and the reuse of cached keys *)

Lemma is_connected_false_nonempty g :
  Graph.is_connected g = false -> Graph.is_empty g = false.
Proof.
  unfold Graph.is_connected, Graph.is_empty, Graph.order.
  destruct (Graph.verts g); [discriminate | reflexivity].
Qed.

(** On a graph without loops that is not connected, the default algorithm
    makes the component subgraphs, calls itself on each in turn and
    multiplies the results. *)
Lemma default_splits
  (canonical_label : Graph.t -> Graph.t) (depth steps G : nat) (w : world)
  (g : Graph.t) :
  heap w !! G = Some g ->
  Graph.has_loops g = false ->
  Graph.is_connected g = false ->
  chromatic_polynomial canonical_label (S depth) steps G "C" w
  = (let* hs := mapM alloc (Graph.connected_components_subgraphs g) in
     let* ps := mapM (fun h => chromatic_polynomial canonical_label depth steps h "C") hs in
     ret (Poly.prod ps)) w.
Proof.
  intros HG Hl Hc. pose proof (is_connected_false_nonempty g Hc) as He.
  cbn [chromatic_polynomial]. change (lower "C") with "c"%string. cbn [existsb String.eqb Ascii.eqb Bool.eqb negb orb andb].
  unfold bind at 1, read. rewrite HG, He, Hl, Hc. reflexivity.
Qed.

(** The two triangles of the spec: each component gives
    [x^3 - 3 x^2 + 2 x], the graph gives the square of it. *)
Example two_triangles_product :
  fst (chromatic_polynomial Canon.canonical_label 1 10 0 "C" (caller_world two_triangles))
  = Ret (Poly.mul [0; 2; -3; 1] [0; 2; -3; 1]).
Proof. vm_compute. reflexivity. Qed.

(** C4 (what the code does). A keyboard interrupt met by the first
    [sig_check] of [contract_and_count] on the triangle is raised again
    unchanged, and of the four histogram entries [tot[0..3]] that were
    initialised, the handler clears three: [tot[3]] stays initialised. *)
Theorem interrupt_leaves_last_histogram_entry :
  exists w',
    chromatic_polynomial Canon.canonical_label 1 10 0 "C" (interrupted_world K3)
    = (Abort (Raise KeyboardInterrupt), w')
    /\ live w' = [Tot 3].
Proof. eexists. split; vm_compute; reflexivity. Qed.

Lemma bind_ret_inv {A B} (c : M A) (k : A -> M B) w b w' :
  bind c k w = (Ret b, w') ->
  exists a w1, c w = (Ret a, w1) /\ k a w1 = (Ret b, w').
Proof.
  unfold bind. destruct (c w) as [[a|x] w1]; [eauto | discriminate].
Qed.

Ltac inv_bind H :=
  repeat (apply bind_ret_inv in H; destruct H as (? & ? & ? & H)).

Lemma get_key_ret d v w k w' :
  get_key d v w = (Ret k, w') -> DiGraph.get_vertex d v = Some (VKey k).
Proof.
  unfold get_key. destruct (DiGraph.get_vertex d v) as [[]|]; try discriminate.
  unfold ret. congruence.
Qed.

Section CacheReuse.

Variable canonical_label : Graph.t -> Graph.t.

Lemma stored_is_key k e :
  stored k e = true -> e = Computed k \/ e = Combined k.
Proof.
  destruct e; simpl; try discriminate; intros H;
    apply bool_decide_eq_true in H; subst; auto.
Qed.

Lemma cache_post_same st e st' :
  cache st' = cache st -> (forall k, stored k e = false) -> cache_post st e st'.
Proof.
  intros E H. split; intros k Hk; [rewrite E; exact Hk|].
  rewrite H in Hk. discriminate.
Qed.

Lemma cache_post_insert st e st' k p :
  cache st' = <[k := p]> (cache st) ->
  (forall k', stored k' e = true -> k' = k) ->
  cache_post st e st'.
Proof.
  intros E H. split; intros k' Hk; rewrite E.
  - destruct (decide (k = k')) as [->|Hne];
      [rewrite lookup_insert_eq; eauto | rewrite lookup_insert_ne by exact Hne; exact Hk].
  - rewrite (H k' Hk), lookup_insert_eq. eauto.
Qed.

Lemma stored_computed k k' : stored k' (Computed k) = true -> k' = k.
Proof. simpl. intros H. apply bool_decide_eq_true in H. congruence. Qed.

Lemma cache_step_cache st entry stk w st' w' :
  cache_step canonical_label st entry stk w = (Ret st', w') ->
  cache_post st (event_of canonical_label st entry w) st'.
Proof.
  destruct entry as [[firstseen v] c]. unfold cache_step, event_of.
  destruct firstseen; simpl negb; cbv iota.
  - unfold first_visit.
    destruct (DiGraph.get_vertex (cD st) v) as [[l|k0|p]|]; try discriminate.
    unfold bind at 1, read.
    destruct (heap w !! l) as [g|]; [|discriminate].
    destruct (cache st !! key_of canonical_label g) eqn:Ek.
    { intros H. injection H as <- _. apply cache_post_same; [reflexivity|]. reflexivity. }
    destruct (Graph.is_empty g).
    { intros H. injection H as <- _.
      eapply cache_post_insert; [reflexivity | apply stored_computed]. }
    destruct (Graph.has_loops g).
    { intros H. injection H as <- _.
      eapply cache_post_insert; [reflexivity | apply stored_computed]. }
    destruct (negb (Graph.is_connected g)).
    { intros H. inv_bind H. destruct x as [d2 stk2]. injection H as <- _.
      apply cache_post_same; reflexivity. }
    destruct (Nat.eqb _ _).
    { intros H. injection H as <- _.
      eapply cache_post_insert; [reflexivity | apply stored_computed]. }
    destruct (DiGraph.add_vertex (cD st)) as [a d1].
    destruct (DiGraph.add_vertex d1) as [b d2].
    destruct (Graph.bridges g ++ Graph.edges g) as [|[u w1] ?]; [discriminate|].
    intros H. inv_bind H. injection H as <- _.
    apply cache_post_same; reflexivity.
  - destruct (String.eqb (fst c) "*").
    { intros H. inv_bind H. injection H as <- _.
      match goal with H : get_key _ _ _ = _ |- _ => apply get_key_ret in H; rewrite H end.
      eapply cache_post_insert; [reflexivity|].
      simpl. intros k' Hk. apply bool_decide_eq_true in Hk. congruence. }
    destruct (String.eqb (fst c) "-"); [|discriminate].
    intros H. inv_bind H.
    destruct (snd c) as [|a [|b r]]; try discriminate.
    inv_bind H. injection H as <- _.
    match goal with H : get_key _ _ _ = _ |- _ => apply get_key_ret in H; rewrite H end.
    eapply cache_post_insert; [reflexivity|].
    simpl. intros k' Hk. apply bool_decide_eq_true in Hk. congruence.
Qed.

End CacheReuse.

(** ** Coefficients of the polynomials *)

Module PolyFacts.
Import Poly.

Lemma coeff_nil d : coeff [] d = 0.
Proof. unfold coeff. destruct d; reflexivity. Qed.

Lemma coeff_cons a p d :
  coeff (a :: p) d = match d with O => a | S d' => coeff p d' end.
Proof. unfold coeff. destruct d; reflexivity. Qed.

Lemma coeff_norm p d : coeff (norm p) d = coeff p d.
Proof.
  revert d. induction p as [|a p IH]; intros d; [reflexivity|].
  simpl. destruct (norm p) as [|b q] eqn:E.
  - destruct (Z.eqb_spec a 0) as [->|Hne].
    + rewrite coeff_nil, coeff_cons. destruct d; [reflexivity|].
      rewrite <- IH, coeff_nil. reflexivity.
    + rewrite !coeff_cons. destruct d; [reflexivity|].
      rewrite <- IH, !coeff_nil. reflexivity.
  - rewrite !coeff_cons. destruct d; [reflexivity | apply IH].
Qed.

Lemma coeff_add_raw p q d : coeff (add_raw p q) d = coeff p d + coeff q d.
Proof.
  revert q d. induction p as [|a p IH]; intros q d; simpl.
  - rewrite coeff_nil. lia.
  - destruct q as [|b q]; [rewrite coeff_nil; lia|].
    rewrite !coeff_cons. destruct d; [reflexivity | apply IH].
Qed.

Lemma coeff_scale_raw c p d : coeff (scale_raw c p) d = c * coeff p d.
Proof.
  revert d. induction p as [|a p IH]; intros d; simpl.
  - rewrite coeff_nil. lia.
  - rewrite !coeff_cons. destruct d; [reflexivity | apply IH].
Qed.

Lemma coeff_scale c p d : coeff (scale c p) d = c * coeff p d.
Proof. unfold scale. rewrite coeff_norm. apply coeff_scale_raw. Qed.

Lemma coeff_sub p q d : coeff (sub p q) d = coeff p d - coeff q d.
Proof. unfold sub. rewrite coeff_norm, coeff_add_raw, coeff_scale_raw. lia. Qed.

Lemma coeff_mul_raw_0 p q : coeff (mul_raw p q) 0 = coeff p 0 * coeff q 0.
Proof.
  destruct p as [|a p]; simpl; [rewrite coeff_nil; lia|].
  rewrite coeff_add_raw, coeff_scale_raw, !coeff_cons. lia.
Qed.

Lemma coeff_mul_0 p q : coeff (mul p q) 0 = coeff p 0 * coeff q 0.
Proof. unfold mul. rewrite coeff_norm. apply coeff_mul_raw_0. Qed.

(** Multiplication by [x] shifts the coefficients. *)
Lemma coeff_mul_gen p d :
  coeff (mul gen p) d = match d with O => 0 | S d' => coeff p d' end.
Proof.
  unfold mul, gen. rewrite coeff_norm. simpl.
  rewrite coeff_add_raw, coeff_scale_raw, coeff_cons.
  destruct d; [lia|].
  rewrite coeff_add_raw, coeff_scale_raw, coeff_cons.
  destruct d; rewrite ?coeff_nil; lia.
Qed.

(** Multiplication by [x - 1]. *)
Lemma coeff_mul_xm1 p d :
  coeff (mul (sub gen one) p) d
  = match d with O => 0 | S d' => coeff p d' end - coeff p d.
Proof.
  change (sub gen one) with [-1; 1].
  unfold mul. rewrite coeff_norm. simpl.
  rewrite coeff_add_raw, coeff_scale_raw, coeff_cons.
  destruct d; [lia|].
  rewrite coeff_add_raw, coeff_scale_raw, coeff_cons.
  destruct d; rewrite ?coeff_nil; lia.
Qed.

Lemma alt_S k : alt (S k) = - alt k.
Proof.
  unfold alt. rewrite Nat.even_succ, <- Nat.negb_even.
  destruct (Nat.even k); reflexivity.
Qed.

Lemma alt_sq k : alt k * alt k = 1.
Proof. unfold alt. destruct (Nat.even k); reflexivity. Qed.

Lemma alt_pow k : alt k = (-1) ^ Z.of_nat k.
Proof.
  induction k as [|k IH]; [reflexivity|].
  rewrite alt_S, IH, Nat2Z.inj_succ, Z.pow_succ_r by lia. lia.
Qed.

Lemma binom_0_r n : binom n 0 = 1.
Proof. destruct n; reflexivity. Qed.

Lemma binom_gt n : forall k, (n < k)%nat -> binom n k = 0.
Proof.
  induction n as [|n IH]; intros [|k] H; try lia; try reflexivity.
  simpl. rewrite !IH by lia. reflexivity.
Qed.

Lemma binom_diag n : binom n n = 1.
Proof.
  induction n as [|n IH]; [reflexivity|].
  simpl. rewrite IH, binom_gt by lia. reflexivity.
Qed.

(** The identity behind the iterative computation of the binomial
    coefficients: [(k + 1) C(n, k + 1) = (n - k) C(n, k)]. *)
Lemma binom_step n : forall k,
  Z.of_nat (S k) * binom n (S k) = (Z.of_nat n - Z.of_nat k) * binom n k.
Proof.
  induction n as [|n IH]; intros k.
  - destruct k; simpl; lia.
  - destruct k as [|k].
    + specialize (IH 0%nat). simpl in *. rewrite binom_0_r in *. lia.
    + pose proof (IH k) as H1. pose proof (IH (S k)) as H2.
      change (binom (S n) (S (S k))) with (binom n (S k) + binom n (S (S k))).
      change (binom (S n) (S k)) with (binom n k + binom n (S k)).
      rewrite !Nat2Z.inj_succ in *. nia.
Qed.

(** The coefficients of [(x - 1)^n], from the leading one down. *)
Lemma coeff_pow_xm1_high n : forall d, (n < d)%nat -> coeff (pow (sub gen one) n) d = 0.
Proof.
  induction n as [|n IH]; intros d H; simpl.
  - destruct d as [|[|d]]; try lia; reflexivity.
  - rewrite coeff_mul_xm1. destruct d; [lia|]. rewrite !IH by lia. reflexivity.
Qed.

Lemma coeff_pow_xm1 n : forall t, (t <= n)%nat ->
  coeff (pow (sub gen one) n) (n - t) = alt t * binom n t.
Proof.
  induction n as [|n IH]; intros t H.
  - assert (t = 0%nat) as -> by lia. reflexivity.
  - cbn [pow]. rewrite coeff_mul_xm1.
    destruct t as [|t].
    + rewrite Nat.sub_0_r. rewrite (coeff_pow_xm1_high n (S n)) by lia.
      replace n with (n - 0)%nat at 2 by lia. rewrite IH by lia.
      rewrite !binom_0_r. reflexivity.
    + replace (S n - S t)%nat with (n - t)%nat by lia.
      destruct (n - t)%nat as [|e] eqn:E.
      * assert (t = n) by lia. subst t.
        replace 0%nat with (n - n)%nat at 1 by lia. rewrite IH by lia.
        rewrite binom_diag. simpl. rewrite binom_diag, binom_gt by lia.
        rewrite alt_S. lia.
      * replace e with (n - S t)%nat by lia. rewrite IH by lia.
        replace (S (n - S t)) with (n - t)%nat by lia. rewrite IH by lia.
        simpl binom. rewrite alt_S. lia.
Qed.

(** The coefficients of [x (x - 1)^(i - 1)]. *)
Lemma coeff_tree_poly i d :
  (1 <= i)%nat ->
  coeff (tree_poly i) d
  = if (Nat.leb 1 d && Nat.leb d i)%bool then alt (i - d) * binom (i - 1) (i - d) else 0.
Proof.
  intros Hi. unfold tree_poly. rewrite coeff_mul_gen.
  destruct d as [|d]; [reflexivity|].
  change (Nat.leb 1 (S d)) with true. cbn [andb].
  destruct (Nat.leb_spec (S d) i) as [H|H].
  - replace d with ((i - 1) - (i - S d))%nat at 1 by lia.
    apply coeff_pow_xm1. lia.
  - apply coeff_pow_xm1_high. lia.
Qed.

End PolyFacts.

(** ** The assembly loop *)

Section Assembly.
Import Poly PolyFacts.

Lemma nth_insert_Z (l : list Z) (k d : nat) (v : Z) :
  (k < length l)%nat ->
  nth d (<[k := v]> l) 0 = if Nat.eqb d k then v else nth d l 0.
Proof.
  intros H. rewrite !nth_lookup.
  destruct (Nat.eqb_spec d k) as [->|Hne].
  - rewrite list_lookup_insert_eq by exact H. reflexivity.
  - rewrite list_lookup_insert_ne by auto. reflexivity.
Qed.

Lemma nth_addmul (c : list Z) (k d : nat) (a b : Z) :
  (k < length c)%nat ->
  nth d (addmul c k a b) 0 = nth d c 0 + (if Nat.eqb d k then a * b else 0).
Proof.
  intros H. unfold addmul. rewrite nth_insert_Z by exact H.
  destruct (Nat.eqb_spec d k) as [->|Hne]; lia.
Qed.

Lemma length_addmul (c : list Z) k a b : length (addmul c k a b) = length c.
Proof. unfold addmul. apply length_insert. Qed.

Lemma length_binomial_loop m ti i : forall steps j coeff coeffs,
  length (binomial_loop m ti i j steps coeff coeffs) = length coeffs.
Proof.
  induction steps as [|s IH]; intros j coeff coeffs; simpl; [reflexivity|].
  rewrite IH. apply length_addmul.
Qed.

(** The inner loop adds [m * ti * (-1)^(i - d) * C(i - 1, i - d)] at each
    degree [d] it visits, and every division it makes is exact. *)
Lemma binomial_loop_spec m ti i : forall steps j coeff coeffs,
  m * m = 1 ->
  (1 <= j)%nat -> (j + steps = i)%nat ->
  (i < length coeffs)%nat ->
  coeff = alt (j - 1) * binom (i - 1) (j - 1) ->
  forall d,
    nth d (binomial_loop m ti i j steps coeff coeffs) 0
    = nth d coeffs 0
      + (if (Nat.leb 1 d && Nat.leb d (i - j))%bool
         then m * ti * (alt (i - d) * binom (i - 1) (i - d)) else 0).
Proof.
  induction steps as [|s IH]; intros j coeff coeffs Hm Hj Hi Hlen Hc d.
  - simpl. replace (i - j)%nat with 0%nat by lia.
    destruct d; simpl; lia.
  - cbn [binomial_loop].
    assert (Hq : coeff * (Z.of_nat j - Z.of_nat i) / Z.of_nat j
                 = alt j * binom (i - 1) j).
    { subst coeff.
      pose proof (binom_step (i - 1) (j - 1)) as Hb.
      replace (S (j - 1)) with j in Hb by lia.
      replace (alt (j - 1)) with (- alt j)
        by (replace j with (S (j - 1)) at 1 by lia; rewrite alt_S; lia).
      replace (- alt j * binom (i - 1) (j - 1) * (Z.of_nat j - Z.of_nat i))
        with (alt j * binom (i - 1) j * Z.of_nat j).
      - apply Z.div_mul. lia.
      - assert (Hb' : Z.of_nat j * binom (i - 1) j
                      = (Z.of_nat i - Z.of_nat j) * binom (i - 1) (j - 1))
          by (rewrite Hb; f_equal; lia).
        replace (alt j * binom (i - 1) j * Z.of_nat j)
          with (alt j * (Z.of_nat j * binom (i - 1) j)) by ring.
        rewrite Hb'. ring. }
    rewrite Hq.
    rewrite (IH (S j) _ _ Hm); try lia.
    + rewrite nth_addmul by lia.
      replace (i - S j)%nat with (i - j - 1)%nat by lia.
      destruct (Nat.eqb_spec d (i - j)) as [->|Hne].
      * replace (i - (i - j))%nat with j by lia.
        destruct (Nat.leb_spec 1 (i - j)); [|lia].
        destruct (Nat.leb_spec (i - j) (i - j - 1)); [lia|].
        destruct (Nat.leb_spec (i - j) (i - j)); [|lia].
        simpl. nia.
      * destruct (Nat.leb_spec 1 d); simpl; [|lia].
        destruct (Nat.leb_spec d (i - j - 1)), (Nat.leb_spec d (i - j)); lia.
    + rewrite length_addmul. exact Hlen.
    + replace (S j - 1)%nat with j by lia.
      replace (alt j * binom (i - 1) j * m * m) with (alt j * binom (i - 1) j * (m * m)) by lia.
      rewrite Hm. lia.
Qed.

(** One round of the outer loop that meets a nonzero count adds
    [tot[i] * (-m) * x * (x - 1)^(i - 1)] and leaves [-m] as the sign. *)
Lemma assemble_body_spec tot i m coeffs :
  m * m = 1 -> (1 <= i)%nat -> (i < length coeffs)%nat ->
  nth i tot 0 <> 0 ->
  fst (assemble_body tot i (m, coeffs)) = - m /\
  forall d,
    nth d (snd (assemble_body tot i (m, coeffs))) 0
    = nth d coeffs 0 + coeff (scale (nth i tot 0 * - m) (tree_poly i)) d.
Proof.
  intros Hm Hi Hlen Hne. unfold assemble_body.
  destruct (Z.eqb_spec (Z.sgn (nth i tot 0)) 0) as [E|E];
    [exfalso; apply Hne, Z.sgn_null_iff, E|].
  split; [reflexivity|]. intros d. cbn [snd].
  assert (Hm' : - m * - m = 1) by lia.
  rewrite (binomial_loop_spec (- m) (nth i tot 0) i (i - 1) 1 1 _ Hm');
    [ | lia | lia | rewrite length_addmul; lia
      | change (1 - 1)%nat with 0%nat; rewrite binom_0_r; reflexivity ].
  rewrite nth_addmul by lia.
  rewrite coeff_scale, coeff_tree_poly by lia.
  destruct (Nat.eqb_spec d i) as [->|Hd].
  - destruct (Nat.leb_spec 1 i); [|lia].
    destruct (Nat.leb_spec i (i - 1)); [lia|].
    destruct (Nat.leb_spec i i); [|lia]. simpl.
    rewrite Nat.sub_diag, binom_0_r. change (alt 0) with 1. lia.
  - destruct (Nat.leb_spec 1 d); simpl; [|lia].
    destruct (Nat.leb_spec d (i - 1)), (Nat.leb_spec d i); lia.
Qed.

Lemma assemble_body_keeps tot i m coeffs :
  m * m = 1 ->
  fst (assemble_body tot i (m, coeffs)) * fst (assemble_body tot i (m, coeffs)) = 1 /\
  length (snd (assemble_body tot i (m, coeffs))) = length coeffs.
Proof.
  intros Hm. unfold assemble_body.
  destruct (Z.sgn (nth i tot 0) =? 0); simpl; [auto|].
  rewrite length_binomial_loop, length_addmul. split; lia.
Qed.

Lemma assemble_from_steps tot : forall n st,
  assemble_from tot n st = assemble_steps tot n n st.
Proof.
  induction n as [|n IH]; intros st; simpl; [reflexivity|].
  rewrite Nat.sub_0_r. apply IH.
Qed.


End Assembly.

(** ** The histogram left by [contract_and_count] *)

Lemma bumped_empty hi t : bumped (S hi) hi t t.
Proof. split; [reflexivity|]. split; intros; [lia | reflexivity]. Qed.

Lemma bumped_union lo1 lo2 hi t t' t'' :
  bumped lo1 hi t t' -> bumped lo2 hi t' t'' ->
  bumped (Nat.min lo1 lo2) hi t t''.
Proof.
  intros (L1 & G1 & E1) (L2 & G2 & E2). split; [congruence|]. split.
  - intros j Hj.
    destruct (le_lt_dec lo1 j) as [H1|H1], (le_lt_dec lo2 j) as [H2|H2].
    + specialize (G1 j ltac:(lia)). specialize (G2 j ltac:(lia)). lia.
    + specialize (G1 j ltac:(lia)). rewrite (E2 j) by lia. exact G1.
    + specialize (G2 j ltac:(lia)). rewrite <- (E1 j) by lia. exact G2.
    + lia.
  - intros j Hj. rewrite E2, E1 by lia. reflexivity.
Qed.

Lemma bumped_incr lo n t t' t'' :
  (lo <= S n)%nat ->
  bumped lo n t t' -> tot_incr t' (S n) = Some t'' ->
  bumped lo (S n) t t''.
Proof.
  intros Hlo (L & G & E) Hi. unfold tot_incr in Hi.
  destruct (t' !! S n) as [v|] eqn:Ev; [|discriminate].
  simpl in Hi. injection Hi as <-.
  pose proof (lookup_lt_Some _ _ _ Ev) as Hlen.
  assert (Hv : nth (S n) t' 0 = v) by (rewrite nth_lookup, Ev; reflexivity).
  split; [rewrite length_insert; exact L|]. split.
  - intros j Hj. rewrite nth_insert_Z by exact Hlen.
    destruct (Nat.eqb_spec j (S n)) as [->|Hne].
    + rewrite <- (E (S n)) by lia. lia.
    + apply G. lia.
  - intros j Hj. rewrite nth_insert_Z by exact Hlen.
    destruct (Nat.eqb_spec j (S n)) as [->|Hne]; [lia|]. apply E. lia.
Qed.

Lemma bumped_incr_0 t t' :
  tot_incr t 0 = Some t' -> bumped 0 0 t t'.
Proof.
  intros Hi. unfold tot_incr in Hi.
  destruct (t !! 0%nat) as [v|] eqn:Ev; [|discriminate].
  simpl in Hi. injection Hi as <-.
  pose proof (lookup_lt_Some _ _ _ Ev) as Hlen.
  assert (Hv : nth 0 t 0 = v) by (rewrite nth_lookup, Ev; reflexivity).
  split; [apply length_insert|]. split.
  - intros j Hj. assert (j = 0%nat) as -> by lia.
    rewrite nth_insert_Z by exact Hlen. simpl. lia.
  - intros j Hj. rewrite nth_insert_Z by exact Hlen.
    destruct (Nat.eqb_spec j 0); [lia | reflexivity].
Qed.

Lemma of_option_ret {A} (o : option A) w a w' :
  of_option o w = (Ret a, w') -> o = Some a.
Proof. destruct o; simpl; [|discriminate]. unfold ret. congruence. Qed.

Lemma contract_loop_bumped n rec num parent :
  (forall new t w t' w', rec new t w = (Ret t', w') ->
     exists lo, (lo <= n)%nat /\ bumped lo n t t') ->
  forall cs tot w tot' w',
    contract_loop rec num parent cs tot w = (Ret tot', w') ->
    exists lo, (lo <= S n)%nat /\ bumped lo n tot tot'.
Proof.
  intros Hrec. induction cs as [|[z x1] rest IH]; intros tot w tot' w' H.
  - simpl in H. injection H as <- _. exists (S n). split; [lia | apply bumped_empty].
  - cbn [contract_loop] in H. inv_bind H.
    match goal with H1 : rec _ _ _ = _ |- _ => apply Hrec in H1; destruct H1 as (lo1 & Hlo1 & B1) end.
    apply IH in H. destruct H as (lo2 & Hlo2 & B2).
    exists (Nat.min lo1 lo2). split; [lia | eapply bumped_union; eassumption].
Qed.

(** The entries that [contract_and_count] raises are those of the sizes
    from some [lo] up to [nverts], without a gap. *)
Lemma contract_and_count_bumped : forall n chords parent tot w tot' w',
  contract_and_count n chords parent tot w = (Ret tot', w') ->
  exists lo, (lo <= n)%nat /\ bumped lo n tot tot'.
Proof.
  induction n as [|n IH]; intros chords parent tot w tot' w' H.
  - destruct chords; simpl in H; [|discriminate].
    apply of_option_ret in H. exists 0%nat. split; [lia | apply bumped_incr_0, H].
  - destruct chords as [|c cs].
    + simpl in H. apply of_option_ret in H. exists (S n).
      split; [lia|]. eapply bumped_incr; [lia | apply bumped_empty | exact H].
    + cbn [contract_and_count] in H. inv_bind H. apply of_option_ret in H.
      match goal with H1 : contract_loop _ _ _ _ _ _ = _ |- _ =>
        eapply (contract_loop_bumped n) in H1; [destruct H1 as (lo & Hlo & B)|] end.
      * exists lo. split; [lia | eapply bumped_incr; eassumption].
      * intros new t w1 t' w1' Hr. eapply IH, Hr.
Qed.

Lemma nth_repeat_0 (n j : nat) : nth j (repeat 0 n) 0 = 0.
Proof. revert j. induction n; intros [|j]; simpl; auto. Qed.


(** ** The caller's graph objects are left alone *)

Lemma keeps_ret {A} (Inv : world -> Prop) (a : A) (Q : A -> Prop) :
  Q a -> keeps Inv (ret a) Q.
Proof. intros H w Hw. simpl. auto. Qed.

Lemma keeps_bind {A B} (Inv : world -> Prop) (c : M A) (k : A -> M B)
  (Q1 : A -> Prop) (Q : B -> Prop) :
  keeps Inv c Q1 -> (forall a, Q1 a -> keeps Inv (k a) Q) -> keeps Inv (bind c k) Q.
Proof.
  intros Hc Hk w Hw. unfold bind. specialize (Hc w Hw).
  destruct (c w) as [[a|x] w1]; [|exact Hc].
  destruct Hc as [H1 H2]. exact (Hk a H2 w1 H1).
Qed.

Lemma keeps_weaken {A} (Inv : world -> Prop) (c : M A) (Q Q' : A -> Prop) :
  keeps Inv c Q -> (forall a, Q a -> Q' a) -> keeps Inv c Q'.
Proof.
  intros H HQ w Hw. specialize (H w Hw).
  destruct (c w) as [[a|x] w1]; [|exact H]. destruct H. auto.
Qed.

Lemma keeps_abort {A} (Inv : world -> Prop) (x : abort) (Q : A -> Prop) :
  keeps Inv (fun w => (Abort x, w)) Q.
Proof. intros w Hw. exact Hw. Qed.

Lemma keeps_of_option {A} (Inv : world -> Prop) (o : option A) :
  keeps Inv (of_option o) (fun a => o = Some a).
Proof. intros w Hw. destruct o; simpl; auto. Qed.

Lemma keeps_mapM {A B} (Inv : world -> Prop) (f : A -> M B) (Q : B -> Prop) l :
  (forall a, keeps Inv (f a) Q) -> keeps Inv (mapM f l) (Forall Q).
Proof.
  intros Hf. induction l as [|a l IH]; simpl.
  - apply keeps_ret. constructor.
  - eapply keeps_bind; [apply Hf|]. intros b Hb.
    eapply keeps_bind; [apply IH|]. intros bs Hbs.
    apply keeps_ret. constructor; assumption.
Qed.

Lemma keeps_for_each {A} (Inv : world -> Prop) (f : A -> M unit) l :
  (forall a, keeps Inv (f a) (fun _ => True)) -> keeps Inv (for_each f l) (fun _ => True).
Proof.
  intros Hf. induction l as [|a l IH]; simpl.
  - apply keeps_ret. exact I.
  - eapply keeps_bind; [apply Hf|]. intros u Hu. exact IH.
Qed.

Lemma keeps_try {A} (Inv : world -> Prop) (c : M A) (h : M unit) (Q : A -> Prop) :
  keeps Inv c Q -> keeps Inv h (fun _ => True) -> keeps Inv (try_except_reraise c h) Q.
Proof.
  intros Hc Hh w Hw. unfold try_except_reraise. specialize (Hc w Hw).
  destruct (c w) as [[a|[e| |]] w1]; try exact Hc.
  specialize (Hh w1 Hc). destruct (h w1) as [[u|x] w2]; [apply Hh | exact Hh].
Qed.

Section Frame.

Variable canonical_label : Graph.t -> Graph.t.
Variable w0 : world.

Let owned (l : nat) : Prop := heap w0 !! l = None.
Let any {A} : A -> Prop := fun _ => True.

Lemma read_frame l : keeps (frame w0) (read l) any.
Proof.
  intros w Hw. unfold read. destruct (heap w !! l); simpl; [split; [exact Hw | exact I] | exact Hw].
Qed.

Lemma alloc_frame g : keeps (frame w0) (alloc g) owned.
Proof.
  intros w Hw. unfold alloc. simpl.
  assert (Hf : heap w !! fresh (dom (heap w)) = None)
    by (apply not_elem_of_dom, is_fresh).
  split.
  - intros l g' Hl. simpl.
    destruct (decide (fresh (dom (heap w)) = l)) as [E|E].
    + subst l. apply Hw in Hl. congruence.
    + rewrite lookup_insert_ne by exact E. apply Hw, Hl.
  - unfold owned. destruct (heap w0 !! fresh (dom (heap w))) eqn:E; [|reflexivity].
    apply Hw in E. congruence.
Qed.

Lemma modify_frame l f : owned l -> keeps (frame w0) (modify l f) any.
Proof.
  intros Ho w Hw. unfold modify. destruct (heap w !! l); simpl; [|exact Hw].
  split; [|exact I]. intros l' g' Hl. simpl.
  destruct (decide (l = l')) as [E|E]; [subst; unfold owned in Ho; congruence|].
  rewrite lookup_insert_ne by exact E. apply Hw, Hl.
Qed.

Lemma mpz_init_frame c : keeps (frame w0) (mpz_init c) any.
Proof. intros w Hw. simpl. split; [exact Hw | exact I]. Qed.

Lemma mpz_clear_frame c : keeps (frame w0) (mpz_clear c) any.
Proof. intros w Hw. simpl. split; [exact Hw | exact I]. Qed.

Lemma sig_check_frame : keeps (frame w0) sig_check any.
Proof.
  intros w Hw. unfold sig_check. destruct (signals w (ticks w)); simpl;
    [exact Hw | split; [exact Hw | exact I]].
Qed.

Lemma get_key_frame d v : keeps (frame w0) (get_key d v) any.
Proof.
  unfold get_key. destruct (DiGraph.get_vertex d v) as [[]|];
    first [apply keeps_ret; exact I | apply keeps_abort].
Qed.

Lemma get_poly_frame d v : keeps (frame w0) (get_poly d v) any.
Proof.
  unfold get_poly. destruct (DiGraph.get_vertex d v) as [[]|];
    first [apply keeps_ret; exact I | apply keeps_abort].
Qed.

Lemma of_option_frame {A} (o : option A) : keeps (frame w0) (of_option o) any.
Proof. eapply keeps_weaken; [apply keeps_of_option | intros; exact I]. Qed.

Lemma contract_loop_frame rec num parent :
  (forall new t, keeps (frame w0) (rec new t) any) ->
  forall cs tot, keeps (frame w0) (contract_loop rec num parent cs tot) any.
Proof.
  intros Hrec. induction cs as [|[z x1] rest IH]; intros tot; cbn [contract_loop].
  - apply keeps_ret. exact I.
  - eapply keeps_bind; [apply sig_check_frame|]. intros u _.
    eapply keeps_bind; [apply of_option_frame|]. intros new _.
    eapply keeps_bind; [apply Hrec|]. intros t1 _. apply IH.
Qed.

Lemma contract_and_count_frame : forall n chords parent tot,
  keeps (frame w0) (contract_and_count n chords parent tot) any.
Proof.
  induction n as [|n IH]; intros chords parent tot; destruct chords as [|c cs];
    cbn [contract_and_count]; try apply of_option_frame; try apply keeps_abort.
  eapply keeps_bind; [apply contract_loop_frame; intros; apply IH|].
  intros t _. apply of_option_frame.
Qed.

Lemma chromatic_polynomial_main_frame G :
  keeps (frame w0) (chromatic_polynomial_main G) any.
Proof.
  unfold chromatic_polynomial_main.
  eapply keeps_bind; [apply read_frame|]. intros g0 _.
  eapply keeps_bind; [apply alloc_frame|]. intros G' HG'.
  eapply keeps_bind; [apply modify_frame, HG'|]. intros u1 _.
  eapply keeps_bind; [apply modify_frame, HG'|]. intros u2 _.
  eapply keeps_bind; [apply read_frame|]. intros g _.
  eapply keeps_bind; [apply mpz_init_frame|]. intros u3 _.
  eapply keeps_bind; [apply keeps_for_each; intros; apply mpz_init_frame|]. intros u4 _.
  eapply keeps_bind; [apply mpz_init_frame|]. intros u5 _.
  eapply keeps_bind; [apply of_option_frame|]. intros st _.
  eapply keeps_bind.
  { apply keeps_try; [apply contract_and_count_frame|].
    apply keeps_for_each; intros; apply mpz_clear_frame. }
  intros tot _.
  eapply keeps_bind; [apply keeps_for_each; intros; apply mpz_init_frame|]. intros u6 _.
  eapply keeps_bind; [apply mpz_init_frame|]. intros u7 _.
  eapply keeps_bind; [apply mpz_init_frame|]. intros u8 _.
  eapply keeps_bind.
  { apply keeps_for_each. intros i.
    eapply keeps_bind; [apply mpz_clear_frame|]. intros; apply mpz_clear_frame. }
  intros u9 _.
  eapply keeps_bind; [apply mpz_clear_frame|]. intros u10 _.
  eapply keeps_bind; [apply mpz_clear_frame|]. intros u11 _.
  apply keeps_ret. exact I.
Qed.

Lemma d_owned_set d v x :
  d_owned w0 d -> (forall l, x = VGraph l -> heap w0 !! l = None) ->
  d_owned w0 (DiGraph.set_vertex d v x).
Proof.
  intros Hd Hx v' l. unfold DiGraph.get_vertex, DiGraph.set_vertex. simpl.
  destruct (decide (v = v')) as [->|E].
  - rewrite lookup_insert_eq. intros H. injection H as ->. apply Hx. reflexivity.
  - rewrite lookup_insert_ne by exact E. apply Hd.
Qed.

Lemma d_owned_add_vertex d w d1 :
  DiGraph.add_vertex d = (w, d1) -> d_owned w0 d -> d_owned w0 d1.
Proof. unfold DiGraph.add_vertex. intros [= _ <-] Hd. exact Hd. Qed.

Lemma d_owned_add_edge d u v : d_owned w0 d -> d_owned w0 (DiGraph.add_edge d u v).
Proof. intros Hd. exact Hd. Qed.

Lemma d_owned_delete d vs : d_owned w0 d -> d_owned w0 (DiGraph.delete_vertices d vs).
Proof.
  intros Hd v l. unfold DiGraph.get_vertex, DiGraph.delete_vertices. simpl.
  induction vs as [|x vs IH]; simpl; [apply Hd|].
  intros H. apply lookup_delete_Some in H. apply IH, H.
Qed.

Lemma spawn_components_frame v hs : forall d stk,
  d_owned w0 d ->
  keeps (frame w0) (spawn_components v hs d stk) (fun r => d_owned w0 (fst r)).
Proof.
  induction hs as [|h hs IH]; intros d stk Hd; cbn [spawn_components].
  - apply keeps_ret. exact Hd.
  - eapply keeps_bind; [apply alloc_frame|]. intros l Hl.
    destruct (DiGraph.add_vertex d) as [w1 d1] eqn:E.
    apply IH. apply d_owned_add_edge, d_owned_set.
    + exact (d_owned_add_vertex _ _ _ E Hd).
    + intros l' [= <-]. exact Hl.
Qed.

Lemma first_visit_frame st v stk :
  d_owned w0 (cD st) ->
  keeps (frame w0) (first_visit canonical_label st v stk) (fun st' => d_owned w0 (cD st')).
Proof.
  intros Hd. unfold first_visit.
  destruct (DiGraph.get_vertex (cD st) v) as [[l|k|p]|] eqn:Ev;
    try apply keeps_abort.
  pose proof (Hd v l Ev) as Hl.
  eapply keeps_bind; [apply read_frame|]. intros g _.
  assert (Hres : forall k p stk', d_owned w0 (cD (resolve st v k p stk'))).
  { intros. apply d_owned_set; [exact Hd | discriminate]. }
  destruct (cache st !! key_of canonical_label g).
  { apply keeps_ret. apply d_owned_set; [exact Hd | discriminate]. }
  destruct (Graph.is_empty g); [apply keeps_ret, Hres|].
  destruct (Graph.has_loops g); [apply keeps_ret, Hres|].
  destruct (negb (Graph.is_connected g)).
  { eapply keeps_bind.
    - apply spawn_components_frame. apply d_owned_set; [exact Hd | discriminate].
    - intros [d2 stk2] H. apply keeps_ret. exact H. }
  destruct (Nat.eqb _ _); [apply keeps_ret, Hres|].
  destruct (DiGraph.add_vertex (cD st)) as [a d1] eqn:Ea.
  destruct (DiGraph.add_vertex d1) as [b d2] eqn:Eb.
  destruct (Graph.bridges g ++ Graph.edges g) as [|[u w1] ?]; [apply keeps_abort|].
  eapply keeps_bind; [apply modify_frame, Hl|]. intros u1 _.
  eapply keeps_bind; [apply read_frame|]. intros g1 _.
  eapply keeps_bind; [apply alloc_frame|]. intros la Hla.
  eapply keeps_bind; [apply modify_frame, Hl|]. intros u2 _.
  eapply keeps_bind; [apply modify_frame, Hl|]. intros u3 _.
  eapply keeps_bind; [apply modify_frame, Hl|]. intros u4 _.
  apply keeps_ret. simpl.
  apply d_owned_set; [|intros l' [= <-]; exact Hl].
  apply d_owned_set; [|intros l' [= <-]; exact Hla].
  apply d_owned_set; [|discriminate].
  apply d_owned_add_edge, d_owned_add_edge.
  exact (d_owned_add_vertex _ _ _ Eb (d_owned_add_vertex _ _ _ Ea Hd)).
Qed.

Lemma cache_step_frame st entry stk :
  d_owned w0 (cD st) ->
  keeps (frame w0) (cache_step canonical_label st entry stk) (fun st' => d_owned w0 (cD st')).
Proof.
  intros Hd. destruct entry as [[firstseen v] c]. unfold cache_step.
  destruct firstseen; [apply first_visit_frame, Hd|].
  destruct (String.eqb (fst c) "*").
  { eapply keeps_bind; [apply get_key_frame|]. intros k _.
    eapply keeps_bind; [apply keeps_mapM; intros; apply get_poly_frame|]. intros ps _.
    apply keeps_ret. simpl. apply d_owned_delete, d_owned_set; [exact Hd | discriminate]. }
  destruct (String.eqb (fst c) "-"); [|apply keeps_abort].
  eapply keeps_bind; [apply get_key_frame|]. intros k _.
  destruct (snd c) as [|a [|b r]]; try apply keeps_abort.
  eapply keeps_bind; [apply get_poly_frame|]. intros pa _.
  eapply keeps_bind; [apply get_poly_frame|]. intros pb _.
  apply keeps_ret. simpl. apply d_owned_delete, d_owned_set; [exact Hd | discriminate].
Qed.

Lemma cache_loop_frame fuel : forall st,
  d_owned w0 (cD st) ->
  keeps (frame w0) (cache_loop canonical_label fuel st) any.
Proof.
  induction fuel as [|fuel IH]; intros st Hd; simpl;
    destruct (stack st) as [|entry stk]; try (apply keeps_ret; exact I).
  - apply keeps_abort.
  - eapply keeps_bind; [apply cache_step_frame, Hd|]. intros st' Hd'. apply IH, Hd'.
Qed.

Lemma with_cache_frame fuel G :
  keeps (frame w0) (chromatic_polynomial_with_cache canonical_label fuel G) any.
Proof.
  unfold chromatic_polynomial_with_cache.
  eapply keeps_bind; [apply read_frame|]. intros g _.
  destruct (Graph.is_empty g); [apply keeps_ret; exact I|].
  destruct (Graph.has_loops g); [apply keeps_ret; exact I|].
  eapply keeps_bind; [apply alloc_frame|]. intros G' HG'.
  eapply keeps_bind; [apply modify_frame, HG'|]. intros u _.
  eapply keeps_bind.
  - apply cache_loop_frame. simpl. apply d_owned_set; [|intros l' [= <-]; exact HG'].
    intros v l H. unfold DiGraph.get_vertex in H. simpl in H.
    rewrite lookup_empty in H. discriminate.
  - intros st _. apply get_poly_frame.
Qed.

Lemma chromatic_polynomial_frame depth steps : forall G algorithm,
  keeps (frame w0) (chromatic_polynomial canonical_label depth steps G algorithm) any.
Proof.
  induction depth as [|depth IH]; intros G algorithm; cbn [chromatic_polynomial].
  all: destruct (negb _); [apply keeps_abort|].
  all: destruct (String.eqb _ _); [apply with_cache_frame|].
  all: eapply keeps_bind; [apply read_frame|]; intros g _.
  all: destruct (Graph.is_empty g); [apply keeps_ret; exact I|].
  all: destruct (Graph.has_loops g); [apply keeps_ret; exact I|].
  all: destruct (negb (Graph.is_connected g)).
  all: try (destruct (Graph.is_tree g);
            [apply keeps_ret; exact I | apply chromatic_polynomial_main_frame]).
  all: eapply keeps_bind; [apply keeps_mapM; intros; apply alloc_frame|]; intros hs _.
  all: eapply keeps_bind;
    [apply (keeps_mapM (frame w0) _ (fun _ => True))|intros ps _; apply keeps_ret; exact I].
  - intros h. apply keeps_abort.
  - intros h. apply IH.
Qed.

End Frame.

(** C9. A call of [chromatic_polynomial], with either algorithm, and a call
    of [chromatic_polynomial_with_cache] leave every graph object that
    existed before the call as it was, the caller's graph among them,
    however the call ends: relabelling, removal of parallel edges and loops,
    deletion and contraction of edges all act on objects made by the call. *)
Theorem caller_graph_unchanged (canonical_label : Graph.t -> Graph.t)
  (depth steps G : nat) (algorithm : string) (w : world) (l : nat) (g : Graph.t) :
  heap w !! l = Some g ->
  heap (snd (chromatic_polynomial canonical_label depth steps G algorithm w)) !! l = Some g
  /\ heap (snd (chromatic_polynomial_with_cache canonical_label steps G w)) !! l = Some g.
Proof.
  intros Hl. split.
  - pose proof (chromatic_polynomial_frame canonical_label w depth steps G algorithm w
                  (fun _ _ H => H)) as H.
    destruct (chromatic_polynomial _ _ _ _ _ w) as [[p|x] w']; simpl;
      [destruct H as [H _]|]; apply H, Hl.
  - pose proof (with_cache_frame canonical_label w steps G w (fun _ _ H => H)) as H.
    destruct (chromatic_polynomial_with_cache _ _ _ w) as [[p|x] w']; simpl;
      [destruct H as [H _]|]; apply H, Hl.
Qed.

Lemma caller_graph_unchanged_witness :
  heap (snd (chromatic_polynomial Canon.canonical_label 1 40 0 "C" (caller_world K3))) !! 0%nat
  = Some K3
  /\ heap (snd (chromatic_polynomial_with_cache Canon.canonical_label 40 0 (caller_world K3)))
       !! 0%nat = Some K3.
Proof.
  apply (caller_graph_unchanged Canon.canonical_label 1 40 0 "C" (caller_world K3) 0 K3).
  reflexivity.
Defined.

(** ** Facts on the graph operations *)

Module GraphFacts.
Import Graph.

Lemma memb_In x l : memb x l = true <-> In x l.
Proof.
  unfold memb. rewrite existsb_exists. split.
  - intros (y & Hy & E). apply Nat.eqb_eq in E. subst. exact Hy.
  - intros H. exists x. split; [exact H | apply Nat.eqb_refl].
Qed.

Lemma memb_false x l : memb x l = false <-> ~ In x l.
Proof.
  rewrite <- memb_In. destruct (memb x l); split; intros; try congruence; tauto.
Qed.

Lemma same_edge_sym e f : same_edge e f = same_edge f e.
Proof.
  unfold same_edge. rewrite (Nat.eqb_sym e.1 f.1), (Nat.eqb_sym e.2 f.2),
    (Nat.eqb_sym e.1 f.2), (Nat.eqb_sym e.2 f.1).
  destruct (Nat.eqb f.1 e.1), (Nat.eqb f.2 e.2), (Nat.eqb f.2 e.1), (Nat.eqb f.1 e.2);
    reflexivity.
Qed.

Lemma same_edge_swap u v f : same_edge (u, v) f = same_edge (v, u) f.
Proof.
  unfold same_edge. simpl.
  destruct (Nat.eqb u f.1), (Nat.eqb v f.2), (Nat.eqb u f.2), (Nat.eqb v f.1); reflexivity.
Qed.

Lemma has_edge_sym g u v : has_edge g u v = has_edge g v u.
Proof.
  unfold has_edge. induction (edges g) as [|f r IH]; [reflexivity|].
  simpl. rewrite IH, same_edge_swap. reflexivity.
Qed.

Lemma in_neighbors g v x :
  In x (neighbors g v) <-> In x (verts g) /\ has_edge g x v = true.
Proof. unfold neighbors. rewrite List.filter_In. reflexivity. Qed.

Lemma NoDup_snoc (l : list nat) x : List.NoDup l -> ~ In x l -> List.NoDup (l ++ [x]).
Proof.
  induction l as [|y l IH]; simpl; intros Hn Hx.
  - constructor; [intros [] | constructor].
  - inversion Hn as [|? ? Hy Hl]; subst. constructor.
    + intros H. apply in_app_or in H. destruct H as [H|[<-|[]]]; [exact (Hy H) | tauto].
    + apply IH; [exact Hl | tauto].
Qed.

(** *** One round of the search *)

Lemma reach_S g r seen : reach g (S r) seen = reach g r (expand g seen).
Proof. reflexivity. Qed.

Lemma add_all_spec us : forall acc,
  exists extra,
    fold_left add_new us acc = acc ++ extra /\
    (forall x, In x extra -> In x us /\ ~ In x acc) /\
    (forall x, In x us -> In x acc \/ In x extra) /\
    (List.NoDup acc -> List.NoDup (acc ++ extra)).
Proof.
  induction us as [|u us IH]; intros acc; simpl.
  - exists []. rewrite app_nil_r. repeat split; auto; intros x [].
  - unfold add_new at 2. destruct (memb u acc) eqn:E.
    + destruct (IH acc) as (extra & E1 & E2 & E3 & E4).
      exists extra. split; [exact E1|]. split; [|split; [|exact E4]].
      * intros x Hx. destruct (E2 x Hx). auto.
      * intros x [->|Hx]; [left; apply memb_In, E | apply E3, Hx].
    + apply memb_false in E.
      destruct (IH (acc ++ [u])) as (extra & E1 & E2 & E3 & E4).
      exists (u :: extra). rewrite E1, <- app_assoc. split; [reflexivity|].
      split; [|split].
      * intros x [<-|Hx]; [auto|]. destruct (E2 x Hx) as [H1 H2].
        split; [auto|]. intros H. apply H2, in_or_app. auto.
      * intros x [<-|Hx]; [right; left; reflexivity|].
        destruct (E3 x Hx) as [H|H]; [|right; right; exact H].
        apply in_app_or in H. destruct H as [H|[<-|[]]]; [left; exact H | right; left; reflexivity].
      * intros Hn.
        replace (acc ++ u :: extra) with ((acc ++ [u]) ++ extra)
          by (rewrite <- app_assoc; reflexivity).
        apply E4, NoDup_snoc; assumption.
Qed.

Lemma expand_aux_spec g vs : forall acc,
  exists extra,
    fold_left (fun a v => fold_left add_new (neighbors g v) a) vs acc = acc ++ extra /\
    (forall x, In x extra -> (exists v, In v vs /\ In x (neighbors g v)) /\ ~ In x acc) /\
    (forall v x, In v vs -> In x (neighbors g v) -> In x acc \/ In x extra) /\
    (List.NoDup acc -> List.NoDup (acc ++ extra)).
Proof.
  induction vs as [|v vs IH]; intros acc; simpl.
  - exists []. rewrite app_nil_r. split; [reflexivity|].
    split; [intros ? []|]. split; [intros ? ? []|auto].
  - destruct (add_all_spec (neighbors g v) acc) as (e1 & A1 & A2 & A3 & A4).
    rewrite A1. destruct (IH (acc ++ e1)) as (e2 & B1 & B2 & B3 & B4).
    exists (e1 ++ e2). rewrite B1, <- app_assoc. split; [reflexivity|]. split; [|split].
    + intros x Hx. apply in_app_or in Hx. destruct Hx as [Hx|Hx].
      * destruct (A2 x Hx). split; [exists v; auto | auto].
      * destruct (B2 x Hx) as [(v' & Hv' & Hn) Hnot].
        split; [exists v'; auto|]. intros H. apply Hnot, in_or_app. auto.
    + intros v' x [<-|Hv'] Hn.
      * destruct (A3 x Hn) as [H|H]; [left; exact H | right; apply in_or_app; auto].
      * destruct (B3 v' x Hv' Hn) as [H|H]; [|right; apply in_or_app; auto].
        apply in_app_or in H. destruct H; [left; assumption | right; apply in_or_app; auto].
    + intros Hn. rewrite app_assoc. apply B4, A4, Hn.
Qed.

Lemma expand_spec g seen :
  exists extra,
    expand g seen = seen ++ extra /\
    (forall x, In x extra -> (exists v, In v seen /\ In x (neighbors g v)) /\ ~ In x seen) /\
    (forall v x, In v seen -> In x (neighbors g v) -> In x seen \/ In x extra) /\
    (List.NoDup seen -> List.NoDup (seen ++ extra)).
Proof. apply expand_aux_spec. Qed.

(** *** The search reaches exactly what a walk reaches *)

Lemma expand_incl g seen x : In x seen -> In x (expand g seen).
Proof.
  destruct (expand_spec g seen) as (extra & E & _). rewrite E.
  intros H. apply in_or_app. auto.
Qed.

Lemma reach_incl g r : forall seen x, In x seen -> In x (reach g r seen).
Proof.
  induction r as [|r IH]; intros seen x H; [exact H|].
  rewrite reach_S. apply IH, expand_incl, H.
Qed.

Lemma conn_trans g u v x : conn g u v -> conn g v x -> conn g u x.
Proof.
  intros Huv Hvx. induction Hvx as [|y z _ IH Hn]; [exact Huv|].
  eapply conn_step; eassumption.
Qed.

Lemma reach_sound g r : forall seen x,
  In x (reach g r seen) -> exists v, In v seen /\ conn g v x.
Proof.
  induction r as [|r IH]; intros seen x H.
  - exists x. split; [exact H | constructor].
  - rewrite reach_S in H. apply IH in H. destruct H as (v & Hv & Hc).
    destruct (expand_spec g seen) as (extra & E & E2 & _). rewrite E in Hv.
    apply in_app_or in Hv. destruct Hv as [Hv|Hv]; [exists v; auto|].
    destruct (E2 v Hv) as [(v0 & Hv0 & Hn) _].
    exists v0. split; [exact Hv0|].
    eapply conn_trans; [|exact Hc]. eapply conn_step; [constructor | exact Hn].
Qed.

Lemma reach_NoDup g r : forall seen, List.NoDup seen -> List.NoDup (reach g r seen).
Proof.
  induction r as [|r IH]; intros seen H; [exact H|].
  rewrite reach_S. apply IH.
  destruct (expand_spec g seen) as (extra & E & _ & _ & E4). rewrite E. apply E4, H.
Qed.

Lemma reach_in_verts g r : forall seen,
  (forall x, In x seen -> In x (verts g)) ->
  forall x, In x (reach g r seen) -> In x (verts g).
Proof.
  induction r as [|r IH]; intros seen Hs x H; [apply Hs, H|].
  rewrite reach_S in H. revert x H. apply IH. intros x Hx.
  destruct (expand_spec g seen) as (extra & E & E2 & _). rewrite E in Hx.
  apply in_app_or in Hx. destruct Hx as [Hx|Hx]; [apply Hs, Hx|].
  destruct (E2 x Hx) as [(v & _ & Hn) _]. apply in_neighbors in Hn. tauto.
Qed.

Lemma expand_closed_fix g seen : closed_set g seen -> expand g seen = seen.
Proof.
  intros Hc. destruct (expand_spec g seen) as (extra & E & E2 & _). rewrite E.
  destruct extra as [|x extra]; [apply app_nil_r|].
  destruct (E2 x (or_introl eq_refl)) as [(v & Hv & Hn) Hnot].
  exfalso. apply Hnot. exact (Hc v x Hv Hn).
Qed.

Lemma reach_closed_fix g r : forall seen, closed_set g seen -> reach g r seen = seen.
Proof.
  induction r as [|r IH]; intros seen Hc; [reflexivity|].
  rewrite reach_S, expand_closed_fix by exact Hc. apply IH, Hc.
Qed.

Lemma expand_length g seen :
  closed_set g seen \/ (length seen < length (expand g seen))%nat.
Proof.
  destruct (expand_spec g seen) as (extra & E & _ & E3 & _). rewrite E.
  destruct extra as [|x extra].
  - left. intros v y Hv Hn. destruct (E3 v y Hv Hn) as [H|[]]. exact H.
  - right. rewrite length_app. simpl. lia.
Qed.

Lemma reach_progress g r : forall seen,
  closed_set g (reach g r seen) \/ (length seen + r <= length (reach g r seen))%nat.
Proof.
  induction r as [|r IH]; intros seen.
  - right. simpl. lia.
  - destruct (expand_length g seen) as [Hc|Hl].
    + left. rewrite reach_closed_fix by exact Hc. exact Hc.
    + rewrite reach_S. destruct (IH (expand g seen)) as [H|H]; [left; exact H | right; lia].
Qed.

Lemma component_closed g v : In v (verts g) -> closed_set g (component g v).
Proof.
  intros Hv. unfold component.
  destruct (reach_progress g (order g) [v]) as [H|H]; [exact H|].
  exfalso.
  assert (Hn : List.NoDup (reach g (order g) [v])).
  { apply reach_NoDup. constructor; [intros [] | constructor]. }
  assert (Hi : incl (reach g (order g) [v]) (verts g)).
  { intros x Hx. eapply reach_in_verts; [|exact Hx]. intros y [<-|[]]. exact Hv. }
  pose proof (NoDup_incl_length Hn Hi) as Hle. unfold order in *. simpl in H. lia.
Qed.

Lemma in_component g v x :
  In v (verts g) -> (In x (component g v) <-> conn g v x).
Proof.
  intros Hv. split.
  - intros H. apply reach_sound in H. destruct H as (v' & [<-|[]] & Hc). exact Hc.
  - intros H. induction H as [|y z _ IH Hn].
    + apply reach_incl. left. reflexivity.
    + exact (component_closed g v Hv y z IH Hn).
Qed.

Lemma conn_in_verts g u x : conn g u x -> In u (verts g) -> In x (verts g).
Proof.
  intros H Hu. induction H as [|y z _ IH Hn]; [exact Hu|].
  apply in_neighbors in Hn. tauto.
Qed.

Lemma conn_sym g u x : conn g u x -> In u (verts g) -> conn g x u.
Proof.
  intros H Hu. induction H as [|y z Hy IH Hn]; [constructor|].
  eapply conn_trans; [|exact IH].
  eapply conn_step; [constructor|].
  apply in_neighbors in Hn. apply in_neighbors. destruct Hn as [_ He].
  split; [eapply conn_in_verts; eassumption | rewrite has_edge_sym; exact He].
Qed.

(** *** Components *)

Lemma components_from_spec g fuel : forall todo c,
  In c (components_from g fuel todo) ->
  exists v, In v todo /\ c = subgraph g (component g v).
Proof.
  induction fuel as [|fuel IH]; intros todo c H; [destruct H|].
  destruct todo as [|v rest]; [destruct H|]. simpl in H.
  destruct H as [<-|H]; [exists v; split; [left|]; reflexivity|].
  apply IH in H. destruct H as (v' & Hv' & ->).
  apply List.filter_In in Hv'. exists v'. split; [right; tauto | reflexivity].
Qed.

Lemma in_components g c :
  In c (connected_components_subgraphs g) ->
  exists v, In v (verts g) /\ c = subgraph g (component g v).
Proof. apply components_from_spec. Qed.

Lemma components_nonempty g :
  is_empty g = false -> connected_components_subgraphs g <> [].
Proof.
  unfold is_empty, connected_components_subgraphs, order.
  destruct (verts g); simpl; [discriminate | discriminate].
Qed.

Lemma component_seed g v : In v (component g v).
Proof. apply reach_incl. left. reflexivity. Qed.

Lemma subgraph_order_pos g v :
  In v (verts g) -> (1 <= order (subgraph g (component g v)))%nat.
Proof.
  intros Hv. unfold order, subgraph. simpl.
  assert (H : In v (List.filter (fun u => memb u (component g v)) (verts g))).
  { apply List.filter_In. split; [exact Hv | apply memb_In, component_seed]. }
  destruct (List.filter _ _); [destruct H | simpl; lia].
Qed.

Lemma subgraph_closed g vs : closed_graph g -> closed_graph (subgraph g vs).
Proof.
  intros Hc e He. unfold subgraph in *. simpl in *.
  apply List.filter_In in He. destruct He as [He Hm].
  apply andb_prop in Hm. destruct Hm as [H1 H2].
  destruct (Hc e He) as [V1 V2].
  split; apply List.filter_In; auto.
Qed.

Lemma filter_length_le {A} (f : A -> bool) l :
  (length (List.filter f l) <= length l)%nat.
Proof. induction l as [|a l IH]; simpl; [lia|]. destruct (f a); simpl; lia. Qed.

Lemma filter_length_lt {A} (f : A -> bool) l x :
  In x l -> f x = false -> (length (List.filter f l) < length l)%nat.
Proof.
  induction l as [|a l IH]; simpl; [intros []|].
  intros [->|H] Hx.
  - rewrite Hx. pose proof (filter_length_le f l). lia.
  - specialize (IH H Hx). destruct (f a); simpl; lia.
Qed.

Lemma subgraph_size g vs : (size (subgraph g vs) <= size g)%nat.
Proof. apply filter_length_le. Qed.

Lemma forallb_false_ex {A} (f : A -> bool) l :
  forallb f l = false -> exists x, In x l /\ f x = false.
Proof.
  induction l as [|a l IH]; [discriminate|]. simpl. intros E.
  apply andb_false_iff in E. destruct E as [E|E].
  - exists a. auto.
  - destruct (IH E) as (x & Hx & Hf). exists x. auto.
Qed.

(** In a graph that is not connected every component misses a vertex. *)
Lemma component_misses g v :
  is_connected g = false -> In v (verts g) ->
  exists u, In u (verts g) /\ ~ In u (component g v).
Proof.
  intros Hf Hv. unfold is_connected in Hf.
  destruct (verts g) as [|v0 vs] eqn:Ev; [discriminate|].
  destruct (forallb_false_ex _ _ Hf) as (u & Hu & E). apply memb_false in E.
  assert (Hv0 : In v0 (verts g)) by (rewrite Ev; left; reflexivity).
  rewrite <- Ev in Hu, Hv |- *. clear Hf.
  destruct (in_dec Nat.eq_dec v0 (component g v)) as [H0|H0].
  - exists u. split; [exact Hu|]. intros Hc. apply E.
    apply in_component in H0; [|exact Hv].
    apply in_component in Hc; [|exact Hv].
    apply in_component; [exact Hv0|].
    eapply conn_trans; [|exact Hc]. apply conn_sym; [exact H0 | exact Hv].
  - exists v0. split; [exact Hv0 | exact H0].
Qed.

Lemma component_subgraph_smaller g c :
  is_connected g = false -> In c (connected_components_subgraphs g) ->
  (graph_measure c < graph_measure g)%nat.
Proof.
  intros Hd Hc. apply in_components in Hc. destruct Hc as (v & Hv & ->).
  destruct (component_misses g v Hd Hv) as (u & Hu & Hn).
  unfold graph_measure. pose proof (subgraph_size g (component g v)).
  assert ((order (subgraph g (component g v)) < order g)%nat); [|lia].
  unfold order, subgraph. simpl.
  eapply filter_length_lt; [exact Hu | apply memb_false, Hn].
Qed.

End GraphFacts.

(** ** Deleting and contracting an edge *)

Module EdgeFacts.
Import Graph GraphFacts.

Lemma remove_first_edge_incl e es f :
  In f (remove_first_edge e es) -> In f es.
Proof.
  induction es as [|a r IH]; simpl; [tauto|].
  destruct (same_edge e a); [tauto|]. intros [H|H]; [left; exact H | right; apply IH, H].
Qed.

Lemma same_edge_refl e : same_edge e e = true.
Proof. unfold same_edge. rewrite !Nat.eqb_refl. reflexivity. Qed.

Lemma remove_first_edge_length e es :
  In e es -> length es = S (length (remove_first_edge e es)).
Proof.
  induction es as [|a r IH]; simpl; [tauto|].
  destruct (same_edge e a) eqn:E; [reflexivity|].
  intros [->|H]; [rewrite same_edge_refl in E; discriminate|].
  simpl. rewrite <- IH by exact H. reflexivity.
Qed.

Lemma dedup_edges_incl es f : In f (dedup_edges es) -> In f es.
Proof.
  induction es as [|a r IH]; simpl; [tauto|].
  destruct (existsb _ _); simpl; intros H; [right; apply IH, H|].
  destruct H as [H|H]; [left; exact H | right; apply IH, H].
Qed.

Lemma dedup_edges_length es : (length (dedup_edges es) <= length es)%nat.
Proof.
  induction es as [|a r IH]; simpl; [lia|].
  destruct (existsb _ _); simpl; lia.
Qed.

Lemma remove_multiple_edges_incl g f :
  In f (edges (remove_multiple_edges g)) -> In f (edges g).
Proof.
  unfold remove_multiple_edges. simpl. intros H.
  apply in_rev in H. apply dedup_edges_incl in H. apply in_rev in H. exact H.
Qed.

Lemma remove_multiple_edges_size g : (size (remove_multiple_edges g) <= size g)%nat.
Proof.
  unfold size, remove_multiple_edges. simpl.
  rewrite length_rev. etransitivity; [apply dedup_edges_length|].
  rewrite length_rev. lia.
Qed.

Lemma remove_multiple_edges_closed g :
  closed_graph g -> closed_graph (remove_multiple_edges g).
Proof. intros Hc e He. apply remove_multiple_edges_incl in He. exact (Hc e He). Qed.

Lemma delete_edge_closed g u w : closed_graph g -> closed_graph (delete_edge g u w).
Proof. intros Hc e He. apply remove_first_edge_incl in He. exact (Hc e He). Qed.

Lemma first_edge_in g u w r :
  bridges g ++ edges g = (u, w) :: r -> In (u, w) (edges g).
Proof.
  intros E. assert (H : In (u, w) (bridges g ++ edges g)) by (rewrite E; left; reflexivity).
  apply in_app_or in H. destruct H as [H|H]; [|exact H].
  unfold bridges in H. apply List.filter_In in H. tauto.
Qed.

Lemma no_loops_neq g u w : has_loops g = false -> In (u, w) (edges g) -> u <> w.
Proof.
  unfold has_loops. intros Hl He Heq. subst w.
  assert (existsb (fun e : nat * nat => Nat.eqb e.1 e.2) (edges g) = true); [|congruence].
  apply existsb_exists. exists (u, u). split; [exact He | apply Nat.eqb_refl].
Qed.

Lemma delete_edge_measure g u w :
  In (u, w) (edges g) -> (graph_measure (delete_edge g u w) < graph_measure g)%nat.
Proof.
  intros He. unfold graph_measure, order, size, delete_edge. simpl.
  rewrite (remove_first_edge_length (u, w) (edges g) He). lia.
Qed.

Lemma merge_vertices_edges_length g u w :
  (length (edges (merge_vertices g u w)) <= length (edges g))%nat.
Proof.
  unfold merge_vertices. simpl. induction (edges g) as [|e r IH]; simpl; [lia|].
  rewrite !length_app in *. simpl.
  destruct (Nat.eqb e.1 w) eqn:E1, (Nat.eqb e.2 w) eqn:E2; simpl;
    repeat (destruct (negb _); simpl); rewrite ?length_app; simpl; lia.
Qed.

Lemma contract_measure g u w :
  In (u, w) (edges g) -> In w (verts g) ->
  (graph_measure (contract_edge g u w) < graph_measure g)%nat.
Proof.
  intros He Hw. unfold graph_measure, contract_edge.
  pose proof (remove_multiple_edges_size (merge_vertices (add_edge (delete_edge g u w) u w) u w)) as H1.
  pose proof (merge_vertices_edges_length (add_edge (delete_edge g u w) u w) u w) as H2.
  assert (H3 : length (edges (add_edge (delete_edge g u w) u w)) = length (edges g)).
  { unfold add_edge, delete_edge. simpl. rewrite length_app. simpl.
    rewrite (remove_first_edge_length (u, w) (edges g) He). lia. }
  assert (H4 : (order (remove_multiple_edges (merge_vertices (add_edge (delete_edge g u w) u w) u w))
                < order g)%nat).
  { unfold order, remove_multiple_edges, merge_vertices. simpl.
    eapply filter_length_lt; [exact Hw|]. rewrite Nat.eqb_refl. reflexivity. }
  unfold size in *. lia.
Qed.

Lemma contract_verts g u w x :
  In x (verts (contract_edge g u w)) <-> In x (verts g) /\ x <> w.
Proof.
  unfold contract_edge, remove_multiple_edges, merge_vertices. simpl.
  rewrite List.filter_In. split; intros [H1 H2]; split; auto.
  - intros ->. rewrite Nat.eqb_refl in H2. discriminate.
  - apply Nat.eqb_neq in H2. rewrite H2. reflexivity.
Qed.

Lemma contract_closed g u w :
  closed_graph g -> In u (verts g) -> In w (verts g) -> u <> w ->
  closed_graph (contract_edge g u w).
Proof.
  intros Hc Hu Hw Hne e He. unfold contract_edge in He.
  apply remove_multiple_edges_incl in He.
  rewrite !contract_verts.
  unfold merge_vertices in He. simpl in He.
  apply in_app_or in He. destruct He as [He|He].
  - apply List.filter_In in He. destruct He as [He Hf].
    apply andb_prop in Hf. destruct Hf as [F1 F2].
    apply negb_true_iff, Nat.eqb_neq in F1. apply negb_true_iff, Nat.eqb_neq in F2.
    apply in_app_or in He. destruct He as [He|[<-|[]]].
    + apply remove_first_edge_incl in He. destruct (Hc e He). auto.
    + exfalso. apply F2. reflexivity.
  - apply in_flat_map in He. destruct He as (f & Hf & He).
    assert (Hfv : In f.1 (verts g) /\ In f.2 (verts g)).
    { apply in_app_or in Hf. destruct Hf as [Hf|[<-|[]]].
      - apply remove_first_edge_incl in Hf. exact (Hc f Hf).
      - simpl. split; [exact Hu | exact Hw]. }
    destruct (Nat.eqb f.1 w && negb (Nat.eqb f.2 u) && negb (Nat.eqb f.2 w)) eqn:C1.
    + destruct He as [<-|[]]. simpl.
      apply andb_prop in C1. destruct C1 as [_ C1].
      apply negb_true_iff, Nat.eqb_neq in C1. tauto.
    + destruct (Nat.eqb f.2 w && negb (Nat.eqb f.1 u) && negb (Nat.eqb f.1 w)) eqn:C2;
        [|destruct He].
      destruct He as [<-|[]]. simpl.
      apply andb_prop in C2. destruct C2 as [_ C2].
      apply negb_true_iff, Nat.eqb_neq in C2. tauto.
Qed.

End EdgeFacts.

(** ** The digraph of intermediate values *)

Module DiGraphFacts.
Import DiGraph GraphFacts.

Lemma least_unused_spec used : forall tries c,
  ~ In (least_unused used tries c) used \/
  (least_unused used tries c = (c + tries)%nat /\
   forall i, (c <= i < c + tries)%nat -> In i used).
Proof.
  induction tries as [|tries IH]; intros c; simpl.
  - right. split; [lia | intros; lia].
  - destruct (Graph.memb c used) eqn:E.
    + destruct (IH (S c)) as [H|[H1 H2]]; [left; exact H|].
      right. split; [lia|]. intros i Hi.
      destruct (Nat.eq_dec i c) as [->|Hne]; [apply memb_In, E | apply H2; lia].
    + left. apply memb_false, E.
Qed.

(** [add_vertex()] names the new vertex by an integer that is not in use. *)
Lemma least_unused_fresh used : ~ In (least_unused used (length used) 0) used.
Proof.
  destruct (least_unused_spec used (length used) 0) as [H|[H1 H2]]; [exact H|].
  rewrite H1. simpl. intros Hin.
  assert (Hincl : incl (seq 0 (length used)) used).
  { intros i Hi. apply in_seq in Hi. apply H2. lia. }
  assert (Hrev : incl used (seq 0 (length used))).
  { apply NoDup_length_incl; [apply seq_NoDup | rewrite length_seq; lia | exact Hincl]. }
  apply Hrev, in_seq in Hin. lia.
Qed.

Lemma add_vertex_spec d :
  exists w, add_vertex d = (w, mk (verts d ++ [w]) (assoc d) (edges d)) /\ ~ In w (verts d).
Proof.
  eexists. split; [reflexivity | apply least_unused_fresh].
Qed.

Lemma lookup_delete_all (m : gmap nat dval) ws y :
  foldr (fun x m => delete x m) m ws !! y = if Graph.memb y ws then None else m !! y.
Proof.
  induction ws as [|x ws IH]; simpl; [reflexivity|].
  destruct (Nat.eqb_spec y x) as [->|Hne]; simpl.
  - apply lookup_delete_eq.
  - rewrite lookup_delete_ne by auto. exact IH.
Qed.

Lemma lookup_with_children d v wps y :
  assoc (with_children d v wps) !! y
  = match find (fun wp => Nat.eqb wp.1 y) wps with
    | Some wp => Some (VPoly wp.2)
    | None => assoc d !! y
    end.
Proof.
  unfold with_children. simpl. induction wps as [|[x p] wps IH]; simpl; [reflexivity|].
  destruct (Nat.eqb_spec x y) as [->|Hne].
  - apply lookup_insert_eq.
  - rewrite lookup_insert_ne by exact Hne. exact IH.
Qed.

Lemma find_none_not_in (wps : list (nat * Poly.poly)) y :
  ~ In y (map fst wps) -> find (fun wp => Nat.eqb wp.1 y) wps = None.
Proof.
  induction wps as [|[x p] wps IH]; simpl; [reflexivity|]. intros H.
  destruct (Nat.eqb_spec x y) as [->|Hne]; [tauto|]. apply IH. tauto.
Qed.

Lemma neighbor_out_app d v es :
  neighbor_out (mk (verts d) (assoc d) (edges d ++ es)) v
  = neighbor_out d v ++ map snd (List.filter (fun e => Nat.eqb e.1 v) es).
Proof. unfold neighbor_out. simpl. rewrite List.filter_app, map_app. reflexivity. Qed.

Lemma neighbor_out_with_children d v wps :
  neighbor_out d v = [] -> neighbor_out (with_children d v wps) v = map fst wps.
Proof.
  intros H. unfold neighbor_out, with_children in *. simpl.
  rewrite List.filter_app, map_app, H. simpl.
  induction wps as [|[x p] wps IH]; simpl; [reflexivity|].
  rewrite Nat.eqb_refl. simpl. rewrite IH. reflexivity.
Qed.

Lemma filter_all_false {A} (f : A -> bool) l :
  (forall x, In x l -> f x = false) -> List.filter f l = [].
Proof.
  induction l as [|a l IH]; simpl; [reflexivity|]. intros H.
  rewrite (H a) by auto. apply IH. auto.
Qed.

Lemma filter_all_true {A} (f : A -> bool) l :
  (forall x, In x l -> f x = true) -> List.filter f l = l.
Proof.
  induction l as [|a l IH]; simpl; [reflexivity|]. intros H.
  rewrite (H a) by auto. rewrite IH; auto.
Qed.

(** Deleting the children of [v] gives back the digraph of before the
    visit, with the value of [v] changed. *)
Lemma delete_children d v wps x :
  dwf d -> In v (verts d) ->
  (forall w, In w (map fst wps) -> ~ In w (verts d)) ->
  delete_vertices (set_vertex (with_children d v wps) v x) (map fst wps)
  = set_vertex d v x.
Proof.
  intros [He Ha] Hv Hfresh. unfold delete_vertices, set_vertex. simpl. f_equal.
  - rewrite List.filter_app.
    rewrite (filter_all_true _ (verts d)), (filter_all_false _ (map fst wps)).
    + apply app_nil_r.
    + intros w Hw. apply negb_false_iff, memb_In, Hw.
    + intros w Hw. apply negb_true_iff, memb_false. intros H. exact (Hfresh w H Hw).
  - apply map_eq. intros y. rewrite lookup_delete_all.
    destruct (Graph.memb y (map fst wps)) eqn:E.
    + apply memb_In in E. symmetry.
      destruct (decide (v = y)) as [->|Hne]; [exfalso; exact (Hfresh y E Hv)|].
      rewrite lookup_insert_ne by exact Hne.
      destruct (assoc d !! y) eqn:Ey; [|reflexivity].
      exfalso. exact (Hfresh y E (Ha y _ Ey)).
    + apply memb_false in E.
      destruct (decide (v = y)) as [->|Hne].
      * rewrite !lookup_insert_eq. reflexivity.
      * rewrite !lookup_insert_ne by exact Hne.
        pose proof (lookup_with_children d v wps y) as L. unfold with_children in L.
        simpl in L. rewrite L, find_none_not_in by exact E. reflexivity.
  - rewrite List.filter_app.
    rewrite (filter_all_true _ (edges d)), filter_all_false.
    + apply app_nil_r.
    + intros e Hin. apply in_map_iff in Hin. destruct Hin as (wp & <- & Hwp). simpl.
      apply andb_false_iff. right. apply negb_false_iff, memb_In.
      apply in_map_iff. exists wp. auto.
    + intros e Hin. destruct (He e Hin) as [H1 H2].
      apply andb_true_iff. split; apply negb_true_iff, memb_false; intros H;
        [exact (Hfresh _ H H1) | exact (Hfresh _ H H2)].
Qed.

Lemma dwf_set_vertex d v x : dwf d -> In v (verts d) -> dwf (set_vertex d v x).
Proof.
  intros [He Ha] Hv. split; [exact He|]. intros y z. unfold set_vertex. simpl.
  destruct (decide (v = y)) as [->|Hne]; [intros _; exact Hv|].
  rewrite lookup_insert_ne by exact Hne. apply Ha.
Qed.

End DiGraphFacts.

(** ** The loop of the cached algorithm resolves the node on top of its stack *)

Section Steps.

Variable canonical_label : Graph.t -> Graph.t.

Lemma steps_to_refl st w : steps_to canonical_label 0 st w st w.
Proof. intros fuel. reflexivity. Qed.

Lemma steps_to_trans n1 n2 st1 w1 st2 w2 st3 w3 :
  steps_to canonical_label n1 st1 w1 st2 w2 ->
  steps_to canonical_label n2 st2 w2 st3 w3 ->
  steps_to canonical_label (n1 + n2) st1 w1 st3 w3.
Proof.
  intros H1 H2 fuel. rewrite <- Nat.add_assoc, H1, H2. reflexivity.
Qed.

Lemma steps_to_one d c e stk w st' w' :
  cache_step canonical_label (CState d c (e :: stk)) e stk w = (Ret st', w') ->
  steps_to canonical_label 1 (CState d c (e :: stk)) w st' w'.
Proof.
  intros H fuel. simpl. unfold bind. rewrite H. reflexivity.
Qed.

Lemma heap_ext_refl w : heap_ext w w.
Proof. intros l g H. exact H. Qed.

Lemma heap_ext_trans w1 w2 w3 : heap_ext w1 w2 -> heap_ext w2 w3 -> heap_ext w1 w3.
Proof. intros H1 H2 l g H. apply H2, H1, H. Qed.

Lemma heap_ext_frame l w w' : heap_ext w w' -> heap_frame l w w'.
Proof. intros H l' g _ Hl. apply H, Hl. Qed.

Lemma heap_frame_ext l w w' w'' :
  heap w !! l = None -> heap_ext w w' -> heap_frame l w' w'' -> heap_ext w w''.
Proof.
  intros Hn H1 H2 l' g Hl. apply H2; [congruence | apply H1, Hl].
Qed.

Lemma alloc_spec g w :
  exists l w', alloc g w = (Ret l, w') /\ heap w !! l = None /\
    heap w' !! l = Some g /\ heap_ext w w'.
Proof.
  unfold alloc. eexists _, _. split; [reflexivity|].
  assert (Hf : heap w !! fresh (dom (heap w)) = None)
    by (apply not_elem_of_dom, is_fresh).
  split; [exact Hf|]. simpl. split; [apply lookup_insert_eq|].
  intros l g' Hl. simpl. rewrite lookup_insert_ne; [exact Hl|]. congruence.
Qed.

Lemma dwf_with_children d v wps :
  dwf d -> In v (DiGraph.verts d) -> dwf (with_children d v wps).
Proof.
  intros [He Ha] Hv. split.
  - intros e Hin. unfold with_children in *. simpl in *.
    apply in_app_or in Hin. destruct Hin as [Hin|Hin].
    + destruct (He e Hin). split; apply in_or_app; auto.
    + apply in_map_iff in Hin. destruct Hin as (wp & <- & Hwp). simpl.
      split; apply in_or_app; [auto|]. right. apply in_map_iff. exists wp. auto.
  - intros x y. rewrite DiGraphFacts.lookup_with_children.
    unfold with_children. simpl.
    destruct (find _ wps) as [wp|] eqn:E.
    + intros _. apply find_some in E. destruct E as [Hin Heq].
      apply Nat.eqb_eq in Heq. subst x. apply in_or_app. right.
      apply in_map_iff. exists wp. auto.
    + intros H. apply in_or_app. left. exact (Ha x y H).
Qed.

Lemma with_children_nil d v : with_children d v [] = d.
Proof. destruct d. unfold with_children. simpl. rewrite !app_nil_r. reflexivity. Qed.

(** A child that was pending and is now resolved joins the resolved ones. *)
Lemma with_children_cons d v x l p wps :
  ~ In x (map fst wps) ->
  DiGraph.set_vertex
    (with_children
       (DiGraph.add_edge
          (DiGraph.set_vertex
             (DiGraph.mk (DiGraph.verts d ++ [x]) (DiGraph.assoc d) (DiGraph.edges d))
             x (VGraph l)) v x) v wps) x (VPoly p)
  = with_children d v ((x, p) :: wps).
Proof.
  intros Hx. unfold with_children, DiGraph.set_vertex, DiGraph.add_edge. simpl.
  f_equal.
  - rewrite <- app_assoc. reflexivity.
  - apply map_eq. intros y.
    destruct (decide (x = y)) as [->|Hne]; [rewrite !lookup_insert_eq; reflexivity|].
    rewrite !lookup_insert_ne by exact Hne.
    pose proof (DiGraphFacts.lookup_with_children
                  (DiGraph.mk (DiGraph.verts d) (<[x := VGraph l]> (DiGraph.assoc d))
                              (DiGraph.edges d)) v wps y) as L1.
    pose proof (DiGraphFacts.lookup_with_children d v wps y) as L2.
    unfold with_children in L1, L2. simpl in L1, L2. rewrite L1, L2.
    destruct (find _ wps); [reflexivity|]. apply lookup_insert_ne. exact Hne.
  - rewrite <- app_assoc. reflexivity.
Qed.

Lemma mapM_get_poly d v wps :
  List.NoDup (map fst wps) ->
  forall w, mapM (get_poly (with_children d v wps)) (map fst wps) w = (Ret (map snd wps), w).
Proof.
  intros Hn w.
  assert (H : forall l, incl l wps ->
            mapM (get_poly (with_children d v wps)) (map fst l) w = (Ret (map snd l), w)).
  { induction l as [|[x p] l IH]; intros Hl; [reflexivity|]. simpl.
    unfold bind at 1. unfold get_poly at 1, DiGraph.get_vertex.
    rewrite DiGraphFacts.lookup_with_children.
    assert (Hf : find (fun wp : nat * Poly.poly => Nat.eqb wp.1 x) wps = Some (x, p)).
    { assert (Hin : In (x, p) wps) by (apply Hl; left; reflexivity).
      clear -Hn Hin. induction wps as [|[y q] wps IHw]; [destruct Hin|].
      simpl in *. inversion Hn as [|? ? Hy Hn']; subst.
      destruct Hin as [[= -> ->]|Hin]; [rewrite Nat.eqb_refl; reflexivity|].
      destruct (Nat.eqb_spec y x) as [->|Hne]; [|apply IHw; assumption].
      exfalso. apply Hy. apply in_map_iff. exists (x, p). auto. }
    rewrite Hf. simpl. unfold ret at 1. unfold bind at 1.
    rewrite IH; [reflexivity|]. intros z Hz. apply Hl. right. exact Hz. }
  apply H. intros z Hz. exact Hz.
Qed.

End Steps.

Section BigStep.

Variable canonical_label : Graph.t -> Graph.t.

(** The graphs the loop may meet, what is known of the polynomial of a
    resolved node, and what is known of the cache. *)
Variable adm : Graph.t -> Prop.
Variable Q : Graph.t -> Poly.poly -> Prop.
Variable P : gmap key Poly.poly -> Prop.

Hypothesis adm_components : forall g c,
  adm g -> splits g -> In c (Graph.connected_components_subgraphs g) ->
  adm c /\ (graph_measure c < graph_measure g)%nat.
Hypothesis adm_reduces : forall g u w,
  adm g -> reduces g u w ->
  adm (Graph.delete_edge g u w) /\ adm (contract_edge g u w) /\
  (graph_measure (Graph.delete_edge g u w) < graph_measure g)%nat /\
  (graph_measure (contract_edge g u w) < graph_measure g)%nat.
Hypothesis adm_has_edge : forall g,
  adm g -> Graph.is_empty g = false -> Graph.is_connected g = true ->
  Nat.eqb (Graph.order g) (Graph.size g + 1) = false ->
  Graph.bridges g ++ Graph.edges g <> [].
Hypothesis Q_hit : forall c g p,
  P c -> adm g -> c !! key_of canonical_label g = Some p -> Q g p.
Hypothesis P_store : forall c g p,
  P c -> adm g -> Q g p -> P (<[key_of canonical_label g := p]> c).
Hypothesis Q_empty : forall g, adm g -> Graph.is_empty g = true -> Q g Poly.one.
Hypothesis Q_loops : forall g,
  adm g -> Graph.is_empty g = false -> Graph.has_loops g = true -> Q g Poly.zero.
Hypothesis Q_tree : forall g,
  adm g -> Graph.is_empty g = false -> Graph.has_loops g = false ->
  Graph.is_connected g = true -> Nat.eqb (Graph.order g) (Graph.size g + 1) = true ->
  Q g (Poly.tree_poly (Graph.order g)).
Hypothesis Q_prod : forall g ps,
  adm g -> splits g ->
  Forall2 Q (Graph.connected_components_subgraphs g) ps -> Q g (Poly.prod ps).
Hypothesis Q_diff : forall g u w pa pb,
  adm g -> reduces g u w ->
  Q (Graph.delete_edge g u w) pa -> Q (contract_edge g u w) pb ->
  Q g (Poly.sub pa pb).

Lemma neighbor_out_nil d x :
  (forall e, In e (DiGraph.edges d) -> e.1 <> x) -> DiGraph.neighbor_out d x = [].
Proof.
  intros H. unfold DiGraph.neighbor_out.
  rewrite DiGraphFacts.filter_all_false; [reflexivity|].
  intros e He. apply Nat.eqb_neq. exact (H e He).
Qed.

Lemma dwf_add_child d v x l :
  dwf d -> In v (DiGraph.verts d) ->
  dwf (DiGraph.add_edge
         (DiGraph.set_vertex
            (DiGraph.mk (DiGraph.verts d ++ [x]) (DiGraph.assoc d) (DiGraph.edges d))
            x (VGraph l)) v x).
Proof.
  intros [He Ha] Hv. split; simpl.
  - intros e Hin. apply in_app_or in Hin. destruct Hin as [Hin|[<-|[]]].
    + destruct (He e Hin). split; apply in_or_app; auto.
    + simpl. split; apply in_or_app; [auto | right; left; reflexivity].
  - intros y z. destruct (decide (x = y)) as [->|Hne].
    + intros _. apply in_or_app. right. left. reflexivity.
    + rewrite lookup_insert_ne by exact Hne. intros H. apply in_or_app. left.
      exact (Ha y z H).
Qed.

Lemma spawn_resolve n v :
  resolves canonical_label adm Q P n ->
  forall hs d stk w c,
    (forall h, In h hs -> adm h /\ (graph_measure h < n)%nat) ->
    dwf d -> In v (DiGraph.verts d) -> P c ->
    exists d1 stk1 w1 wps n' c' w2,
      spawn_components v hs d stk w = (Ret (d1, stk1), w1) /\
      steps_to canonical_label n' (CState d1 c stk1) w1
               (CState (with_children d v wps) c' stk) w2 /\
      Forall2 (fun h wp => Q h wp.2) hs wps /\
      (forall x, In x (map fst wps) -> ~ In x (DiGraph.verts d)) /\
      List.NoDup (map fst wps) /\ P c' /\ heap_ext w w2.
Proof.
  intros IHn. induction hs as [|h hs IH]; intros d stk w c Hhs Hd Hv HP.
  - exists d, stk, w, [], 0%nat, c, w. rewrite with_children_nil.
    split; [reflexivity|]. split; [apply steps_to_refl|].
    split; [constructor|]. split; [intros x []|].
    split; [constructor|]. split; [exact HP | apply heap_ext_refl].
  - destruct (alloc_spec h w) as (l1 & wa & Ealloc & Hnone & Hl1 & Hext1).
    destruct (DiGraphFacts.add_vertex_spec d) as (x & Eadd & Hfresh).
    cbn [spawn_components]. unfold bind at 1. rewrite Ealloc, Eadd.
    set (d3 := DiGraph.add_edge
                 (DiGraph.set_vertex
                    (DiGraph.mk (DiGraph.verts d ++ [x]) (DiGraph.assoc d) (DiGraph.edges d))
                    x (VGraph l1)) v x).
    assert (Hd3 : dwf d3) by (apply dwf_add_child; assumption).
    assert (Hv3 : In v (DiGraph.verts d3)) by (simpl; apply in_or_app; auto).
    destruct (IH d3 ((true, x, ("_"%string, [])) :: stk) wa c) as
      (d1 & stk1 & w1 & wps & n1 & c1 & w2 & Es & Hsteps & HQ & Hfr & Hnd & HP1 & Hext2);
      [intros h' Hh'; apply Hhs; right; exact Hh' | exact Hd3 | exact Hv3 | exact HP |].
    assert (Hx : ~ In x (map fst wps)).
    { intros H. apply (Hfr x H). simpl. apply in_or_app. right. left. reflexivity. }
    destruct (Hhs h (or_introl eq_refl)) as [Hadm Hmeas].
    destruct (IHn h Hmeas Hadm (with_children d3 v wps) c1 x ("_"%string, []) stk w2 l1)
      as (n2 & p & c2 & w3 & Hsteps2 & HQp & HP2 & Hframe).
    { unfold DiGraph.get_vertex. rewrite DiGraphFacts.lookup_with_children.
      rewrite DiGraphFacts.find_none_not_in by exact Hx. simpl. apply lookup_insert_eq. }
    { apply Hext2, Hl1. }
    { apply dwf_with_children; assumption. }
    { simpl. apply in_or_app. left. apply in_or_app. right. left. reflexivity. }
    { apply neighbor_out_nil. intros e He. simpl in He.
      destruct Hd as [Hde _].
      apply in_app_or in He. destruct He as [He|He].
      - apply in_app_or in He. destruct He as [He|[<-|[]]].
        + intros E. destruct (Hde e He) as [H1 _]. rewrite E in H1. contradiction.
        + simpl. intros E. rewrite E in Hv. contradiction.
      - apply in_map_iff in He. destruct He as (wp & <- & _). simpl.
        intros E. rewrite E in Hv. contradiction. }
    { exact HP1. }
    exists d1, stk1, w1, ((x, p) :: wps), (n1 + n2)%nat, c2, w3.
    split; [exact Es|]. split.
    { eapply steps_to_trans; [exact Hsteps|].
      unfold d3 in Hsteps2. rewrite with_children_cons in Hsteps2 by exact Hx.
      exact Hsteps2. }
    split; [constructor; assumption|]. split.
    { intros y [<-|Hy]; [exact Hfresh|]. intros Hin. apply (Hfr y Hy).
      simpl. apply in_or_app. left. exact Hin. }
    split; [simpl; constructor; assumption|]. split; [exact HP2|].
    eapply heap_frame_ext; [exact Hnone | | exact Hframe].
    eapply heap_ext_trans; eassumption.
Qed.

Lemma read_spec l w g : heap w !! l = Some g -> read l w = (Ret g, w).
Proof. intros H. unfold read. rewrite H. reflexivity. Qed.

Lemma modify_spec l f w g :
  heap w !! l = Some g ->
  exists w', modify l f w = (Ret tt, w') /\ heap w' !! l = Some (f g) /\
    (forall l', l' <> l -> heap w' !! l' = heap w !! l').
Proof.
  intros H. unfold modify. rewrite H. eexists. split; [reflexivity|]. simpl.
  split; [apply lookup_insert_eq|]. intros l' Hne. apply lookup_insert_ne. congruence.
Qed.

Lemma first_visit_reduce d c stk0 v stk w l g u x :
  DiGraph.get_vertex d v = Some (VGraph l) -> heap w !! l = Some g ->
  c !! key_of canonical_label g = None -> reduces g u x ->
  exists a b la w',
    first_visit canonical_label (CState d c stk0) v stk w
    = (Ret (CState (split_node d v (key_of canonical_label g) a b la l) c
                   ((true, b, ("_"%string, [])) :: (true, a, ("_"%string, []))
                    :: (false, v, ("-"%string, [a; b])) :: stk)), w') /\
    ~ In a (DiGraph.verts d) /\ ~ In b (DiGraph.verts d) /\ a <> b /\
    heap w' !! l = Some (contract_edge g u x) /\
    heap w' !! la = Some (Graph.delete_edge g u x) /\
    heap w !! la = None /\ heap_frame l w w'.
Proof.
  intros Hv Hl Hk (He & Hlo & Hc & Ht & r & Hr).
  unfold first_visit. cbn [cD cache stack]. rewrite Hv.
  unfold bind at 1. rewrite (read_spec l w g Hl), Hk, He, Hlo, Hc, Ht. cbn [negb].
  destruct (DiGraphFacts.add_vertex_spec d) as (a & Ea & Ha). rewrite Ea.
  destruct (DiGraphFacts.add_vertex_spec
              (DiGraph.mk (DiGraph.verts d ++ [a]) (DiGraph.assoc d) (DiGraph.edges d)))
    as (b & Eb & Hb). rewrite Eb. cbn [DiGraph.verts DiGraph.assoc DiGraph.edges].
  rewrite Hr.
  destruct (modify_spec l (fun g => Graph.delete_edge g u x) w g Hl) as (w1 & E1 & L1 & F1).
  unfold bind at 1. rewrite E1.
  unfold bind at 1. rewrite (read_spec l w1 _ L1).
  destruct (alloc_spec (Graph.delete_edge g u x) w1) as (la & w2 & E2 & N2 & L2 & X2).
  unfold bind at 1. rewrite E2.
  assert (Hne : la <> l) by (intros ->; congruence).
  destruct (modify_spec l (fun g => Graph.add_edge g u x) w2 _ (X2 _ _ L1)) as (w3 & E3 & L3 & F3).
  unfold bind at 1. rewrite E3.
  destruct (modify_spec l (fun g => Graph.merge_vertices g u x) w3 _ L3) as (w4 & E4 & L4 & F4).
  unfold bind at 1. rewrite E4.
  destruct (modify_spec l Graph.remove_multiple_edges w4 _ L4) as (w5 & E5 & L5 & F5).
  unfold bind at 1. rewrite E5.
  exists a, b, la, w5. split; [reflexivity|].
  split; [exact Ha|]. split; [intros H; apply Hb; simpl; apply in_or_app; auto|].
  split; [intros ->; apply Hb; simpl; apply in_or_app; right; left; reflexivity|].
  split; [exact L5|].
  split; [rewrite F5, F4, F3 by exact Hne; exact L2|].
  split; [rewrite <- (F1 la Hne); exact N2|].
  intros l' g' Hl' Hg'. rewrite F5, F4, F3 by exact Hl'. apply X2.
  rewrite F1 by exact Hl'. exact Hg'.
Qed.

Lemma split_node_resolved d v k a b la l pa pb :
  a <> b ->
  DiGraph.set_vertex (DiGraph.set_vertex (split_node d v k a b la l) b (VPoly pb)) a (VPoly pa)
  = with_children (DiGraph.set_vertex d v (VKey k)) v [(a, pa); (b, pb)].
Proof.
  intros Hab. unfold split_node, with_children, DiGraph.set_vertex, DiGraph.add_edge.
  simpl. f_equal.
  - rewrite <- app_assoc. reflexivity.
  - apply map_eq. intros y. rewrite !lookup_insert.
    repeat case_decide; subst; try reflexivity; congruence.
  - rewrite <- app_assoc. reflexivity.
Qed.

Lemma neighbor_out_set_vertex d v x y :
  DiGraph.neighbor_out (DiGraph.set_vertex d v x) y = DiGraph.neighbor_out d y.
Proof. reflexivity. Qed.

Lemma set_vertex_twice d v x y :
  DiGraph.set_vertex (DiGraph.set_vertex d v x) v y = DiGraph.set_vertex d v y.
Proof.
  unfold DiGraph.set_vertex. simpl. f_equal. apply insert_insert_eq.
Qed.

(** A pending node whose graph is not connected, when the loop resolves the
    nodes of the components: the node gets the product of their
    polynomials, and the cache gets it under the key of the graph. *)
Lemma split_steps n g d c v c0 rest w l :
  resolves canonical_label adm Q P n ->
  (forall h, In h (Graph.connected_components_subgraphs g) ->
     adm h /\ (graph_measure h < n)%nat) ->
  splits g -> c !! key_of canonical_label g = None ->
  DiGraph.get_vertex d v = Some (VGraph l) -> heap w !! l = Some g ->
  dwf d -> In v (DiGraph.verts d) -> DiGraph.neighbor_out d v = [] -> P c ->
  exists n' ps c1 w',
    steps_to canonical_label n' (CState d c ((true, v, c0) :: rest)) w
             (CState (DiGraph.set_vertex d v (VPoly (Poly.prod ps)))
                     (<[key_of canonical_label g := Poly.prod ps]> c1) rest) w' /\
    Forall2 Q (Graph.connected_components_subgraphs g) ps /\ P c1 /\ heap_frame l w w'.
Proof.
  intros IHn Hcs Hsp Ek Hv Hl Hd Hin Hout HP.
  pose proof (eq_refl (first_visit canonical_label (CState d c ((true, v, c0) :: rest)) v rest w))
    as E.
  unfold first_visit at 2 in E. cbn [cD cache stack] in E. rewrite Hv in E.
  unfold bind at 1 in E. rewrite (read_spec l w g Hl) in E. rewrite Ek in E.
  destruct Hsp as (Ee & Elo & Ec). rewrite Ee, Elo, Ec in E. cbn [negb] in E.
  set (k := key_of canonical_label g) in *.
  assert (Hd1 : dwf (DiGraph.set_vertex d v (VKey k))) by (apply DiGraphFacts.dwf_set_vertex; assumption).
  destruct (spawn_resolve n v IHn (Graph.connected_components_subgraphs g)
              (DiGraph.set_vertex d v (VKey k)) ((false, v, ("*"%string, [])) :: rest) w c)
    as (d1 & stk1 & w1 & wps & n1 & c1 & w2 & Es & Hsteps & HQ & Hfr & Hnd & HP1 & Hext);
    [exact Hcs | exact Hd1 | exact Hin | exact HP |].
  unfold bind at 1 in E. rewrite Es in E. cbn in E.
  exists (1 + n1 + 1)%nat, (map snd wps), c1, w2.
  split.
  { eapply steps_to_trans; [eapply steps_to_trans; [apply steps_to_one, E | exact Hsteps]|].
    apply steps_to_one. unfold cache_step. cbn [fst snd String.eqb Ascii.eqb Bool.eqb].
    cbn [cD cache stack].
    assert (Hkey : get_key (with_children (DiGraph.set_vertex d v (VKey k)) v wps) v w2
                   = (Ret k, w2)).
    { unfold get_key, DiGraph.get_vertex. rewrite DiGraphFacts.lookup_with_children.
      rewrite DiGraphFacts.find_none_not_in
        by (intros H; exact (Hfr v H Hin)).
      simpl. rewrite lookup_insert_eq. reflexivity. }
    unfold bind at 1. rewrite Hkey.
    rewrite (DiGraphFacts.neighbor_out_with_children _ v wps)
      by (rewrite neighbor_out_set_vertex; exact Hout).
    unfold bind at 1. rewrite (mapM_get_poly _ _ _ Hnd w2).
    unfold ret. f_equal. unfold resolve. cbn [cD cache stack].
    rewrite neighbor_out_set_vertex.
    rewrite (DiGraphFacts.neighbor_out_with_children _ v wps)
      by (rewrite neighbor_out_set_vertex; exact Hout).
    rewrite (DiGraphFacts.delete_children _ v wps _ Hd1 Hin Hfr).
    rewrite set_vertex_twice. reflexivity. }
  split; [|split; [exact HP1 | apply heap_ext_frame, Hext]].
  clear -HQ. induction HQ; simpl; constructor; assumption.
Qed.

(** The loop resolves every pending node: after some rounds the node holds
    a polynomial, the digraph and the stack are otherwise as before, and the
    other graph objects are untouched. *)
Lemma resolves_all : forall n, resolves canonical_label adm Q P n.
Proof.
  induction n as [|n IHn]; intros g Hm Ha d c v c0 rest w l Hv Hl Hd Hin Hout HP; [lia|].
  assert (Hstep : forall st' w',
            first_visit canonical_label (CState d c ((true, v, c0) :: rest)) v rest w
            = (Ret st', w') ->
            steps_to canonical_label 1 (CState d c ((true, v, c0) :: rest)) w st' w').
  { intros st' w' H. apply steps_to_one. exact H. }
  assert (Hbase : forall p, Q g p ->
            first_visit canonical_label (CState d c ((true, v, c0) :: rest)) v rest w
            = (Ret (resolve (CState d c ((true, v, c0) :: rest)) v
                            (key_of canonical_label g) p rest), w) ->
            exists n' p c' w',
              steps_to canonical_label n' (CState d c ((true, v, c0) :: rest)) w
                       (CState (DiGraph.set_vertex d v (VPoly p)) c' rest) w' /\
              Q g p /\ P c' /\ heap_frame l w w').
  { intros p HQ E. exists 1%nat, p, (<[key_of canonical_label g := p]> c), w.
    split; [apply Hstep, E|]. split; [exact HQ|].
    split; [apply P_store; assumption | apply heap_ext_frame, heap_ext_refl]. }
  pose proof (eq_refl (first_visit canonical_label (CState d c ((true, v, c0) :: rest)) v rest w))
    as E.
  unfold first_visit at 2 in E. cbn [cD cache stack] in E. rewrite Hv in E.
  unfold bind at 1 in E. rewrite (read_spec l w g Hl) in E.
  destruct (c !! key_of canonical_label g) as [p|] eqn:Ek.
  { exists 1%nat, p, c, w. split; [apply Hstep, E|].
    split; [eapply Q_hit; eassumption|].
    split; [exact HP | apply heap_ext_frame, heap_ext_refl]. }
  destruct (Graph.is_empty g) eqn:Ee; [apply (Hbase _ (Q_empty g Ha Ee) E)|].
  destruct (Graph.has_loops g) eqn:Elo; [apply (Hbase _ (Q_loops g Ha Ee Elo) E)|].
  destruct (Graph.is_connected g) eqn:Ec; cbn [negb] in E.
  2:{ (* the product over the components *)
    clear Hbase E.
    assert (Hsp : splits g) by (repeat split; assumption).
    destruct (split_steps n g d c v c0 rest w l IHn) as (n' & ps & c1 & w' & Hs & HQ & HP1 & Hfr);
      try assumption.
    { intros h Hh. destruct (adm_components g h Ha Hsp Hh). split; [assumption | lia]. }
    exists n', (Poly.prod ps), (<[key_of canonical_label g := Poly.prod ps]> c1), w'.
    split; [exact Hs|].
    assert (HQg : Q g (Poly.prod ps)) by (apply Q_prod; assumption).
    split; [exact HQg|]. split; [apply P_store; assumption | exact Hfr]. }
  destruct (Nat.eqb (Graph.order g) (Graph.size g + 1)) eqn:Et;
    [apply (Hbase _ (Q_tree g Ha Ee Elo Ec Et) E)|].
  (* deletion and contraction *)
  clear Hbase E.
  destruct (Graph.bridges g ++ Graph.edges g) as [|[u x] r] eqn:Er;
    [exfalso; exact (adm_has_edge g Ha Ee Ec Et Er)|].
  assert (Hred : reduces g u x) by (repeat split; try assumption; exists r; exact Er).
  destruct (adm_reduces g u x Ha Hred) as (Ha1 & Ha2 & Hm1 & Hm2).
  set (k := key_of canonical_label g) in *.
  destruct (first_visit_reduce d c ((true, v, c0) :: rest) v rest w l g u x Hv Hl Ek Hred)
    as (a & b & la & w1 & E & Hna & Hnb & Hab & Lb & La & Nla & Fr1).
  fold k in E.
  set (d6 := split_node d v k a b la l) in *.
  assert (Hd6 : dwf d6).
  { destruct Hd as [Hde Hda]. split.
    - intros e He. unfold d6, split_node in *. simpl in *.
      apply in_app_or in He. destruct He as [He|[<-|[]]].
      + apply in_app_or in He. destruct He as [He|[<-|[]]].
        * destruct (Hde e He). split; apply in_or_app; left; apply in_or_app; auto.
        * simpl. split; apply in_or_app; left; apply in_or_app; [auto|right; left; reflexivity].
      + simpl. split; apply in_or_app; [left; apply in_or_app; auto | right; left; reflexivity].
    - intros y z. unfold d6, split_node. simpl. rewrite !lookup_insert.
      repeat case_decide; subst; intros Hy.
      + apply in_or_app. right. left. reflexivity.
      + apply in_or_app. left. apply in_or_app. right. left. reflexivity.
      + apply in_or_app. left. apply in_or_app. left. exact Hin.
      + apply in_or_app. left. apply in_or_app. left. exact (Hda y z Hy). }
  assert (Hedges : forall e, In e (DiGraph.edges d6) -> e.1 <> a /\ e.1 <> b).
  { intros e He. unfold d6, split_node in He. simpl in He. destruct Hd as [Hde _].
    apply in_app_or in He. destruct He as [He|[<-|[]]].
    - apply in_app_or in He. destruct He as [He|[<-|[]]].
      + destruct (Hde e He) as [H1 _]. split; intros E1; rewrite E1 in H1; contradiction.
      + simpl. split; intros E1; rewrite E1 in Hin; contradiction.
    - simpl. split; intros E1; rewrite E1 in Hin; contradiction. }
  (* the contracted graph first *)
  destruct (IHn (contract_edge g u x) ltac:(lia) Ha2 d6 c b ("_"%string, [])
              ((true, a, ("_"%string, [])) :: (false, v, ("-"%string, [a; b])) :: rest) w1 l)
    as (n1 & pb & c1 & w2 & S1 & Qb & P1 & Fr2).
  { unfold d6, split_node, DiGraph.get_vertex. simpl. apply lookup_insert_eq. }
  { exact Lb. }
  { exact Hd6. }
  { unfold d6, split_node. simpl. apply in_or_app. right. left. reflexivity. }
  { apply neighbor_out_nil. intros e He. apply (Hedges e He). }
  { exact HP. }
  (* then the graph without the edge *)
  destruct (IHn (Graph.delete_edge g u x) ltac:(lia) Ha1 (DiGraph.set_vertex d6 b (VPoly pb))
              c1 a ("_"%string, []) ((false, v, ("-"%string, [a; b])) :: rest) w2 la)
    as (n2 & pa & c2 & w3 & S2 & Qa & P2 & Fr3).
  { unfold d6, split_node, DiGraph.get_vertex. simpl.
    rewrite lookup_insert_ne by congruence. rewrite lookup_insert_ne by congruence.
    apply lookup_insert_eq. }
  { apply Fr2; [intros ->; congruence | exact La]. }
  { apply DiGraphFacts.dwf_set_vertex; [exact Hd6|].
    unfold d6, split_node. simpl. apply in_or_app. right. left. reflexivity. }
  { unfold d6, split_node. simpl. apply in_or_app. left. apply in_or_app. right. left. reflexivity. }
  { rewrite neighbor_out_set_vertex. apply neighbor_out_nil. intros e He. apply (Hedges e He). }
  { exact P1. }
  unfold d6 in S2. rewrite split_node_resolved in S2 by exact Hab.
  assert (Hd1 : dwf (DiGraph.set_vertex d v (VKey k))) by (apply DiGraphFacts.dwf_set_vertex; assumption).
  assert (Hfr : forall y, In y (map fst [(a, pa); (b, pb)]) ->
                  ~ In y (DiGraph.verts (DiGraph.set_vertex d v (VKey k)))).
  { intros y [<-|[<-|[]]]; assumption. }
  exists (1 + n1 + n2 + 1)%nat, (Poly.sub pa pb), (<[k := Poly.sub pa pb]> c2), w3.
  split.
  { eapply steps_to_trans;
      [eapply steps_to_trans; [eapply steps_to_trans; [apply Hstep, E | exact S1] | exact S2]|].
    apply steps_to_one. unfold cache_step. cbn [fst snd String.eqb Ascii.eqb Bool.eqb].
    cbn [cD cache stack].
    assert (Hkey : get_key (with_children (DiGraph.set_vertex d v (VKey k)) v
                              [(a, pa); (b, pb)]) v w3 = (Ret k, w3)).
    { unfold get_key, DiGraph.get_vertex. rewrite DiGraphFacts.lookup_with_children.
      rewrite DiGraphFacts.find_none_not_in by (intros H; exact (Hfr v H Hin)).
      simpl. rewrite lookup_insert_eq. reflexivity. }
    unfold bind at 1. rewrite Hkey.
    assert (Hpa : get_poly (with_children (DiGraph.set_vertex d v (VKey k)) v
                              [(a, pa); (b, pb)]) a w3 = (Ret pa, w3)).
    { unfold get_poly, DiGraph.get_vertex. rewrite DiGraphFacts.lookup_with_children.
      simpl. rewrite Nat.eqb_refl. reflexivity. }
    assert (Hpb : get_poly (with_children (DiGraph.set_vertex d v (VKey k)) v
                              [(a, pa); (b, pb)]) b w3 = (Ret pb, w3)).
    { unfold get_poly, DiGraph.get_vertex. rewrite DiGraphFacts.lookup_with_children.
      simpl. destruct (Nat.eqb_spec a b); [contradiction|].
      rewrite Nat.eqb_refl. reflexivity. }
    unfold bind at 1. rewrite Hpa. unfold bind at 1. rewrite Hpb.
    unfold ret. f_equal. unfold resolve. cbn [cD cache stack].
    rewrite neighbor_out_set_vertex.
    rewrite (DiGraphFacts.neighbor_out_with_children _ v [(a, pa); (b, pb)])
      by (rewrite neighbor_out_set_vertex; exact Hout).
    rewrite (DiGraphFacts.delete_children _ v [(a, pa); (b, pb)] _ Hd1 Hin Hfr).
    rewrite set_vertex_twice. reflexivity. }
  assert (HQg : Q g (Poly.sub pa pb)) by (eapply Q_diff; eassumption).
  split; [exact HQg|]. split; [apply P_store; assumption|].
  intros l' g' Hl' Hg'. apply Fr3; [intros ->; congruence|].
  apply Fr2; [exact Hl'|]. apply Fr1; [exact Hl' | exact Hg'].
Qed.

End BigStep.

(** ** Well formed graphs *)

Module WfFacts.
Import Graph GraphFacts EdgeFacts.

Lemma nodupb_NoDup l : nodupb l = true <-> List.NoDup l.
Proof.
  induction l as [|x l IH]; simpl.
  - split; [constructor | reflexivity].
  - rewrite andb_true_iff, negb_true_iff, memb_false, IH. split.
    + intros [H1 H2]. constructor; assumption.
    + intros H. inversion H; subst. auto.
Qed.

Lemma wf_spec g : wf g = true <-> List.NoDup (verts g) /\ closed_graph g.
Proof.
  unfold wf, closed_graph. rewrite andb_true_iff, nodupb_NoDup, forallb_forall.
  split; intros [H1 H2]; (split; [exact H1|]); intros e He; specialize (H2 e He).
  - apply andb_true_iff in H2. rewrite !memb_In in H2. exact H2.
  - apply andb_true_iff. rewrite !memb_In. exact H2.
Qed.

Lemma wf_subgraph g vs : wf g = true -> wf (subgraph g vs) = true.
Proof.
  rewrite !wf_spec. intros [H1 H2]. split; [|apply subgraph_closed, H2].
  unfold subgraph. simpl. apply List.NoDup_filter, H1.
Qed.

Lemma wf_delete_edge g u w : wf g = true -> wf (delete_edge g u w) = true.
Proof.
  rewrite !wf_spec. intros [H1 H2]. split; [exact H1 | apply delete_edge_closed, H2].
Qed.

Lemma wf_contract g u w :
  wf g = true -> has_loops g = false -> In (u, w) (edges g) ->
  wf (contract_edge g u w) = true.
Proof.
  rewrite !wf_spec. intros [H1 H2] Hl He. destruct (H2 _ He) as [Hu Hw]. split.
  - unfold contract_edge, remove_multiple_edges, merge_vertices. simpl.
    apply List.NoDup_filter, H1.
  - apply contract_closed; try assumption. eapply no_loops_neq; eassumption.
Qed.

Lemma wf_remove_multiple_edges g : wf g = true -> wf (remove_multiple_edges g) = true.
Proof.
  rewrite !wf_spec. intros [H1 H2]. split; [exact H1 | apply remove_multiple_edges_closed, H2].
Qed.

Lemma wf_remove_loops g : wf g = true -> wf (remove_loops g) = true.
Proof.
  rewrite !wf_spec. intros [H1 H2]. split; [exact H1|].
  intros e He. unfold remove_loops in He. simpl in He.
  apply List.filter_In in He. exact (H2 e (proj1 He)).
Qed.

Lemma index_of_lt x l : In x l -> (index_of x l < length l)%nat.
Proof.
  induction l as [|y l IH]; simpl; [tauto|].
  destruct (Nat.eqb_spec x y); [lia|]. intros [->|H]; [congruence|]. specialize (IH H). lia.
Qed.

Lemma wf_relabel g : wf g = true -> wf (relabel g) = true.
Proof.
  rewrite !wf_spec. intros [H1 H2]. split; [apply seq_NoDup|].
  intros e He. unfold relabel in *. simpl in *.
  apply in_map_iff in He. destruct He as (f & <- & Hf). destruct (H2 f Hf) as [V1 V2].
  simpl. rewrite !in_seq. unfold order.
  pose proof (index_of_lt _ _ V1). pose proof (index_of_lt _ _ V2). lia.
Qed.

(** A connected graph on a single walk class that is not a tree has an edge. *)
Lemma connected_has_edge g :
  wf g = true -> is_empty g = false -> is_connected g = true ->
  Nat.eqb (order g) (size g + 1) = false ->
  bridges g ++ edges g <> [].
Proof.
  intros Hwf He Hc Ht H. apply app_eq_nil in H. destruct H as [_ Hedges].
  apply wf_spec in Hwf. destruct Hwf as [Hn _].
  unfold is_empty, order, size in *. rewrite Hedges in Ht. simpl in Ht.
  unfold is_connected in Hc.
  destruct (verts g) as [|v0 [|v1 vs]] eqn:Ev; simpl in *; try discriminate.
  apply andb_true_iff in Hc. destruct Hc as [_ Hc].
  apply andb_true_iff in Hc. destruct Hc as [Hc _].
  apply memb_In in Hc.
  assert (Hv0 : In v0 (verts g)) by (rewrite Ev; left; reflexivity).
  apply in_component in Hc; [|exact Hv0].
  assert (Hall : forall x, conn g v0 x -> x = v0).
  { intros x Hx. induction Hx as [|y z _ _ Hnb]; [reflexivity|].
    apply in_neighbors in Hnb. destruct Hnb as [_ Hh].
    unfold has_edge in Hh. rewrite Hedges in Hh. discriminate. }
  apply Hall in Hc. subst v1. inversion Hn as [|? ? Hnot _]. apply Hnot. left. reflexivity.
Qed.

End WfFacts.

(** ** The constant term *)

Section ConstantTerm.
Import Graph GraphFacts EdgeFacts WfFacts.

Variable canonical_label : Graph.t -> Graph.t.

Let adm5 (g : Graph.t) : Prop := wf g = true /\ (1 <= order g)%nat.
Let Q5 (_ : Graph.t) (p : Poly.poly) : Prop := Poly.coeff p 0 = 0.
Let P5 (c : gmap key Poly.poly) : Prop := forall k p, c !! k = Some p -> Poly.coeff p 0 = 0.

Lemma coeff_prod_0 ps :
  ps <> [] -> Forall (fun p => Poly.coeff p 0 = 0) ps -> Poly.coeff (Poly.prod ps) 0 = 0.
Proof.
  intros Hne H. destruct H as [|p ps Hp _]; [congruence|].
  simpl. rewrite PolyFacts.coeff_mul_0, Hp. lia.
Qed.

Lemma coeff_tree_poly_0 n : Poly.coeff (Poly.tree_poly n) 0 = 0.
Proof. unfold Poly.tree_poly. rewrite PolyFacts.coeff_mul_gen. reflexivity. Qed.

Lemma adm5_component g c :
  adm5 g -> In c (connected_components_subgraphs g) -> adm5 c.
Proof.
  intros [Hw _] Hc. apply in_components in Hc. destruct Hc as (v & Hv & ->).
  split; [apply wf_subgraph, Hw | apply subgraph_order_pos, Hv].
Qed.

Lemma reduces_edge g u w : reduces g u w -> In (u, w) (edges g).
Proof. intros (_ & _ & _ & _ & r & Hr). eapply first_edge_in, Hr. Qed.

Lemma adm5_reduces g u w :
  adm5 g -> reduces g u w ->
  adm5 (delete_edge g u w) /\ adm5 (contract_edge g u w) /\
  (graph_measure (delete_edge g u w) < graph_measure g)%nat /\
  (graph_measure (contract_edge g u w) < graph_measure g)%nat.
Proof.
  intros [Hw Ho] Hr. pose proof (reduces_edge g u w Hr) as He.
  destruct Hr as (_ & Hl & _).
  pose proof (proj1 (wf_spec g) Hw) as [_ Hc]. destruct (Hc _ He) as [Hu Hx].
  split; [split; [apply wf_delete_edge, Hw | exact Ho]|].
  split; [split; [apply wf_contract; assumption|]|].
  - assert (H : In u (verts (contract_edge g u w))).
    { apply contract_verts. split; [exact Hu | eapply no_loops_neq; eassumption]. }
    unfold order. destruct (verts (contract_edge g u w)); [destruct H | simpl; lia].
  - split; [apply delete_edge_measure, He | apply contract_measure; assumption].
Qed.

Lemma resolves_const : forall n, resolves canonical_label adm5 Q5 P5 n.
Proof.
  apply resolves_all.
  - intros g c Ha (He & Hl & Hc) Hin.
    split; [eapply adm5_component; eassumption | apply component_subgraph_smaller; assumption].
  - apply adm5_reduces.
  - intros g [Hw _]. apply connected_has_edge, Hw.
  - intros c g p HP _ Hk. exact (HP _ _ Hk).
  - intros c g p HP _ HQ k q. rewrite lookup_insert.
    case_decide; [intros [= <-]; exact HQ | apply HP].
  - intros g [_ Ho] He. unfold is_empty in He. apply Nat.eqb_eq in He. lia.
  - intros. reflexivity.
  - intros. apply coeff_tree_poly_0.
  - intros g ps Ha (He & _) HF. apply coeff_prod_0.
    + pose proof (components_nonempty g He) as Hne. intros ->.
      inversion HF; subst. congruence.
    + clear -HF. induction HF; constructor; assumption.
  - intros g u w pa pb _ _ Ha Hb. unfold Q5 in *.
    rewrite PolyFacts.coeff_sub, Ha, Hb. reflexivity.
Qed.

(** More fuel does not change what the loop returns. *)
Lemma cache_loop_mono fuel : forall st w r w1,
  cache_loop canonical_label fuel st w = (Ret r, w1) ->
  forall fuel', (fuel <= fuel')%nat ->
  cache_loop canonical_label fuel' st w = (Ret r, w1).
Proof.
  induction fuel as [|fuel IH]; intros st w r w1 H fuel' Hle.
  - simpl in H. destruct (stack st) eqn:E; [|discriminate].
    destruct fuel'; simpl; rewrite E; exact H.
  - destruct fuel' as [|fuel']; [lia|]. simpl in *.
    destruct (stack st) as [|e stk]; [exact H|].
    unfold bind in *.
    destruct (cache_step canonical_label st e stk w) as [[st'|x] w']; [|discriminate].
    apply IH; [exact H | lia].
Qed.

(** On a well formed graph with a vertex the cached algorithm returns, given
    enough fuel, and what it returns has no constant term. *)
Lemma with_cache_const G w g :
  heap w !! G = Some g -> wf g = true -> (1 <= order g)%nat ->
  exists n p w',
    (forall fuel, chromatic_polynomial_with_cache canonical_label (n + fuel) G w = (Ret p, w')) /\
    Poly.coeff p 0 = 0.
Proof.
  intros Hg Hw Ho. unfold chromatic_polynomial_with_cache.
  assert (He : is_empty g = false) by (unfold is_empty; apply Nat.eqb_neq; lia).
  destruct (has_loops g) eqn:Hl.
  { exists 0%nat, Poly.zero, w. split; [|reflexivity].
    intros fuel. unfold bind. rewrite (read_spec G w g Hg), He, Hl. reflexivity. }
  destruct (alloc_spec (relabel g) w) as (G' & w1 & Ea & Hn & L1 & X1).
  destruct (modify_spec G' remove_multiple_edges w1 _ L1) as (w2 & Em & L2 & F2).
  set (g' := remove_multiple_edges (relabel g)) in *.
  assert (Ha : adm5 g').
  { split; [apply wf_remove_multiple_edges, wf_relabel, Hw|].
    unfold g', order, remove_multiple_edges, relabel. simpl. rewrite length_seq. exact Ho. }
  set (d := DiGraph.set_vertex DiGraph.init1 0 (VGraph G')).
  destruct (resolves_const (S (graph_measure g')) g' ltac:(lia) Ha d ∅ 0%nat
              ("_"%string, []) [] w2 G')
    as (n & p & c' & w3 & Hs & HQ & _ & _).
  { unfold d, DiGraph.get_vertex. simpl. apply lookup_insert_eq. }
  { exact L2. }
  { split; simpl; [intros e [] |].
    intros x y. rewrite lookup_insert. case_decide; [subst; auto | rewrite lookup_empty; discriminate]. }
  { simpl. auto. }
  { reflexivity. }
  { intros k q. rewrite lookup_empty. discriminate. }
  exists n, p, w3. split; [|exact HQ]. intros fuel.
  unfold bind at 1. rewrite (read_spec G w g Hg), He, Hl.
  unfold bind at 1. rewrite Ea. unfold bind at 1. rewrite Em.
  unfold bind at 1. fold d. rewrite Hs.
  destruct fuel; simpl; unfold get_poly, DiGraph.get_vertex; simpl;
    rewrite lookup_insert_eq; reflexivity.
Qed.

Lemma with_cache_mono fuel G w p w' :
  chromatic_polynomial_with_cache canonical_label fuel G w = (Ret p, w') ->
  forall fuel', (fuel <= fuel')%nat ->
  chromatic_polynomial_with_cache canonical_label fuel' G w = (Ret p, w').
Proof.
  unfold chromatic_polynomial_with_cache. intros H fuel' Hle.
  unfold bind at 1 in H. unfold bind at 1.
  destruct (read G w) as [[g|x] w0]; [|discriminate].
  destruct (is_empty g); [exact H|]. destruct (has_loops g); [exact H|].
  unfold bind at 1 in H. unfold bind at 1.
  destruct (alloc (relabel g) w0) as [[G'|x] w1]; [|discriminate].
  unfold bind at 1 in H. unfold bind at 1.
  destruct (modify G' remove_multiple_edges w1) as [[u|x] w2]; [|discriminate].
  unfold bind at 1 in H. unfold bind at 1.
  destruct (cache_loop canonical_label fuel _ w2) as [[st|x] w3] eqn:E; [|discriminate].
  rewrite (cache_loop_mono _ _ _ _ _ E fuel' Hle). exact H.
Qed.

End ConstantTerm.

Section ConstantTermC.
Import Graph GraphFacts.

Variable canonical_label : Graph.t -> Graph.t.

Lemma nth0_addmul (c : list Z) k a b : k <> 0%nat -> nth 0 (addmul c k a b) 0 = nth 0 c 0.
Proof.
  intros H. unfold addmul. rewrite !nth_lookup, list_lookup_insert_ne by exact H.
  reflexivity.
Qed.

Lemma nth0_binomial_loop m ti i : forall steps j coeff coeffs,
  (1 <= j)%nat -> (j + steps <= i)%nat ->
  nth 0 (binomial_loop m ti i j steps coeff coeffs) 0 = nth 0 coeffs 0.
Proof.
  induction steps as [|s IH]; intros j coeff coeffs Hj Hi; [reflexivity|].
  cbn [binomial_loop]. rewrite IH by lia. apply nth0_addmul. lia.
Qed.

Lemma nth0_assemble_from tot : forall i m c,
  nth 0 (snd (assemble_from tot i (m, c))) 0 = nth 0 c 0.
Proof.
  induction i as [|i IH]; intros m c; [reflexivity|].
  cbn [assemble_from]. unfold assemble_body.
  destruct (Z.sgn (nth (S i) tot 0) =? 0); [apply IH|].
  rewrite IH, nth0_binomial_loop by lia. apply nth0_addmul. lia.
Qed.

(** The assembly never writes the coefficient of degree 0. *)
Lemma assemble_const tot n : Poly.coeff (Poly.of_coeffs (assemble tot n)) 0 = 0.
Proof.
  unfold Poly.of_coeffs. rewrite PolyFacts.coeff_norm. unfold Poly.coeff, assemble.
  rewrite nth0_assemble_from. apply nth_repeat_0.
Qed.

Lemma chromatic_polynomial_main_const G w p w' :
  chromatic_polynomial_main G w = (Ret p, w') -> Poly.coeff p 0 = 0.
Proof.
  unfold chromatic_polynomial_main. intros H. inv_bind H.
  injection H as <- _. apply assemble_const.
Qed.

Lemma mapM_alloc_spec gs : forall w,
  exists hs w', mapM alloc gs w = (Ret hs, w') /\
    Forall2 (fun h g => heap w' !! h = Some g) hs gs /\ frame w w'.
Proof.
  induction gs as [|g gs IH]; intros w.
  - exists [], w. split; [reflexivity|]. split; [constructor | intros l g H; exact H].
  - destruct (alloc_spec g w) as (l & w1 & Ea & _ & Hl & X1).
    destruct (IH w1) as (hs & w2 & Em & HF & X2).
    exists (l :: hs), w2. split.
    + simpl. unfold bind at 1. rewrite Ea. unfold bind at 1. rewrite Em. reflexivity.
    + split; [constructor; [apply X2, Hl | exact HF]|].
      intros l' g' H. apply X2, X1, H.
Qed.

Lemma mapM_calls_const (f : nat -> M Poly.poly) :
  (forall h w c p w', heap w !! h = Some c -> (1 <= order c)%nat ->
     f h w = (Ret p, w') -> Poly.coeff p 0 = 0) ->
  (forall h w, frame w (snd (f h w))) ->
  forall hs w ps w',
    (forall h, In h hs -> exists c, heap w !! h = Some c /\ (1 <= order c)%nat) ->
    mapM f hs w = (Ret ps, w') ->
    Forall (fun p => Poly.coeff p 0 = 0) ps /\ length ps = length hs.
Proof.
  intros Hf Hfr. induction hs as [|h hs IH]; intros w ps w' Hhs H.
  - simpl in H. injection H as <- _. split; [constructor | reflexivity].
  - simpl in H. inv_bind H. injection H as <- _.
    match goal with H1 : f h w = _, H2 : mapM f hs _ = _ |- _ =>
      rename H1 into E1; rename H2 into E2 end.
    destruct (Hhs h (or_introl eq_refl)) as (c & Hc & Ho).
    pose proof (Hf _ _ _ _ _ Hc Ho E1) as Hp.
    pose proof (Hfr h w) as Hw. rewrite E1 in Hw. simpl in Hw.
    destruct (IH _ _ _ (fun h' Hh' =>
                match Hhs h' (or_intror Hh') with
                | ex_intro _ c' (conj A B) => ex_intro _ c' (conj (Hw _ _ A) B)
                end) E2) as [HF Hlen].
    split; [constructor; assumption | simpl; lia].
Qed.

Lemma components_heap g hs w1 :
  Forall2 (fun h c => heap w1 !! h = Some c) hs (connected_components_subgraphs g) ->
  forall h, In h hs -> exists c, heap w1 !! h = Some c /\ (1 <= order c)%nat.
Proof.
  assert (Hall : forall c, In c (connected_components_subgraphs g) -> (1 <= order c)%nat).
  { intros c Hc. apply in_components in Hc. destruct Hc as (v & Hv & ->).
    apply subgraph_order_pos, Hv. }
  revert Hall. generalize (connected_components_subgraphs g). intros cs Hall HF.
  induction HF as [|h0 c0 hs0 cs0 H0 _ IHF]; intros h Hh; [destruct Hh|].
  destruct Hh as [<-|Hh].
  - exists c0. split; [exact H0 | apply Hall; left; reflexivity].
  - apply IHF; [|exact Hh]. intros c Hc. apply Hall. right. exact Hc.
Qed.

Lemma chromatic_polynomial_C_const depth steps : forall G a w g p w',
  String.eqb (lower a) "python" = false ->
  heap w !! G = Some g -> (1 <= order g)%nat ->
  chromatic_polynomial canonical_label depth steps G a w = (Ret p, w') ->
  Poly.coeff p 0 = 0.
Proof.
  induction depth as [|depth IH]; intros G a w g p w' Hpy Hg Ho H;
    cbn [chromatic_polynomial] in H.
  all: destruct (negb _) eqn:Hin; [discriminate|].
  all: rewrite Hpy in H.
  all: unfold bind at 1 in H; rewrite (read_spec G w g Hg) in H.
  all: assert (He : is_empty g = false) by (unfold is_empty; apply Nat.eqb_neq; lia).
  all: rewrite He in H.
  all: destruct (has_loops g); [injection H as <- _; reflexivity|].
  all: destruct (is_connected g) eqn:Hc; cbn [negb] in H.
  all: try (destruct (is_tree g);
            [injection H as <- _; apply coeff_tree_poly_0
            | eapply chromatic_polynomial_main_const; exact H]).
  all: destruct (mapM_alloc_spec (connected_components_subgraphs g) w)
         as (hs & w1 & Em & HF & _).
  all: unfold bind at 1 in H; rewrite Em in H.
  all: pose proof (components_nonempty g He) as Hne.
  all: pose proof (components_heap g hs w1 HF) as Hhs.
  all: assert (Hhs_ne : hs <> [])
         by (intros ->; inversion HF; congruence).
  - destruct hs as [|h hs]; [contradiction|]. discriminate.
  - inv_bind H. injection H as <- _.
    match goal with E2 : mapM _ hs w1 = _ |- _ =>
      eapply mapM_calls_const in E2; [destruct E2 as [HFp Hlen]| | |exact Hhs] end.
    + apply coeff_prod_0; [|exact HFp]. intros ->. destruct hs; [contradiction | discriminate].
    + intros h w0 c q w0' Hh Hoc E. exact (IH h "C"%string w0 c q w0' eq_refl Hh Hoc E).
    + intros h w0.
      pose proof (chromatic_polynomial_frame canonical_label w0 depth steps h "C" w0
                    (fun _ _ H => H)) as Hfr.
      destruct (chromatic_polynomial _ _ _ _ _ w0) as [[q|xa] w0']; simpl;
        [destruct Hfr as [Hfr _]|]; exact Hfr.
Qed.

End ConstantTermC.

(** On a well formed graph with at least one vertex, whatever
    [chromatic_polynomial] returns, with either algorithm, has the
    coefficient 0 at degree 0. *)
Lemma constant_term_of_result (canonical_label : Graph.t -> Graph.t)
  (depth steps G : nat) (algorithm : string) (w w' : world) (g : Graph.t)
  (p : Poly.poly) :
  heap w !! G = Some g ->
  Graph.wf g = true ->
  (1 <= Graph.order g)%nat ->
  chromatic_polynomial canonical_label depth steps G algorithm w = (Ret p, w') ->
  Poly.coeff p 0 = 0.
Proof.
  intros Hg Hw Ho H.
  destruct (String.eqb (lower algorithm) "python") eqn:Hpy.
  - assert (E : chromatic_polynomial canonical_label depth steps G algorithm w
                = chromatic_polynomial_with_cache canonical_label steps G w).
    { destruct depth; cbn [chromatic_polynomial]; rewrite Hpy;
        apply String.eqb_eq in Hpy; rewrite Hpy; reflexivity. }
    rewrite E in H.
    destruct (with_cache_const canonical_label G w g Hg Hw Ho) as (n & q & w1 & Hq & Hq0).
    pose proof (with_cache_mono canonical_label _ _ _ _ _ H (Nat.max steps n) ltac:(lia)) as H1.
    pose proof (with_cache_mono canonical_label _ _ _ _ _ (Hq 0%nat) (Nat.max steps n) ltac:(lia)) as H2.
    rewrite H1 in H2. injection H2 as -> _. exact Hq0.
  - eapply chromatic_polynomial_C_const; eassumption.
Qed.

(** ** Counting colourings *)

Module Count.

Lemma sumz_ext k F G : (forall c, (c < k)%nat -> F c = G c) -> sumz k F = sumz k G.
Proof.
  induction k as [|k IH]; intros H; [reflexivity|]. simpl.
  rewrite IH, H by (intros; auto; lia). reflexivity.
Qed.

Lemma sumz_add k F G : sumz k (fun c => F c + G c) = sumz k F + sumz k G.
Proof. induction k as [|k IH]; simpl; [reflexivity | rewrite IH; lia]. Qed.

Lemma sumz_sub k F G : sumz k (fun c => F c - G c) = sumz k F - sumz k G.
Proof. induction k as [|k IH]; simpl; [reflexivity | rewrite IH; lia]. Qed.

Lemma sumz_mul_l k a F : sumz k (fun c => a * F c) = a * sumz k F.
Proof. induction k as [|k IH]; simpl; [lia | rewrite IH; lia]. Qed.

Lemma sumz_mul_r k a F : sumz k (fun c => F c * a) = sumz k F * a.
Proof. induction k as [|k IH]; simpl; [lia | rewrite IH; lia]. Qed.

Lemma sumz_const k a : sumz k (fun _ => a) = Z.of_nat k * a.
Proof. induction k as [|k IH]; [reflexivity|]. cbn [sumz]. rewrite IH. lia. Qed.

Lemma sumz_exchange k k' (F : nat -> nat -> Z) :
  sumz k (fun c => sumz k' (fun c' => F c c')) = sumz k' (fun c' => sumz k (fun c => F c c')).
Proof.
  induction k as [|k IH]; simpl.
  - induction k' as [|k' IH']; simpl; [reflexivity | rewrite <- IH'; reflexivity].
  - rewrite IH, <- sumz_add. reflexivity.
Qed.

Lemma sumz_filter k (b : nat -> bool) :
  sumz k (fun c => if b c then 1 else 0) = Z.of_nat (length (List.filter b (seq 0 k))).
Proof.
  induction k as [|k IH]; [reflexivity|].
  rewrite seq_S, List.filter_app, length_app. simpl. rewrite IH.
  destruct (b k); simpl; lia.
Qed.

Lemma cntw_ext_wt k vs : forall wt wt' f0,
  (forall f, wt f = wt' f) -> cntw k vs wt f0 = cntw k vs wt' f0.
Proof.
  induction vs as [|v vs IH]; intros wt wt' f0 H; simpl; [apply H|].
  apply sumz_ext. intros c _. apply IH, H.
Qed.

Lemma upd_ext f f' v c : (forall x, f x = f' x) -> forall x, upd f v c x = upd f' v c x.
Proof. intros H x. unfold upd. destruct (Nat.eqb x v); auto. Qed.

Lemma cntw_ext_f k vs wt : wt_ext wt -> forall f0 f0',
  (forall x, f0 x = f0' x) -> cntw k vs wt f0 = cntw k vs wt f0'.
Proof.
  intros Hw. induction vs as [|v vs IH]; intros f0 f0' H; simpl; [apply Hw, H|].
  apply sumz_ext. intros c _. apply IH, upd_ext, H.
Qed.

(** Only colourings with colours below [k] on the vertices are counted. *)
Lemma cntw_ext_in k vs : forall A wt wt' f0,
  (forall f, (forall v, In v (A ++ vs) -> (f v < k)%nat) -> wt f = wt' f) ->
  (forall v, In v A -> (f0 v < k)%nat) ->
  cntw k vs wt f0 = cntw k vs wt' f0.
Proof.
  induction vs as [|v vs IH]; intros A wt wt' f0 H H0; simpl.
  - apply H. intros v Hv. rewrite app_nil_r in Hv. apply H0, Hv.
  - apply sumz_ext. intros c Hc. apply (IH (v :: A)).
    + intros f Hf. apply H. intros x Hx. apply Hf.
      apply in_app_or in Hx. destruct Hx as [Hx|[<-|Hx]].
      * right. apply in_or_app. auto.
      * left. reflexivity.
      * right. apply in_or_app. auto.
    + intros x [<-|Hx]; unfold upd.
      * rewrite Nat.eqb_refl. exact Hc.
      * destruct (Nat.eqb x v); [exact Hc | apply H0, Hx].
Qed.

Lemma cntw_snoc k vs z wt : forall f0,
  cntw k (vs ++ [z]) wt f0 = cntw k vs (fun f => sumz k (fun c => wt (upd f z c))) f0.
Proof.
  induction vs as [|v vs IH]; intros f0; simpl; [reflexivity|].
  apply sumz_ext. intros c _. apply IH.
Qed.

Lemma cntw_sub k vs w1 w2 : forall f0,
  cntw k vs (fun f => w1 f - w2 f) f0 = cntw k vs w1 f0 - cntw k vs w2 f0.
Proof.
  induction vs as [|v vs IH]; intros f0; simpl; [reflexivity|].
  rewrite <- sumz_sub. apply sumz_ext. intros c _. apply IH.
Qed.

Lemma cntw_scale k vs a wt : forall f0,
  cntw k vs (fun f => a * wt f) f0 = a * cntw k vs wt f0.
Proof.
  induction vs as [|v vs IH]; intros f0; simpl; [reflexivity|].
  rewrite <- sumz_mul_l. apply sumz_ext. intros c _. apply IH.
Qed.

Lemma upd_comm f a b c c' : a <> b ->
  forall x, upd (upd f a c) b c' x = upd (upd f b c') a c x.
Proof.
  intros H x. unfold upd.
  destruct (Nat.eqb_spec x b), (Nat.eqb_spec x a); congruence.
Qed.

Lemma cntw_perm k wt : wt_ext wt -> forall vs vs',
  Permutation vs vs' -> List.NoDup vs -> forall f0, cntw k vs wt f0 = cntw k vs' wt f0.
Proof.
  intros Hw vs vs' Hp. induction Hp as [|x l l' Hp IH|x y l|l l' l'' Hp1 IH1 Hp2 IH2];
    intros Hn f0.
  - reflexivity.
  - simpl. apply sumz_ext. intros c _. apply IH. inversion Hn; assumption.
  - simpl. rewrite sumz_exchange. apply sumz_ext. intros c _. apply sumz_ext. intros c' _.
    apply cntw_ext_f; [exact Hw|]. apply upd_comm.
    inversion Hn as [|? ? Hx _]; subst. intros ->. apply Hx. left. reflexivity.
  - rewrite IH1 by exact Hn. apply IH2. eapply Permutation_NoDup; eassumption.
Qed.

Lemma length_filter_flat_map {A} (b : A -> bool) (F : nat -> list A) (G : nat -> Z) m :
  (forall c, Z.of_nat (length (List.filter b (F c))) = G c) ->
  Z.of_nat (length (List.filter b (flat_map F (seq 0 m)))) = sumz m G.
Proof.
  intros H. induction m as [|m IH]; [reflexivity|].
  rewrite seq_S, flat_map_app, List.filter_app, length_app, Nat2Z.inj_add.
  simpl. rewrite app_nil_r, IH, H. reflexivity.
Qed.

(** The enumeration and the nested sum count the same. *)
Lemma length_filter_colorings k b vs : forall f0,
  Z.of_nat (length (List.filter b (colorings k vs f0))) = cntw k vs (ind b) f0.
Proof.
  induction vs as [|v vs IH]; intros f0; simpl.
  - unfold ind. destruct (b f0); reflexivity.
  - apply length_filter_flat_map. intros c. apply IH.
Qed.

Lemma count_colorings_cntw g k :
  Z.of_nat (count_colorings g k)
  = cntw k (Graph.verts g) (ind (proper (Graph.edges g))) (fun _ => 0%nat).
Proof. apply length_filter_colorings. Qed.

End Count.

Module Proper.
Import Count.

Lemma proper_spec es f : proper es f = true <-> forall e, In e es -> f e.1 <> f e.2.
Proof.
  unfold proper. rewrite forallb_forall. split; intros H e He; specialize (H e He).
  - apply negb_true_iff, Nat.eqb_neq in H. exact H.
  - apply negb_true_iff, Nat.eqb_neq. exact H.
Qed.

Lemma proper_ext es f f' : (forall x, f x = f' x) -> proper es f = proper es f'.
Proof.
  intros H. unfold proper. induction es as [|e es IH]; [reflexivity|].
  simpl. rewrite IH, !H. reflexivity.
Qed.

Lemma wt_ext_ind_proper es : wt_ext (ind (proper es)).
Proof. intros f f' H. unfold ind. rewrite (proper_ext es f f' H). reflexivity. Qed.

Lemma proper_app es es' f : proper (es ++ es') f = proper es f && proper es' f.
Proof. unfold proper. apply forallb_app. Qed.

Lemma proper_upd_avoids es z c f : avoids es z -> proper es (upd f z c) = proper es f.
Proof.
  intros H. unfold proper.
  induction es as [|e es IH]; [reflexivity|]. simpl.
  destruct (H e (or_introl eq_refl)) as [H1 H2].
  unfold upd at 1 2. apply Nat.eqb_neq in H1, H2. rewrite H1, H2.
  rewrite IH; [reflexivity|]. intros e' He'. apply H. right. exact He'.
Qed.

Lemma proper_star_upd z N c f :
  ~ In z N -> proper (star z N) (upd f z c) = forallb (fun y => negb (Nat.eqb c (f y))) N.
Proof.
  intros Hz. unfold proper, star. induction N as [|y N IH]; [reflexivity|]. simpl.
  unfold upd at 1 2. rewrite Nat.eqb_refl.
  destruct (Nat.eqb_spec y z) as [->|Hne]; [exfalso; apply Hz; left; reflexivity|].
  rewrite IH; [reflexivity|]. intros H. apply Hz. right. exact H.
Qed.

Lemma proper_star x N f :
  proper (star x N) f = forallb (fun y => negb (Nat.eqb (f x) (f y))) N.
Proof. unfold proper, star. induction N as [|y N IH]; simpl; [|rewrite IH]; reflexivity. Qed.

Lemma same_edge_differ e e' (f : nat -> nat) :
  Graph.same_edge e e' = true -> (f e.1 <> f e.2 <-> f e'.1 <> f e'.2).
Proof.
  unfold Graph.same_edge. intros H. apply orb_true_iff in H.
  destruct H as [H|H]; apply andb_true_iff in H; destruct H as [H1 H2];
    apply Nat.eqb_eq in H1, H2; rewrite H1, H2; split; auto.
Qed.

Lemma proper_same_edges es es' f : same_edges es es' -> proper es f = proper es' f.
Proof.
  intros [H1 H2].
  destruct (proper es f) eqn:E, (proper es' f) eqn:E'; try reflexivity.
  - exfalso. rewrite proper_spec in E.
    assert (proper es' f = true); [|congruence].
    apply proper_spec. intros e He. destruct (H2 e He) as (e' & He' & Hs).
    apply (same_edge_differ e e' f Hs). apply E, He'.
  - exfalso. rewrite proper_spec in E'.
    assert (proper es f = true); [|congruence].
    apply proper_spec. intros e He. destruct (H1 e He) as (e' & He' & Hs).
    apply (same_edge_differ e e' f Hs). apply E', He'.
Qed.

(** *** The last vertex *)

Lemma cntw_last k vs z es N f0 :
  avoids es z -> ~ In z N ->
  cntw k (vs ++ [z]) (ind (proper (es ++ star z N))) f0
  = cntw k vs (fun f => ind (proper es) f * avail k N f) f0.
Proof.
  intros He Hz. rewrite cntw_snoc. apply cntw_ext_wt. intros f.
  unfold ind, avail. rewrite <- sumz_filter.
  destruct (proper es f) eqn:E.
  - rewrite Z.mul_1_l. apply sumz_ext. intros c _.
    rewrite proper_app, proper_upd_avoids, E, proper_star_upd by assumption. reflexivity.
  - rewrite Z.mul_0_l. transitivity (sumz k (fun _ => 0)); [|rewrite sumz_const; lia].
    apply sumz_ext. intros c _.
    rewrite proper_app, proper_upd_avoids, E by assumption. reflexivity.
Qed.

Lemma avail_nil k f : avail k [] f = Z.of_nat k.
Proof.
  unfold avail. simpl. rewrite DiGraphFacts.filter_all_true by reflexivity.
  rewrite length_seq. reflexivity.
Qed.

Lemma filter_remove_one (P : nat -> bool) a l :
  List.NoDup l ->
  Z.of_nat (length (List.filter (fun c => negb (Nat.eqb c a) && P c) l))
  = Z.of_nat (length (List.filter P l))
    - (if Graph.memb a l && P a then 1 else 0).
Proof.
  induction l as [|x l IH]; intros Hn; [reflexivity|].
  inversion Hn as [|? ? Hx Hl]; subst. simpl. specialize (IH Hl).
  destruct (Nat.eqb_spec x a) as [->|Hne].
  - rewrite (proj2 (Nat.eqb_eq a a) eq_refl). simpl.
    assert (Hm : Graph.memb a l = false) by (apply GraphFacts.memb_false, Hx).
    rewrite Hm in IH. simpl in IH. rewrite IH.
    destruct (P a); simpl; lia.
  - rewrite (proj2 (Nat.eqb_neq a x)) by congruence. simpl.
    destruct (P x); simpl; rewrite ?Nat2Z.inj_succ, IH; lia.
Qed.

(** The colour of one more neighbour [x] is one colour less, unless it is
    not a colour below [k] or a neighbour has it already. *)
Lemma avail_cons k x N f :
  avail k (x :: N) f
  = avail k N f
    - (if Nat.ltb (f x) k && forallb (fun y => negb (Nat.eqb (f x) (f y))) N then 1 else 0).
Proof.
  unfold avail. simpl.
  rewrite (filter_remove_one (fun c => forallb (fun y => negb (Nat.eqb c (f y))) N) (f x))
    by apply seq_NoDup.
  assert (Hm : Graph.memb (f x) (seq 0 k) = Nat.ltb (f x) k).
  { destruct (Nat.ltb_spec (f x) k) as [H|H].
    - apply GraphFacts.memb_In, in_seq. lia.
    - apply GraphFacts.memb_false. rewrite in_seq. lia. }
  rewrite Hm. reflexivity.
Qed.

(** Deletion and contraction at the last vertex: with the edge from [z] to
    [x], the count is the count without it minus the count after [z] has
    been merged into [x]. *)
Lemma cntw_delete_contract k vs z es x N f0 :
  avoids es z -> ~ In z (x :: N) -> In x vs ->
  cntw k (vs ++ [z]) (ind (proper (es ++ star z (x :: N)))) f0
  = cntw k (vs ++ [z]) (ind (proper (es ++ star z N))) f0
    - cntw k vs (ind (proper (es ++ star x N))) f0.
Proof.
  intros He Hz Hx.
  rewrite !cntw_last by (try assumption; intros H; apply Hz; right; exact H).
  rewrite <- cntw_sub. apply (cntw_ext_in k vs []); [|intros v []].
  intros f Hf. rewrite avail_cons.
  assert (Hlt : Nat.ltb (f x) k = true) by (apply Nat.ltb_lt, Hf, Hx).
  rewrite Hlt. cbn [andb]. unfold ind. rewrite proper_app, proper_star.
  destruct (proper es f), (forallb _ N); simpl; lia.
Qed.

(** A vertex with a single neighbour multiplies the count by [k - 1]. *)
Lemma cntw_pendant k vs z es p f0 :
  avoids es z -> z <> p -> In p vs ->
  cntw k (vs ++ [z]) (ind (proper (es ++ [(z, p)]))) f0
  = (Z.of_nat k - 1) * cntw k vs (ind (proper es)) f0.
Proof.
  intros He Hz Hp. change [(z, p)] with (star z [p]).
  rewrite cntw_last; [|exact He | intros [H|[]]; congruence].
  rewrite <- cntw_scale. apply (cntw_ext_in k vs []); [|intros v []].
  intros f Hf. rewrite avail_cons, avail_nil.
  assert (Hlt : Nat.ltb (f p) k = true) by (apply Nat.ltb_lt, Hf, Hp).
  rewrite Hlt. simpl. lia.
Qed.

End Proper.

(** ** The chord lists of [contract_and_count] *)

Module Chords.

Lemma chord_gt_trans c d e :
  chord_gt c d = true -> chord_gt d e = true -> chord_gt c e = true.
Proof.
  unfold chord_gt. rewrite !orb_true_iff, !andb_true_iff, !Nat.ltb_lt, !Nat.eqb_eq.
  intros [H1|[H1 H2]] [H3|[H3 H4]]; [left|left|left|right]; try split; lia.
Qed.

Lemma chord_gt_irrefl c : chord_gt c c = false.
Proof.
  unfold chord_gt. rewrite Nat.ltb_irrefl, Nat.eqb_refl, Nat.ltb_irrefl. reflexivity.
Qed.

Lemma chord_total c d :
  chord_gt c d = false -> chord_gt d c = false -> c = d.
Proof.
  unfold chord_gt. rewrite !orb_false_iff, !andb_false_iff, !Nat.ltb_ge, !Nat.eqb_neq.
  destruct c as [a b], d as [a' b']. simpl. intros [H1 H2] [H3 H4].
  assert (a = a') by lia. subst. f_equal. destruct H2, H4; lia.
Qed.

Lemma scan_group_spec z x1 pz px1 : forall rest pc ins,
  (forall xj, In xj (group_of z rest) -> (pz < xj)%nat /\ px1 <> xj) ->
  scan_group z x1 pz px1 rest pc ins
  = (ins ++ star x1 (group_of z rest), pc, after_group z rest).
Proof.
  induction rest as [|[h xj] rest IH]; intros pc ins H; simpl.
  - rewrite app_nil_r. reflexivity.
  - destruct (Nat.eqb h z) eqn:E; [|rewrite app_nil_r; reflexivity].
    simpl in H. rewrite E in H.
    destruct (H xj (or_introl eq_refl)) as [H1 H2].
    assert (Hlt : Nat.ltb xj pz = false) by (apply Nat.ltb_ge; lia).
    rewrite Hlt. apply Nat.eqb_neq in H2. rewrite H2.
    rewrite IH by (intros y Hy; apply H; right; exact Hy).
    rewrite <- app_assoc. reflexivity.
Qed.

Lemma group_split z rest : rest = star z (group_of z rest) ++ after_group z rest.
Proof.
  induction rest as [|[h xj] rest IH]; [reflexivity|]. simpl.
  destruct (Nat.eqb_spec h z) as [->|Hne]; [|reflexivity].
  simpl. rewrite <- IH. reflexivity.
Qed.

Lemma after_group_incl z rest c : In c (after_group z rest) -> In c rest.
Proof.
  induction rest as [|[h xj] rest IH]; [tauto|]. simpl.
  destruct (Nat.eqb h z); [right; apply IH; assumption | tauto].
Qed.

Lemma after_group_sorted z rest :
  StronglySorted (fun c d => chord_gt c d = true) rest ->
  StronglySorted (fun c d => chord_gt c d = true) (after_group z rest).
Proof.
  induction rest as [|[h xj] rest IH]; intros H; [constructor|]. simpl.
  destruct (Nat.eqb h z); [|exact H]. apply IH. inversion H; assumption.
Qed.

(** After the group of [z] the chords start below [z]. *)
Lemma after_group_below z rest :
  StronglySorted (fun c d => chord_gt c d = true) rest ->
  (forall c, In c rest -> (c.1 <= z)%nat) ->
  forall c, In c (after_group z rest) -> (c.1 < z)%nat.
Proof.
  induction rest as [|[h xj] rest IH]; intros Hs Hle c Hc; [destruct Hc|].
  simpl in Hc. inversion Hs as [|? ? Hs' Hall]; subst.
  destruct (Nat.eqb_spec h z) as [->|Hne].
  - apply IH; [exact Hs' | intros d Hd; apply Hle; right; exact Hd | exact Hc].
  - pose proof (Hle (h, xj) (or_introl eq_refl)) as Hh. simpl in Hh.
    destruct Hc as [<-|Hc]; [simpl; lia|].
    rewrite List.Forall_forall in Hall. specialize (Hall c Hc).
    unfold chord_gt in Hall. simpl in Hall.
    apply orb_true_iff in Hall. destruct Hall as [H|H].
    + apply Nat.ltb_lt in H. lia.
    + apply andb_true_iff in H. destruct H as [H _]. apply Nat.eqb_eq in H. lia.
Qed.

Lemma group_of_desc z x1 rest :
  StronglySorted (fun c d => chord_gt c d = true) ((z, x1) :: rest) ->
  StronglySorted gt (x1 :: group_of z rest).
Proof.
  revert x1. induction rest as [|[h xj] rest IH]; intros x1 H.
  - simpl. constructor; constructor.
  - simpl. destruct (Nat.eqb_spec h z) as [->|Hne]; [|constructor; constructor].
    inversion H as [|? ? Hs Hall]; subst.
    constructor; [apply IH, Hs|].
    assert (Hx : (xj < x1)%nat).
    { inversion Hall as [|? ? Hc _]; subst. unfold chord_gt in Hc. simpl in Hc.
      rewrite Nat.ltb_irrefl, Nat.eqb_refl in Hc. simpl in Hc. apply Nat.ltb_lt, Hc. }
    constructor; [lia|].
    specialize (IH xj Hs). inversion IH as [|? ? _ Hall']; subst.
    rewrite List.Forall_forall in *. intros y Hy. specialize (Hall' y Hy). lia.
Qed.

(** *** The merge *)

Lemma merge_nil_r cs : merge_chords cs [] = cs.
Proof. destruct cs; reflexivity. Qed.

Lemma merge_cons c cs d ins :
  merge_chords (c :: cs) (d :: ins)
  = if chord_gt c d then c :: merge_chords cs (d :: ins)
    else if chord_lt c d then d :: merge_chords (c :: cs) ins
    else c :: merge_chords cs ins.
Proof. reflexivity. Qed.

Lemma in_merge c : forall cs ins, In c (merge_chords cs ins) <-> In c cs \/ In c ins.
Proof.
  induction cs as [|a cs IH]; intros ins.
  - simpl. destruct ins; simpl; tauto.
  - induction ins as [|d ins IHd].
    + rewrite merge_nil_r. simpl. tauto.
    + rewrite merge_cons. destruct (chord_gt a d) eqn:E1.
      * simpl. rewrite IH. simpl. tauto.
      * destruct (chord_lt a d) eqn:E2.
        -- simpl. rewrite IHd. simpl. tauto.
        -- assert (a = d) by (apply chord_total; assumption). subst d.
           simpl. rewrite IH. tauto.
Qed.

Lemma length_merge : forall cs ins,
  (length (merge_chords cs ins) <= length cs + length ins)%nat.
Proof.
  induction cs as [|a cs IH]; intros ins.
  - simpl. destruct ins; simpl; lia.
  - induction ins as [|d ins IHd].
    + rewrite merge_nil_r. lia.
    + rewrite merge_cons. destruct (chord_gt a d); [|destruct (chord_lt a d)]; simpl.
      * specialize (IH (d :: ins)). simpl in IH. lia.
      * simpl in IHd. lia.
      * specialize (IH ins). lia.
Qed.

Lemma merge_sorted : forall cs ins,
  StronglySorted (fun c d => chord_gt c d = true) cs ->
  StronglySorted (fun c d => chord_gt c d = true) ins ->
  StronglySorted (fun c d => chord_gt c d = true) (merge_chords cs ins).
Proof.
  induction cs as [|a cs IH]; intros ins Hc Hi.
  - simpl. destruct ins; assumption.
  - induction ins as [|d ins IHd].
    + rewrite merge_nil_r. exact Hc.
    + inversion Hc as [|? ? Hc' Ha]; subst. inversion Hi as [|? ? Hi' Hd]; subst.
      rewrite List.Forall_forall in Ha, Hd.
      rewrite merge_cons. destruct (chord_gt a d) eqn:E1.
      * constructor; [apply IH; assumption|]. apply List.Forall_forall. intros x Hx.
        apply in_merge in Hx. destruct Hx as [Hx|[<-|Hx]]; [apply Ha, Hx | exact E1|].
        eapply chord_gt_trans; [exact E1 | apply Hd, Hx].
      * destruct (chord_lt a d) eqn:E2.
        -- constructor; [apply IHd; assumption|]. apply List.Forall_forall. intros x Hx.
           apply in_merge in Hx. destruct Hx as [[<-|Hx]|Hx]; [exact E2| |apply Hd, Hx].
           eapply chord_gt_trans; [exact E2 | apply Ha, Hx].
        -- assert (a = d) by (apply chord_total; assumption). subst d.
           constructor; [apply IH; assumption|]. apply List.Forall_forall. intros x Hx.
           apply in_merge in Hx. destruct Hx as [Hx|Hx]; [apply Ha, Hx | apply Hd, Hx].
Qed.

End Chords.

(** ** Counting the colourings of a tree with chords *)

Module TreeChord.
Import Count Proper Chords.

Lemma same_edges_of_In es es' : (forall e, In e es <-> In e es') -> same_edges es es'.
Proof.
  intros H. split; intros e He; exists e; (split; [apply H, He|]);
    apply EdgeFacts.same_edge_refl.
Qed.

Lemma cntw_same_edges k vs es es' f0 :
  same_edges es es' ->
  cntw k vs (ind (proper es)) f0 = cntw k vs (ind (proper es')) f0.
Proof.
  intros H. apply cntw_ext_wt. intros f. unfold ind.
  rewrite (proper_same_edges es es' f H). reflexivity.
Qed.

Lemma tree_edges_S parent n : (1 <= n)%nat ->
  tree_edges parent (S n) = tree_edges parent n ++ [(n, nth n parent 0%nat)].
Proof.
  intros H. unfold tree_edges. replace (S n - 1)%nat with (S (n - 1)) by lia.
  rewrite seq_S, map_app. simpl. replace (S (n - 1)) with n by lia. reflexivity.
Qed.

Lemma in_tree_edges parent n e :
  In e (tree_edges parent n) <-> (1 <= e.1 < n)%nat /\ e.2 = nth e.1 parent 0%nat.
Proof.
  unfold tree_edges. rewrite in_map_iff. split.
  - intros (i & <- & Hi). apply in_seq in Hi. simpl. split; [lia | reflexivity].
  - intros [H1 H2]. exists e.1. split; [destruct e; simpl in *; congruence|].
    apply in_seq. lia.
Qed.

Lemma tree_edges_below parent n e : parent_ok parent -> (n <= length parent)%nat ->
  In e (tree_edges parent n) -> (e.1 < n)%nat /\ (e.2 < e.1)%nat.
Proof.
  intros [Hp _] Hn He. apply in_tree_edges in He. destruct He as [H1 H2].
  split; [lia|]. rewrite H2. apply Hp. lia.
Qed.

(** The highest vertex, when no chord ends at it, hangs on its parent. *)
Lemma cnt_top k parent v cs :
  parent_ok parent -> (1 <= v)%nat -> (S v <= length parent)%nat ->
  (forall c, In c cs -> (c.1 < v)%nat /\ (c.2 < v)%nat) ->
  cnt_tc k parent (S v) cs = (Z.of_nat k - 1) * cnt_tc k parent v cs.
Proof.
  intros Hp Hv Hl Hcs. unfold cnt_tc. rewrite seq_S. simpl.
  rewrite <- (cntw_pendant k (seq 0 v) v (tree_edges parent v ++ cs) (nth v parent 0%nat)).
  - apply cntw_same_edges, same_edges_of_In. intros e.
    rewrite tree_edges_S by exact Hv. rewrite !in_app_iff. simpl. tauto.
  - intros e He. apply in_app_iff in He. destruct He as [He|He].
    + apply (tree_edges_below parent v e Hp) in He; lia.
    + apply Hcs in He. lia.
  - destruct Hp as [Hp _]. specialize (Hp v). lia.
  - apply in_seq. destruct Hp as [Hp _]. specialize (Hp v). lia.
Qed.

Lemma cnt_down k parent cs m : forall d,
  parent_ok parent -> (1 <= m)%nat -> (m + d <= length parent)%nat ->
  (forall c, In c cs -> (c.1 < m)%nat /\ (c.2 < m)%nat) ->
  cnt_tc k parent (m + d) cs = (Z.of_nat k - 1) ^ Z.of_nat d * cnt_tc k parent m cs.
Proof.
  induction d as [|d IH]; intros Hp Hm Hl Hcs.
  - rewrite Nat.add_0_r. simpl. lia.
  - replace (m + S d)%nat with (S (m + d)) by lia.
    rewrite cnt_top; [|exact Hp|lia|lia|intros c Hc; apply Hcs in Hc; lia].
    rewrite IH; [|exact Hp|exact Hm|lia|exact Hcs].
    rewrite Nat2Z.inj_succ, Z.pow_succ_r by lia. ring.
Qed.

(** The tree on [n] vertices has [k (k - 1)^(n - 1)] colourings. *)
Lemma cnt_tree k parent n :
  parent_ok parent -> (1 <= n <= length parent)%nat ->
  cnt_tc k parent n [] = Z.of_nat k * (Z.of_nat k - 1) ^ Z.of_nat (n - 1).
Proof.
  intros Hp Hn. replace n with (1 + (n - 1))%nat at 1 by lia.
  rewrite cnt_down; [|exact Hp|lia|lia|intros c []].
  unfold cnt_tc, tree_edges. cbn [seq cntw Nat.sub map app].
  rewrite (sumz_ext k _ (fun _ => 1)) by reflexivity.
  rewrite sumz_const. replace (n - 1 - 0)%nat with (n - 1)%nat by lia. ring.
Qed.

(** *** Contracting a chord *)

Lemma parent_at_nth parent z : (1 <= z < length parent)%nat ->
  parent_at parent z = Some (nth z parent 0%nat).
Proof.
  intros H. unfold parent_at. destruct z as [|z]; [lia|].
  destruct (lookup_lt_is_Some_2 parent (S z)) as [p Hp]; [lia|].
  rewrite (nth_lookup parent (S z) 0%nat), Hp. reflexivity.
Qed.

Ltac edge_tac :=
  intuition (repeat match goal with
                    | H : (_, _) = (_, _) |- _ => inversion H; clear H
                    end; subst; simpl in *; auto 6; try lia; try congruence).

Section Contract.

Variables (parent : list nat) (n z x1 : nat) (rest : list chord).
Hypothesis Hp : parent_ok parent.
Hypothesis Hok : chords_ok parent n ((z, x1) :: rest).

Local Abbreviation pz := (nth z parent 0%nat).
Local Abbreviation px1 := (nth x1 parent 0%nat).

Lemma head_ok : (pz < x1)%nat /\ (x1 < z)%nat /\ (z < n)%nat /\ (n <= length parent)%nat.
Proof.
  destruct Hok as (Hn & _ & Hall). inversion Hall as [|? ? Hc _]; subst.
  destruct Hc as (H1 & H2 & H3). simpl in *. lia.
Qed.

Lemma px1_le_pz : (px1 <= pz)%nat.
Proof.
  pose proof head_ok as (H1 & H2 & H3 & H4). destruct Hp as [_ Hm].
  apply Hm; lia.
Qed.

Lemma rest_sorted : StronglySorted (fun c d => chord_gt c d = true) rest.
Proof. destruct Hok as (_ & Hs & _). inversion Hs; assumption. Qed.

Lemma rest_ok c : In c rest -> chord_ok parent n c.
Proof.
  destruct Hok as (_ & _ & Hall). inversion Hall as [|? ? _ Hr]; subst.
  rewrite List.Forall_forall in Hr. apply Hr.
Qed.

Lemma rest_le c : In c rest -> (c.1 <= z)%nat.
Proof.
  intros Hc. destruct Hok as (_ & Hs & _). inversion Hs as [|? ? _ Hall]; subst.
  rewrite List.Forall_forall in Hall. specialize (Hall c Hc).
  unfold chord_gt in Hall. simpl in Hall. apply orb_true_iff in Hall.
  destruct Hall as [H|H]; [apply Nat.ltb_lt in H; lia|].
  apply andb_true_iff in H. destruct H as [H _]. apply Nat.eqb_eq in H. lia.
Qed.

Lemma in_group xj : In xj (group_of z rest) -> In (z, xj) rest.
Proof.
  intros H. rewrite (group_split z rest). apply in_app_iff. left.
  unfold star. apply in_map_iff. exists xj. auto.
Qed.

Lemma group_bounds xj : In xj (group_of z rest) -> (pz < xj)%nat /\ (xj < x1)%nat.
Proof.
  intros H. split.
  - apply in_group, rest_ok in H. destruct H as (H & _). exact H.
  - destruct Hok as (_ & Hs & _). apply group_of_desc in Hs.
    inversion Hs as [|? ? _ Hall]; subst. rewrite List.Forall_forall in Hall.
    specialize (Hall xj H). lia.
Qed.

Lemma after_below c : In c (after_group z rest) -> (c.1 < z)%nat.
Proof. apply after_group_below; [apply rest_sorted | apply rest_le]. Qed.

Lemma contract_chord_spec num :
  (length ((z, x1) :: rest) <= num)%nat ->
  contract_chord num parent z x1 rest = Some (contracted parent z x1 rest).
Proof.
  intros Hnum. pose proof head_ok as (H1 & H2 & H3 & H4).
  pose proof px1_le_pz as Hle.
  unfold contract_chord.
  rewrite (parent_at_nth parent z) by lia. cbn [mbind option_bind].
  assert (Hx1 : (1 <= x1)%nat) by lia.
  rewrite (parent_at_nth parent x1) by lia. cbn [mbind option_bind].
  rewrite scan_group_spec; [|intros xj Hj; apply group_bounds in Hj; lia].
  cbn [app].
  assert (Ho : ordered_pair x1 pz = (x1, pz)).
  { unfold ordered_pair. destruct (Nat.ltb_spec pz x1); [reflexivity | lia]. }
  rewrite Ho.
  match goal with |- context [merge_chords _ ?i] => set (ins' := i) end.
  assert (Hins : ins' = star x1 (group_of z rest) ++
                        (if Nat.eqb px1 pz then [] else [(x1, pz)])).
  { unfold ins'. destruct (Nat.eqb px1 pz); [rewrite app_nil_r|]; reflexivity. }
  clearbody ins'.
  assert (Hlen : (length (group_of z rest) + length (after_group z rest)
                  = length rest)%nat).
  { rewrite (group_split z rest) at 3. rewrite length_app. unfold star.
    rewrite length_map. reflexivity. }
  assert (Hl1 : (length ins' <= length (group_of z rest) + 1)%nat).
  { rewrite Hins, length_app. unfold star. rewrite length_map.
    destruct (Nat.eqb px1 pz); simpl; lia. }
  pose proof (length_merge (after_group z rest) ins') as Hl2.
  simpl in Hnum.
  assert (E1 : Nat.leb (length ins') num = true) by (apply Nat.leb_le; unfold chord in *; lia).
  assert (E2 : Nat.leb (length (merge_chords (after_group z rest) ins')) num = true)
    by (apply Nat.leb_le; unfold chord in *; lia).
  rewrite E1, E2. cbn [andb]. unfold contracted. rewrite Hins. reflexivity.
Qed.

Lemma star_sorted x l p (tail : bool) :
  StronglySorted gt l -> (forall y, In y l -> (p < y)%nat) ->
  StronglySorted (fun c d => chord_gt c d = true)
    (star x l ++ (if tail then [(x, p)] else [])).
Proof.
  induction l as [|a l IH]; intros Hs Hb.
  - simpl. destruct tail; repeat constructor.
  - inversion Hs as [|? ? Hs' Hall]; subst. simpl. constructor.
    + apply IH; [exact Hs' | intros y Hy; apply Hb; right; exact Hy].
    + rewrite List.Forall_forall in *. intros c Hc.
      apply in_app_iff in Hc. destruct Hc as [Hc|Hc].
      * unfold star in Hc. apply in_map_iff in Hc. destruct Hc as (y & <- & Hy).
        unfold chord_gt. simpl. rewrite Nat.ltb_irrefl, Nat.eqb_refl. simpl.
        apply Nat.ltb_lt. specialize (Hall y Hy). lia.
      * destruct tail; [|destruct Hc]. destruct Hc as [<-|[]].
        unfold chord_gt. simpl. rewrite Nat.ltb_irrefl, Nat.eqb_refl. simpl.
        apply Nat.ltb_lt. apply Hb. left. reflexivity.
Qed.

Lemma in_contracted c :
  In c (contracted parent z x1 rest) <->
  In c (after_group z rest) \/ (c.1 = x1 /\ In c.2 (group_of z rest)) \/
  (c = (x1, pz) /\ px1 <> pz).
Proof.
  unfold contracted. rewrite in_merge, in_app_iff. unfold star. rewrite in_map_iff.
  split.
  - intros [H|[(y & <- & Hy)|H]]; [auto | right; left; simpl; auto|].
    destruct (Nat.eqb_spec px1 pz) as [E|E]; [destruct H|].
    destruct H as [<-|[]]. right. right. auto.
  - intros [H|[[H1 H2]|[H1 H2]]]; [auto| |].
    + right. left. exists c.2. split; [destruct c; simpl in *; congruence | exact H2].
    + right. right. destruct (Nat.eqb_spec px1 pz) as [E|E]; [contradiction|].
      left. symmetry. exact H1.
Qed.

Lemma contracted_ok : chords_ok parent (n - 1) (contracted parent z x1 rest).
Proof.
  pose proof head_ok as (H1 & H2 & H3 & H4). pose proof px1_le_pz as Hle.
  split; [lia|]. split.
  - unfold contracted. apply merge_sorted.
    + apply after_group_sorted, rest_sorted.
    + destruct Hok as (_ & Hs & _). apply group_of_desc in Hs.
      inversion Hs as [|? ? Hs' _]; subst.
      pose proof (star_sorted x1 (group_of z rest) pz (negb (Nat.eqb px1 pz)) Hs') as HH.
      destruct (Nat.eqb px1 pz); simpl in HH; apply HH;
        intros y Hy; apply group_bounds in Hy; lia.
  - apply List.Forall_forall. intros c Hc. apply in_contracted in Hc.
    destruct Hc as [Hc|[[Hc1 Hc2]|[-> Hne]]].
    + pose proof (after_below c Hc) as Hb.
      apply after_group_incl, rest_ok in Hc. destruct Hc as (A & B & C).
      repeat split; lia.
    + apply group_bounds in Hc2. unfold chord_ok. rewrite Hc1. lia.
    + unfold chord_ok. simpl. lia.
Qed.

Lemma contracted_below c : In c (contracted parent z x1 rest) ->
  (c.1 < z)%nat /\ (c.2 < z)%nat.
Proof.
  pose proof head_ok as (H1 & H2 & H3 & H4).
  intros Hc. apply in_contracted in Hc. destruct Hc as [Hc|[[Hc1 Hc2]|[-> Hne]]].
  - pose proof (after_below c Hc) as Hb.
    apply after_group_incl, rest_ok in Hc. destruct Hc as (A & B & C). lia.
  - apply group_bounds in Hc2. lia.
  - simpl. lia.
Qed.

Lemma in_rest c : In c rest <-> (c.1 = z /\ In c.2 (group_of z rest)) \/ In c (after_group z rest).
Proof.
  rewrite (group_split z rest) at 1. rewrite in_app_iff. unfold star. rewrite in_map_iff.
  split.
  - intros [(y & <- & Hy)|H]; [left; simpl; auto | auto].
  - intros [[H1 H2]|H]; [|auto]. left. exists c.2.
    split; [destruct c; simpl in *; congruence | exact H2].
Qed.

(** Deletion and contraction of the chord [(z, x1)] at the level of [z]. *)
Lemma cnt_contract_at k :
  cnt_tc k parent (S z) ((z, x1) :: rest)
  = cnt_tc k parent (S z) rest - cnt_tc k parent z (contracted parent z x1 rest).
Proof.
  pose proof head_ok as (H1 & H2 & H3 & H4). pose proof px1_le_pz as Hle.
  unfold cnt_tc. rewrite seq_S. simpl.
  set (es := tree_edges parent z ++ after_group z rest).
  set (N := group_of z rest ++ [pz]).
  assert (Hes : avoids es z).
  { intros e He. apply in_app_iff in He. destruct He as [He|He].
    - apply (tree_edges_below parent z e Hp) in He; lia.
    - pose proof (after_below e He). apply after_group_incl, rest_ok in He.
      destruct He as (A & B & C). lia. }
  assert (HN : forall y, In y N -> (y < z)%nat).
  { intros y Hy. apply in_app_iff in Hy. destruct Hy as [Hy|[<-|[]]]; [|lia].
    apply group_bounds in Hy. lia. }
  assert (HzN : ~ In z (x1 :: N)).
  { intros [E|E]; [lia|]. apply HN in E. lia. }
  assert (Hstar : forall a e, In e (star a N) <->
             e.1 = a /\ (In e.2 (group_of z rest) \/ e.2 = pz)).
  { intros a e. unfold star, N. rewrite in_map_iff. split.
    - intros (y & <- & Hy). apply in_app_iff in Hy. simpl.
      destruct Hy as [Hy|[<-|[]]]; auto.
    - intros [E1 E2]. exists e.2. split; [destruct e; simpl in *; congruence|].
      apply in_app_iff. destruct E2 as [E2|E2]; [auto | right; left; auto]. }
  transitivity (cntw k (seq 0 z ++ [z]) (ind (proper (es ++ star z (x1 :: N))))
                     (fun _ => 0%nat)).
  { apply cntw_same_edges, same_edges_of_In. intros [a b].
    rewrite tree_edges_S by lia. unfold es.
    change (star z (x1 :: N)) with ((z, x1) :: star z N).
    rewrite !in_app_iff. cbn [In]. rewrite (Hstar z (a, b)), in_rest.
    cbn [fst snd]. edge_tac. }
  rewrite cntw_delete_contract; [|exact Hes|exact HzN|apply in_seq; lia].
  f_equal.
  - apply cntw_same_edges, same_edges_of_In. intros [a b].
    rewrite tree_edges_S by lia. unfold es.
    rewrite !in_app_iff. cbn [In]. rewrite (Hstar z (a, b)), in_rest.
    cbn [fst snd]. edge_tac.
  - apply cntw_same_edges, same_edges_of_In. intros [a b]. unfold es.
    rewrite !in_app_iff, (Hstar x1 (a, b)), in_contracted, in_tree_edges.
    cbn [fst snd]. destruct (Nat.eq_dec px1 pz) as [E|E]; edge_tac.
Qed.

(** Deletion and contraction of the first chord on the whole graph. *)
Lemma cnt_contract k :
  cnt_tc k parent n ((z, x1) :: rest)
  = cnt_tc k parent n rest - cnt_tc k parent (n - 1) (contracted parent z x1 rest).
Proof.
  pose proof head_ok as (H1 & H2 & H3 & H4).
  assert (Hb : forall c, In c ((z, x1) :: rest) -> (c.1 < S z)%nat /\ (c.2 < S z)%nat).
  { intros c [<-|Hc]; [simpl; lia|].
    pose proof (rest_le c Hc). apply rest_ok in Hc. destruct Hc as (A & B & C). lia. }
  replace n with (S z + (n - S z))%nat at 1 2 by lia.
  replace (n - 1)%nat with (z + (n - S z))%nat by lia.
  rewrite !cnt_down; try exact Hp; try lia.
  - rewrite cnt_contract_at. ring.
  - apply contracted_below.
  - intros c Hc. apply Hb. right. exact Hc.
  - exact Hb.
Qed.

End Contract.

End TreeChord.

(** ** [contract_and_count] counts the colourings *)

Module ContractFacts.
Import Count Proper Chords TreeChord PolyFacts.

Lemma bind_ret {A B} (c : M A) (k : A -> M B) w a w1 :
  c w = (Ret a, w1) -> bind c k w = k a w1.
Proof. intros H. unfold bind. rewrite H. reflexivity. Qed.

Lemma sumz_single L n a : (n < L)%nat ->
  sumz L (fun i => if Nat.eqb i n then a else 0) = a.
Proof.
  induction L as [|L IH]; intros H; [lia|]. simpl.
  destruct (Nat.eqb_spec L n) as [->|Hne].
  - rewrite (sumz_ext n _ (fun _ => 0)).
    + rewrite sumz_const. lia.
    + intros c Hc. destruct (Nat.eqb_spec c n); [lia | reflexivity].
  - rewrite IH by lia. lia.
Qed.

Lemma hist_incr tot n tot' :
  tot_incr tot n = Some tot' ->
  length tot' = length tot /\
  ((1 <= n)%nat -> nth 0 tot' 0 = nth 0 tot 0) /\
  forall k, hist_value k tot' = hist_value k tot + alt n * tree_count k n.
Proof.
  unfold tot_incr. destruct (tot !! n) as [t|] eqn:E; [|discriminate].
  cbn [mbind option_bind]. intros [= <-].
  assert (Hn : (n < length tot)%nat) by (eapply lookup_lt_Some; exact E).
  split; [apply length_insert|].
  split.
  { intros H1. rewrite nth_insert_Z by exact Hn.
    destruct (Nat.eqb_spec 0 n); [lia | reflexivity]. }
  intros k. unfold hist_value.
  rewrite length_insert.
  rewrite <- (sumz_single (length tot) n (alt n * tree_count k n) Hn).
  rewrite <- sumz_add. apply sumz_ext. intros i Hi.
  rewrite nth_insert_Z by exact Hn.
  destruct (Nat.eqb_spec i n) as [->|Hne].
  - rewrite (nth_lookup tot n 0), E. simpl. ring.
  - ring.
Qed.

Lemma tot_incr_some tot n : (n < length tot)%nat -> exists tot', tot_incr tot n = Some tot'.
Proof.
  intros H. unfold tot_incr. destruct (lookup_lt_is_Some_2 tot n H) as [t Ht].
  rewrite Ht. eexists. reflexivity.
Qed.

Lemma sig_check_quiet w : quiet w ->
  exists w', sig_check w = (Ret tt, w') /\ quiet w'.
Proof.
  intros H. unfold sig_check. rewrite (H (ticks w)). eexists. split; [reflexivity|].
  intros t. apply H.
Qed.

Section Correct.

Variable parent : list nat.
Hypothesis Hp : parent_ok parent.

Lemma chords_ok_tail n c cs : chords_ok parent n (c :: cs) -> chords_ok parent n cs.
Proof.
  intros (H1 & H2 & H3). split; [exact H1|]. split; inversion H2; inversion H3; assumption.
Qed.

Lemma contract_loop_counts n num
  (IH : forall cs tot w, chords_ok parent n cs -> (1 <= n)%nat ->
          (n < length tot)%nat -> quiet w ->
          counts parent n cs tot w (fun k => alt n * cnt_tc k parent n cs)) :
  forall cs tot w,
    chords_ok parent (S n) cs -> (length cs <= num)%nat ->
    (n < length tot)%nat -> quiet w ->
    exists tot' w',
      contract_loop (fun new t => contract_and_count n new parent t) num parent cs tot w
      = (Ret tot', w') /\
      length tot' = length tot /\ quiet w' /\ nth 0 tot' 0 = nth 0 tot 0 /\
      forall k, hist_value k tot'
                = hist_value k tot
                  + alt n * (cnt_tc k parent (S n) [] - cnt_tc k parent (S n) cs).
Proof.
  induction cs as [|[z x1] rest IHcs]; intros tot w Hok Hnum Hlen Hq.
  - exists tot, w. cbn [contract_loop]. repeat split; try assumption.
    intros k. ring.
  - cbn [contract_loop].
    destruct (sig_check_quiet w Hq) as (w1 & E1 & Hq1).
    rewrite (bind_ret _ _ _ _ _ E1).
    rewrite (contract_chord_spec parent (S n) z x1 rest Hp Hok num Hnum).
    cbn [of_option]. unfold ret at 1. unfold bind at 1.
    pose proof (contracted_ok parent (S n) z x1 rest Hp Hok) as Hc.
    replace (S n - 1)%nat with n in Hc by lia.
    pose proof (head_ok parent (S n) z x1 rest Hok) as (A1 & A2 & A3 & A4).
    destruct (IH _ tot w1 Hc ltac:(lia) Hlen Hq1)
      as (tot1 & w2 & E2 & L2 & Hq2 & Z2 & V2).
    rewrite (bind_ret _ _ _ _ _ E2).
    destruct (IHcs tot1 w2 (chords_ok_tail _ _ _ Hok) ltac:(simpl in Hnum; lia)
                ltac:(lia) Hq2) as (tot' & w' & E3 & L3 & Hq3 & Z3 & V3).
    exists tot', w'. split; [exact E3|]. split; [congruence|]. split; [exact Hq3|].
    split; [congruence|].
    intros k. rewrite V3, V2.
    pose proof (cnt_contract parent (S n) z x1 rest Hp Hok k) as Hcc.
    replace (S n - 1)%nat with n in Hcc by lia.
    unfold chord in *. rewrite Hcc. ring.
Qed.

(** [contract_and_count] returns, and adds to the value of the histogram
    the number of colourings of the tree with the chords, with the sign of
    the number of vertices. *)
Lemma contract_and_count_counts : forall n cs tot w,
  chords_ok parent n cs -> (1 <= n)%nat -> (n < length tot)%nat -> quiet w ->
  counts parent n cs tot w (fun k => alt n * cnt_tc k parent n cs).
Proof.
  induction n as [|n IH]; intros cs tot w Hok Hn Hlen Hq; [lia|].
  destruct cs as [|c cs].
  - destruct (tot_incr_some tot (S n) Hlen) as (tot' & E).
    exists tot', w. split; [cbn [contract_and_count]; rewrite E; reflexivity|].
    destruct (hist_incr _ _ _ E) as (L & Z0 & V).
    split; [exact L|]. split; [exact Hq|]. split; [apply Z0; lia|].
    intros k. rewrite V, cnt_tree; [reflexivity | exact Hp|].
    destruct Hok as (H & _). lia.
  - destruct (contract_loop_counts n (length (c :: cs)) IH (c :: cs) tot w Hok
                ltac:(lia) ltac:(lia) Hq) as (tot1 & w1 & E1 & L1 & Hq1 & Z1 & V1).
    destruct (tot_incr_some tot1 (S n) ltac:(lia)) as (tot' & E).
    exists tot', w1.
    split; [cbn [contract_and_count]; rewrite (bind_ret _ _ _ _ _ E1), E; reflexivity|].
    destruct (hist_incr _ _ _ E) as (L & Z0 & V).
    split; [congruence|]. split; [exact Hq1|].
    split; [rewrite Z0 by lia; exact Z1|].
    intros k. rewrite V, V1. rewrite alt_S.
    assert (Ht : cnt_tc k parent (S n) [] = tree_count k (S n)).
    { apply cnt_tree; [exact Hp|]. destruct Hok as (H & _). lia. }
    rewrite Ht. ring.
Qed.

End Correct.

End ContractFacts.

(** ** The value of a polynomial *)

Module EvalFacts.
Import Poly PolyFacts Count.

Lemma eval_norm p k : eval (norm p) k = eval p k.
Proof.
  induction p as [|a q IH]; [reflexivity|]. simpl.
  destruct (norm q) as [|b q'] eqn:E.
  - simpl in IH. destruct (Z.eqb_spec a 0) as [->|Hne]; simpl; lia.
  - rewrite <- IH. reflexivity.
Qed.

Lemma eval_add_raw p : forall q k, eval (add_raw p q) k = eval p k + eval q k.
Proof.
  induction p as [|a p IH]; intros [|b q] k; simpl; try lia.
  rewrite IH. ring.
Qed.

Lemma eval_scale_raw c p k : eval (scale_raw c p) k = c * eval p k.
Proof.
  unfold scale_raw. induction p as [|a p IH]; simpl; [ring|]. rewrite IH. ring.
Qed.

Lemma eval_mul_raw p q k : eval (mul_raw p q) k = eval p k * eval q k.
Proof.
  induction p as [|a p IH]; simpl; [ring|].
  rewrite eval_add_raw, eval_scale_raw. simpl. rewrite IH. ring.
Qed.

Lemma eval_scale c p k : eval (scale c p) k = c * eval p k.
Proof. unfold scale. rewrite eval_norm. apply eval_scale_raw. Qed.

Lemma eval_sub p q k : eval (sub p q) k = eval p k - eval q k.
Proof. unfold sub. rewrite eval_norm, eval_add_raw, eval_scale_raw. ring. Qed.

Lemma eval_mul p q k : eval (mul p q) k = eval p k * eval q k.
Proof. unfold mul. rewrite eval_norm. apply eval_mul_raw. Qed.

Lemma eval_pow p n k : eval (pow p n) k = eval p k ^ Z.of_nat n.
Proof.
  induction n as [|n IH].
  { change (Z.of_nat 0) with 0. rewrite Z.pow_0_r. unfold pow, one, eval. ring. }
  cbn [pow]. rewrite eval_mul, IH, Nat2Z.inj_succ, Z.pow_succ_r by lia. reflexivity.
Qed.

Lemma eval_prod ps k :
  eval (prod ps) k = fold_right Z.mul 1 (map (fun p => eval p k) ps).
Proof.
  induction ps as [|p ps IH]; [simpl; ring|].
  unfold prod in *. simpl. rewrite eval_mul, IH. reflexivity.
Qed.

Lemma eval_tree_poly i k :
  eval (tree_poly i) (Z.of_nat k) = tree_count k i.
Proof.
  unfold tree_poly, tree_count. rewrite eval_mul, eval_pow, eval_sub.
  unfold gen, one, eval.
  replace (0 + Z.of_nat k * (1 + Z.of_nat k * 0) - (1 + Z.of_nat k * 0))
    with (Z.of_nat k - 1) by ring.
  ring.
Qed.

Lemma sumz_shift n F : sumz (S n) F = F 0%nat + sumz n (fun d => F (S d)).
Proof.
  induction n as [|n IH]; [simpl; ring|].
  change (sumz (S (S n)) F) with (sumz (S n) F + F (S n)). rewrite IH. simpl. ring.
Qed.

Lemma sumz_zero n F : (forall d, (d < n)%nat -> F d = 0) -> sumz n F = 0.
Proof.
  intros H. rewrite (sumz_ext n F (fun _ => 0) H), sumz_const. ring.
Qed.

Lemma sumz_extend F : forall L' L, (L <= L')%nat ->
  (forall d, (L <= d < L')%nat -> F d = 0) -> sumz L' F = sumz L F.
Proof.
  induction L' as [|L' IH]; intros L HL Hz.
  - replace L with 0%nat by lia. reflexivity.
  - destruct (Nat.eq_dec L (S L')) as [->|Hne]; [reflexivity|].
    simpl. rewrite Hz by lia. rewrite (IH L) by (try lia; intros d Hd; apply Hz; lia).
    ring.
Qed.

(** The value is the sum of the monomials. *)
Lemma eval_sum p k : eval p k = sumz (length p) (fun d => coeff p d * k ^ Z.of_nat d).
Proof.
  induction p as [|a p IH]; [reflexivity|].
  cbn [length]. rewrite sumz_shift. cbn [eval]. rewrite IH.
  rewrite <- sumz_mul_l. unfold coeff. simpl nth. rewrite Z.pow_0_r.
  f_equal; [ring|]. apply sumz_ext. intros d _.
  rewrite Nat2Z.inj_succ, Z.pow_succ_r by lia. ring.
Qed.

Lemma eval_sum_upto p k L : (length p <= L)%nat ->
  eval p k = sumz L (fun d => coeff p d * k ^ Z.of_nat d).
Proof.
  intros H. rewrite eval_sum. symmetry. apply sumz_extend; [exact H|].
  intros d Hd. unfold coeff. rewrite nth_overflow by lia. ring.
Qed.

(** The value of a polynomial, from its coefficients up to a degree above
    which they are zero. *)
Lemma eval_sum_coeff p k L : (forall d, (L <= d)%nat -> coeff p d = 0) ->
  eval p k = sumz L (fun d => coeff p d * k ^ Z.of_nat d).
Proof.
  intros H. rewrite (eval_sum_upto p k (Nat.max L (length p))) by lia.
  apply sumz_extend; [lia|]. intros d Hd. rewrite H by lia. ring.
Qed.

Lemma sumz_rev_range n F : forall J, (J <= n + 1)%nat ->
  sumz J (fun t => F (n - t)%nat)
  = sumz (n + 1) (fun i => if Nat.leb (n + 1 - J) i then F i else 0).
Proof.
  induction J as [|J IH]; intros HJ.
  - simpl. symmetry. apply sumz_zero. intros d Hd.
    destruct (Nat.leb_spec (n + 1 - 0) d); [lia | reflexivity].
  - cbn [sumz]. rewrite IH by lia.
    rewrite <- (ContractFacts.sumz_single (n + 1) (n - J) (F (n - J)%nat)) at 1 by lia.
    rewrite <- sumz_add. apply sumz_ext. intros i Hi.
    destruct (Nat.leb_spec (n + 1 - J) i), (Nat.leb_spec (n + 1 - S J) i),
      (Nat.eqb_spec i (n - J)); subst; try lia; try ring.
Qed.

End EvalFacts.

(** ** The value of the assembled polynomial *)

Section AssemblyValue.
Import Poly PolyFacts Count EvalFacts.

Lemma assemble_steps_length tot : forall j n m c,
  m * m = 1 ->
  fst (assemble_steps tot n j (m, c)) * fst (assemble_steps tot n j (m, c)) = 1 /\
  length (snd (assemble_steps tot n j (m, c))) = length c.
Proof.
  induction j as [|j IH]; intros n m c Hm; cbn [assemble_steps]; [auto|].
  pose proof (assemble_body_keeps tot n m c Hm) as [H1 H2].
  destruct (assemble_body tot n (m, c)) as [m1 c1]. simpl in H1, H2.
  destruct (IH (n - 1)%nat m1 c1 H1) as [H3 H4]. split; [exact H3 | congruence].
Qed.

Lemma assemble_steps_add tot : forall a b n st,
  assemble_steps tot n (a + b) st
  = assemble_steps tot (n - a) b (assemble_steps tot n a st).
Proof.
  induction a as [|a IH]; intros b n st; cbn [assemble_steps Nat.add].
  - rewrite Nat.sub_0_r. reflexivity.
  - rewrite IH. f_equal. lia.
Qed.

(** The rounds on sizes that no tree has do nothing. *)
Lemma assemble_steps_zero tot : forall j n st, (j <= n)%nat ->
  (forall x, (n - j < x <= n)%nat -> nth x tot 0 = 0) ->
  assemble_steps tot n j st = st.
Proof.
  induction j as [|j IH]; intros n st Hj Hz; cbn [assemble_steps]; [reflexivity|].
  assert (E : assemble_body tot n st = st).
  { destruct st as [m c]. unfold assemble_body. rewrite Hz by lia. reflexivity. }
  rewrite E. apply IH; [lia|]. intros x Hx. apply Hz. lia.
Qed.

(** The rounds on the sizes from [n] down, all of which some tree has. *)
Lemma assemble_steps_coeffs tot : forall j n m c d,
  m * m = 1 -> (j <= n)%nat -> (n < length c)%nat ->
  (forall x, (n - j < x <= n)%nat -> nth x tot 0 <> 0) ->
  nth d (snd (assemble_steps tot n j (m, c))) 0
  = nth d c 0
    + sumz j (fun t => nth (n - t) tot 0 * (- m * alt t) * coeff (tree_poly (n - t)) d).
Proof.
  induction j as [|j IH]; intros n m c d Hm Hj Hl Hnz; cbn [assemble_steps].
  - simpl. ring.
  - destruct (assemble_body_spec tot n m c Hm ltac:(lia) Hl ltac:(apply Hnz; lia))
      as [H1 H2].
    pose proof (assemble_body_keeps tot n m c Hm) as [_ H3].
    destruct (assemble_body tot n (m, c)) as [m1 c1]. simpl in H1, H2, H3. subst m1.
    rewrite IH; [|lia|lia|lia|intros x Hx; apply Hnz; lia].
    rewrite H2, coeff_scale, sumz_shift. rewrite Nat.sub_0_r.
    change (alt 0) with 1.
    rewrite <- Z.add_assoc. f_equal. f_equal; [ring|].
    apply sumz_ext. intros t _. rewrite alt_S.
    replace (n - 1 - t)%nat with (n - S t)%nat by lia. ring.
Qed.

Lemma alt_sub n i : (i <= n)%nat -> alt (n - i) = alt n * alt i.
Proof.
  intros H. rewrite !alt_pow.
  rewrite <- Z.pow_add_r by lia.
  replace (Z.of_nat n + Z.of_nat i) with (Z.of_nat (n - i) + 2 * Z.of_nat i) by lia.
  rewrite Z.pow_add_r, Z.pow_mul_r by lia. change ((-1) ^ 2) with 1.
  rewrite Z.pow_1_l by lia. ring.
Qed.

(** The coefficients that the assembly leaves, when the sizes that occur
    are those from [lo] to [n]. *)
Lemma assemble_coeffs tot n lo d :
  (1 <= lo <= n)%nat ->
  (forall x, (lo <= x <= n)%nat -> nth x tot 0 <> 0) ->
  (forall x, (x < lo)%nat -> nth x tot 0 = 0) ->
  length (assemble tot n) = (n + 1)%nat /\
  nth d (assemble tot n) 0
  = sumz (n + 1) (fun i => nth i tot 0 * alt (n - i) * coeff (tree_poly i) d).
Proof.
  intros Hlo Hnz Hz. unfold assemble. rewrite assemble_from_steps.
  pose proof (assemble_steps_add tot (n - lo + 1) (lo - 1) n (-1, repeat 0 (n + 1))) as Ha.
  replace (n - lo + 1 + (lo - 1))%nat with n in Ha by lia. rewrite Ha. clear Ha.
  assert (Hm : -1 * -1 = 1) by reflexivity.
  destruct (assemble_steps_length tot (n - lo + 1) n (-1) (repeat 0 (n + 1)) Hm)
    as [Hm1 Hl1].
  pose proof (assemble_steps_coeffs tot (n - lo + 1) n (-1) (repeat 0 (n + 1)) d Hm
                ltac:(lia) ltac:(rewrite repeat_length; lia)
                ltac:(intros x Hx; apply Hnz; lia)) as Hc.
  destruct (assemble_steps tot n (n - lo + 1) (-1, repeat 0 (n + 1))) as [m1 c1].
  simpl in Hm1, Hl1, Hc.
  rewrite assemble_steps_zero; [|lia|intros x Hx; apply Hz; lia].
  simpl. rewrite Hl1, repeat_length. split; [reflexivity|].
  rewrite Hc, nth_repeat_0, Z.add_0_l.
  set (F := fun i => nth i tot 0 * (- -1 * alt (n - i)) * coeff (tree_poly i) d).
  rewrite (sumz_ext (n - lo + 1) _ (fun t => F (n - t)%nat)).
  2:{ intros t Ht. unfold F. replace (n - (n - t))%nat with t by lia. reflexivity. }
  rewrite (sumz_rev_range n F (n - lo + 1)) by lia.
  apply sumz_ext. intros i Hi. unfold F.
  destruct (Nat.leb_spec (n + 1 - (n - lo + 1)) i); [ring|].
  rewrite Hz by lia. ring.
Qed.

(** The value of the assembled polynomial at [k] is the value of the
    histogram, up to the sign of [n]. *)
Lemma assemble_value tot n lo k :
  (1 <= lo <= n)%nat -> length tot = (n + 1)%nat ->
  (forall x, (lo <= x <= n)%nat -> nth x tot 0 <> 0) ->
  (forall x, (x < lo)%nat -> nth x tot 0 = 0) ->
  eval (of_coeffs (assemble tot n)) (Z.of_nat k) = alt n * hist_value k tot.
Proof.
  intros Hlo Hlen Hnz Hz. unfold of_coeffs. rewrite eval_norm.
  pose proof (fun d => proj1 (assemble_coeffs tot n lo d Hlo Hnz Hz)) as Hl.
  pose proof (fun d => proj2 (assemble_coeffs tot n lo d Hlo Hnz Hz)) as Hc.
  rewrite eval_sum, (Hl 0%nat). unfold coeff.
  rewrite (sumz_ext _ _ (fun d => sumz (n + 1) (fun i =>
     nth i tot 0 * alt (n - i) * (coeff (tree_poly i) d * Z.of_nat k ^ Z.of_nat d)))).
  2:{ intros d _. rewrite Hc, <- sumz_mul_r. apply sumz_ext. intros i _. ring. }
  rewrite sumz_exchange. unfold hist_value. rewrite Hlen, <- sumz_mul_l.
  apply sumz_ext. intros i Hi. rewrite sumz_mul_l.
  rewrite alt_sub by lia.
  destruct (Nat.eq_dec i 0%nat) as [->|Hi0]; [rewrite Hz by lia; ring|].
  rewrite <- (eval_sum_coeff (tree_poly i) (Z.of_nat k) (n + 1)).
  - rewrite eval_tree_poly. ring.
  - intros d Hd. rewrite coeff_tree_poly by lia.
    destruct (Nat.leb_spec d i); [lia|]. rewrite andb_false_r. reflexivity.
Qed.

End AssemblyValue.

(** ** A round of the assembly loop *)

Section AssemblyRound.
Import Poly PolyFacts Count EvalFacts.


End AssemblyRound.


(** ** The bubble sort of the chords *)

Module Bubble.
Import Chords.

Lemma sorted_app {A} (R : A -> A -> Prop) (l1 l2 : list A) :
  StronglySorted R (l1 ++ l2) <->
  StronglySorted R l1 /\ StronglySorted R l2 /\
  (forall x y, In x l1 -> In y l2 -> R x y).
Proof.
  induction l1 as [|a l1 IH]; simpl.
  - split; [intros H; repeat split; [constructor | exact H | intros ? ? []] | tauto].
  - split.
    + intros H. inversion H as [|? ? Hs Hall]; subst. apply IH in Hs.
      destruct Hs as (H1 & H2 & H3). rewrite List.Forall_forall in Hall.
      repeat split; [constructor; [exact H1|] | exact H2 |].
      * apply List.Forall_forall. intros x Hx. apply Hall, in_app_iff. auto.
      * intros x y [<-|Hx] Hy; [apply Hall, in_app_iff; auto | apply H3; assumption].
    + intros (H1 & H2 & H3). inversion H1 as [|? ? Hs Hall]; subst.
      constructor; [apply IH; repeat split; auto|].
      rewrite List.Forall_forall in *. intros x Hx. apply in_app_iff in Hx.
      destruct Hx as [Hx|Hx]; [apply Hall, Hx | apply H3; auto].
Qed.

Lemma sorted_rev {A} (R : A -> A -> Prop) (l : list A) :
  StronglySorted R l -> StronglySorted (fun x y => R y x) (rev l).
Proof.
  induction l as [|a l IH]; intros H; [constructor|].
  inversion H as [|? ? Hs Hall]; subst. simpl. apply sorted_app.
  rewrite List.Forall_forall in Hall.
  repeat split; [apply IH, Hs | repeat constructor |].
  intros x y Hx [<-|[]]. apply Hall, in_rev, Hx.
Qed.

Lemma in_bubble c' c : forall l, In c' (bubble l c) <-> c' = c \/ In c' l.
Proof.
  induction l as [|p l IH]; simpl; [intuition congruence|].
  destruct (chord_gt p c); simpl; [|rewrite IH]; intuition congruence.
Qed.

Lemma length_bubble c : forall l, length (bubble l c) = S (length l).
Proof.
  induction l as [|p l IH]; simpl; [reflexivity|].
  destruct (chord_gt p c); simpl; [|rewrite IH]; reflexivity.
Qed.

Lemma bubble_sorted c : forall l,
  StronglySorted (fun x y => chord_gt y x = true) l -> ~ In c l ->
  StronglySorted (fun x y => chord_gt y x = true) (bubble l c).
Proof.
  induction l as [|p l IH]; intros Hs Hc; simpl; [repeat constructor|].
  inversion Hs as [|? ? Hs' Hall]; subst. rewrite List.Forall_forall in Hall.
  destruct (chord_gt p c) eqn:E.
  - constructor; [exact Hs|]. apply List.Forall_forall. intros x [<-|Hx]; [exact E|].
    eapply chord_gt_trans; [apply Hall, Hx | exact E].
  - assert (Hpc : chord_gt c p = true).
    { destruct (chord_gt c p) eqn:E'; [reflexivity|].
      exfalso. apply Hc. left. apply chord_total; assumption. }
    constructor; [apply IH; [exact Hs' | intros H; apply Hc; right; exact H]|].
    apply List.Forall_forall. intros x Hx. apply in_bubble in Hx.
    destruct Hx as [->|Hx]; [exact Hpc | apply Hall, Hx].
Qed.

Lemma in_insert_chord c' c l : In c' (insert_chord l c) <-> c' = c \/ In c' l.
Proof. unfold insert_chord. rewrite <- in_rev, in_bubble, <- in_rev. reflexivity. Qed.

Lemma length_insert_chord c l : length (insert_chord l c) = S (length l).
Proof. unfold insert_chord. rewrite length_rev, length_bubble, length_rev. reflexivity. Qed.

Lemma insert_chord_sorted c l :
  StronglySorted (fun x y => chord_gt x y = true) l -> ~ In c l ->
  StronglySorted (fun x y => chord_gt x y = true) (insert_chord l c).
Proof.
  intros Hs Hc. unfold insert_chord.
  apply (sorted_rev (fun x y => chord_gt y x = true)).
  apply bubble_sorted; [|rewrite <- in_rev; exact Hc].
  apply (sorted_rev (fun x y => chord_gt x y = true)), Hs.
Qed.

Lemma sorted_NoDup l :
  StronglySorted (fun x y => chord_gt x y = true) l -> List.NoDup l.
Proof.
  induction 1 as [|a l Hs IH Hall]; constructor; [|exact IH].
  intros Ha. rewrite List.Forall_forall in Hall. specialize (Hall a Ha).
  rewrite chord_gt_irrefl in Hall. discriminate.
Qed.

(** A list without repetition that maps into another one, no two elements
    to the same one, is not longer. *)
Lemma inj_length {A B} (R : A -> B -> Prop) : forall (L : list A) (E : list B),
  List.NoDup L ->
  (forall x, In x L -> exists e, In e E /\ R x e) ->
  (forall x x' e, In x L -> In x' L -> R x e -> R x' e -> x = x') ->
  (length L <= length E)%nat.
Proof.
  induction L as [|x L IH]; intros E Hn Hex Hinj; [simpl; lia|].
  inversion Hn as [|? ? Hx Hn']; subst.
  destruct (Hex x (or_introl eq_refl)) as (e & He & Hr).
  apply in_split in He. destruct He as (E1 & E2 & ->).
  rewrite length_app. simpl.
  specialize (IH (E1 ++ E2) Hn'). rewrite length_app in IH.
  enough (length L <= length E1 + length E2)%nat by lia.
  apply IH.
  - intros x' Hx'. destruct (Hex x' (or_intror Hx')) as (e' & He' & Hr').
    exists e'. split; [|exact Hr'].
    apply in_app_iff in He'. apply in_app_iff.
    destruct He' as [He'|[<-|He']]; [auto| |auto].
    exfalso. apply Hx. rewrite (Hinj x x' e); auto. left. reflexivity. right. exact Hx'.
  - intros a b e' Ha Hb. apply Hinj; right; assumption.
Qed.

End Bubble.

(** ** The breadth first search *)

Module BfsFacts.
Import Chords Bubble GraphFacts.

Section Bfs.

Variables (g : Graph.t) (n : nat).
Hypothesis Hverts : Graph.verts g = seq 0 n.
Hypothesis Hn : (1 <= n)%nat.

Lemma neighbor_lt v u : In u (Graph.neighbors g v) ->
  (u < n)%nat /\ Graph.has_edge g u v = true.
Proof.
  intros H. apply in_neighbors in H. rewrite Hverts in H. destruct H as [H1 H2].
  apply in_seq in H1. split; [lia | exact H2].
Qed.

Lemma neighbors_NoDup v : List.NoDup (Graph.neighbors g v).
Proof. unfold Graph.neighbors. apply List.NoDup_filter. rewrite Hverts. apply seq_NoDup. Qed.

Lemma in_queue_nth st u : In u (queue st) ->
  exists i, (i < length (queue st))%nat /\ qv st i = u.
Proof. intros H. apply (In_nth _ _ 0%nat) in H. exact H. Qed.

Lemma qv_inj bot done st i j : bfs_inv g n bot done st ->
  (i < length (queue st))%nat -> (j < length (queue st))%nat ->
  qv st i = qv st j -> i = j.
Proof.
  intros K Hi Hj E.
  destruct (inv_R_in _ _ _ _ _ K i Hi) as [H1 _].
  destruct (inv_R_in _ _ _ _ _ K j Hj) as [H2 _].
  rewrite E in H1. rewrite H1 in H2. injection H2. lia.
Qed.

Lemma queue_NoDup bot done st : bfs_inv g n bot done st -> List.NoDup (queue st).
Proof.
  intros K. apply (NoDup_nth (queue st) 0%nat). intros i j Hi Hj E.
  eapply qv_inj; eassumption.
Qed.

Lemma queue_lt bot done st u : bfs_inv g n bot done st -> In u (queue st) -> (u < n)%nat.
Proof.
  intros K H. apply in_queue_nth in H. destruct H as (i & Hi & <-).
  apply (inv_R_in _ _ _ _ _ K i Hi).
Qed.

Lemma queue_room bot done st u : bfs_inv g n bot done st ->
  (u < n)%nat -> ~ In u (queue st) -> (length (queue st) < n)%nat.
Proof.
  intros K Hu Hnot.
  assert (Hnd : List.NoDup (u :: queue st)).
  { constructor; [exact Hnot | eapply queue_NoDup; exact K]. }
  assert (Hincl : incl (u :: queue st) (seq 0 n)).
  { intros x [<-|Hx]; apply in_seq; [lia|]. pose proof (queue_lt _ _ _ _ K Hx). lia. }
  pose proof (NoDup_incl_length Hnd Hincl) as Hl. rewrite length_seq in Hl.
  simpl in Hl. lia.
Qed.

(** The tree edges and the chords are edges of the graph, each edge once. *)
Lemma edges_bound bot done st (extra : list (nat * nat)) :
  bfs_inv g n bot done st ->
  List.NoDup (extra ++ tree_edges (parent st) (length (queue st)) ++ chords st) ->
  (forall a b, In (a, b) extra ->
     (b < a)%nat /\ (a < length (queue st))%nat /\
     Graph.has_edge g (qv st a) (qv st b) = true) ->
  (length extra + (length (queue st) - 1) + length (chords st) <= Graph.size g)%nat.
Proof.
  intros K Hnd Hex.
  set (L := extra ++ tree_edges (parent st) (length (queue st)) ++ chords st) in *.
  assert (HL : forall a b, In (a, b) L ->
            (b < a)%nat /\ (a < length (queue st))%nat /\
            Graph.has_edge g (qv st a) (qv st b) = true).
  { intros a b H. unfold L in H. rewrite !in_app_iff in H.
    destruct H as [H|[H|H]].
    - apply Hex, H.
    - apply TreeChord.in_tree_edges in H. simpl in H. destruct H as [H1 H2].
      destruct (inv_par _ _ _ _ _ K a H1) as (P1 & _).
      fold (pv st a) in H2. subst b.
      split; [exact P1|]. split; [lia|]. apply (inv_tree_edge _ _ _ _ _ K a H1).
    - destruct (inv_chord _ _ _ _ _ K a b H) as (_ & C2 & C3 & _).
      split; [exact C2|]. split; [exact C3|]. apply (inv_chord_edge _ _ _ _ _ K a b H). }
  assert (Hlen : length L = (length extra + (length (queue st) - 1) + length (chords st))%nat).
  { unfold L, tree_edges. rewrite !length_app, length_map, length_seq.
    unfold chord. lia. }
  rewrite <- Hlen. unfold Graph.size.
  apply (inj_length (fun (x : nat * nat) e => (x.2 < x.1)%nat /\
                       (x.1 < length (queue st))%nat /\
                       Graph.same_edge (qv st x.1, qv st x.2) e = true)).
  - exact Hnd.
  - intros [a b] Hx. destruct (HL a b Hx) as (H1 & H2 & H3).
    unfold Graph.has_edge in H3. apply existsb_exists in H3.
    destruct H3 as (e & He & Hs). exists e. simpl. auto.
  - intros [a b] [a' b'] e _ _ (H1 & H2 & H3) (H1' & H2' & H3'). simpl in *.
    unfold Graph.same_edge in H3, H3'. simpl in H3, H3'.
    apply orb_true_iff in H3, H3'.
    rewrite !andb_true_iff, !Nat.eqb_eq in H3, H3'.
    assert (Q : forall i j, (i < length (queue st))%nat -> (j < length (queue st))%nat ->
                  qv st i = qv st j -> i = j) by (intros; eapply qv_inj; eassumption).
    destruct H3 as [[E1 E2]|[E1 E2]], H3' as [[E1' E2']|[E1' E2']].
    + rewrite (Q a a'), (Q b b'); try lia; congruence.
    + assert (a = b') by (apply Q; try lia; congruence).
      assert (b = a') by (apply Q; try lia; congruence). lia.
    + assert (a = b') by (apply Q; try lia; congruence).
      assert (b = a') by (apply Q; try lia; congruence). lia.
    + rewrite (Q a a'), (Q b b'); try lia; congruence.
Qed.

Lemma tree_edges_NoDup P m : List.NoDup (tree_edges P m).
Proof.
  unfold tree_edges. apply Finite.Injective_map_NoDup; [|apply seq_NoDup].
  intros x y H. congruence.
Qed.

Lemma tree_chords_NoDup bot done st : bfs_inv g n bot done st ->
  List.NoDup (tree_edges (parent st) (length (queue st)) ++ chords st).
Proof.
  intros K. apply List.NoDup_app.
  - apply tree_edges_NoDup.
  - apply sorted_NoDup, (inv_sorted _ _ _ _ _ K).
  - intros [a b] H1 H2. apply TreeChord.in_tree_edges in H1.
    destruct (inv_chord _ _ _ _ _ K a b H2) as (C1 & _). unfold pv in C1.
    simpl in H1. lia.
Qed.

Lemma qv_snoc_old st R' P' C' u i : (i < length (queue st))%nat ->
  qv (Bfs R' (queue st ++ [u]) P' C') i = qv st i.
Proof. intros H. unfold qv. simpl. apply app_nth1, H. Qed.

Lemma qv_snoc_new st R' P' C' u :
  qv (Bfs R' (queue st ++ [u]) P' C') (length (queue st)) = u.
Proof. unfold qv. simpl. apply nth_middle. Qed.

Lemma pv_snoc_old st R' Q' C' b i : (i < length (parent st))%nat ->
  pv (Bfs R' Q' (parent st ++ [b]) C') i = pv st i.
Proof. intros H. unfold pv. simpl. apply app_nth1, H. Qed.

Lemma pv_snoc_new st R' Q' C' b :
  pv (Bfs R' Q' (parent st ++ [b]) C') (length (parent st)) = b.
Proof. unfold pv. simpl. apply nth_middle. Qed.

(** The neighbour [u] is new: it enters the queue as a child of the
    vertex at [bot]. *)
Lemma inv_visit_new bot done st u :
  bfs_inv g n bot done st ->
  In u (Graph.neighbors g (qv st bot)) -> ~ In u (queue st) ->
  bfs_inv g n bot (done ++ [u])
    (Bfs (<[u := Z.of_nat (length (queue st))]> (bfs_reorder st))
         (queue st ++ [u]) (parent st ++ [bot]) (chords st)).
Proof.
  intros K Hu Hnot. destruct (neighbor_lt _ _ Hu) as [Hun He].
  pose proof (inv_len_P _ _ _ _ _ K) as HlP.
  pose proof (inv_bot _ _ _ _ _ K) as Hbot.
  pose proof (inv_len_R _ _ _ _ _ K) as HlR.
  set (st' := Bfs _ _ _ _).
  assert (Hq : forall i, (i < length (queue st))%nat -> qv st' i = qv st i)
    by (intros; apply qv_snoc_old; assumption).
  assert (Hqn : qv st' (length (queue st)) = u) by apply qv_snoc_new.
  assert (Hp : forall i, (i < length (queue st))%nat -> pv st' i = pv st i)
    by (intros; apply pv_snoc_old; lia).
  assert (Hpn : pv st' (length (queue st)) = bot)
    by (rewrite <- HlP; apply pv_snoc_new).
  assert (Hlq : length (queue st') = S (length (queue st)))
    by (simpl; rewrite length_app; simpl; lia).
  assert (Hin : forall i, (i < length (queue st))%nat -> qv st i <> u).
  { intros i Hi E. apply Hnot. rewrite <- E. apply nth_In, Hi. }
  constructor; rewrite ?Hlq.
  - simpl. rewrite length_insert. exact HlR.
  - simpl. rewrite !length_app. simpl. lia.
  - lia.
  - rewrite Hq by lia. apply (inv_root _ _ _ _ _ K).
  - intros i Hi. destruct (Nat.eq_dec i (length (queue st))) as [->|Hne].
    + rewrite Hqn. split; [|exact Hun]. simpl.
      apply list_lookup_insert_eq. lia.
    + rewrite Hq by lia. destruct (inv_R_in _ _ _ _ _ K i ltac:(lia)) as [H1 H2].
      split; [|exact H2]. simpl. rewrite list_lookup_insert_ne; [exact H1|].
      intros E. apply (Hin i); [lia | congruence].
  - intros w Hw Hnw. simpl in Hnw. rewrite in_app_iff in Hnw. simpl in Hnw.
    simpl. rewrite list_lookup_insert_ne by (intros E; apply Hnw; auto).
    apply (inv_R_out _ _ _ _ _ K w Hw). tauto.
  - intros i Hi. destruct (Nat.eq_dec i (length (queue st))) as [->|Hne].
    + rewrite Hpn, Hqn. split; [lia|]. split; [lia|]. intros _.
      apply in_app_iff. right. left. reflexivity.
    + rewrite Hp, Hq by lia.
      destruct (inv_par _ _ _ _ _ K i ltac:(lia)) as (H1 & H2 & H3).
      split; [exact H1|]. split; [exact H2|]. intros E. apply in_app_iff. auto.
  - intros i j Hij Hj. destruct (Nat.eq_dec j (length (queue st))) as [->|Hne].
    + rewrite Hpn. destruct (Nat.eq_dec i (length (queue st))) as [->|Hne'].
      * rewrite Hpn. lia.
      * rewrite Hp by lia. apply (inv_par _ _ _ _ _ K i). lia.
    + rewrite !Hp by lia. apply (inv_mono _ _ _ _ _ K); lia.
  - apply (inv_sorted _ _ _ _ _ K).
  - intros a b Hab. simpl in Hab.
    destruct (inv_chord _ _ _ _ _ K a b Hab) as (H1 & H2 & H3 & H4 & H5).
    rewrite Hp, Hq by lia. split; [exact H1|]. split; [exact H2|]. split; [lia|].
    split; [exact H4|]. intros E. apply in_app_iff. auto.
  - intros j w [[Hj Hw]|[-> Hw]].
    + rewrite Hq in Hw by lia.
      destruct (inv_fwd _ _ _ _ _ K j w (or_introl (conj Hj Hw))) as (i & Hi & E & F).
      exists i. split; [lia|]. rewrite Hq, Hp by lia. auto.
    + apply in_app_iff in Hw. destruct Hw as [Hw|[<-|[]]].
      * destruct (inv_fwd _ _ _ _ _ K bot w (or_intror (conj eq_refl Hw)))
          as (i & Hi & E & F).
        exists i. split; [lia|]. rewrite Hq, Hp by lia. auto.
      * exists (length (queue st)). split; [lia|]. split; [exact Hqn|].
        intros _. left. exact Hpn.
  - intros i Hi. destruct (Nat.eq_dec i (length (queue st))) as [->|Hne].
    + rewrite Hpn, Hqn, Hq by lia. exact He.
    + destruct (inv_par _ _ _ _ _ K i ltac:(lia)) as (H1 & _).
      rewrite Hp by lia. rewrite !Hq by lia. apply (inv_tree_edge _ _ _ _ _ K). lia.
  - intros a b Hab. simpl in Hab.
    destruct (inv_chord _ _ _ _ _ K a b Hab) as (H1 & H2 & H3 & H4 & H5).
    rewrite !Hq by lia. apply (inv_chord_edge _ _ _ _ _ K a b Hab).
Qed.

(** The neighbour [u] is in the queue after the vertex at [bot]: the edge
    is a chord. *)
Lemma inv_visit_chord bot done st i :
  bfs_inv g n bot done st ->
  In (qv st i) (Graph.neighbors g (qv st bot)) -> ~ In (qv st i) done ->
  (bot < i < length (queue st))%nat ->
  ~ In (i, bot) (chords st) /\ (pv st i < bot)%nat /\
  bfs_inv g n bot (done ++ [qv st i])
    (Bfs (bfs_reorder st) (queue st) (parent st) (insert_chord (chords st) (i, bot))).
Proof.
  intros K Hu Hnot Hi. destruct (neighbor_lt _ _ Hu) as [Hun He].
  assert (Hfresh : ~ In (i, bot) (chords st)).
  { intros H. destruct (inv_chord _ _ _ _ _ K i bot H) as (_ & _ & _ & _ & H5).
    apply Hnot, H5. reflexivity. }
  assert (Hpi : (pv st i < bot)%nat).
  { destruct (inv_par _ _ _ _ _ K i ltac:(lia)) as (_ & H2 & H3).
    destruct (Nat.eq_dec (pv st i) bot) as [E|E]; [exfalso; apply Hnot, H3, E | lia]. }
  split; [exact Hfresh|]. split; [exact Hpi|].
  destruct K as [K1 K2 K3 K4 K5 K6 K7 K8 K9 K10 K11 K12 K13].
  constructor; try assumption.
  - intros j Hj. destruct (K7 j Hj) as (H1 & H2 & H3).
    split; [exact H1|]. split; [exact H2|]. intros E. apply in_app_iff. auto.
  - apply insert_chord_sorted; assumption.
  - intros a b Hab. simpl in Hab. apply in_insert_chord in Hab.
    destruct Hab as [[= -> ->]|Hab].
    + change (pv (Bfs _ _ _ _) i) with (pv st i).
      change (qv (Bfs _ _ _ _) i) with (qv st i).
      split; [exact Hpi|]. split; [lia|]. split; [simpl; lia|]. split; [lia|].
      intros _. apply in_app_iff. right. left. reflexivity.
    + destruct (K10 a b Hab) as (H1 & H2 & H3 & H4 & H5).
      split; [exact H1|]. split; [exact H2|]. split; [exact H3|]. split; [exact H4|].
      intros E. apply in_app_iff. left. apply H5, E.
  - intros j w Hjw.
    assert (Hold : (j < bot)%nat /\ In w (Graph.neighbors g (qv st j)) \/
                   j = bot /\ In w done \/ j = bot /\ w = qv st i).
    { destruct Hjw as [H|[-> H]]; [auto|]. apply in_app_iff in H.
      destruct H as [H|[<-|[]]]; auto. }
    destruct Hold as [H|[H|[-> ->]]].
    + destruct (K11 j w (or_introl H)) as (i' & H1 & H2 & H3).
      exists i'. split; [exact H1|]. split; [exact H2|]. intros Hlt.
      destruct (H3 Hlt) as [E|E]; [left; exact E|]. right. simpl.
      apply in_insert_chord. auto.
    + destruct (K11 j w (or_intror H)) as (i' & H1 & H2 & H3).
      exists i'. split; [exact H1|]. split; [exact H2|]. intros Hlt.
      destruct (H3 Hlt) as [E|E]; [left; exact E|]. right. simpl.
      apply in_insert_chord. auto.
    + exists i. split; [simpl; lia|]. split; [reflexivity|]. intros _. right. simpl.
      apply in_insert_chord. auto.
  - intros a b Hab. simpl in Hab. apply in_insert_chord in Hab.
    destruct Hab as [[= -> ->]|Hab]; [exact He | apply K13, Hab].
Qed.

(** The neighbour [u] is in the queue, not after the vertex at [bot]:
    nothing changes. *)
Lemma inv_visit_skip bot done st i :
  bfs_inv g n bot done st -> (i <= bot)%nat ->
  bfs_inv g n bot (done ++ [qv st i]) st.
Proof.
  intros K Hi.
  destruct K as [K1 K2 K3 K4 K5 K6 K7 K8 K9 K10 K11 K12 K13].
  constructor; try assumption.
  - intros j Hj. destruct (K7 j Hj) as (H1 & H2 & H3).
    split; [exact H1|]. split; [exact H2|]. intros E. apply in_app_iff. auto.
  - intros a b Hab. destruct (K10 a b Hab) as (H1 & H2 & H3 & H4 & H5).
    split; [exact H1|]. split; [exact H2|]. split; [exact H3|]. split; [exact H4|].
    intros E. apply in_app_iff. left. apply H5, E.
  - intros j w Hjw.
    assert (Hold : (j < bot)%nat /\ In w (Graph.neighbors g (qv st j)) \/
                   j = bot /\ In w done \/ j = bot /\ w = qv st i).
    { destruct Hjw as [H|[-> H]]; [auto|]. apply in_app_iff in H.
      destruct H as [H|[<-|[]]]; auto. }
    destruct Hold as [H|[H|[-> ->]]].
    + apply K11. left. exact H.
    + apply K11. right. exact H.
    + exists i. split; [lia|]. split; [reflexivity|]. intros Hlt. lia.
Qed.

(** One neighbour: the step of the search succeeds when the chord arrays
    have room for all edges, and keeps the invariant. *)
Lemma visit_step bot done st u cap :
  bfs_inv g n bot done st ->
  In u (Graph.neighbors g (qv st bot)) -> ~ In u done ->
  Z.of_nat (Graph.size g) <= cap ->
  exists st', bfs_visit n cap (qv st bot) st u = Some st' /\
              bfs_inv g n bot (done ++ [u]) st'.
Proof.
  intros K Hu Hnot Hcap. destruct (neighbor_lt _ _ Hu) as [Hun He].
  pose proof (inv_bot _ _ _ _ _ K) as Hbot.
  destruct (inv_R_in _ _ _ _ _ K bot Hbot) as [Rv _].
  unfold bfs_visit.
  destruct (in_dec Nat.eq_dec u (queue st)) as [Hin|Hout].
  - destruct (in_queue_nth st u Hin) as (i & Hi & <-).
    destruct (inv_R_in _ _ _ _ _ K i Hi) as [Ru _].
    rewrite Ru. cbn [mbind option_bind]. rewrite Rv. cbn [mbind option_bind].
    destruct (Z.eqb_spec (Z.of_nat i) (-1)) as [E|_]; [lia|].
    destruct (Z.ltb_spec (Z.of_nat bot) (Z.of_nat i)) as [Hlt|Hge].
    + destruct (inv_visit_chord bot done st i K Hu Hnot ltac:(lia)) as (Hf & Hpi & K').
      assert (Hb : (1 + (length (queue st) - 1) + length (chords st)
                    <= Graph.size g)%nat).
      { apply (edges_bound bot done st [(i, bot)] K).
        - constructor; [|eapply tree_chords_NoDup; exact K].
          intros H. apply in_app_iff in H. destruct H as [H|H]; [|exact (Hf H)].
          apply TreeChord.in_tree_edges in H. simpl in H. unfold pv in Hpi. lia.
        - intros a b [[= <- <-]|[]]. split; [lia|]. split; [lia|]. exact He. }
      destruct (Z.ltb_spec (Z.of_nat (length (chords st))) cap) as [_|Hc]; [|lia].
      rewrite !Nat2Z.id. eexists. split; [reflexivity | exact K'].
    + eexists. split; [reflexivity|]. apply inv_visit_skip; [exact K | lia].
  - rewrite (inv_R_out _ _ _ _ _ K u Hun Hout). cbn [mbind option_bind].
    rewrite Rv. cbn [mbind option_bind]. change (-1 =? -1) with true. cbv iota.
    pose proof (queue_room bot done st u K Hun Hout) as Hroom.
    destruct (Nat.ltb_spec (length (queue st)) n) as [_|]; [|lia].
    rewrite Nat2Z.id. eexists. split; [reflexivity|].
    apply inv_visit_new; assumption.
Qed.

(** *** The loops *)

Lemma visit_prefix cap v st u st' :
  bfs_visit n cap v st u = Some st' ->
  (exists ext, queue st' = queue st ++ ext) /\
  (length (chords st) <= length (chords st'))%nat.
Proof.
  unfold bfs_visit. destruct (bfs_reorder st !! u) as [ru|]; [|discriminate].
  cbn [mbind option_bind]. destruct (bfs_reorder st !! v) as [rv|]; [|discriminate].
  cbn [mbind option_bind].
  destruct (ru =? -1).
  - destruct (Nat.ltb (length (queue st)) n); [|discriminate].
    intros [= <-]. simpl. split; [eexists; reflexivity | lia].
  - destruct (rv <? ru).
    + destruct (Z.of_nat (length (chords st)) <? cap); [|discriminate].
      intros [= <-]. simpl. rewrite length_insert_chord.
      split; [exists []; rewrite app_nil_r; reflexivity | lia].
    + intros [= <-]. split; [exists []; rewrite app_nil_r; reflexivity | lia].
Qed.

Lemma visit_qv cap v st u st' i :
  bfs_visit n cap v st u = Some st' -> (i < length (queue st))%nat -> qv st' i = qv st i.
Proof.
  intros H Hi. apply visit_prefix in H. destruct H as [(ext & E) _].
  unfold qv. rewrite E. apply app_nth1, Hi.
Qed.

(** A run that leaves no more chords than the arrays hold is the same run
    in these arrays. *)
Lemma visit_cap c1 c2 v st u st' :
  bfs_visit n c1 v st u = Some st' ->
  Z.of_nat (length (chords st')) <= c2 ->
  bfs_visit n c2 v st u = Some st'.
Proof.
  unfold bfs_visit. destruct (bfs_reorder st !! u) as [ru|]; [|discriminate].
  cbn [mbind option_bind]. destruct (bfs_reorder st !! v) as [rv|]; [|discriminate].
  cbn [mbind option_bind].
  destruct (ru =? -1); [auto|].
  destruct (rv <? ru); [|auto].
  destruct (Z.of_nat (length (chords st)) <? c1); [|discriminate].
  intros [= <-]. simpl. rewrite length_insert_chord. intros H.
  destruct (Z.ltb_spec (Z.of_nat (length (chords st))) c2); [reflexivity | lia].
Qed.

Lemma neighbors_mono cap v : forall us st st',
  bfs_neighbors n cap v st us = Some st' ->
  (length (chords st) <= length (chords st'))%nat.
Proof.
  induction us as [|u us IH]; intros st st' H; simpl in H.
  - injection H as <-. lia.
  - destruct (bfs_visit n cap v st u) as [st1|] eqn:E; [|discriminate].
    cbn [mbind option_bind] in H. apply IH in H. apply visit_prefix in E. lia.
Qed.

Lemma neighbors_cap c1 c2 v : forall us st st',
  bfs_neighbors n c1 v st us = Some st' ->
  Z.of_nat (length (chords st')) <= c2 ->
  bfs_neighbors n c2 v st us = Some st'.
Proof.
  induction us as [|u us IH]; intros st st' H Hc; simpl in *; [exact H|].
  destruct (bfs_visit n c1 v st u) as [st1|] eqn:E; [|discriminate].
  cbn [mbind option_bind] in H.
  rewrite (visit_cap c1 c2 v st u st1 E).
  - cbn [mbind option_bind]. apply IH; assumption.
  - apply neighbors_mono in H. lia.
Qed.

Lemma bfs_loop_eq cap rounds bot st :
  bfs_loop g n cap rounds bot st
  = if Nat.ltb bot (length (queue st)) then
      match rounds with
      | O => None
      | S rounds' =>
          v ← queue st !! bot;
          st' ← bfs_neighbors n cap v st (Graph.neighbors g v);
          bfs_loop g n cap rounds' (S bot) st'
      end
    else Some st.
Proof. destruct rounds; reflexivity. Qed.

Lemma loop_mono cap : forall rounds bot st st',
  bfs_loop g n cap rounds bot st = Some st' ->
  (length (chords st) <= length (chords st'))%nat.
Proof.
  induction rounds as [|r IH]; intros bot st st' H; rewrite bfs_loop_eq in H;
    destruct (Nat.ltb bot (length (queue st))); try discriminate;
    try (injection H as <-; lia).
  destruct (queue st !! bot) as [v|]; [|discriminate]. cbn [mbind option_bind] in H.
  destruct (bfs_neighbors n cap v st (Graph.neighbors g v)) as [st1|] eqn:E;
    [|discriminate].
  cbn [mbind option_bind] in H. apply IH in H. apply neighbors_mono in E. lia.
Qed.

Lemma loop_cap c1 c2 : forall rounds bot st st',
  bfs_loop g n c1 rounds bot st = Some st' ->
  Z.of_nat (length (chords st')) <= c2 ->
  bfs_loop g n c2 rounds bot st = Some st'.
Proof.
  induction rounds as [|r IH]; intros bot st st' H Hc;
    rewrite bfs_loop_eq in H; rewrite bfs_loop_eq;
    destruct (Nat.ltb bot (length (queue st))); try discriminate; try exact H.
  destruct (queue st !! bot) as [v|]; [|discriminate]. cbn [mbind option_bind] in *.
  destruct (bfs_neighbors n c1 v st (Graph.neighbors g v)) as [st1|] eqn:E;
    [|discriminate].
  cbn [mbind option_bind] in H.
  rewrite (neighbors_cap c1 c2 v _ st st1 E).
  - cbn [mbind option_bind]. apply IH; assumption.
  - apply loop_mono in H. lia.
Qed.

Lemma neighbors_step bot cap : Z.of_nat (Graph.size g) <= cap ->
  forall todo done st,
    bfs_inv g n bot done st ->
    Graph.neighbors g (qv st bot) = done ++ todo ->
    exists st', bfs_neighbors n cap (qv st bot) st todo = Some st' /\
                bfs_inv g n bot (done ++ todo) st' /\ qv st' bot = qv st bot.
Proof.
  intros Hcap. induction todo as [|u todo IH]; intros done st K HN.
  - exists st. rewrite app_nil_r. simpl. auto.
  - pose proof (neighbors_NoDup (qv st bot)) as Hnd. rewrite HN in Hnd.
    assert (Hu : In u (Graph.neighbors g (qv st bot))).
    { rewrite HN. apply in_app_iff. right. left. reflexivity. }
    assert (Hnot : ~ In u done).
    { apply NoDup_remove_2 in Hnd. intros H. apply Hnd, in_app_iff. auto. }
    destruct (visit_step bot done st u cap K Hu Hnot Hcap) as (st1 & E1 & K1).
    pose proof (visit_qv _ _ _ _ _ bot E1 (inv_bot _ _ _ _ _ K)) as Hq.
    destruct (IH (done ++ [u]) st1 K1) as (st' & E2 & K2 & Hq2).
    { rewrite Hq, HN, <- app_assoc. reflexivity. }
    exists st'. cbn [bfs_neighbors]. rewrite E1. cbn [mbind option_bind].
    rewrite Hq in E2. rewrite E2. rewrite <- app_assoc in K2.
    split; [reflexivity|]. split; [exact K2 | congruence].
Qed.

Lemma queue_le bot done st : bfs_inv g n bot done st -> (length (queue st) <= n)%nat.
Proof.
  intros K. pose proof (queue_NoDup _ _ _ K) as Hnd.
  assert (Hincl : incl (queue st) (seq 0 n)).
  { intros x Hx. apply in_seq. pose proof (queue_lt _ _ _ _ K Hx). lia. }
  pose proof (NoDup_incl_length Hnd Hincl) as Hl. rewrite length_seq in Hl. exact Hl.
Qed.

(** All neighbours of the vertex at [bot] seen, the search goes on to the
    next place. *)
Lemma inv_next bot st :
  bfs_inv g n bot (Graph.neighbors g (qv st bot)) st ->
  (S bot < length (queue st))%nat ->
  bfs_inv g n (S bot) [] st.
Proof.
  intros K Hb. destruct K as [K1 K2 K3 K4 K5 K6 K7 K8 K9 K10 K11 K12 K13].
  constructor; try assumption.
  - intros i Hi. destruct (K7 i Hi) as (H1 & H2 & H3).
    split; [exact H1|]. split; [lia|]. intros E. lia.
  - intros a b Hab. destruct (K10 a b Hab) as (H1 & H2 & H3 & H4 & H5).
    split; [exact H1|]. split; [exact H2|]. split; [exact H3|]. split; [lia|].
    intros E. lia.
  - intros j u [[Hj Hu]|[_ []]].
    destruct (Nat.eq_dec j bot) as [->|Hne].
    + destruct (K11 bot u (or_intror (conj eq_refl Hu))) as (i & H1 & H2 & H3).
      exists i. auto.
    + assert (Hlt : (j < bot)%nat) by lia.
      destruct (K11 j u (or_introl (conj Hlt Hu))) as (i & H1 & H2 & H3).
      exists i. auto.
Qed.

Lemma loop_step cap : Z.of_nat (Graph.size g) <= cap ->
  forall rounds bot st,
    bfs_inv g n bot [] st -> (n <= rounds + bot)%nat ->
    exists st', bfs_loop g n cap rounds bot st = Some st' /\ bfs_final g n st'.
Proof.
  intros Hcap. induction rounds as [|r IH]; intros bot st K Hr;
    pose proof (inv_bot _ _ _ _ _ K) as Hbot; pose proof (queue_le _ _ _ K) as Hle;
    [lia|].
  rewrite bfs_loop_eq.
  destruct (Nat.ltb_spec bot (length (queue st))) as [_|]; [|lia].
  destruct (lookup_lt_is_Some_2 (queue st) bot Hbot) as [v Hv].
  assert (Ev : qv st bot = v) by (unfold qv; rewrite nth_lookup, Hv; reflexivity).
  rewrite Hv. cbn [mbind option_bind]. rewrite <- Ev.
  destruct (neighbors_step bot cap Hcap (Graph.neighbors g (qv st bot)) [] st K eq_refl)
    as (st1 & E1 & K1 & Hq1).
  rewrite E1. cbn [mbind option_bind]. cbn [app] in K1. rewrite <- Hq1 in K1.
  pose proof (inv_bot _ _ _ _ _ K1) as Hbot1.
  destruct (Nat.eq_dec (S bot) (length (queue st1))) as [E|Hne].
  - exists st1. rewrite bfs_loop_eq.
    destruct (Nat.ltb_spec (S bot) (length (queue st1))) as [|_]; [lia|].
    split; [reflexivity|]. exists bot. auto.
  - apply IH; [apply inv_next; [exact K1 | lia] | lia].
Qed.

Lemma lookup_repeat_m1 m i : (i < m)%nat -> repeat (-1) m !! i = Some (-1).
Proof.
  revert i. induction m as [|m IH]; intros i H; [lia|].
  destruct i as [|i]; simpl; [reflexivity | apply IH; lia].
Qed.

Lemma inv_init : bfs_inv g n 0 [] (bfs_init n).
Proof.
  unfold bfs_init. constructor; simpl.
  - rewrite repeat_length. lia.
  - reflexivity.
  - lia.
  - reflexivity.
  - intros i Hi. replace i with 0%nat by lia. unfold qv. simpl. split; [reflexivity | lia].
  - intros u Hu Hnot. destruct u as [|u]; [exfalso; apply Hnot; auto|].
    simpl. apply lookup_repeat_m1. lia.
  - intros i Hi. lia.
  - intros i j Hij Hj. lia.
  - constructor.
  - intros a b [].
  - intros j u [[Hj _]|[_ []]]. lia.
  - intros i Hi. lia.
  - intros a b [].
Qed.

(** *** The search of a connected graph *)

Hypothesis Hconn : Graph.is_connected g = true.

Lemma final_closed st : bfs_final g n st ->
  forall x u, In x (queue st) -> In u (Graph.neighbors g x) -> In u (queue st).
Proof.
  intros (b & K & Hb) x u Hx Hu.
  destruct (in_queue_nth st x Hx) as (j & Hj & <-).
  assert (Hfw : exists i, (i < length (queue st))%nat /\ qv st i = u).
  { destruct (Nat.eq_dec j b) as [->|Hne].
    - destruct (inv_fwd _ _ _ _ _ K b u (or_intror (conj eq_refl Hu))) as (i & H1 & H2 & _).
      eauto.
    - assert (Hlt : (j < b)%nat) by lia.
      destruct (inv_fwd _ _ _ _ _ K j u (or_introl (conj Hlt Hu)))
        as (i & H1 & H2 & _).
      eauto. }
  destruct Hfw as (i & Hi & <-). apply nth_In, Hi.
Qed.

Lemma final_all st : bfs_final g n st -> length (queue st) = n.
Proof.
  intros F. pose proof F as (b & K & Hb).
  assert (H0 : In 0%nat (Graph.verts g)) by (rewrite Hverts; apply in_seq; lia).
  assert (Hc : forall x, conn g 0%nat x -> In x (queue st)).
  { intros x Hx. induction Hx as [|v x _ IH Hnb].
    - rewrite <- (inv_root _ _ _ _ _ K). apply nth_In. lia.
    - eapply final_closed; eassumption. }
  assert (Hincl : incl (seq 0 n) (queue st)).
  { intros u Hu. apply Hc. apply in_component; [exact H0|].
    unfold Graph.is_connected in Hconn. rewrite Hverts in Hconn.
    destruct n as [|n']; [lia|]. cbn [seq] in Hconn.
    rewrite forallb_forall in Hconn. apply memb_In.
    cbn [seq] in Hu. apply Hconn, Hu. }
  pose proof (NoDup_incl_length (seq_NoDup n 0) Hincl) as Hl. rewrite length_seq in Hl.
  pose proof (queue_le _ _ _ K). lia.
Qed.

(** The search of a connected graph on the vertices [0, ..., n - 1]
    returns, with every vertex in the queue, and the tree and the chords it
    leaves are the edges of the graph, by the places of their ends in the
    queue. *)
Lemma bfs_spec :
  exists st, bfs g = Some st /\
    length (queue st) = n /\ length (parent st) = n /\
    List.NoDup (queue st) /\ (forall u, In u (queue st) -> (u < n)%nat) /\
    parent_ok (parent st) /\ chords_ok (parent st) n (chords st) /\
    (forall a b, In (a, b) (tree_edges (parent st) n ++ chords st) ->
       (b < a < n)%nat /\ Graph.has_edge g (qv st a) (qv st b) = true) /\
    (forall i j, (j < i < n)%nat -> Graph.has_edge g (qv st i) (qv st j) = true ->
       In (i, j) (tree_edges (parent st) n ++ chords st)) /\
    (n - 1 + length (chords st) <= Graph.size g)%nat.
Proof.
  assert (Hord : Graph.order g = n).
  { unfold Graph.order. rewrite Hverts. apply length_seq. }
  destruct (loop_step (Z.of_nat (Graph.size g)) ltac:(lia) n 0 (bfs_init n) inv_init
              ltac:(lia)) as (st & E & F).
  pose proof (final_all st F) as Hq.
  destruct F as (b & K & Hb).
  pose proof (edges_bound b _ st [] K (tree_chords_NoDup _ _ _ K) ltac:(intros ? ? []))
    as Hbound.
  simpl in Hbound. rewrite Hq in Hbound.
  exists st. split.
  { unfold bfs. rewrite Hord.
    apply (loop_cap (Z.of_nat (Graph.size g))); [exact E | lia]. }
  pose proof (inv_len_P _ _ _ _ _ K) as HlP.
  split; [exact Hq|]. split; [lia|].
  split; [eapply queue_NoDup; exact K|].
  split; [intros u Hu; eapply queue_lt; eassumption|].
  split.
  { split.
    - intros i Hi. apply (inv_par _ _ _ _ _ K i). lia.
    - intros i j Hij Hj. apply (inv_mono _ _ _ _ _ K i j Hij). lia. }
  split.
  { split; [lia|]. split; [apply (inv_sorted _ _ _ _ _ K)|].
    apply List.Forall_forall. intros [a c] Hc.
    destruct (inv_chord _ _ _ _ _ K a c Hc) as (H1 & H2 & H3 & _).
    unfold chord_ok. simpl. unfold pv in H1. lia. }
  split; [|split].
  - intros a c Hac. apply in_app_iff in Hac. destruct Hac as [H|H].
    + apply TreeChord.in_tree_edges in H. simpl in H. destruct H as [H1 H2].
      destruct (inv_par _ _ _ _ _ K a ltac:(lia)) as (P1 & _).
      fold (pv st a) in H2. subst c. split; [lia|].
      apply (inv_tree_edge _ _ _ _ _ K a). lia.
    + destruct (inv_chord _ _ _ _ _ K a c H) as (_ & C2 & C3 & _).
      split; [lia|]. apply (inv_chord_edge _ _ _ _ _ K a c H).
  - intros i j Hij He.
    assert (Hnb : In (qv st i) (Graph.neighbors g (qv st j))).
    { apply in_neighbors. split; [|exact He]. rewrite Hverts. apply in_seq.
      destruct (inv_R_in _ _ _ _ _ K i ltac:(lia)) as [_ H]. lia. }
    assert (Hlt : (j < b)%nat) by lia.
    destruct (inv_fwd _ _ _ _ _ K j _ (or_introl (conj Hlt Hnb))) as (i' & H1 & H2 & H3).
    assert (i' = i) by (eapply qv_inj; try eassumption; lia). subst i'.
    apply in_app_iff. destruct (H3 ltac:(lia)) as [H|H]; [left | right; exact H].
    apply TreeChord.in_tree_edges. simpl. split; [lia|]. symmetry. exact H.
  - exact Hbound.
Qed.

End Bfs.

End BfsFacts.

(** ** Renaming the vertices *)

Module Rename.
Import Count Proper GraphFacts.

(** The colourings of the vertices [q x] are the colourings of the [x]. *)
Lemma cntw_rename k (q : nat -> nat) (D : nat -> Prop) (W : (nat -> nat) -> Z) :
  (forall x y, D x -> D y -> q x = q y -> x = y) ->
  (forall f f', (forall x, D x -> f x = f' x) -> W f = W f') ->
  forall xs, (forall x, In x xs -> D x) ->
  forall f0 g0, (forall x, D x -> g0 x = f0 (q x)) ->
  cntw k (map q xs) (fun f => W (fun x => f (q x))) f0 = cntw k xs W g0.
Proof.
  intros Hinj HW. induction xs as [|i xs IH]; intros Hxs f0 g0 H0; simpl.
  - apply HW. intros x Hx. symmetry. apply H0, Hx.
  - apply sumz_ext. intros c _. apply IH.
    + intros x Hx. apply Hxs. right. exact Hx.
    + intros x Hx. unfold upd.
      destruct (Nat.eqb_spec x i) as [->|Hne].
      * rewrite Nat.eqb_refl. reflexivity.
      * destruct (Nat.eqb_spec (q x) (q i)) as [E|_]; [|apply H0, Hx].
        exfalso. apply Hne, Hinj; [exact Hx | apply Hxs; left; reflexivity | exact E].
Qed.

Lemma map_nth_seq (l : list nat) :
  map (fun i => nth i l 0%nat) (seq 0 (length l)) = l.
Proof.
  induction l as [|a l IH]; [reflexivity|].
  cbn [length seq map nth]. f_equal. rewrite <- seq_shift, map_map. exact IH.
Qed.

Lemma proper_agree es f f' :
  (forall e, In e es -> f e.1 = f' e.1 /\ f e.2 = f' e.2) ->
  proper es f = proper es f'.
Proof.
  unfold proper. induction es as [|e es IH]; intros H; [reflexivity|]. simpl.
  destruct (H e (or_introl eq_refl)) as [-> ->]. f_equal.
  apply IH. intros e' He'. apply H. right. exact He'.
Qed.

Lemma has_edge_In g e : In e (Graph.edges g) -> Graph.has_edge g e.1 e.2 = true.
Proof.
  intros H. unfold Graph.has_edge. apply existsb_exists. exists e.
  split; [exact H|]. destruct e. apply EdgeFacts.same_edge_refl.
Qed.

Lemma has_edge_differ g u v f :
  Graph.has_edge g u v = true -> proper (Graph.edges g) f = true -> f u <> f v.
Proof.
  intros H Hp. unfold Graph.has_edge in H. apply existsb_exists in H.
  destruct H as (e & He & Hs). rewrite proper_spec in Hp. specialize (Hp e He).
  unfold Graph.same_edge in Hs. simpl in Hs. apply orb_true_iff in Hs.
  rewrite !andb_true_iff, !Nat.eqb_eq in Hs.
  destruct Hs as [[-> ->]|[-> ->]]; [exact Hp | auto].
Qed.

Section BfsCount.

Variables (g : Graph.t) (n : nat).
Hypothesis Hverts : Graph.verts g = seq 0 n.
Hypothesis Hclosed : closed_graph g.
Hypothesis Hloops : Graph.has_loops g = false.

Variable st : bfs_state.
Hypothesis Hq : length (queue st) = n.
Hypothesis Hnd : List.NoDup (queue st).
Hypothesis Hlt : forall u, In u (queue st) -> (u < n)%nat.
Hypothesis Hbwd : forall a b, In (a, b) (tree_edges (parent st) n ++ chords st) ->
  (b < a < n)%nat /\ Graph.has_edge g (qv st a) (qv st b) = true.
Hypothesis Hfwd : forall i j, (j < i < n)%nat ->
  Graph.has_edge g (qv st i) (qv st j) = true ->
  In (i, j) (tree_edges (parent st) n ++ chords st).

Lemma queue_incl : incl (queue st) (seq 0 n).
Proof. intros u Hu. apply in_seq. specialize (Hlt u Hu). lia. Qed.

Lemma queue_all u : (u < n)%nat -> exists i, (i < n)%nat /\ qv st i = u.
Proof.
  intros Hu.
  assert (Hin : In u (queue st)).
  { assert (Hl : (length (seq 0 n) <= length (queue st))%nat)
      by (rewrite length_seq; lia).
    apply (NoDup_length_incl Hnd Hl queue_incl). apply in_seq. lia. }
  apply (In_nth _ _ 0%nat) in Hin. rewrite Hq in Hin. exact Hin.
Qed.

Lemma qv_injective x y : (x < n)%nat -> (y < n)%nat -> qv st x = qv st y -> x = y.
Proof.
  intros Hx Hy E. rewrite (NoDup_nth (queue st) 0%nat) in Hnd.
  apply Hnd; [lia | lia | exact E].
Qed.

Lemma proper_bfs f :
  proper (Graph.edges g) f
  = proper (tree_edges (parent st) n ++ chords st) (fun x => f (qv st x)).
Proof.
  apply eq_true_iff_eq. rewrite !proper_spec. split.
  - intros H [a b] Hab. simpl. destruct (Hbwd a b Hab) as [_ He].
    apply (has_edge_differ g _ _ f He). apply proper_spec, H.
  - intros H [u v] He. simpl.
    destruct (Hclosed (u, v) He) as [Hu Hv]. simpl in Hu, Hv.
    rewrite Hverts in Hu, Hv. apply in_seq in Hu, Hv.
    destruct (queue_all u ltac:(lia)) as (i & Hi & Ei).
    destruct (queue_all v ltac:(lia)) as (j & Hj & Ej).
    pose proof (has_edge_In g (u, v) He) as Hh. simpl in Hh.
    assert (Hne : u <> v).
    { intros ->. unfold Graph.has_loops in Hloops.
      assert (existsb (fun e => Nat.eqb e.1 e.2) (Graph.edges g) = true).
      { apply existsb_exists. exists (v, v). split; [exact He|]. apply Nat.eqb_refl. }
      congruence. }
    subst u v.
    destruct (Nat.lt_trichotomy i j) as [L|[E|L]].
    + rewrite has_edge_sym in Hh.
      specialize (H (j, i) (Hfwd j i ltac:(lia) Hh)). simpl in H. congruence.
    + subst j. contradiction.
    + exact (H (i, j) (Hfwd i j ltac:(lia) Hh)).
Qed.

(** The graph has the colourings of the tree with the chords. *)
Lemma bfs_count k :
  cntw k (seq 0 n) (ind (proper (Graph.edges g))) (fun _ => 0%nat)
  = cnt_tc k (parent st) n (chords st).
Proof.
  unfold cnt_tc.
  assert (Hperm : Permutation (queue st) (seq 0 n)).
  { apply NoDup_Permutation_bis; [exact Hnd | rewrite length_seq; lia | apply queue_incl]. }
  rewrite <- (cntw_perm k _ (wt_ext_ind_proper _) _ _ Hperm Hnd).
  rewrite <- (map_nth_seq (queue st)) at 1. rewrite Hq.
  rewrite (cntw_ext_wt k _ _
             (fun f => ind (proper (tree_edges (parent st) n ++ chords st))
                           (fun x => f (qv st x)))).
  2:{ intros f. unfold ind. rewrite proper_bfs. reflexivity. }
  apply (cntw_rename k (qv st) (fun x => (x < n)%nat)
           (ind (proper (tree_edges (parent st) n ++ chords st)))).
  - apply qv_injective.
  - intros f f' H. unfold ind. rewrite (proper_agree _ f f'); [reflexivity|].
    intros [a b] Hab. destruct (Hbwd a b Hab) as [Hlt' _]. simpl.
    split; apply H; lia.
  - intros x Hx. apply in_seq in Hx. lia.
  - reflexivity.
Qed.

End BfsCount.

End Rename.

(** ** The relabelled copy of the graph *)

Module RelabelFacts.
Import Graph Count Proper GraphFacts EdgeFacts WfFacts Rename.

Lemma dedup_complete e : forall es,
  In e es -> exists e', In e' (dedup_edges es) /\ same_edge e e' = true.
Proof.
  induction es as [|a r IH]; intros H; [destruct H|]. simpl.
  destruct H as [->|H].
  - destruct (existsb (same_edge e) (dedup_edges r)) eqn:E.
    + apply existsb_exists in E. exact E.
    + exists e. split; [left; reflexivity | apply same_edge_refl].
  - destruct (IH H) as (e' & He' & Hs). exists e'. split; [|exact Hs].
    destruct (existsb _ _); [exact He' | right; exact He'].
Qed.

Lemma same_edges_rme g : same_edges (edges (remove_multiple_edges g)) (edges g).
Proof.
  split.
  - intros e He. exists e. split; [apply remove_multiple_edges_incl, He|].
    apply same_edge_refl.
  - intros e He. apply in_rev in He.
    destruct (dedup_complete e _ He) as (e' & He' & Hs).
    exists e'. split; [|exact Hs]. unfold remove_multiple_edges. simpl.
    apply in_rev. rewrite rev_involutive. exact He'.
Qed.

Lemma remove_loops_id g : has_loops g = false -> remove_loops g = g.
Proof.
  intros H. unfold remove_loops. destruct g as [vs es]. simpl. f_equal.
  unfold has_loops in H. simpl in H.
  induction es as [|e es IH]; [reflexivity|]. simpl in *.
  apply orb_false_iff in H. destruct H as [H1 H2]. rewrite H1. simpl.
  f_equal. apply IH, H2.
Qed.

Lemma has_loops_false g :
  has_loops g = false <-> forall e, In e (edges g) -> e.1 <> e.2.
Proof.
  unfold has_loops. split.
  - intros H e He E. assert (existsb (fun e => Nat.eqb e.1 e.2) (edges g) = true);
      [|congruence].
    apply existsb_exists. exists e. split; [exact He | apply Nat.eqb_eq, E].
  - intros H. destruct (existsb _ _) eqn:E; [|reflexivity].
    apply existsb_exists in E. destruct E as (e & He & E). apply Nat.eqb_eq in E.
    exfalso. exact (H e He E).
Qed.

Lemma nth_index_of x l : In x l -> nth (index_of x l) l 0%nat = x.
Proof.
  induction l as [|y l IH]; simpl; [tauto|].
  destruct (Nat.eqb_spec x y) as [->|Hne]; [reflexivity|].
  intros [->|H]; [congruence | apply IH, H].
Qed.

Lemma index_of_inj l x y : In x l -> In y l -> index_of x l = index_of y l -> x = y.
Proof.
  intros Hx Hy E. rewrite <- (nth_index_of x l Hx), <- (nth_index_of y l Hy), E.
  reflexivity.
Qed.

Lemma map_index_of l : List.NoDup l ->
  map (fun x => index_of x l) l = seq 0 (length l).
Proof.
  induction l as [|a l IH]; intros Hn; [reflexivity|].
  inversion Hn as [|? ? Ha Hn']; subst. cbn [map length seq index_of].
  rewrite Nat.eqb_refl. f_equal. rewrite <- seq_shift, <- (IH Hn'), map_map.
  apply map_ext_in. intros x Hx.
  destruct (Nat.eqb_spec x a) as [->|_]; [contradiction | reflexivity].
Qed.

Lemma proper_map (r : nat -> nat) es h :
  proper (map (fun e => (r e.1, r e.2)) es) h = proper es (fun x => h (r x)).
Proof.
  unfold proper. induction es as [|e es IH]; [reflexivity|]. simpl. rewrite IH.
  reflexivity.
Qed.

Lemma same_edge_trans e1 e2 e3 :
  same_edge e1 e2 = true -> same_edge e2 e3 = true -> same_edge e1 e3 = true.
Proof.
  unfold same_edge. rewrite !orb_true_iff, !andb_true_iff, !Nat.eqb_eq.
  intros [[A B]|[A B]] [[C D]|[C D]]; [left|right|right|left]; split; congruence.
Qed.

Lemma is_connected_spec g : (1 <= length (verts g))%nat ->
  (is_connected g = true <-> forall u, In u (verts g) -> conn g (hd 0%nat (verts g)) u).
Proof.
  intros Hl. unfold is_connected. destruct (verts g) as [|v0 vs] eqn:Ev; [simpl in Hl; lia|].
  simpl hd. rewrite forallb_forall.
  assert (Hv0 : In v0 (verts g)) by (rewrite Ev; left; reflexivity).
  split; intros H u Hu.
  - apply in_component; [exact Hv0|]. apply memb_In, H, Hu.
  - apply memb_In, in_component; [exact Hv0|]. apply H, Hu.
Qed.

Section Relabel.

Variable g : Graph.t.
Hypothesis Hwf : wf g = true.
Hypothesis Hloops : has_loops g = false.

Let idx (x : nat) : nat := index_of x (verts g).

Lemma relabel_no_loops : has_loops (remove_multiple_edges (relabel g)) = false.
Proof.
  apply has_loops_false. intros e He. apply remove_multiple_edges_incl in He.
  unfold relabel in He. simpl in He. apply in_map_iff in He.
  destruct He as (f & <- & Hf). simpl.
  apply wf_spec in Hwf. destruct Hwf as [_ Hc]. destruct (Hc f Hf) as [H1 H2].
  intros E. apply (index_of_inj _ _ _ H1 H2) in E.
  rewrite has_loops_false in Hloops. exact (Hloops f Hf E).
Qed.

Lemma prepared_eq : prepared g = remove_multiple_edges (relabel g).
Proof. apply remove_loops_id, relabel_no_loops. Qed.

Lemma prepared_verts : verts (prepared g) = seq 0 (order g).
Proof. reflexivity. Qed.

Lemma prepared_wf : wf (prepared g) = true.
Proof. apply wf_remove_loops, wf_remove_multiple_edges, wf_relabel, Hwf. Qed.

Lemma prepared_no_loops : has_loops (prepared g) = false.
Proof. rewrite prepared_eq. apply relabel_no_loops. Qed.

Lemma prepared_proper f :
  proper (edges (prepared g)) f = proper (edges g) (fun x => f (idx x)).
Proof.
  rewrite prepared_eq.
  rewrite (proper_same_edges _ _ f (same_edges_rme (relabel g))).
  unfold relabel. simpl. exact (proper_map idx (edges g) f).
Qed.

(** The relabelled copy has the colourings of the graph. *)
Lemma prepared_count k :
  cntw k (verts (prepared g)) (ind (proper (edges (prepared g)))) (fun _ => 0%nat)
  = cntw k (verts g) (ind (proper (edges g))) (fun _ => 0%nat).
Proof.
  pose proof Hwf as Hw. apply wf_spec in Hw. destruct Hw as [Hnd Hc].
  rewrite prepared_verts. unfold order. rewrite <- (map_index_of _ Hnd).
  rewrite (cntw_ext_wt k _ _ (fun f => ind (proper (edges g)) (fun x => f (idx x)))).
  2:{ intros f. unfold ind. rewrite prepared_proper. reflexivity. }
  apply (cntw_rename k idx (fun x => In x (verts g)) (ind (proper (edges g)))).
  - intros x y Hx Hy. apply index_of_inj; assumption.
  - intros f f' H. unfold ind. rewrite (proper_agree _ f f'); [reflexivity|].
    intros e He. destruct (Hc e He). split; apply H; assumption.
  - auto.
  - reflexivity.
Qed.

Lemma prepared_has_edge x y :
  In x (verts g) -> In y (verts g) -> has_edge g x y = true ->
  has_edge (prepared g) (idx x) (idx y) = true.
Proof.
  intros Hx Hy H. unfold has_edge in H. apply existsb_exists in H.
  destruct H as (e & He & Hs).
  assert (H1 : same_edge (idx x, idx y) (idx e.1, idx e.2) = true).
  { unfold same_edge in *. simpl in *. apply orb_true_iff in Hs.
    rewrite !andb_true_iff, !Nat.eqb_eq in Hs. apply orb_true_iff.
    rewrite !andb_true_iff, !Nat.eqb_eq.
    destruct Hs as [[-> ->]|[-> ->]]; auto. }
  assert (H2 : In (idx e.1, idx e.2) (edges (relabel g))).
  { unfold relabel. simpl. apply in_map_iff. exists e. auto. }
  destruct (proj2 (same_edges_rme (relabel g)) _ H2) as (e' & He' & Hs').
  rewrite prepared_eq. unfold has_edge. apply existsb_exists. exists e'.
  split; [exact He' | eapply same_edge_trans; eassumption].
Qed.

Lemma prepared_conn v x :
  In v (verts g) -> conn g v x -> conn (prepared g) (idx v) (idx x).
Proof.
  intros Hv H. induction H as [|y x Hy IH Hnb]; [constructor|].
  eapply conn_step; [exact IH|].
  pose proof (conn_in_verts _ _ _ Hy Hv) as Hyv.
  apply in_neighbors in Hnb. destruct Hnb as [Hxv He].
  apply in_neighbors. split; [|apply prepared_has_edge; assumption].
  rewrite prepared_verts. apply in_seq. pose proof (index_of_lt x _ Hxv).
  unfold idx, order. lia.
Qed.

Lemma prepared_connected : is_connected g = true -> is_connected (prepared g) = true.
Proof.
  intros Hcn. pose proof Hwf as Hw. apply wf_spec in Hw. destruct Hw as [Hnd Hc].
  destruct (Nat.eq_dec (order g) 0%nat) as [E0|E0].
  { unfold is_connected. rewrite prepared_verts, E0. reflexivity. }
  rewrite is_connected_spec in Hcn by (unfold order in E0; lia).
  apply is_connected_spec; [rewrite prepared_verts, length_seq; lia|].
  intros i Hi. rewrite prepared_verts in *. apply in_seq in Hi.
  assert (Hlen : (0 < length (verts g))%nat) by (unfold order in E0; lia).
  set (v0 := hd 0%nat (verts g)) in *.
  assert (Hv0 : In v0 (verts g)).
  { unfold v0. destruct (verts g); simpl in *; [lia | auto]. }
  assert (H0 : idx v0 = 0%nat).
  { unfold idx, v0. destruct (verts g); simpl in *; [lia|].
    rewrite Nat.eqb_refl. reflexivity. }
  set (u := nth i (verts g) 0%nat).
  assert (Hu : In u (verts g)) by (apply nth_In; unfold order in Hi; lia).
  assert (Hi' : idx u = i).
  { unfold idx, u. apply (proj1 (NoDup_nth (verts g) 0%nat) Hnd).
    - apply index_of_lt, Hu.
    - unfold order in Hi. lia.
    - apply nth_index_of, Hu. }
  replace (hd 0%nat (seq 0 (order g))) with (idx v0).
  - rewrite <- Hi'. apply prepared_conn; [exact Hv0 | apply Hcn, Hu].
  - rewrite H0. destruct (order g); [lia | reflexivity].
Qed.

End Relabel.

End RelabelFacts.

(** ** The chord algorithm on a connected graph *)

Module MainFacts.
Import Graph Count Proper GraphFacts EdgeFacts WfFacts Rename RelabelFacts
       ContractFacts PolyFacts EvalFacts.

Lemma simple_init c : simple (mpz_init c).
Proof. intros w. eexists. split; [reflexivity|]. simpl. auto. Qed.

Lemma simple_clear c : simple (mpz_clear c).
Proof. intros w. eexists. split; [reflexivity|]. simpl. auto. Qed.

Lemma simple_bind c1 c2 : simple c1 -> simple c2 -> simple (run c1 then c2).
Proof.
  intros H1 H2 w. destruct (H1 w) as (w1 & E1 & S1 & A1).
  destruct (H2 w1) as (w2 & E2 & S2 & A2).
  exists w2. unfold bind. rewrite E1. split; [exact E2|]. split; congruence.
Qed.

Lemma simple_for_each {A} (f : A -> M unit) l : (forall a, simple (f a)) ->
  simple (for_each f l).
Proof.
  intros H. induction l as [|a l IH]; simpl.
  - intros w. exists w. auto.
  - apply simple_bind; [apply H | exact IH].
Qed.

Lemma returns_ex {A} (c : M A) w Q :
  returns c w Q <-> exists a w', c w = (Ret a, w') /\ Q a w'.
Proof.
  unfold returns. destruct (c w) as [[a|x] w']; split.
  - eauto.
  - intros (a' & w'' & [= <- <-] & H). exact H.
  - intros [].
  - intros (a' & w'' & [=] & _).
Qed.

Lemma returns_ret {A} (a : A) w (Q : A -> world -> Prop) : Q a w -> returns (ret a) w Q.
Proof. intros H. exact H. Qed.

Lemma returns_bind {A B} (c : M A) (k : A -> M B) w Q :
  returns c w (fun a w1 => returns (k a) w1 Q) -> returns (bind c k) w Q.
Proof. unfold returns, bind. destruct (c w) as [[a|x] w1]; auto. Qed.

Lemma returns_weaken {A} (c : M A) w (Q Q' : A -> world -> Prop) :
  returns c w Q -> (forall a w', Q a w' -> Q' a w') -> returns c w Q'.
Proof. unfold returns. destruct (c w) as [[a|x] w1]; auto. Qed.

Lemma returns_simple c w (Q : unit -> world -> Prop) :
  simple c ->
  (forall w', signals w' = signals w -> heap w' = heap w -> Q tt w') ->
  returns c w Q.
Proof.
  intros H HQ. destruct (H w) as (w' & E & S1 & A1). unfold returns. rewrite E. auto.
Qed.

Lemma returns_read l w g (Q : Graph.t -> world -> Prop) :
  heap w !! l = Some g -> Q g w -> returns (read l) w Q.
Proof. intros H HQ. unfold returns, read. rewrite H. exact HQ. Qed.

Lemma returns_alloc g w (Q : nat -> world -> Prop) :
  (forall l w', heap w !! l = None -> heap w' = <[l := g]> (heap w) ->
     signals w' = signals w -> Q l w') ->
  returns (alloc g) w Q.
Proof.
  intros HQ. unfold returns, alloc. apply HQ; try reflexivity.
  apply not_elem_of_dom, is_fresh.
Qed.

Lemma returns_modify l f w g (Q : unit -> world -> Prop) :
  heap w !! l = Some g ->
  (forall w', heap w' = <[l := f g]> (heap w) -> signals w' = signals w -> Q tt w') ->
  returns (modify l f) w Q.
Proof. intros H HQ. unfold returns, modify. rewrite H. apply HQ; reflexivity. Qed.

Lemma returns_of_option {A} (o : option A) a w (Q : A -> world -> Prop) :
  o = Some a -> Q a w -> returns (of_option o) w Q.
Proof. intros -> H. exact H. Qed.

Lemma returns_try {A} (c : M A) h w Q :
  returns c w Q -> returns (try_except_reraise c h) w Q.
Proof.
  unfold returns, try_except_reraise. destruct (c w) as [[a|x] w1]; [auto | intros []].
Qed.

Lemma hist_zero k m : hist_value k (repeat 0 m) = 0.
Proof.
  unfold hist_value. apply sumz_zero. intros d _. rewrite nth_repeat_0. ring.
Qed.

Lemma quiet_same w w' : signals w' = signals w -> quiet w -> quiet w'.
Proof. intros E H t. rewrite E. apply H. Qed.

(** On a connected graph without loops [chromatic_polynomial_main] returns
    the polynomial whose value at [k] is the number of colourings with [k]
    colours. *)
Lemma main_counts G g w :
  heap w !! G = Some g -> wf g = true -> has_loops g = false ->
  is_connected g = true -> (1 <= order g)%nat -> quiet w ->
  exists p w', chromatic_polynomial_main G w = (Ret p, w') /\
    (quiet w' /\
     forall k, Poly.eval p (Z.of_nat k) = Z.of_nat (count_colorings g k)).
Proof.
  intros HG Hwf Hloops Hconn Hord Hq.
  set (n := order g).
  set (g' := prepared g).
  assert (Hv : verts g' = seq 0 n) by reflexivity.
  assert (Hwf' : wf g' = true) by (apply prepared_wf, Hwf).
  pose proof (proj2 (proj1 (wf_spec g') Hwf')) as Hcl'.
  pose proof (prepared_no_loops g Hwf Hloops) as Hl'.
  pose proof (prepared_connected g Hwf Hloops Hconn) as Hc'.
  destruct (BfsFacts.bfs_spec g' n Hv Hord Hc')
    as (st & Ebfs & Hlq & HlP & Hnd & Hlt & Hpar & Hch & Hbwd & Hfwd & _).
  apply returns_ex. unfold chromatic_polynomial_main.
  apply returns_bind, (returns_read G w g _ HG).
  apply returns_bind, returns_alloc. intros l w1 Hl A1 S1.
  apply returns_bind, (returns_modify l _ w1 (relabel g) _);
    [rewrite A1; apply lookup_insert_eq|]. intros w2 A2 S2.
  apply returns_bind, (returns_modify l _ w2 (remove_multiple_edges (relabel g)) _);
    [rewrite A2; apply lookup_insert_eq|]. intros w3 A3 S3.
  apply returns_bind, (returns_read l w3 g' _); [rewrite A3; apply lookup_insert_eq|].
  assert (Hord' : order g' = n) by (unfold order; rewrite Hv; apply length_seq).
  cbv zeta. rewrite !Hord'.
  apply returns_bind, returns_simple; [apply simple_init|]. intros w4 S4 A4.
  apply returns_bind, returns_simple;
    [apply simple_for_each; intros; apply simple_init|]. intros w5 S5 A5.
  apply returns_bind, returns_simple; [apply simple_init|]. intros w6 S6 A6.
  apply returns_bind, (returns_of_option _ st _ _ Ebfs).
  assert (Hq6 : quiet w6).
  { intros t. rewrite S6, S5, S4, S3, S2, S1. apply Hq. }
  destruct (contract_and_count_counts (parent st) Hpar n (chords st)
              (repeat 0 (n + 1)) w6 Hch Hord ltac:(rewrite repeat_length; lia) Hq6)
    as (tot & w7 & Ecc & Ltot & Hq7 & Z7 & V7).
  apply returns_bind, returns_try. unfold returns at 1. rewrite Ecc.
  apply returns_bind, returns_simple;
    [apply simple_for_each; intros; apply simple_init|]. intros w8 S8 A8.
  apply returns_bind, returns_simple; [apply simple_init|]. intros w9 S9 A9.
  apply returns_bind, returns_simple; [apply simple_init|]. intros w10 S10 A10.
  apply returns_bind, returns_simple;
    [apply simple_for_each; intros; apply simple_bind; apply simple_clear|].
  intros w11 S11 A11.
  apply returns_bind, returns_simple; [apply simple_clear|]. intros w12 S12 A12.
  apply returns_bind, returns_simple; [apply simple_clear|]. intros w13 S13 A13.
  apply returns_ret. split.
  { intros t. rewrite S13, S12, S11, S10, S9, S8. apply Hq7. }
  intros k.
  destruct (contract_and_count_bumped _ _ _ _ _ _ _ Ecc) as (lo & Hlo & Hb).
  destruct Hb as (B1 & B2 & B3). rewrite repeat_length in B1.
  assert (Hlo1 : (1 <= lo)%nat).
  { destruct (Nat.eq_dec lo 0%nat) as [->|]; [|lia].
    assert (H0 : (0 <= 0 <= n)%nat) by lia.
    specialize (B2 0%nat H0). rewrite Z7 in B2. lia. }
  rewrite (assemble_value tot n lo k); [|lia|exact B1| |].
  - rewrite V7, hist_zero.
    rewrite <- (bfs_count g' n Hv Hcl' Hl' st Hlq Hnd Hlt Hbwd Hfwd k).
    rewrite count_colorings_cntw.
    rewrite <- (prepared_count g Hwf Hloops k). fold g'. rewrite Hv.
    rewrite Z.add_0_l, Z.mul_assoc, alt_sq, Z.mul_1_l. reflexivity.
  - intros x Hx. specialize (B2 x Hx). rewrite nth_repeat_0 in B2. lia.
  - intros x Hx. rewrite B3 by lia. apply nth_repeat_0.
Qed.

Lemma prepared_size g : wf g = true -> has_loops g = false ->
  (size (prepared g) <= size g)%nat.
Proof.
  intros Hwf Hl. rewrite (prepared_eq g Hwf Hl).
  etransitivity; [apply remove_multiple_edges_size|].
  unfold size, relabel. simpl. rewrite length_map. lia.
Qed.

(** A tree on [n] vertices has [k (k - 1)^(n - 1)] colourings. *)
Lemma tree_counts g k :
  wf g = true -> has_loops g = false -> is_tree g = true ->
  Poly.eval (Poly.tree_poly (order g)) (Z.of_nat k) = Z.of_nat (count_colorings g k).
Proof.
  intros Hwf Hloops Ht. unfold is_tree in Ht.
  apply andb_true_iff in Ht. destruct Ht as [Ht Hconn].
  apply andb_true_iff in Ht. destruct Ht as [He Hsz].
  apply Nat.eqb_eq in Hsz. unfold is_empty in He. apply negb_true_iff, Nat.eqb_neq in He.
  set (n := order g) in *.
  set (g' := prepared g).
  assert (Hv : verts g' = seq 0 n) by reflexivity.
  assert (Hwf' : wf g' = true) by (apply prepared_wf, Hwf).
  pose proof (proj2 (proj1 (wf_spec g') Hwf')) as Hcl'.
  pose proof (prepared_no_loops g Hwf Hloops) as Hl'.
  pose proof (prepared_connected g Hwf Hloops Hconn) as Hc'.
  destruct (BfsFacts.bfs_spec g' n Hv ltac:(lia) Hc')
    as (st & Ebfs & Hlq & HlP & Hnd & Hlt & Hpar & Hch & Hbwd & Hfwd & Hbound).
  pose proof (prepared_size g Hwf Hloops) as Hs. fold g' in Hs.
  assert (Hnil : chords st = []).
  { destruct (chords st); [reflexivity | simpl in Hbound; lia]. }
  rewrite eval_tree_poly, count_colorings_cntw.
  rewrite <- (prepared_count g Hwf Hloops k). fold g'. rewrite Hv.
  rewrite (bfs_count g' n Hv Hcl' Hl' st Hlq Hnd Hlt Hbwd Hfwd k), Hnil.
  symmetry. apply TreeChord.cnt_tree; [exact Hpar | lia].
Qed.

End MainFacts.

(** ** The colourings of a graph and of its components *)

Module Components.
Import Graph Count Proper GraphFacts EdgeFacts WfFacts Rename RelabelFacts TreeChord.

Lemma cntw_app k A : forall B wt f0,
  cntw k (A ++ B) wt f0 = cntw k A (fun f => cntw k B wt f) f0.
Proof.
  induction A as [|a A IH]; intros B wt f0; simpl; [reflexivity|].
  apply sumz_ext. intros c _. apply IH.
Qed.

Lemma cntw_factor k (w1 w2 : (nat -> nat) -> Z) : forall B,
  (forall f v c, In v B -> w1 (upd f v c) = w1 f) ->
  forall f, cntw k B (fun f => w1 f * w2 f) f = w1 f * cntw k B w2 f.
Proof.
  induction B as [|b B IH]; intros H f; simpl; [reflexivity|].
  rewrite <- sumz_mul_l. apply sumz_ext. intros c _.
  rewrite IH by (intros f' v c' Hv; apply H; right; exact Hv).
  rewrite H by (left; reflexivity). reflexivity.
Qed.

(** The count does not depend on the colours, before the enumeration, of
    the vertices that are enumerated. *)
Lemma cntw_agree k (R : nat -> Prop) (wt : (nat -> nat) -> Z) :
  (forall f f', (forall x, R x -> f x = f' x) -> wt f = wt f') ->
  forall vs f0 f0', (forall x, R x -> ~ In x vs -> f0 x = f0' x) ->
  cntw k vs wt f0 = cntw k vs wt f0'.
Proof.
  intros Hw. induction vs as [|v vs IH]; intros f0 f0' H; simpl.
  - apply Hw. intros x Hx. apply H; [exact Hx | intros []].
  - apply sumz_ext. intros c _. apply IH. intros x Hx Hn. unfold upd.
    destruct (Nat.eqb_spec x v) as [->|Hne]; [reflexivity|].
    apply H; [exact Hx|]. intros [E|E]; [congruence | contradiction].
Qed.

Lemma ind_proper_app es es' f :
  ind (proper (es ++ es')) f = ind (proper es) f * ind (proper es') f.
Proof.
  unfold ind. rewrite proper_app. destruct (proper es f), (proper es' f); reflexivity.
Qed.

(** Two parts without an edge between them are coloured apart. *)
Lemma cntw_split k A B EA EB f0 :
  (forall e, In e EA -> ~ In e.1 B /\ ~ In e.2 B) ->
  (forall e, In e EB -> In e.1 B /\ In e.2 B) ->
  cntw k (A ++ B) (ind (proper (EA ++ EB))) f0
  = cntw k A (ind (proper EA)) f0 * cntw k B (ind (proper EB)) f0.
Proof.
  intros HA HB. rewrite cntw_app.
  rewrite (cntw_ext_wt k A _
             (fun f => cntw k B (ind (proper EB)) f0 * ind (proper EA) f)).
  - rewrite cntw_scale. ring.
  - intros f.
    rewrite (cntw_ext_wt k B _ (fun f => ind (proper EA) f * ind (proper EB) f))
      by (intros; apply ind_proper_app).
    rewrite cntw_factor.
    + rewrite (cntw_agree k (fun x => In x B) (ind (proper EB))) with (f0' := f0);
        [ring | | intros; contradiction].
      intros f1 f2 H. unfold ind. rewrite (proper_agree EB f1 f2); [reflexivity|].
      intros e He. destruct (HB e He). split; apply H; assumption.
    + intros f1 v c Hv. unfold ind. rewrite proper_upd_avoids; [reflexivity|].
      intros e He. destruct (HA e He) as [H1 H2].
      split; intros E0; [apply H1 | apply H2]; rewrite E0; exact Hv.
Qed.

Lemma filter_partition {A} (p : A -> bool) l :
  Permutation l (List.filter p l ++ List.filter (fun x => negb (p x)) l).
Proof.
  induction l as [|a l IH]; [constructor|]. simpl. destruct (p a); simpl.
  - constructor. exact IH.
  - apply Permutation_cons_app. exact IH.
Qed.

Section Product.

Variable g : Graph.t.
Hypothesis Hwf : wf g = true.

Let E (S : list nat) : list (nat * nat) := edges (subgraph g S).

Lemma in_E S e : In e (E S) <-> In e (edges g) /\ In e.1 S /\ In e.2 S.
Proof.
  unfold E, subgraph. simpl. rewrite List.filter_In, andb_true_iff, !memb_In. tauto.
Qed.

Lemma edge_neighbor e : In e (edges g) ->
  In e.2 (neighbors g e.1) /\ In e.1 (neighbors g e.2).
Proof.
  intros He. apply wf_spec in Hwf. destruct Hwf as [_ Hc].
  destruct (Hc e He) as [H1 H2]. pose proof (has_edge_In g e He) as Hh.
  split; apply in_neighbors; split; try assumption.
  rewrite has_edge_sym. exact Hh.
Qed.

Lemma neighbor_sym x y : In x (verts g) -> In y (neighbors g x) -> In x (neighbors g y).
Proof.
  intros Hx Hy. apply in_neighbors in Hy. destruct Hy as [Hy He].
  apply in_neighbors. split; [exact Hx|]. rewrite has_edge_sym. exact He.
Qed.

Lemma component_in_closed S v :
  closed_set g S -> In v S -> In v (verts g) -> incl (component g v) S.
Proof.
  intros Hc Hv Hvv x Hx. apply in_component in Hx; [|exact Hvv].
  induction Hx as [|y z _ IH Hn]; [exact Hv|]. exact (Hc y z IH Hn).
Qed.

Lemma component_NoDup v : List.NoDup (component g v).
Proof. apply reach_NoDup. constructor; [intros [] | constructor]. Qed.

Lemma component_verts v : In v (verts g) -> incl (component g v) (verts g).
Proof.
  intros Hv x Hx. apply (reach_in_verts g (order g) [v]); [|exact Hx].
  intros y [<-|[]]. exact Hv.
Qed.

Lemma components_count k : forall fuel todo,
  (length todo <= fuel)%nat -> List.NoDup todo -> incl todo (verts g) ->
  closed_set g todo ->
  fold_right Z.mul 1
    (map (fun c => cntw k (verts c) (ind (proper (edges c))) (fun _ => 0%nat))
         (components_from g fuel todo))
  = cntw k todo (ind (proper (E todo))) (fun _ => 0%nat).
Proof.
  induction fuel as [|fuel IH]; intros todo Hlen Hnd Hincl Hcl.
  - destruct todo; [|simpl in Hlen; lia]. simpl. unfold ind, E, subgraph. simpl.
    rewrite DiGraphFacts.filter_all_false by reflexivity. reflexivity.
  - destruct todo as [|v rest].
    + simpl. unfold ind, E, subgraph. simpl.
      rewrite DiGraphFacts.filter_all_false by reflexivity. reflexivity.
    + cbn [components_from map fold_right].
      set (c := component g v).
      set (B := List.filter (fun u => negb (memb u c)) rest).
      assert (Hv : In v (verts g)) by (apply Hincl; left; reflexivity).
      assert (Hvc : In v c) by apply component_seed.
      assert (Hcc : closed_set g c) by (apply component_closed, Hv).
      assert (Hct : incl c (v :: rest)).
      { apply component_in_closed; [exact Hcl | left; reflexivity | exact Hv]. }
      assert (HB : B = List.filter (fun u => negb (memb u c)) (v :: rest)).
      { simpl. rewrite (proj2 (memb_In v c) Hvc). reflexivity. }
      assert (HinB : forall x, In x B <-> In x (v :: rest) /\ ~ In x c).
      { intros x. rewrite HB, List.filter_In, negb_true_iff, memb_false. tauto. }
      assert (HclB : closed_set g B).
      { intros x y Hx Hy. apply HinB in Hx. destruct Hx as [Hx Hnx].
        apply HinB. split; [exact (Hcl x y Hx Hy)|].
        intros Hyc. apply Hnx. apply (Hcc y x Hyc).
        apply neighbor_sym; [apply Hincl, Hx | exact Hy]. }
      inversion Hnd as [|? ? Hvr Hnd']; subst.
      rewrite IH.
      * set (A := List.filter (fun u => memb u c) (v :: rest)).
        rewrite (cntw_perm k _ (wt_ext_ind_proper _) _ _
                   (filter_partition (fun u => memb u c) (v :: rest)) Hnd).
        fold A. rewrite <- HB.
        rewrite (cntw_same_edges k (A ++ B) (E (v :: rest)) (E c ++ E B)).
        -- rewrite cntw_split.
           ++ f_equal. apply cntw_perm; [apply wt_ext_ind_proper| |].
              ** apply Permutation.NoDup_Permutation.
                 --- unfold subgraph. simpl. apply List.NoDup_filter.
                     apply wf_spec in Hwf. tauto.
                 --- apply List.NoDup_filter, Hnd.
                 --- intros x. unfold subgraph, A. cbn [verts].
                     rewrite !List.filter_In, memb_In. split.
                     +++ intros [_ H]. split; [apply Hct, H | exact H].
                     +++ intros [_ H]. split; [exact (component_verts v Hv x H) | exact H].
              ** unfold subgraph. simpl. apply List.NoDup_filter.
                 apply wf_spec in Hwf. tauto.
           ++ intros e He. apply in_E in He. destruct He as (_ & H1 & H2).
              split; intros H; apply HinB in H; tauto.
           ++ intros e He. apply in_E in He. tauto.
        -- apply same_edges_of_In. intros e.
           rewrite in_app_iff, !in_E. split.
           ++ intros (He & H1 & H2).
              destruct (edge_neighbor e He) as [N1 N2].
              destruct (in_dec Nat.eq_dec e.1 c) as [Hc1|Hc1].
              ** left. split; [exact He|]. split; [exact Hc1|].
                 exact (Hcc _ _ Hc1 N1).
              ** right. split; [exact He|]. split; [apply HinB; tauto|].
                 apply HinB. split; [exact H2|]. intros Hc2. apply Hc1.
                 exact (Hcc _ _ Hc2 N2).
           ++ intros [(He & H1 & H2)|(He & H1 & H2)].
              ** split; [exact He|]. split; apply Hct; assumption.
              ** apply HinB in H1, H2. tauto.
      * unfold B. etransitivity; [apply filter_length_le|]. simpl in Hlen. lia.
      * apply List.NoDup_filter, Hnd'.
      * intros x Hx. apply HinB in Hx. apply Hincl. tauto.
      * exact HclB.
Qed.

(** The number of colourings of a graph is the product of the numbers of
    colourings of its components. *)
Lemma count_components k :
  Z.of_nat (count_colorings g k)
  = fold_right Z.mul 1
      (map (fun c => Z.of_nat (count_colorings c k)) (connected_components_subgraphs g)).
Proof.
  pose proof Hwf as Hw. apply wf_spec in Hw. destruct Hw as [Hnd Hc].
  rewrite count_colorings_cntw.
  rewrite (map_ext _ (fun c => cntw k (verts c) (ind (proper (edges c))) (fun _ => 0%nat)))
    by (intros; apply count_colorings_cntw).
  unfold connected_components_subgraphs.
  rewrite components_count; [| unfold order; lia | exact Hnd | apply incl_refl |].
  - apply cntw_same_edges, same_edges_of_In. intros e. rewrite in_E.
    split; [|tauto]. intros He. destruct (Hc e He). tauto.
  - intros x y _ Hy. apply in_neighbors in Hy. tauto.
Qed.

End Product.

End Components.

(** ** The default algorithm counts the colourings *)

Module TopFacts.
Import Graph Count Proper GraphFacts EdgeFacts WfFacts Rename RelabelFacts
       PolyFacts EvalFacts MainFacts Components.

Lemma subgraph_no_loops g S : has_loops g = false -> has_loops (subgraph g S) = false.
Proof.
  rewrite !has_loops_false. intros H e He. unfold subgraph in He. simpl in He.
  apply List.filter_In in He. apply H, He.
Qed.

Lemma subgraph_has_edge g S x y :
  In x S -> In y S -> has_edge g x y = true -> has_edge (subgraph g S) x y = true.
Proof.
  intros Hx Hy H. unfold has_edge in *. apply existsb_exists in H.
  destruct H as (e & He & Hs). apply existsb_exists. exists e. split; [|exact Hs].
  unfold subgraph. simpl. apply List.filter_In. split; [exact He|].
  unfold same_edge in Hs. simpl in Hs. apply orb_true_iff in Hs.
  rewrite !andb_true_iff, !Nat.eqb_eq in Hs.
  apply andb_true_iff. rewrite !memb_In.
  destruct Hs as [[<- <-]|[<- <-]]; auto.
Qed.

(** A component, as a graph, is connected. *)
Lemma component_connected g v :
  In v (verts g) -> is_connected (subgraph g (component g v)) = true.
Proof.
  intros Hv. set (c := component g v). set (h := subgraph g c).
  assert (Hvc : In v c) by apply component_seed.
  assert (Hvh : forall x, In x (verts h) <-> In x (verts g) /\ In x c).
  { intros x. unfold h, subgraph. simpl. rewrite List.filter_In, memb_In. tauto. }
  assert (Hconn : forall x, conn g v x -> conn h v x).
  { intros x Hx. induction Hx as [|y z Hy IH Hn]; [constructor|].
    eapply conn_step; [exact IH|].
    assert (Hyc : In y c) by (apply in_component; assumption).
    assert (Hzc : In z c).
    { apply in_component; [exact Hv|]. eapply conn_step; eassumption. }
    apply in_neighbors in Hn. destruct Hn as [Hz He].
    apply in_neighbors. split; [apply Hvh; tauto|].
    apply subgraph_has_edge; assumption. }
  apply is_connected_spec.
  { pose proof (subgraph_order_pos g v Hv) as H. exact H. }
  intros u Hu. apply Hvh in Hu. destruct Hu as [_ Huc].
  assert (H0 : In (hd 0%nat (verts h)) (verts h)).
  { pose proof (subgraph_order_pos g v Hv) as H. fold c in H. fold h in H.
    unfold order in H. destruct (verts h); simpl in *; [lia | auto]. }
  assert (H0c : conn h v (hd 0%nat (verts h))).
  { apply Hconn, in_component; [exact Hv|]. apply Hvh in H0. tauto. }
  eapply conn_trans.
  - apply conn_sym; [exact H0c|]. apply Hvh. tauto.
  - apply Hconn, in_component; assumption.
Qed.

Lemma count_loops g k : has_loops g = true -> count_colorings g k = 0%nat.
Proof.
  intros H. unfold count_colorings.
  rewrite DiGraphFacts.filter_all_false; [reflexivity|].
  intros f _. unfold has_loops in H. apply existsb_exists in H.
  destruct H as (e & He & E). apply Nat.eqb_eq in E.
  destruct (proper (edges g) f) eqn:P; [|reflexivity].
  rewrite proper_spec in P. exfalso. apply (P e He). congruence.
Qed.

Lemma count_empty g k : wf g = true -> is_empty g = true -> count_colorings g k = 1%nat.
Proof.
  intros Hwf He. apply wf_spec in Hwf. destruct Hwf as [_ Hc].
  unfold is_empty, order in He. apply Nat.eqb_eq in He.
  unfold count_colorings. destruct (verts g) eqn:Ev; [|discriminate].
  destruct (edges g) as [|e es] eqn:Ee; [reflexivity|].
  destruct (Hc e) as [H _]; [rewrite Ee; left; reflexivity|].
  rewrite Ev in H. destruct H.
Qed.

Lemma mapM_alloc_signals gs : forall w hs w1,
  mapM alloc gs w = (Ret hs, w1) -> signals w1 = signals w.
Proof.
  induction gs as [|c cs IH]; intros w hs w1 H; simpl in H.
  - injection H as _ <-. reflexivity.
  - inv_bind H. injection H as _ <-.
    match goal with
    | H1 : alloc _ _ = _, H2 : mapM alloc _ _ = _ |- _ =>
        apply IH in H2; rewrite H2; unfold alloc in H1; injection H1 as _ <-
    end.
    reflexivity.
Qed.

Section Top.

Variable canonical_label : Graph.t -> Graph.t.

(** On a connected graph the default algorithm needs no recursive call. *)
Lemma connected_counts depth steps G g w :
  heap w !! G = Some g -> wf g = true -> has_loops g = false ->
  is_connected g = true -> (1 <= order g)%nat -> quiet w ->
  exists p w', chromatic_polynomial canonical_label depth steps G "C" w = (Ret p, w') /\
    (quiet w' /\
     forall k, Poly.eval p (Z.of_nat k) = Z.of_nat (count_colorings g k)).
Proof.
  intros HG Hwf Hl Hc Ho Hq.
  assert (He : is_empty g = false) by (unfold is_empty; apply Nat.eqb_neq; lia).
  apply returns_ex.
  destruct depth; cbn [chromatic_polynomial].
  all: change (lower "C") with "c"%string; cbn [existsb negb String.eqb Ascii.eqb Bool.eqb orb].
  all: apply returns_bind, (returns_read G w g _ HG).
  all: rewrite He, Hl, Hc; cbn [negb].
  all: destruct (is_tree g) eqn:Ht;
    [apply returns_ret; split; [exact Hq | intros k; apply tree_counts; assumption]
    | apply returns_ex, main_counts; assumption].
Qed.

Lemma calls_count depth steps : forall hs cs w,
  Forall2 (fun h c => heap w !! h = Some c) hs cs ->
  (forall c, In c cs -> wf c = true /\ has_loops c = false /\
                       is_connected c = true /\ (1 <= order c)%nat) ->
  quiet w ->
  exists ps w',
    mapM (fun h => chromatic_polynomial canonical_label depth steps h "C") hs w
    = (Ret ps, w') /\
    quiet w' /\
    Forall2 (fun p c => forall k, Poly.eval p (Z.of_nat k) = Z.of_nat (count_colorings c k))
            ps cs.
Proof.
  induction hs as [|h hs IH]; intros cs w HF Hcs Hq.
  - inversion HF; subst. exists [], w. split; [reflexivity|]. split; [exact Hq | constructor].
  - inversion HF as [|? c ? cs' Hh HF']; subst.
    destruct (Hcs c (or_introl eq_refl)) as (C1 & C2 & C3 & C4).
    destruct (connected_counts depth steps h c w Hh C1 C2 C3 C4 Hq)
      as (p & w1 & E1 & Hq1 & V1).
    pose proof (chromatic_polynomial_frame canonical_label w depth steps h "C" w
                  (fun _ _ H => H)) as Hfr.
    rewrite E1 in Hfr. destruct Hfr as [Hfr _].
    destruct (IH cs' w1) as (ps & w2 & E2 & Hq2 & V2).
    + eapply Forall2_impl; [exact HF'|]. intros h' c' H'. apply Hfr, H'.
    + intros c' Hc'. apply Hcs. right. exact Hc'.
    + exact Hq1.
    + exists (p :: ps), w2. split.
      * cbn [mapM]. rewrite (ContractFacts.bind_ret _ _ _ _ _ E1).
        rewrite (ContractFacts.bind_ret _ _ _ _ _ E2). reflexivity.
      * split; [exact Hq2 | constructor; assumption].
Qed.

Lemma prod_counts k : forall ps cs,
  Forall2 (fun p c => forall k, Poly.eval p (Z.of_nat k) = Z.of_nat (count_colorings c k))
          ps cs ->
  Poly.eval (Poly.prod ps) (Z.of_nat k)
  = fold_right Z.mul 1 (map (fun c => Z.of_nat (count_colorings c k)) cs).
Proof.
  intros ps cs H. rewrite eval_prod. induction H as [|p c ps cs Hp _ IH]; [reflexivity|].
  simpl. rewrite Hp, IH. reflexivity.
Qed.

Lemma components_good g :
  wf g = true -> has_loops g = false ->
  forall c, In c (connected_components_subgraphs g) ->
    wf c = true /\ has_loops c = false /\ is_connected c = true /\ (1 <= order c)%nat.
Proof.
  intros Hwf Hl c Hc. apply in_components in Hc. destruct Hc as (v & Hv & ->).
  split; [apply wf_subgraph, Hwf|]. split; [apply subgraph_no_loops, Hl|].
  split; [apply component_connected, Hv | apply subgraph_order_pos, Hv].
Qed.

End Top.

End TopFacts.

(** ** Polynomials with the same values *)

Module PolyId.
Import Poly PolyFacts EvalFacts.

Lemma norm_nil_iff p : norm p = [] <-> forall d, coeff p d = 0.
Proof.
  induction p as [|a p IH]; simpl.
  - split; [intros _ d; apply coeff_nil | reflexivity].
  - destruct (norm p) as [|b q] eqn:E.
    + destruct (Z.eqb_spec a 0) as [->|Hne].
      * split; [|reflexivity]. intros _ [|d]; [reflexivity|].
        unfold coeff. simpl. apply (proj1 IH eq_refl d).
      * split; [discriminate|]. intros H. specialize (H 0%nat). unfold coeff in H.
        simpl in H. contradiction.
    + split; [discriminate|]. intros H. exfalso.
      assert (Hn : b :: q = []); [|discriminate].
      apply IH. intros d. specialize (H (S d)). exact H.
Qed.

Lemma norm_cons a p : norm (a :: p)
  = match norm p with [] => if a =? 0 then [] else [a] | q => a :: q end.
Proof. reflexivity. Qed.

(** The normal form is a function of the coefficients. *)
Lemma norm_ext : forall p q, (forall d, coeff p d = coeff q d) -> norm p = norm q.
Proof.
  induction p as [|a p IH]; intros q H.
  - symmetry. apply norm_nil_iff. intros d. rewrite <- H. apply coeff_nil.
  - destruct q as [|b q].
    + apply norm_nil_iff. intros d. rewrite H. apply coeff_nil.
    + rewrite !norm_cons.
      assert (a = b) as -> by (specialize (H 0%nat); exact H).
      rewrite (IH q); [reflexivity|]. intros d. specialize (H (S d)). exact H.
Qed.

Lemma normal_norm p : normal (norm p).
Proof. unfold normal. apply norm_ext. intros d. apply coeff_norm. Qed.

Lemma normal_one : normal one.
Proof. reflexivity. Qed.

Lemma normal_zero : normal zero.
Proof. reflexivity. Qed.

Lemma normal_mul p q : normal (mul p q).
Proof. apply normal_norm. Qed.

Lemma normal_sub p q : normal (sub p q).
Proof. apply normal_norm. Qed.

Lemma normal_of_coeffs c : normal (of_coeffs c).
Proof. apply normal_norm. Qed.

Lemma normal_tree_poly n : normal (tree_poly n).
Proof. apply normal_norm. Qed.

Lemma normal_prod ps : normal (prod ps).
Proof. destruct ps; [apply normal_one | apply normal_norm]. Qed.

(** A polynomial that vanishes at all large numbers has no coefficient. *)
Lemma zero_poly : forall p N,
  (forall k, (N <= k)%nat -> eval p (Z.of_nat k) = 0) -> forall d, coeff p d = 0.
Proof.
  induction p as [|a p IH]; intros N H d; [apply coeff_nil|].
  assert (Ha : a = 0).
  { set (k0 := Nat.max N (Z.to_nat (Z.abs a) + 1)).
    pose proof (H k0 ltac:(lia)) as Hk. cbn [eval] in Hk.
    assert (Hb : Z.abs a < Z.of_nat k0) by lia.
    destruct (Z.eq_dec (eval p (Z.of_nat k0)) 0) as [E|E]; [rewrite E in Hk; lia|].
    exfalso.
    assert (Z.of_nat k0 <= Z.abs (Z.of_nat k0 * eval p (Z.of_nat k0))).
    { rewrite Z.abs_mul. rewrite (Z.abs_eq (Z.of_nat k0)) by lia.
      assert (1 <= Z.abs (eval p (Z.of_nat k0))) by lia. nia. }
    replace (Z.of_nat k0 * eval p (Z.of_nat k0)) with (- a) in * by lia.
    rewrite Z.abs_opp in *. lia. }
  subst a. destruct d as [|d]; [reflexivity|].
  change (coeff (0 :: p) (S d)) with (coeff p d).
  apply (IH (Nat.max N 1)). intros k Hk.
  pose proof (H k ltac:(lia)) as Hk'. cbn [eval] in Hk'.
  assert (Z.of_nat k <> 0) by lia. nia.
Qed.

Lemma eval_eq_coeff p q :
  (forall k : nat, eval p (Z.of_nat k) = eval q (Z.of_nat k)) ->
  forall d, coeff p d = coeff q d.
Proof.
  intros H d.
  assert (Hz : coeff (add_raw p (scale_raw (-1) q)) d = 0).
  { apply (zero_poly _ 0). intros k _. rewrite eval_add_raw, eval_scale_raw, H. ring. }
  rewrite coeff_add_raw, coeff_scale_raw in Hz. lia.
Qed.

(** Two polynomials in normal form with the same values are the same. *)
Lemma poly_eq p q :
  normal p -> normal q ->
  (forall k : nat, eval p (Z.of_nat k) = eval q (Z.of_nat k)) -> p = q.
Proof.
  intros Hp Hq H. rewrite <- Hp, <- Hq. apply norm_ext, eval_eq_coeff, H.
Qed.

End PolyId.

(** ** The polynomial counts the colourings *)

Section Counts.
Import Graph GraphFacts WfFacts EvalFacts MainFacts Components TopFacts PolyId.

Variable canonical_label : Graph.t -> Graph.t.

(** What the default algorithm returns is in normal form. *)
Lemma chromatic_polynomial_C_normal depth steps G w p w' :
  chromatic_polynomial canonical_label depth steps G "C" w = (Ret p, w') -> normal p.
Proof.
  intros H. destruct depth; cbn [chromatic_polynomial] in H.
  all: change (lower "C") with "c"%string in H;
    cbn [existsb negb String.eqb Ascii.eqb Bool.eqb orb] in H.
  all: apply bind_ret_inv in H; destruct H as (g & w0 & _ & H).
  all: destruct (is_empty g); [injection H as <- _; apply normal_one|].
  all: destruct (has_loops g); [injection H as <- _; apply normal_zero|].
  all: destruct (is_connected g); cbn [negb] in H.
  all: try (destruct (is_tree g);
            [injection H as <- _; apply normal_tree_poly
            | unfold chromatic_polynomial_main in H; inv_bind H;
              injection H as <- _; apply normal_of_coeffs]).
  all: inv_bind H; injection H as <- _; apply normal_prod.
Qed.

(** On a well formed graph, with no interrupt pending and room for one
    nested call, the default algorithm returns a polynomial in normal form
    whose values are the numbers of colourings. *)
Lemma default_counts (depth steps G : nat) (w : world) (g : Graph.t) :
  heap w !! G = Some g ->
  Graph.wf g = true ->
  quiet w ->
  (1 <= depth)%nat ->
  exists p w',
    chromatic_polynomial canonical_label depth steps G "C" w = (Ret p, w') /\
    normal p /\
    forall k : nat, Poly.eval p (Z.of_nat k) = Z.of_nat (count_colorings g k).
Proof.
  intros HG Hwf Hq Hd.
  enough (H : exists p w',
            chromatic_polynomial canonical_label depth steps G "C" w = (Ret p, w') /\
            forall k : nat, Poly.eval p (Z.of_nat k) = Z.of_nat (count_colorings g k)).
  { destruct H as (p & w' & E & V). exists p, w'.
    split; [exact E|]. split; [|exact V].
    eapply chromatic_polynomial_C_normal; exact E. }
  destruct (is_empty g) eqn:He.
  { exists Poly.one, w. destruct depth; [lia|]. cbn [chromatic_polynomial].
    change (lower "C") with "c"%string.
    cbn [existsb negb String.eqb Ascii.eqb Bool.eqb orb].
    rewrite (ContractFacts.bind_ret _ _ _ _ _ (read_spec G w g HG)), He.
    split; [reflexivity|]. intros k. rewrite (count_empty g k Hwf He).
    unfold Poly.one, Poly.eval. lia. }
  destruct (has_loops g) eqn:Hl.
  { exists Poly.zero, w. destruct depth; [lia|]. cbn [chromatic_polynomial].
    change (lower "C") with "c"%string.
    cbn [existsb negb String.eqb Ascii.eqb Bool.eqb orb].
    rewrite (ContractFacts.bind_ret _ _ _ _ _ (read_spec G w g HG)), He, Hl.
    split; [reflexivity|]. intros k. rewrite (count_loops g k Hl). reflexivity. }
  destruct (is_connected g) eqn:Hc.
  { assert (Ho : (1 <= order g)%nat).
    { unfold is_empty in He. apply Nat.eqb_neq in He. lia. }
    destruct (connected_counts canonical_label depth steps G g w HG Hwf Hl Hc Ho Hq)
      as (p & w' & E & _ & V).
    exists p, w'. auto. }
  destruct depth as [|depth]; [lia|].
  destruct (mapM_alloc_spec (connected_components_subgraphs g) w)
    as (hs & w1 & Em & HF & Hfr).
  assert (Hq1 : quiet w1).
  { intros t. rewrite (mapM_alloc_signals _ _ _ _ Em). apply Hq. }
  destruct (calls_count canonical_label depth steps hs _ w1 HF
              (components_good g Hwf Hl) Hq1) as (ps & w2 & Ec & _ & V).
  exists (Poly.prod ps), w2. cbn [chromatic_polynomial].
  change (lower "C") with "c"%string.
  cbn [existsb negb String.eqb Ascii.eqb Bool.eqb orb].
  rewrite (ContractFacts.bind_ret _ _ _ _ _ (read_spec G w g HG)), He, Hl, Hc.
  cbn [negb].
  rewrite (ContractFacts.bind_ret _ _ _ _ _ Em).
  rewrite (ContractFacts.bind_ret _ _ _ _ _ Ec).
  split; [reflexivity|]. intros k.
  rewrite (prod_counts k ps _ V). symmetry. apply count_components, Hwf.
Qed.

(** C1. On a well formed graph, with no interrupt pending and room for one
    nested call, the default algorithm returns a polynomial, and the value
    of this polynomial at every [k >= 0] is the number of proper
    colourings of the graph with [k] colours, as the enumeration of all
    colourings counts them. *)
Theorem chromatic_polynomial_counts_colorings (depth steps G : nat) (w : world)
  (g : Graph.t) :
  heap w !! G = Some g ->
  Graph.wf g = true ->
  quiet w ->
  (1 <= depth)%nat ->
  exists p w',
    chromatic_polynomial canonical_label depth steps G "C" w = (Ret p, w') /\
    forall k : nat, Poly.eval p (Z.of_nat k) = Z.of_nat (count_colorings g k).
Proof.
  intros HG Hwf Hq Hd.
  destruct (default_counts depth steps G w g HG Hwf Hq Hd) as (p & w' & E & _ & V).
  exists p, w'. split; [exact E | exact V].
Qed.

End Counts.

Lemma chromatic_polynomial_counts_colorings_witness :
  exists p w',
    chromatic_polynomial Canon.canonical_label 1 0 0 "C" (caller_world two_triangles)
    = (Ret p, w') /\
    forall k : nat,
      Poly.eval p (Z.of_nat k) = Z.of_nat (count_colorings two_triangles k).
Proof.
  apply (chromatic_polynomial_counts_colorings Canon.canonical_label 1 0 0
           (caller_world two_triangles) two_triangles);
    [reflexivity | reflexivity | intros t; reflexivity | lia].
Defined.

(** ** Deletion and contraction of an edge of a graph *)

Module DelContract.
Import Graph Count Proper GraphFacts EdgeFacts WfFacts Rename RelabelFacts TreeChord.

Lemma in_other_ends a b u w x :
  In x (if Nat.eqb a w && negb (Nat.eqb b u) && negb (Nat.eqb b w) then [b]
        else if Nat.eqb b w && negb (Nat.eqb a u) && negb (Nat.eqb a w) then [a]
        else []) <->
  (a = w /\ b <> u /\ b <> w /\ x = b) \/ (b = w /\ a <> u /\ a <> w /\ x = a).
Proof.
  destruct (Nat.eqb_spec a w), (Nat.eqb_spec b u), (Nat.eqb_spec b w),
    (Nat.eqb_spec a u); simpl; intuition (subst; try congruence; auto).
Qed.

Lemma in_moved_edges a b u w (e : nat * nat) :
  In e (if Nat.eqb a w && negb (Nat.eqb b u) && negb (Nat.eqb b w) then [(u, b)]
        else if Nat.eqb b w && negb (Nat.eqb a u) && negb (Nat.eqb a w) then [(u, a)]
        else []) <->
  (a = w /\ b <> u /\ b <> w /\ e = (u, b)) \/ (b = w /\ a <> u /\ a <> w /\ e = (u, a)).
Proof.
  destruct (Nat.eqb_spec a w), (Nat.eqb_spec b u), (Nat.eqb_spec b w),
    (Nat.eqb_spec a u); simpl; intuition (subst; try congruence; auto).
Qed.

Lemma in_others es u w x :
  In x (others es u w) <->
  x <> u /\ x <> w /\ (In (w, x) es \/ In (x, w) es).
Proof.
  unfold others. rewrite in_flat_map. split.
  - intros ([a b] & He & Hx). cbn [fst snd] in Hx. apply in_other_ends in Hx.
    destruct Hx as [(-> & H1 & H2 & ->)|(-> & H1 & H2 & ->)]; auto.
  - intros (Hu & Hw & [H|H]).
    + exists (w, x). split; [exact H|]. cbn [fst snd]. apply in_other_ends. auto.
    + exists (x, w). split; [exact H|]. cbn [fst snd]. apply in_other_ends. auto.
Qed.

Lemma in_away es w e : In e (away es w) <-> In e es /\ e.1 <> w /\ e.2 <> w.
Proof.
  unfold away. rewrite List.filter_In, andb_true_iff, !negb_true_iff, !Nat.eqb_neq.
  tauto.
Qed.

Lemma away_avoids es w : avoids (away es w) w.
Proof. intros e He. apply in_away in He. tauto. Qed.

Lemma in_star z N e : In e (star z N) <-> e.1 = z /\ In e.2 N.
Proof.
  unfold star. rewrite in_map_iff. split.
  - intros (y & <- & Hy). auto.
  - intros [H1 H2]. exists e.2. split; [destruct e; simpl in *; congruence | exact H2].
Qed.

Lemma same_edge_iff a b c d :
  same_edge (a, b) (c, d) = true <-> (a = c /\ b = d) \/ (a = d /\ b = c).
Proof.
  unfold same_edge. simpl. rewrite orb_true_iff, !andb_true_iff, !Nat.eqb_eq. tauto.
Qed.

Lemma simpleb_cons e r : simpleb (e :: r) = true <->
  (forall f, In f r -> same_edge e f = false) /\ simpleb r = true.
Proof.
  simpl. rewrite andb_true_iff, negb_true_iff. split; intros [H1 H2]; split; auto.
  - intros f Hf. destruct (same_edge e f) eqn:E; [|reflexivity].
    assert (existsb (same_edge e) r = true); [|congruence].
    apply existsb_exists. eauto.
  - destruct (existsb (same_edge e) r) eqn:E; [|reflexivity].
    apply existsb_exists in E. destruct E as (f & Hf & E). rewrite H1 in E by exact Hf.
    discriminate.
Qed.

(** In a list where no two edges join the same vertices, removing the edge
    between [u] and [w] leaves none between them. *)
Lemma in_remove_first u w : forall es, simpleb es = true ->
  (exists e, In e es /\ same_edge (u, w) e = true) ->
  forall f, In f (remove_first_edge (u, w) es) <->
            In f es /\ same_edge (u, w) f = false.
Proof.
  induction es as [|a r IH]; intros Hs Hex f; [destruct Hex as (? & [] & _)|].
  apply simpleb_cons in Hs. destruct Hs as [Ha Hs]. simpl.
  destruct (same_edge (u, w) a) eqn:E.
  - split.
    + intros Hf. split; [right; exact Hf|].
      destruct (same_edge (u, w) f) eqn:E'; [|reflexivity].
      rewrite <- (Ha f Hf). symmetry.
      apply (same_edge_trans a (u, w) f); [rewrite same_edge_sym; exact E | exact E'].
    + intros [[<-|Hf] Hn]; [congruence | exact Hf].
  - assert (Hex' : exists e, In e r /\ same_edge (u, w) e = true).
    { destruct Hex as (e & [<-|He] & Hse); [congruence | eauto]. }
    simpl. rewrite (IH Hs Hex'). split.
    + intros [<-|[H1 H2]]; auto.
    + intros [[<-|H1] H2]; auto.
Qed.

Section Step.

Variables (g : Graph.t) (u w : nat).
Hypothesis Hwf : wf g = true.
Hypothesis Hloops : has_loops g = false.
Hypothesis Hsimple : simpleb (edges g) = true.
Hypothesis Hedge : In (u, w) (edges g).

Lemma ends_differ : u <> w.
Proof. eapply no_loops_neq; eassumption. Qed.

Lemma ends_in : In u (verts g) /\ In w (verts g).
Proof.
  apply wf_spec in Hwf. destruct Hwf as [_ Hc]. exact (Hc _ Hedge).
Qed.

Lemma edge_no_loop a b : In (a, b) (edges g) -> a <> b.
Proof. intros H. eapply no_loops_neq; eassumption. Qed.

(** The edges of the graph: those away from [w], and those at [w]. *)
Lemma edges_at :
  same_edges (edges g) (away (edges g) w ++ star w (u :: others (edges g) u w)).
Proof.
  pose proof ends_differ as Huw. split.
  - intros [a b] He. pose proof (edge_no_loop a b He) as Hab.
    destruct (Nat.eq_dec a w) as [->|Ha].
    + exists (w, b). split; [|apply same_edge_refl].
      apply in_app_iff. right. apply in_star. simpl. split; [reflexivity|].
      destruct (Nat.eq_dec b u) as [->|Hb]; [left; reflexivity|].
      right. apply in_others. auto.
    + destruct (Nat.eq_dec b w) as [->|Hb].
      * exists (w, a). split; [|apply same_edge_iff; auto].
        apply in_app_iff. right. apply in_star. simpl. split; [reflexivity|].
        destruct (Nat.eq_dec a u) as [->|Ha']; [left; reflexivity|].
        right. apply in_others. auto.
      * exists (a, b). split; [|apply same_edge_refl].
        apply in_app_iff. left. apply in_away. auto.
  - intros [a b] He. apply in_app_iff in He. destruct He as [He|He].
    + apply in_away in He. exists (a, b). split; [tauto | apply same_edge_refl].
    + apply in_star in He. simpl in He. destruct He as [-> [<-|Hb]].
      * exists (u, w). split; [exact Hedge | apply same_edge_iff; auto].
      * apply in_others in Hb. destruct Hb as (_ & _ & [H|H]).
        -- exists (w, b). split; [exact H | apply same_edge_refl].
        -- exists (b, w). split; [exact H | apply same_edge_iff; auto].
Qed.

Lemma in_deleted f :
  In f (edges (delete_edge g u w)) <-> In f (edges g) /\ same_edge (u, w) f = false.
Proof.
  unfold delete_edge. simpl. apply in_remove_first; [exact Hsimple|].
  exists (u, w). split; [exact Hedge | apply same_edge_refl].
Qed.

Lemma not_same a b : same_edge (u, w) (a, b) = false <-> ~ ((u = a /\ w = b) \/ (u = b /\ w = a)).
Proof.
  rewrite <- same_edge_iff. destruct (same_edge (u, w) (a, b)); split; intros H.
  - discriminate.
  - exfalso. apply H. reflexivity.
  - discriminate.
  - reflexivity.
Qed.

Lemma deleted_at :
  same_edges (edges (delete_edge g u w))
             (away (edges g) w ++ star w (others (edges g) u w)).
Proof.
  pose proof ends_differ as Huw. split.
  - intros [a b] He. apply in_deleted in He. destruct He as [He Hn].
    apply not_same in Hn. pose proof (edge_no_loop a b He) as Hab.
    destruct (Nat.eq_dec a w) as [->|Ha].
    + exists (w, b). split; [|apply same_edge_refl].
      apply in_app_iff. right. apply in_star. simpl. split; [reflexivity|].
      apply in_others. split; [intros ->; apply Hn; auto | auto].
    + destruct (Nat.eq_dec b w) as [->|Hb].
      * exists (w, a). split; [|apply same_edge_iff; auto].
        apply in_app_iff. right. apply in_star. simpl. split; [reflexivity|].
        apply in_others. split; [intros ->; apply Hn; auto | auto].
      * exists (a, b). split; [|apply same_edge_refl].
        apply in_app_iff. left. apply in_away. auto.
  - intros [a b] He. apply in_app_iff in He. destruct He as [He|He].
    + apply in_away in He. simpl in He. exists (a, b). split; [|apply same_edge_refl].
      apply in_deleted. split; [tauto|]. apply not_same. intros [[_ E]|[_ E]]; subst; tauto.
    + apply in_star in He. simpl in He. destruct He as [-> Hb].
      apply in_others in Hb. destruct Hb as (Hbu & Hbw & [H|H]).
      * exists (w, b). split; [|apply same_edge_refl].
        apply in_deleted. split; [exact H|]. apply not_same.
        intros [[E _]|[E _]]; congruence.
      * exists (b, w). split; [|apply same_edge_iff; auto].
        apply in_deleted. split; [exact H|]. apply not_same.
        intros [[E _]|[E _]]; congruence.
Qed.

Lemma contracted_verts :
  verts (contract_edge g u w) = List.filter (fun v => negb (Nat.eqb v w)) (verts g).
Proof. reflexivity. Qed.

Lemma contracted_at :
  same_edges (edges (contract_edge g u w))
             (away (edges g) w ++ star u (others (edges g) u w)).
Proof.
  pose proof ends_differ as Huw.
  unfold contract_edge.
  set (g1 := add_edge (delete_edge g u w) u w).
  assert (H1 : forall f, In f (edges g1) <->
             (In f (edges g) /\ same_edge (u, w) f = false) \/ f = (u, w)).
  { intros f. unfold g1, add_edge. cbn [edges]. rewrite in_app_iff.
    change (remove_first_edge (u, w) (edges g)) with (edges (delete_edge g u w)).
    rewrite in_deleted. simpl. intuition congruence. }
  assert (Hmid : same_edges (edges (merge_vertices g1 u w))
                   (away (edges g) w ++ star u (others (edges g) u w))).
  { unfold merge_vertices. cbn [edges].
    change (List.filter _ (edges g1)) with (away (edges g1) w).
    apply same_edges_of_In. intros [a b].
    rewrite !in_app_iff, !in_away, in_star, in_flat_map, in_others. cbn [fst snd].
    split.
    - intros [(Hin & Ha & Hb)|([c d] & Hin & Hx)].
      + left. apply H1 in Hin. destruct Hin as [[Hin _]|[= -> ->]]; [auto | congruence].
      + right. cbn [fst snd] in Hx. apply in_moved_edges in Hx. apply H1 in Hin.
        destruct Hin as [[Hin Hn]|[= -> ->]].
        * destruct Hx as [(-> & X1 & X2 & [= -> ->])|(-> & X1 & X2 & [= -> ->])]; auto.
        * destruct Hx as [(X0 & X1 & X2 & _)|(X0 & X1 & X2 & _)]; congruence.
    - intros [(Hin & Ha & Hb)|(-> & Hbu & Hbw & Hin)].
      + left. split; [|auto]. apply H1. left. split; [exact Hin|].
        apply not_same. intros [[_ E]|[_ E]]; subst; tauto.
      + right. destruct Hin as [Hin|Hin].
        * exists (w, b). split.
          -- apply H1. left. split; [exact Hin|]. apply not_same.
             intros [[E _]|[E _]]; congruence.
          -- cbn [fst snd]. apply in_moved_edges. auto.
        * exists (b, w). split.
          -- apply H1. left. split; [exact Hin|]. apply not_same.
             intros [[E _]|[E _]]; congruence.
          -- cbn [fst snd]. apply in_moved_edges. auto. }
  destruct (same_edges_rme (merge_vertices g1 u w)) as [R1 R2].
  destruct Hmid as [M1 M2]. split.
  - intros e He. destruct (R1 e He) as (e1 & He1 & S1).
    destruct (M1 e1 He1) as (e2 & He2 & S2). exists e2. split; [exact He2|].
    eapply same_edge_trans; eassumption.
  - intros e He. destruct (M2 e He) as (e1 & He1 & S1).
    destruct (R2 e1 He1) as (e2 & He2 & S2). exists e2. split; [exact He2|].
    eapply same_edge_trans; eassumption.
Qed.

(** The colourings of the graph are those of the graph without the edge
    that are not colourings of the contracted graph. *)
Lemma count_delete_contract k :
  Z.of_nat (count_colorings g k)
  = Z.of_nat (count_colorings (delete_edge g u w) k)
    - Z.of_nat (count_colorings (contract_edge g u w) k).
Proof.
  pose proof ends_differ as Huw. destruct ends_in as [Hu Hw].
  pose proof (proj1 (wf_spec g) Hwf) as [Hnd Hc].
  rewrite !count_colorings_cntw.
  set (V' := List.filter (fun v => negb (Nat.eqb v w)) (verts g)).
  set (es := away (edges g) w).
  set (N := others (edges g) u w).
  assert (Hperm : Permutation (verts g) (V' ++ [w])).
  { apply Permutation.NoDup_Permutation; [exact Hnd| |].
    - apply NoDup_snoc; [apply List.NoDup_filter, Hnd|].
      unfold V'. rewrite List.filter_In, Nat.eqb_refl. simpl. intros [_ H]. discriminate.
    - intros x. unfold V'. rewrite in_app_iff, List.filter_In, negb_true_iff, Nat.eqb_neq.
      simpl. destruct (Nat.eq_dec x w) as [->|Hx]; [tauto|].
      split; [auto|]. intros [[H _]|[H|[]]]; [exact H | congruence]. }
  assert (HzN : ~ In w (u :: N)).
  { intros [E|H]; [congruence|]. apply in_others in H. tauto. }
  assert (HuV : In u V').
  { unfold V'. apply List.filter_In. split; [exact Hu|].
    apply negb_true_iff, Nat.eqb_neq. exact Huw. }
  rewrite (cntw_perm k _ (wt_ext_ind_proper _) _ _ Hperm Hnd).
  rewrite (cntw_same_edges k _ _ _ _ edges_at).
  fold es N.
  rewrite (cntw_delete_contract k V' w es u N _ (away_avoids _ _) HzN HuV).
  f_equal.
  - change (verts (delete_edge g u w)) with (verts g).
    rewrite (cntw_perm k _ (wt_ext_ind_proper _) _ _ Hperm Hnd).
    symmetry. apply cntw_same_edges, deleted_at.
  - rewrite contracted_verts. fold V'.
    symmetry. apply cntw_same_edges, contracted_at.
Qed.

End Step.

End DelContract.

(** ** The graphs of the cached algorithm *)

Module Admissible.
Import Graph Count Proper GraphFacts EdgeFacts WfFacts Rename RelabelFacts TreeChord
       Components TopFacts DelContract.

Lemma simpleb_app l1 l2 :
  simpleb (l1 ++ l2) = true <->
  simpleb l1 = true /\ simpleb l2 = true /\
  (forall e f, In e l1 -> In f l2 -> same_edge e f = false).
Proof.
  induction l1 as [|a l1 IH].
  - simpl. split; [intros H; repeat split; [exact H | intros ? ? []] | tauto].
  - cbn [app]. rewrite !simpleb_cons, IH. split.
    + intros (H1 & H2 & H3 & H4). repeat split; auto.
      * intros f Hf. apply H1, in_app_iff. auto.
      * intros e f [<-|He] Hf; [apply H1, in_app_iff; auto | apply H4; assumption].
    + intros ((H1 & H2) & H3 & H4). repeat split; auto.
      * intros f Hf. apply in_app_iff in Hf. destruct Hf as [Hf|Hf]; [auto|].
        apply H4; [left; reflexivity | exact Hf].
      * intros e f He Hf. apply H4; [right; exact He | exact Hf].
Qed.

Lemma simpleb_rev l : simpleb l = true -> simpleb (rev l) = true.
Proof.
  induction l as [|a l IH]; intros H; [reflexivity|].
  apply simpleb_cons in H. destruct H as [H1 H2]. simpl. apply simpleb_app.
  split; [apply IH, H2|]. split; [reflexivity|].
  intros e f He [<-|[]]. rewrite same_edge_sym. apply H1, in_rev, He.
Qed.

Lemma simpleb_filter (p : nat * nat -> bool) l :
  simpleb l = true -> simpleb (List.filter p l) = true.
Proof.
  induction l as [|a l IH]; intros H; [reflexivity|].
  apply simpleb_cons in H. destruct H as [H1 H2]. simpl.
  destruct (p a); [|apply IH, H2]. apply simpleb_cons. split; [|apply IH, H2].
  intros f Hf. apply List.filter_In in Hf. apply H1, Hf.
Qed.

Lemma simpleb_remove_first e l :
  simpleb l = true -> simpleb (remove_first_edge e l) = true.
Proof.
  induction l as [|a l IH]; intros H; [reflexivity|].
  apply simpleb_cons in H. destruct H as [H1 H2]. simpl.
  destruct (same_edge e a); [exact H2|]. apply simpleb_cons. split; [|apply IH, H2].
  intros f Hf. apply H1. eapply remove_first_edge_incl, Hf.
Qed.

Lemma simpleb_dedup l : simpleb (dedup_edges l) = true.
Proof.
  induction l as [|a l IH]; [reflexivity|]. simpl.
  destruct (existsb (same_edge a) (dedup_edges l)) eqn:E; [exact IH|].
  simpl. rewrite E, IH. reflexivity.
Qed.

Lemma simpleb_rme g : simpleb (edges (remove_multiple_edges g)) = true.
Proof. unfold remove_multiple_edges. simpl. apply simpleb_rev, simpleb_dedup. Qed.

(** A step of a walk ends at a vertex with an edge. *)
Lemma conn_last g a z : conn g a z -> a <> z -> exists x, In z (neighbors g x).
Proof. intros H Hne. inversion H; subst; [contradiction | eauto]. Qed.

Lemma neighbor_edge g z x : In z (neighbors g x) ->
  exists e, In e (edges g) /\ (e.1 = z \/ e.2 = z).
Proof.
  intros H. apply in_neighbors in H. destruct H as [_ H].
  unfold has_edge in H. apply existsb_exists in H. destruct H as ([a b] & He & Hs).
  apply same_edge_iff in Hs. exists (a, b). split; [exact He|]. simpl.
  destruct Hs as [[-> _]|[-> _]]; auto.
Qed.

Lemma other_vertex (l : list nat) z :
  List.NoDup l -> (2 <= length l)%nat -> exists y, In y l /\ y <> z.
Proof.
  intros Hnd Hl. destruct l as [|a [|b r]]; simpl in Hl; try lia.
  assert (Hab : a <> b).
  { intros ->. inversion Hnd as [|? ? H _]. apply H. left. reflexivity. }
  destruct (Nat.eq_dec a z) as [Ha|Ha].
  - exists b. split; [right; left; reflexivity | congruence].
  - exists a. split; [left; reflexivity | exact Ha].
Qed.

(** In a connected graph with two vertices every vertex has an edge. *)
Lemma connected_incident g z :
  wf g = true -> is_connected g = true -> (2 <= order g)%nat -> In z (verts g) ->
  exists e, In e (edges g) /\ (e.1 = z \/ e.2 = z).
Proof.
  intros Hwf Hc Ho Hz. pose proof (proj1 (wf_spec g) Hwf) as [Hnd _].
  rewrite is_connected_spec in Hc by (unfold order in Ho; lia).
  set (v0 := hd 0%nat (verts g)) in *.
  assert (Hv0 : In v0 (verts g)).
  { unfold v0, order in *. destruct (verts g); simpl in *; [lia | auto]. }
  destruct (Nat.eq_dec v0 z) as [E|E].
  - destruct (other_vertex (verts g) z Hnd Ho) as (y & Hy & Hne).
    pose proof (Hc y Hy) as Hcy. rewrite E in Hcy.
    apply conn_sym in Hcy; [|exact Hz].
    destruct (conn_last g y z Hcy Hne) as (x & Hx). eapply neighbor_edge, Hx.
  - destruct (conn_last g v0 z (Hc z Hz) E) as (x & Hx). eapply neighbor_edge, Hx.
Qed.

(** A connected graph without edges is a single vertex. *)
Lemma connected_edgeless g :
  wf g = true -> is_connected g = true -> (1 <= order g)%nat -> size g = 0%nat ->
  order g = 1%nat.
Proof.
  intros Hwf Hc Ho Hs.
  destruct (Nat.eq_dec (order g) 1%nat) as [E|E]; [exact E|]. exfalso.
  assert (Hz : exists z, In z (verts g)).
  { unfold order in Ho. destruct (verts g) as [|a r]; simpl in Ho; [lia|].
    exists a. left. reflexivity. }
  destruct Hz as (z & Hz).
  destruct (connected_incident g z Hwf Hc ltac:(lia) Hz) as (e & He & _).
  unfold size in Hs. destruct (edges g); [destruct He | discriminate].
Qed.

Lemma component_admissible g c :
  wf g = true -> has_loops g = false -> simpleb (edges g) = true ->
  In c (connected_components_subgraphs g) -> admissible c.
Proof.
  intros Hwf Hl Hs Hc.
  destruct (components_good g Hwf Hl c Hc) as (C1 & C2 & C3 & C4).
  split; [exact C1|]. split; [exact C2|]. split.
  - apply in_components in Hc. destruct Hc as (v & _ & ->).
    unfold subgraph. simpl. apply simpleb_filter, Hs.
  - split; [exact C4|]. intros Hz. apply connected_edgeless; assumption.
Qed.

Lemma delete_no_loops g u w : has_loops g = false -> has_loops (delete_edge g u w) = false.
Proof.
  rewrite !has_loops_false. intros H e He. apply H.
  eapply remove_first_edge_incl, He.
Qed.

Section Reduce.

Variables (g : Graph.t) (u w : nat).
Hypothesis Hadm : admissible g.
Hypothesis Hconn : is_connected g = true.
Hypothesis Htree : Nat.eqb (order g) (size g + 1) = false.
Hypothesis Hedge : In (u, w) (edges g).

Lemma third_vertex : (3 <= order g)%nat ->
  exists z, In z (verts g) /\ z <> u /\ z <> w.
Proof.
  destruct Hadm as (Hwf & _). pose proof (proj1 (wf_spec g) Hwf) as [Hnd _].
  intros Ho. unfold order in Ho.
  destruct (verts g) as [|a [|b [|c r]]] eqn:Ev; simpl in Ho; try lia.
  inversion Hnd as [|? ? Ha Hnd1]; subst. inversion Hnd1 as [|? ? Hb _]; subst.
  assert (a <> b) by (intros ->; apply Ha; left; reflexivity).
  assert (a <> c) by (intros ->; apply Ha; right; left; reflexivity).
  assert (b <> c) by (intros ->; apply Hb; left; reflexivity).
  destruct (Nat.eq_dec a u), (Nat.eq_dec a w), (Nat.eq_dec b u), (Nat.eq_dec b w);
    subst; try congruence;
    first [ exists a; split; [simpl; auto | split; congruence]
          | exists b; split; [simpl; auto | split; congruence]
          | exists c; split; [simpl; auto | split; congruence] ].
Qed.

Lemma order_ge_2 : (2 <= order g)%nat.
Proof.
  destruct Hadm as (Hwf & Hl & _). pose proof (proj1 (wf_spec g) Hwf) as [Hnd Hc].
  destruct (Hc _ Hedge) as [Hu Hw]. simpl in Hu, Hw.
  pose proof (no_loops_neq g u w Hl Hedge) as Hne.
  unfold order. destruct (verts g) as [|a [|b r]]; simpl in *; try lia; try tauto.
  all: destruct Hu as [<-|[]], Hw as [<-|[]]; congruence.
Qed.

Lemma deleted_admissible : admissible (delete_edge g u w).
Proof.
  pose proof Hadm as (Hwf & Hl & Hs & Ho & Hz).
  split; [apply wf_delete_edge, Hwf|]. split; [apply delete_no_loops, Hl|].
  split; [unfold delete_edge; simpl; apply simpleb_remove_first, Hs|].
  split; [exact Ho|]. intros Hsz. exfalso.
  pose proof order_ge_2 as Ho2. apply Nat.eqb_neq in Htree.
  assert (Hs1 : size g = 1%nat).
  { pose proof (remove_first_edge_length (u, w) (edges g) Hedge) as H.
    unfold size, delete_edge in *. simpl in Hsz. lia. }
  destruct (third_vertex ltac:(lia)) as (z & Hzv & Hzu & Hzw).
  destruct (connected_incident g z Hwf Hconn Ho2 Hzv) as (e & He & Hez).
  assert (Ee : e = (u, w)).
  { unfold size in Hs1. revert He Hedge Hs1. generalize (edges g). intros l He Hin Hs1.
    destruct l as [|e0 [|e1 r]]; simpl in Hs1; try lia.
    destruct He as [<-|[]]. destruct Hin as [E0|[]]. exact E0. }
  subst e. simpl in Hez. destruct Hez; congruence.
Qed.

Lemma contract_no_loops : has_loops (contract_edge g u w) = false.
Proof.
  pose proof Hadm as (Hwf & Hl & Hs & Ho & Hz).
  pose proof (no_loops_neq g u w Hl Hedge) as Hne.
  apply has_loops_false. intros [a b] He. simpl. intros ->.
  destruct (proj1 (contracted_at g u w Hl Hs Hedge) _ He) as ([c d] & Hin & Hse).
  apply same_edge_iff in Hse.
  assert (c = d) by (destruct Hse as [[-> ->]|[-> ->]]; reflexivity). subst d.
  apply in_app_iff in Hin. destruct Hin as [Hin|Hin].
  - apply DelContract.in_away in Hin. destruct Hin as [Hin _].
    exact (no_loops_neq g c c Hl Hin eq_refl).
  - apply DelContract.in_star in Hin. simpl in Hin. destruct Hin as [-> Hin].
    apply in_others in Hin. tauto.
Qed.

Lemma contract_order : order (contract_edge g u w) = (order g - 1)%nat.
Proof.
  destruct Hadm as (Hwf & _). pose proof (proj1 (wf_spec g) Hwf) as [Hnd Hc].
  destruct (Hc _ Hedge) as [_ Hw]. simpl in Hw.
  unfold order. rewrite contracted_verts.
  clear -Hnd Hw. induction (verts g) as [|a l IH]; [destruct Hw|].
  inversion Hnd as [|? ? Ha Hnd']; subst. simpl.
  destruct (Nat.eqb_spec a w) as [->|Hne]; simpl.
  - rewrite DiGraphFacts.filter_all_true; [lia|].
    intros x Hx. apply negb_true_iff, Nat.eqb_neq. intros ->. contradiction.
  - destruct Hw as [->|Hw]; [congruence|]. rewrite (IH Hnd' Hw).
    destruct l; [destruct Hw | simpl; lia].
Qed.

Lemma contracted_admissible : admissible (contract_edge g u w).
Proof.
  pose proof Hadm as (Hwf & Hl & Hs & Ho & Hz).
  pose proof order_ge_2 as Ho2. pose proof (no_loops_neq g u w Hl Hedge) as Hne.
  split; [apply wf_contract; assumption|]. split; [apply contract_no_loops|].
  split; [apply simpleb_rme|].
  rewrite contract_order. split; [lia|]. intros Hsz.
  destruct (Nat.eq_dec (order g) 2%nat) as [E|E]; [lia|]. exfalso.
  destruct (third_vertex ltac:(lia)) as (z & Hzv & Hzu & Hzw).
  destruct (connected_incident g z Hwf Hconn Ho2 Hzv) as ([a b] & He & Hez).
  simpl in Hez.
  assert (Hin : exists f, In f (away (edges g) w ++ star u (others (edges g) u w))).
  { destruct (Nat.eq_dec a w) as [->|Ha].
    - destruct Hez as [Hez|Hez]; [congruence|]. subst b.
      exists (u, z). apply in_app_iff. right. apply DelContract.in_star. simpl.
      split; [reflexivity|]. apply in_others. auto.
    - destruct (Nat.eq_dec b w) as [->|Hb].
      + destruct Hez as [Hez|Hez]; [|congruence]. subst a.
        exists (u, z). apply in_app_iff. right. apply DelContract.in_star. simpl.
        split; [reflexivity|]. apply in_others. auto.
      + exists (a, b). apply in_app_iff. left. apply DelContract.in_away. auto. }
  destruct Hin as (f & Hf).
  destruct (proj2 (contracted_at g u w Hl Hs Hedge) f Hf) as (f' & Hf' & _).
  unfold size in Hsz. destruct (edges (contract_edge g u w)); [destruct Hf' | discriminate].
Qed.

End Reduce.

(** The relabelled copy without parallel edges that the cached algorithm
    starts from. *)
Lemma root_facts g :
  wf g = true -> has_loops g = false -> (1 <= order g)%nat ->
  let g' := remove_multiple_edges (relabel g) in
  wf g' = true /\ has_loops g' = false /\ simpleb (edges g') = true /\
  (1 <= order g')%nat /\
  forall k, count_colorings g' k = count_colorings g k.
Proof.
  intros Hwf Hl Ho g'.
  split; [apply wf_remove_multiple_edges, wf_relabel, Hwf|].
  split; [apply relabel_no_loops; assumption|].
  split; [apply simpleb_rme|].
  split; [unfold g', order; simpl; rewrite length_seq; exact Ho|].
  intros k. apply Nat2Z.inj. rewrite !count_colorings_cntw.
  rewrite <- (prepared_count g Hwf Hl k). rewrite (prepared_eq g Hwf Hl). reflexivity.
Qed.

End Admissible.

(** ** The cached algorithm counts the colourings *)

Section CachedCounts.
Import Graph Count Proper GraphFacts EdgeFacts WfFacts Rename RelabelFacts
       Components TopFacts DelContract Admissible PolyId EvalFacts MainFacts.

Variable canonical_label : Graph.t -> Graph.t.
Hypothesis Hfaith : faithful canonical_label.

Lemma prod_counts_for k : forall cs ps,
  Forall2 counts_for cs ps ->
  Poly.eval (Poly.prod ps) (Z.of_nat k)
  = fold_right Z.mul 1 (map (fun c => Z.of_nat (count_colorings c k)) cs).
Proof.
  intros cs ps H. rewrite eval_prod. induction H as [|c p cs ps [_ Hp] _ IH]; [reflexivity|].
  simpl. rewrite Hp, IH. reflexivity.
Qed.

Lemma split_counts g ps :
  wf g = true -> Forall2 counts_for (connected_components_subgraphs g) ps ->
  counts_for g (Poly.prod ps).
Proof.
  intros Hwf HF. split; [apply normal_prod|]. intros k.
  rewrite (prod_counts_for k _ _ HF). symmetry. apply count_components, Hwf.
Qed.

Lemma resolves_counts : forall n,
  resolves canonical_label admissible counts_for (cache_counts canonical_label) n.
Proof.
  apply resolves_all.
  - intros g c (Hwf & Hl & Hs & _) (_ & _ & Hc) Hin.
    split; [eapply component_admissible; eassumption|].
    apply component_subgraph_smaller; assumption.
  - intros g u w Ha Hr. pose proof (reduces_edge g u w Hr) as He.
    destruct Hr as (_ & _ & Hc & Ht & _).
    pose proof Ha as (Hwf & Hl & _).
    pose proof (proj1 (wf_spec g) Hwf) as [_ Hcl]. destruct (Hcl _ He) as [_ Hw].
    split; [apply deleted_admissible; assumption|].
    split; [apply contracted_admissible; assumption|].
    split; [apply delete_edge_measure, He | apply contract_measure; assumption].
  - intros g (Hwf & _). apply connected_has_edge, Hwf.
  - intros c g p HP Ha Hk. exact (HP _ _ Hk g Ha eq_refl).
  - intros c g p HP Ha [Hn HQ] k q. rewrite lookup_insert. case_decide as Hk.
    + intros [= <-] g' Ha' Hk'. split; [exact Hn|]. intros x. rewrite HQ. f_equal.
      apply Hfaith; [exact Ha | exact Ha' | congruence].
    + apply HP.
  - intros g (_ & _ & _ & Ho & _) He. unfold is_empty in He. apply Nat.eqb_eq in He. lia.
  - intros g (_ & Hl & _) _ Hl'. congruence.
  - intros g (Hwf & Hl & _) He _ Hc Ht. split; [apply normal_tree_poly|].
    intros k. apply tree_counts; [exact Hwf | exact Hl|].
    unfold is_tree. rewrite He, Ht, Hc. reflexivity.
  - intros g ps (Hwf & _) _ HF. apply split_counts; assumption.
  - intros g u w pa pb (Hwf & Hl & Hs & _) Hr [_ Ha] [_ Hb].
    split; [apply normal_sub|]. intros k. rewrite eval_sub, Ha, Hb.
    symmetry. apply count_delete_contract; try assumption.
    eapply reduces_edge, Hr.
Qed.

(** On a well formed graph the cached algorithm returns, given enough
    rounds, a polynomial in normal form whose value at [k] is the number of
    colourings with [k] colours. *)
Lemma with_cache_counts G w g :
  heap w !! G = Some g -> wf g = true ->
  exists n p w',
    (forall fuel, chromatic_polynomial_with_cache canonical_label (n + fuel) G w
                  = (Ret p, w')) /\
    counts_for g p.
Proof.
  intros Hg Hw. unfold chromatic_polynomial_with_cache.
  destruct (is_empty g) eqn:He.
  { exists 0%nat, Poly.one, w. split.
    - intros fuel. unfold bind. rewrite (read_spec G w g Hg), He. reflexivity.
    - split; [apply normal_one|]. intros k. rewrite (count_empty g k Hw He).
      unfold Poly.one, Poly.eval. lia. }
  destruct (has_loops g) eqn:Hl.
  { exists 0%nat, Poly.zero, w. split.
    - intros fuel. unfold bind. rewrite (read_spec G w g Hg), He, Hl. reflexivity.
    - split; [apply normal_zero|]. intros k. rewrite (count_loops g k Hl). reflexivity. }
  assert (Ho : (1 <= order g)%nat).
  { unfold is_empty in He. apply Nat.eqb_neq in He. lia. }
  destruct (alloc_spec (relabel g) w) as (G' & w1 & Ea & Hn & L1 & X1).
  destruct (modify_spec G' remove_multiple_edges w1 _ L1) as (w2 & Em & L2 & F2).
  destruct (root_facts g Hw Hl Ho) as (R1 & R2 & R3 & R4 & R5).
  set (g' := remove_multiple_edges (relabel g)) in *.
  set (d := DiGraph.set_vertex DiGraph.init1 0 (VGraph G')).
  assert (Hd : dwf d).
  { split; simpl; [intros e [] |].
    intros x y. rewrite lookup_insert. case_decide; [subst; auto | rewrite lookup_empty; discriminate]. }
  assert (Hd0 : DiGraph.get_vertex d 0 = Some (VGraph G')).
  { unfold d, DiGraph.get_vertex. simpl. apply lookup_insert_eq. }
  assert (HP0 : cache_counts canonical_label ∅).
  { intros k q. rewrite lookup_empty. discriminate. }
  assert (Hres : exists n p c' w3,
            steps_to canonical_label n (CState d ∅ [(true, 0%nat, ("_"%string, []))]) w2
                     (CState (DiGraph.set_vertex d 0 (VPoly p)) c' []) w3 /\
            counts_for g' p).
  { destruct (Nat.eq_dec (size g') 0%nat) as [Hs0|Hs0].
    - destruct (Nat.eq_dec (order g') 1%nat) as [Ho1|Ho1].
      + assert (Ha : admissible g') by (repeat split; auto).
        destruct (resolves_counts (S (graph_measure g')) g' ltac:(lia) Ha d ∅ 0%nat
                    ("_"%string, []) [] w2 G' Hd0 L2 Hd ltac:(simpl; auto) eq_refl HP0)
          as (n & p & c' & w3 & Hs & HQ & _ & _).
        exists n, p, c', w3. auto.
      + assert (Hc : is_connected g' = false).
        { destruct (is_connected g') eqn:Hc; [|reflexivity]. exfalso. apply Ho1.
          apply connected_edgeless; assumption. }
        assert (He' : is_empty g' = false).
        { unfold is_empty. apply Nat.eqb_neq. lia. }
        destruct (split_steps canonical_label admissible counts_for (cache_counts canonical_label)
                    (graph_measure g') g' d ∅ 0%nat ("_"%string, []) [] w2 G'
                    (resolves_counts _))
          as (n & ps & c1 & w3 & Hs & HQ & _ & _); try assumption.
        * intros h Hh. split; [eapply component_admissible; eassumption|].
          apply component_subgraph_smaller; assumption.
        * repeat split; assumption.
        * apply lookup_empty.
        * simpl. auto.
        * reflexivity.
        * exists n, (Poly.prod ps). eexists. exists w3. split; [exact Hs|].
          apply split_counts; assumption.
    - assert (Ha : admissible g').
      { repeat split; auto. intros H. contradiction. }
      destruct (resolves_counts (S (graph_measure g')) g' ltac:(lia) Ha d ∅ 0%nat
                  ("_"%string, []) [] w2 G' Hd0 L2 Hd ltac:(simpl; auto) eq_refl HP0)
        as (n & p & c' & w3 & Hs & HQ & _ & _).
      exists n, p, c', w3. auto. }
  destruct Hres as (n & p & c' & w3 & Hs & [HN HQ]).
  exists n, p, w3. split.
  - intros fuel.
    unfold bind at 1. rewrite (read_spec G w g Hg), He, Hl.
    unfold bind at 1. rewrite Ea. unfold bind at 1. rewrite Em.
    unfold bind at 1. fold d. rewrite Hs.
    destruct fuel; simpl; unfold get_poly, DiGraph.get_vertex; simpl;
      rewrite lookup_insert_eq; reflexivity.
  - split; [exact HN|]. intros k. rewrite HQ, R5. reflexivity.
Qed.

End CachedCounts.

(** ** The keys of the canonical labelling *)

Module CanonFacts.
Import Graph Count Proper GraphFacts EdgeFacts WfFacts Rename RelabelFacts TreeChord
       Components Canon.

(** *** Permutations and sorting *)

Lemma insert_everywhere_perm x : forall l q,
  In q (insert_everywhere x l) -> Permutation (x :: l) q.
Proof.
  induction l as [|y r IH]; intros q H; simpl in H.
  - destruct H as [<-|[]]. apply Permutation_refl.
  - destruct H as [<-|H]; [apply Permutation_refl|].
    apply in_map_iff in H. destruct H as (q' & <- & Hq').
    eapply perm_trans; [apply perm_swap|]. apply perm_skip, IH, Hq'.
Qed.

Lemma perms_perm : forall l p, In p (perms l) -> Permutation l p.
Proof.
  induction l as [|x r IH]; intros p H; simpl in H.
  - destruct H as [<-|[]]. apply perm_nil.
  - apply in_flat_map in H. destruct H as (q & Hq & Hp).
    eapply perm_trans; [apply perm_skip, IH, Hq|].
    apply insert_everywhere_perm, Hp.
Qed.

Lemma insert_sorted_perm e : forall l, Permutation (e :: l) (insert_sorted e l).
Proof.
  induction l as [|f r IH]; simpl; [apply Permutation_refl|].
  destruct (edge_leb e f); [apply Permutation_refl|].
  eapply perm_trans; [apply perm_swap|]. apply perm_skip, IH.
Qed.

Lemma sort_edges_perm : forall l, Permutation l (sort_edges l).
Proof.
  induction l as [|e r IH]; simpl; [apply perm_nil|].
  eapply perm_trans; [apply perm_skip, IH|]. apply insert_sorted_perm.
Qed.

Lemma pick_in {A} (better : A -> A -> bool) (d : A) : forall cs,
  In (fold_right (fun c best => if better best c then c else best) d cs) (d :: cs).
Proof.
  induction cs as [|c cs IH]; simpl; [auto|].
  destruct (better _ c); [auto|]. destruct IH as [IH|IH]; auto.
Qed.

Lemma index_of_nth (l : list nat) i :
  List.NoDup l -> (i < length l)%nat -> index_of (nth i l 0%nat) l = i.
Proof.
  intros Hnd Hi. apply (proj1 (List.NoDup_nth l 0%nat) Hnd).
  - apply index_of_lt, nth_In, Hi.
  - exact Hi.
  - apply nth_index_of, nth_In, Hi.
Qed.

(** *** The vertices without an edge come first *)

Lemma in_touched es v :
  touched es v = true <-> exists e, In e es /\ (e.1 = v \/ e.2 = v).
Proof.
  unfold touched. rewrite existsb_exists. split; intros (e & He & H); exists e;
    (split; [exact He|]).
  - apply orb_true_iff in H. rewrite !Nat.eqb_eq in H. exact H.
  - apply orb_true_iff. rewrite !Nat.eqb_eq. exact H.
Qed.

Lemma in_arrange g x : In x (verts (arrange g)) <-> In x (verts g).
Proof.
  unfold arrange. cbn [verts]. rewrite in_app_iff, !List.filter_In.
  destruct (touched (edges g) x); simpl; intuition congruence.
Qed.

Lemma arrange_NoDup g : List.NoDup (verts g) -> List.NoDup (verts (arrange g)).
Proof.
  intros H. unfold arrange. cbn [verts]. apply List.NoDup_app.
  - apply List.NoDup_filter, H.
  - apply List.NoDup_filter, H.
  - intros x H1 H2. apply List.filter_In in H1, H2.
    destruct H1 as [_ H1], H2 as [_ H2]. rewrite H2 in H1. discriminate.
Qed.

Lemma arrange_wf g : wf g = true -> wf (arrange g) = true.
Proof.
  rewrite !wf_spec. intros [Hnd Hc]. split; [apply arrange_NoDup, Hnd|].
  intros e He. destruct (Hc e He). split; apply in_arrange; assumption.
Qed.

Lemma arrange_perm g : List.NoDup (verts g) -> Permutation (verts (arrange g)) (verts g).
Proof.
  intros Hnd. apply Permutation.NoDup_Permutation;
    [apply arrange_NoDup, Hnd | exact Hnd | apply in_arrange].
Qed.

Lemma arrange_order g : wf g = true -> order (arrange g) = order g.
Proof.
  intros Hwf. apply Permutation_length, arrange_perm, (proj1 (wf_spec g) Hwf).
Qed.

Lemma arrange_count g k :
  wf g = true -> count_colorings (arrange g) k = count_colorings g k.
Proof.
  intros Hwf. pose proof (proj1 (wf_spec g) Hwf) as [Hnd _].
  apply Nat2Z.inj. rewrite !count_colorings_cntw.
  change (edges (arrange g)) with (edges g).
  apply cntw_perm; [apply wt_ext_ind_proper| |apply arrange_NoDup, Hnd].
  apply arrange_perm, Hnd.
Qed.

Lemma isolated_le g : wf g = true -> (isolated g <= order g)%nat.
Proof.
  intros Hwf. rewrite <- (arrange_order g Hwf).
  unfold isolated, order, arrange. cbn [verts]. rewrite length_app. lia.
Qed.

(** *** The labels that are chosen *)

Lemma labels_perm m n sigma :
  (m <= n)%nat -> labels m n sigma -> Permutation (seq 0 n) sigma.
Proof.
  intros Hmn (p & Hp & ->).
  replace n with (m + (n - m))%nat at 1 by lia. rewrite seq_app.
  apply Permutation_app_head. exact Hp.
Qed.

Lemma labels_length m n sigma : (m <= n)%nat -> labels m n sigma -> length sigma = n.
Proof.
  intros Hmn H. rewrite <- (Permutation_length (labels_perm m n sigma Hmn H)).
  apply length_seq.
Qed.

Lemma labels_NoDup m n sigma : (m <= n)%nat -> labels m n sigma -> List.NoDup sigma.
Proof.
  intros Hmn H. eapply Permutation_NoDup; [apply (labels_perm m n sigma Hmn H)|].
  apply List.seq_NoDup.
Qed.

Lemma labels_lt m n sigma i :
  (m <= n)%nat -> labels m n sigma -> (i < n)%nat -> (nth i sigma 0 < n)%nat.
Proof.
  intros Hmn H Hi.
  assert (Hin : In (nth i sigma 0%nat) sigma).
  { apply nth_In. rewrite (labels_length m n sigma Hmn H). exact Hi. }
  apply (Permutation_in _ (Permutation_sym (labels_perm m n sigma Hmn H))) in Hin.
  apply in_seq in Hin. lia.
Qed.

(** The last label is at one of the places that are permuted. *)
Lemma labels_last m n sigma :
  (m < n)%nat -> labels m n sigma ->
  exists j, (m <= j < n)%nat /\ nth j sigma 0%nat = (n - 1)%nat.
Proof.
  intros Hmn (p & Hp & ->).
  assert (Hin : In (n - 1)%nat p).
  { apply (Permutation_in _ Hp). apply in_seq. lia. }
  destruct (In_nth p (n - 1)%nat 0%nat Hin) as (j & Hj & E).
  pose proof (Permutation_length Hp) as L. rewrite length_seq in L.
  exists (m + j)%nat. split; [lia|].
  rewrite app_nth2; rewrite length_seq; [|lia].
  replace (m + j - m)%nat with j by lia. exact E.
Qed.

Lemma chosen g :
  wf g = true ->
  exists sigma, labels (isolated g) (order g) sigma /\
    edges (canonical_label g) = relabel_by (arrange g) sigma.
Proof.
  intros Hwf. pose proof (isolated_le g Hwf) as Hle.
  unfold canonical_label. cbn [edges].
  match goal with |- context [fold_right ?f ?d ?cs] =>
    destruct (pick_in edges_leb d cs) as [H|H]; [|apply in_map_iff in H] end.
  - exists (seq 0 (order g)). split; [|symmetry; exact H].
    exists (seq (isolated g) (order g - isolated g)). split; [apply Permutation_refl|].
    rewrite <- seq_app. f_equal. lia.
  - destruct H as (p & E & Hp). exists (seq 0 (isolated g) ++ p).
    split; [|symmetry; exact E]. exists p. split; [apply perms_perm, Hp | reflexivity].
Qed.

Section Labelled.

Variable g : Graph.t.
Hypothesis Hwf : wf g = true.
Variable sigma : list nat.
Hypothesis Hsigma : labels (isolated g) (order g) sigma.

Let place (x : nat) : nat := nth (index_of x (verts (arrange g))) sigma 0%nat.

Lemma place_lt x : In x (verts g) -> (place x < order g)%nat.
Proof.
  intros Hx. apply (labels_lt (isolated g)); [apply isolated_le, Hwf | exact Hsigma|].
  rewrite <- (arrange_order g Hwf). apply index_of_lt, in_arrange, Hx.
Qed.

Lemma place_inj x y : In x (verts g) -> In y (verts g) -> place x = place y -> x = y.
Proof.
  intros Hx Hy E. pose proof (isolated_le g Hwf) as Hle.
  apply in_arrange in Hx, Hy.
  apply (index_of_inj (verts (arrange g))); [exact Hx | exact Hy|].
  apply (proj1 (List.NoDup_nth sigma 0%nat) (labels_NoDup _ _ _ Hle Hsigma)).
  - rewrite (labels_length _ _ _ Hle Hsigma), <- (arrange_order g Hwf).
    apply index_of_lt, Hx.
  - rewrite (labels_length _ _ _ Hle Hsigma), <- (arrange_order g Hwf).
    apply index_of_lt, Hy.
  - exact E.
Qed.

Lemma map_place : map place (verts (arrange g)) = sigma.
Proof.
  pose proof (isolated_le g Hwf) as Hle.
  pose proof (proj1 (wf_spec g) Hwf) as [Hnd _].
  unfold place.
  rewrite <- (map_map (fun x => index_of x (verts (arrange g))) (fun i => nth i sigma 0%nat)).
  rewrite (map_index_of _ (arrange_NoDup g Hnd)).
  fold (order (arrange g)). rewrite (arrange_order g Hwf).
  rewrite <- (labels_length _ _ _ Hle Hsigma) at 1. apply map_nth_seq.
Qed.

Lemma relabel_by_in e :
  In e (relabel_by (arrange g) sigma) <->
  exists e0, In e0 (edges g) /\ e = norm_edge (place e0.1, place e0.2).
Proof.
  unfold relabel_by. split.
  - intros H. apply (Permutation_in _ (Permutation_sym (sort_edges_perm _))) in H.
    apply in_map_iff in H. destruct H as (e0 & <- & H0). exists e0. split; [exact H0 | reflexivity].
  - intros (e0 & H0 & ->). apply (Permutation_in _ (sort_edges_perm _)).
    apply in_map_iff. exists e0. split; [reflexivity | exact H0].
Qed.

Lemma same_edge_norm e : same_edge (norm_edge e) e = true.
Proof.
  destruct e as [a b]. unfold norm_edge. cbn [fst snd].
  destruct (Nat.leb a b); apply DelContract.same_edge_iff; auto.
Qed.

Lemma relabel_by_same :
  same_edges (relabel_by (arrange g) sigma)
             (map (fun e => (place e.1, place e.2)) (edges g)).
Proof.
  split.
  - intros e He. apply relabel_by_in in He. destruct He as (e0 & H0 & ->).
    exists (place e0.1, place e0.2). split; [|apply same_edge_norm].
    apply in_map_iff. exists e0. auto.
  - intros e He. apply in_map_iff in He. destruct He as (e0 & <- & H0).
    exists (norm_edge (place e0.1, place e0.2)). split.
    + apply relabel_by_in. exists e0. auto.
    + rewrite same_edge_sym. apply same_edge_norm.
Qed.

Lemma relabel_by_count k :
  cntw k (seq 0 (order g)) (ind (proper (relabel_by (arrange g) sigma))) (fun _ => 0%nat)
  = Z.of_nat (count_colorings g k).
Proof.
  pose proof (isolated_le g Hwf) as Hle.
  pose proof (proj1 (wf_spec g) Hwf) as [Hnd Hc].
  rewrite <- (arrange_count g k Hwf), count_colorings_cntw.
  change (edges (arrange g)) with (edges g).
  rewrite (cntw_same_edges k _ _ _ _ relabel_by_same).
  rewrite (cntw_perm k _ (wt_ext_ind_proper _) _ _
             (labels_perm _ _ _ Hle Hsigma) (List.seq_NoDup _ _)).
  rewrite <- map_place.
  rewrite (cntw_ext_wt k _ _ (fun f => ind (proper (edges g)) (fun x => f (place x)))).
  2:{ intros f. unfold ind. rewrite (proper_map place (edges g) f). reflexivity. }
  apply (cntw_rename k place (fun x => In x (verts g)) (ind (proper (edges g)))).
  - intros x y Hx Hy. apply place_inj; assumption.
  - intros f f' H. unfold ind. rewrite (proper_agree _ f f'); [reflexivity|].
    intros e He. destruct (Hc e He). split; apply H; assumption.
  - intros x Hx. apply in_arrange, Hx.
  - reflexivity.
Qed.

Lemma relabel_by_closed e :
  In e (relabel_by (arrange g) sigma) -> (e.1 < order g)%nat /\ (e.2 < order g)%nat.
Proof.
  intros He. apply relabel_by_in in He. destruct He as (e0 & H0 & ->).
  pose proof (proj1 (wf_spec g) Hwf) as [_ Hc]. destruct (Hc e0 H0) as [H1 H2].
  pose proof (place_lt _ H1). pose proof (place_lt _ H2).
  unfold norm_edge. cbn [fst snd]. destruct (Nat.leb _ _); cbn [fst snd]; lia.
Qed.

(** With an edge in the graph, the last label is at an edge. *)
Lemma relabel_by_last :
  size g <> 0%nat ->
  exists e, In e (relabel_by (arrange g) sigma) /\
            (e.1 = (order g - 1)%nat \/ e.2 = (order g - 1)%nat).
Proof.
  intros Hs. pose proof (proj1 (wf_spec g) Hwf) as [Hnd Hc].
  pose proof (isolated_le g Hwf) as Hle.
  set (iso := List.filter (fun v => negb (touched (edges g) v)) (verts g)).
  set (non := List.filter (touched (edges g)) (verts g)).
  assert (HL : verts (arrange g) = iso ++ non) by reflexivity.
  assert (Hlen : order g = (isolated g + length non)%nat).
  { rewrite <- (arrange_order g Hwf). unfold order. rewrite HL, length_app. reflexivity. }
  assert (Hnon : (0 < length non)%nat).
  { assert (Hex : exists e0, In e0 (edges g)).
    { unfold size in Hs. revert Hs. generalize (edges g). intros [|e0 r] Hs;
        [simpl in Hs; congruence | exists e0; left; reflexivity]. }
    destruct Hex as (e0 & He0). destruct (Hc e0 He0) as [H1 _].
    assert (Hin : In e0.1 non).
    { unfold non. apply List.filter_In. split; [exact H1|].
      apply in_touched. exists e0. auto. }
    destruct non; [destruct Hin | simpl; lia]. }
  assert (Hlt : (isolated g < order g)%nat) by lia.
  destruct (labels_last (isolated g) (order g) sigma Hlt Hsigma) as (j & Hj & Ej).
  set (v := nth j (verts (arrange g)) 0%nat).
  assert (Hjl : (j < length (verts (arrange g)))%nat).
  { fold (order (arrange g)). rewrite (arrange_order g Hwf). lia. }
  assert (Hv : In v non).
  { assert (Hiso : length iso = isolated g) by reflexivity.
    unfold v. rewrite HL, app_nth2 by lia. apply nth_In. lia. }
  assert (Hpv : place v = (order g - 1)%nat).
  { unfold place, v. rewrite (index_of_nth _ _ (arrange_NoDup g Hnd) Hjl). exact Ej. }
  unfold non in Hv. apply List.filter_In in Hv. destruct Hv as [_ Hv].
  apply in_touched in Hv. destruct Hv as (e & He & Hev).
  exists (norm_edge (place e.1, place e.2)). split.
  - apply relabel_by_in. exists e. auto.
  - unfold norm_edge. cbn [fst snd].
    destruct (Nat.leb _ _); cbn [fst snd]; destruct Hev as [->| ->]; auto.
Qed.

End Labelled.

(** *** The canonical form *)

Lemma label_count g k :
  wf g = true -> count_colorings (canonical_label g) k = count_colorings g k.
Proof.
  intros Hwf. destruct (chosen g Hwf) as (sigma & Hs & E).
  apply Nat2Z.inj. rewrite count_colorings_cntw, E.
  change (verts (canonical_label g)) with (seq 0 (order g)).
  apply relabel_by_count; assumption.
Qed.

Lemma label_closed g e :
  wf g = true -> In e (edges (canonical_label g)) ->
  (e.1 < order g)%nat /\ (e.2 < order g)%nat.
Proof.
  intros Hwf He. destruct (chosen g Hwf) as (sigma & Hs & E). rewrite E in He.
  eapply relabel_by_closed; eassumption.
Qed.

Lemma last_label g :
  wf g = true -> size g <> 0%nat ->
  exists e, In e (edges (canonical_label g)) /\
            (e.1 = (order g - 1)%nat \/ e.2 = (order g - 1)%nat).
Proof.
  intros Hwf Hs. destruct (chosen g Hwf) as (sigma & Hl & E). rewrite E.
  apply relabel_by_last; assumption.
Qed.

Lemma label_size g : wf g = true -> size (canonical_label g) = size g.
Proof.
  intros Hwf. destruct (chosen g Hwf) as (sigma & Hl & E).
  unfold size. rewrite E. unfold relabel_by.
  rewrite <- (Permutation_length (sort_edges_perm _)), length_map. reflexivity.
Qed.

Lemma norm_edge_same e f : norm_edge e = norm_edge f -> same_edge e f = true.
Proof.
  destruct e as [a b], f as [c d]. unfold norm_edge. simpl.
  destruct (Nat.leb a b), (Nat.leb c d); intros [= -> ->];
    apply DelContract.same_edge_iff; auto.
Qed.

Lemma key_edges g h :
  key_of canonical_label g = key_of canonical_label h ->
  same_edges (edges (canonical_label g)) (edges (canonical_label h)).
Proof.
  intros Hk.
  assert (H : forall a b, key_of canonical_label a = key_of canonical_label b ->
            forall e, In e (edges (canonical_label a)) ->
            exists e', In e' (edges (canonical_label b)) /\ same_edge e e' = true).
  { intros a b Hab e He.
    assert (Hin : norm_edge e ∈ key_of canonical_label a).
    { unfold key_of. apply elem_of_list_to_set, list_elem_of_In, in_map, He. }
    rewrite Hab in Hin. unfold key_of in Hin.
    apply elem_of_list_to_set, list_elem_of_In, in_map_iff in Hin.
    destruct Hin as (f & Hf & Hfin). exists f. split; [exact Hfin|].
    apply norm_edge_same. congruence. }
  split; [apply H, Hk | apply H; symmetry; exact Hk].
Qed.

Lemma order_le g h :
  wf g = true -> wf h = true -> size g <> 0%nat ->
  same_edges (edges (canonical_label g)) (edges (canonical_label h)) ->
  (order g <= order h)%nat.
Proof.
  intros Hg Hh Hs [H1 _].
  destruct (last_label g Hg Hs) as (e & He & Hlast).
  destruct (H1 e He) as ([c d] & Hf & Hse).
  destruct (label_closed h (c, d) Hh Hf) as [B1 B2]. simpl in B1, B2.
  destruct e as [a b]. apply DelContract.same_edge_iff in Hse. simpl in Hlast.
  destruct Hse as [[-> ->]|[-> ->]]; lia.
Qed.

Lemma same_edges_size l l' : same_edges l l' -> length l = 0%nat -> length l' = 0%nat.
Proof.
  intros [_ H] Hl. destruct l'; [reflexivity|].
  destruct (H p (or_introl eq_refl)) as (e & He & _).
  destruct l; [destruct He | discriminate].
Qed.

(** The keys of the canonical labelling tell the graphs apart. *)
Lemma canonical_faithful : faithful canonical_label.
Proof.
  intros g h (Hg & _ & _ & Og & Zg) (Hh & _ & _ & Oh & Zh) Hk k.
  pose proof (key_edges g h Hk) as Hse.
  assert (Hse' : same_edges (edges (canonical_label h)) (edges (canonical_label g))).
  { destruct Hse. split; assumption. }
  assert (Ho : order g = order h).
  { destruct (Nat.eq_dec (size g) 0%nat) as [E|E].
    - assert (E' : size h = 0%nat).
      { rewrite <- (label_size h Hh). apply (same_edges_size _ _ Hse).
        fold (size (canonical_label g)). rewrite (label_size g Hg). exact E. }
      rewrite Zg, Zh by assumption. reflexivity.
    - assert (E' : size h <> 0%nat).
      { intros E'. apply E. rewrite <- (label_size g Hg). apply (same_edges_size _ _ Hse').
        fold (size (canonical_label h)). rewrite (label_size h Hh). exact E'. }
      pose proof (order_le g h Hg Hh E Hse). pose proof (order_le h g Hh Hg E' Hse'). lia. }
  rewrite <- (label_count g k Hg), <- (label_count h k Hh).
  apply Nat2Z.inj. rewrite !count_colorings_cntw.
  change (verts (canonical_label g)) with (seq 0 (order g)).
  change (verts (canonical_label h)) with (seq 0 (order h)).
  rewrite Ho. apply cntw_same_edges, Hse.
Qed.

End CanonFacts.

(** ** The two algorithms *)

Section Agreement.
Import Graph GraphFacts WfFacts EvalFacts PolyId.

Variable canonical_label : Graph.t -> Graph.t.

Lemma chromatic_polynomial_python depth steps G w :
  chromatic_polynomial canonical_label depth steps G "Python" w
  = chromatic_polynomial_with_cache canonical_label steps G w.
Proof. destruct depth; reflexivity. Qed.

(** C2. With a labelling whose keys tell apart the graphs with different
    numbers of colourings, on a well formed graph, with no interrupt
    pending and room for one nested call, the cached algorithm, given
    enough rounds of its loop, and the default algorithm return the same
    polynomial, coefficient by coefficient. *)
Theorem algorithms_agree (depth G : nat) (w : world) (g : Graph.t) :
  faithful canonical_label ->
  heap w !! G = Some g ->
  Graph.wf g = true ->
  quiet w ->
  (1 <= depth)%nat ->
  exists (n : nat) (p : Poly.poly),
    forall steps, (n <= steps)%nat ->
    exists w1 w2,
      chromatic_polynomial canonical_label depth steps G "C" w = (Ret p, w1) /\
      chromatic_polynomial canonical_label depth steps G "Python" w = (Ret p, w2).
Proof.
  intros Hf HG Hwf Hq Hd.
  destruct (with_cache_counts canonical_label Hf G w g HG Hwf)
    as (n & p & w2 & Hpy & Hn & Hv).
  exists n, p. intros steps Hs.
  destruct (default_counts canonical_label depth steps G w g HG Hwf Hq Hd)
    as (q & w1 & Ec & Nc & Vc).
  assert (q = p) as ->.
  { apply poly_eq; [exact Nc | exact Hn|].
    intros k. rewrite Vc, Hv. reflexivity. }
  exists w1, w2. split; [exact Ec|].
  rewrite chromatic_polynomial_python.
  replace steps with (n + (steps - n))%nat by lia. apply Hpy.
Qed.

End Agreement.

Lemma algorithms_agree_witness :
  exists (n : nat) (p : Poly.poly),
    forall steps, (n <= steps)%nat ->
    exists w1 w2,
      chromatic_polynomial Canon.canonical_label 1 steps 0 "C" (caller_world K3)
      = (Ret p, w1) /\
      chromatic_polynomial Canon.canonical_label 1 steps 0 "Python" (caller_world K3)
      = (Ret p, w2).
Proof.
  apply (algorithms_agree Canon.canonical_label 1 0 (caller_world K3) K3);
    [apply CanonFacts.canonical_faithful | reflexivity | reflexivity
    | intros t; reflexivity | lia].
Defined.

(** A triangle with a pendant vertex: the cached algorithm deletes the
    pendant edge first, which leaves the triangle and a single vertex, and
    contracts it, which leaves the triangle.  Both algorithms return
    [x^4 - 4 x^3 + 5 x^2 - 2 x]. *)
Example triangle_with_pendant :
  let g := Graph.mk [0; 1; 2; 3]%nat [(0, 1); (1, 2); (0, 2); (2, 3)]%nat in
  fst (chromatic_polynomial Canon.canonical_label 1 40 0 "C" (caller_world g))
  = Ret [0; -2; 5; -4; 1] /\
  fst (chromatic_polynomial Canon.canonical_label 1 40 0 "Python" (caller_world g))
  = Ret [0; -2; 5; -4; 1].
Proof. split; vm_compute; reflexivity. Qed.


(** ** The constant term *)

Section ConstantTerm.

Variable canonical_label : Graph.t -> Graph.t.

Lemma chromatic_polynomial_lower_c depth steps G a w :
  lower a = "c"%string ->
  chromatic_polynomial canonical_label depth steps G a w
  = chromatic_polynomial canonical_label depth steps G "C" w.
Proof.
  intros H. destruct depth; cbn [chromatic_polynomial]; rewrite H;
    change (lower "C") with "c"%string; reflexivity.
Qed.

Lemma chromatic_polynomial_lower_python depth steps G a w :
  lower a = "python"%string ->
  chromatic_polynomial canonical_label depth steps G a w
  = chromatic_polynomial_with_cache canonical_label steps G w.
Proof.
  intros H. destruct depth; cbn [chromatic_polynomial]; rewrite H; reflexivity.
Qed.

(** C5. On a well formed graph with at least one vertex, with either
    algorithm, [chromatic_polynomial] returns a polynomial once there are
    no interrupt pending, room for one nested call and enough rounds for
    the loop of the cached algorithm; and whatever it returns, in any
    world, has the coefficient 0 at degree 0. *)
Theorem constant_term_is_zero (depth G : nat) (algorithm : string) (w : world)
  (g : Graph.t) :
  heap w !! G = Some g ->
  Graph.wf g = true ->
  (1 <= Graph.order g)%nat ->
  (quiet w -> (1 <= depth)%nat ->
   lower algorithm = "c"%string \/ lower algorithm = "python"%string ->
   exists n, forall steps, (n <= steps)%nat ->
     exists p w',
       chromatic_polynomial canonical_label depth steps G algorithm w = (Ret p, w'))
  /\ (forall steps p w',
        chromatic_polynomial canonical_label depth steps G algorithm w = (Ret p, w') ->
        Poly.coeff p 0 = 0).
Proof.
  intros Hg Hw Ho. split.
  - intros Hq Hd [Ha|Ha].
    + exists 0%nat. intros steps _.
      destruct (default_counts canonical_label depth steps G w g Hg Hw Hq Hd)
        as (p & w' & E & _).
      exists p, w'. rewrite (chromatic_polynomial_lower_c _ _ _ _ _ Ha). exact E.
    + destruct (with_cache_const canonical_label G w g Hg Hw Ho) as (n & p & w' & E & _).
      exists n. intros steps Hs. exists p, w'.
      rewrite (chromatic_polynomial_lower_python _ _ _ _ _ Ha).
      replace steps with (n + (steps - n))%nat by lia. apply E.
  - intros steps p w' H.
    exact (constant_term_of_result canonical_label depth steps G algorithm w w' g p
             Hg Hw Ho H).
Qed.

End ConstantTerm.

Lemma constant_term_is_zero_witness :
  (exists n, forall steps, (n <= steps)%nat ->
     exists p w',
       chromatic_polynomial Canon.canonical_label 1 steps 0 "Python" (caller_world K3)
       = (Ret p, w'))
  /\ Poly.coeff [0; 2; -3; 1] 0 = 0.
Proof.
  destruct (constant_term_is_zero Canon.canonical_label 1 0 "Python" (caller_world K3) K3)
    as [H1 H2]; [reflexivity | reflexivity | vm_compute; lia|].
  split.
  - apply H1; [intros t; reflexivity | lia | right; reflexivity].
  - apply (H2 40%nat [0; 2; -3; 1] (snd (chromatic_polynomial Canon.canonical_label 1 40 0
                                            "Python" (caller_world K3)))).
    vm_compute. reflexivity.
Defined.

(** ** Graphs that are not connected *)

Section Disconnected.
Import Graph GraphFacts WfFacts EvalFacts PolyId TopFacts.

Variable canonical_label : Graph.t -> Graph.t.
Hypothesis Hfaith : faithful canonical_label.

Lemma counts_for_unique g p q : counts_for g p -> counts_for g q -> p = q.
Proof.
  intros [Np Vp] [Nq Vq]. apply poly_eq; [exact Np | exact Nq|].
  intros k. rewrite Vp, Vq. reflexivity.
Qed.

Lemma cached_of_counts g p :
  wf g = true -> counts_for g p -> cached_polynomial canonical_label g p.
Proof.
  intros Hwf Hp l w Hl.
  destruct (with_cache_counts canonical_label Hfaith l w g Hl Hwf) as (n & q & w' & E & Hq).
  exists n. intros steps Hs. exists w'.
  rewrite (counts_for_unique g p q Hp Hq).
  replace steps with (n + (steps - n))%nat by lia. apply E.
Qed.

Lemma counts_for_ex g : wf g = true -> exists p, counts_for g p.
Proof.
  intros Hwf.
  destruct (with_cache_counts canonical_label Hfaith 0%nat (caller_world g) g eq_refl Hwf)
    as (n & p & w' & _ & Hp).
  exists p. exact Hp.
Qed.

Lemma cached_components : forall hs,
  (forall h, In h hs -> wf h = true) ->
  exists ps, Forall2 counts_for hs ps /\ Forall2 (cached_polynomial canonical_label) hs ps.
Proof.
  induction hs as [|h hs IH]; intros H.
  - exists []. split; constructor.
  - destruct IH as (ps & H1 & H2); [intros h' Hh'; apply H; right; exact Hh'|].
    assert (Hwf : wf h = true) by (apply H; left; reflexivity).
    destruct (counts_for_ex h Hwf) as (p & Hp).
    exists (p :: ps). split; constructor; auto using cached_of_counts.
Qed.

End Disconnected.

(** C6. On a graph without loops that is not connected, the default
    algorithm returns the product of what it returns on the connected
    components: it makes the component subgraphs, calls itself on each in
    turn and multiplies the results.  The cached algorithm, with a labelling
    whose keys tell apart the graphs with different numbers of colourings,
    returns on a well formed such graph the product of what it returns on
    the components. *)
Theorem chromatic_polynomial_of_disconnected
  (canonical_label : Graph.t -> Graph.t) (depth steps G : nat) (w : world)
  (g : Graph.t) :
  heap w !! G = Some g ->
  Graph.has_loops g = false ->
  Graph.is_connected g = false ->
  chromatic_polynomial canonical_label (S depth) steps G "C" w
  = (let* hs := mapM alloc (Graph.connected_components_subgraphs g) in
     let* ps := mapM (fun h => chromatic_polynomial canonical_label depth steps h "C") hs in
     ret (Poly.prod ps)) w
  /\ (Graph.wf g = true -> faithful canonical_label ->
      exists ps,
        Forall2 (cached_polynomial canonical_label)
                (Graph.connected_components_subgraphs g) ps /\
        cached_polynomial canonical_label g (Poly.prod ps)).
Proof.
  intros HG Hl Hc. split; [apply default_splits; assumption|].
  intros Hwf Hf.
  destruct (cached_components canonical_label Hf (Graph.connected_components_subgraphs g))
    as (ps & H1 & H2).
  { intros h Hh. apply (TopFacts.components_good g Hwf Hl h Hh). }
  exists ps. split; [exact H2|].
  apply cached_of_counts; [exact Hf | exact Hwf|].
  apply split_counts; assumption.
Qed.

Lemma chromatic_polynomial_of_disconnected_witness :
  chromatic_polynomial Canon.canonical_label 1 10 0 "C" (caller_world two_triangles)
  = (let* hs := mapM alloc (Graph.connected_components_subgraphs two_triangles) in
     let* ps := mapM (fun h => chromatic_polynomial Canon.canonical_label 0 10 h "C") hs in
     ret (Poly.prod ps)) (caller_world two_triangles)
  /\ exists ps,
       Forall2 (cached_polynomial Canon.canonical_label)
               (Graph.connected_components_subgraphs two_triangles) ps /\
       cached_polynomial Canon.canonical_label two_triangles (Poly.prod ps).
Proof.
  destruct (chromatic_polynomial_of_disconnected Canon.canonical_label 0 10 0
              (caller_world two_triangles) two_triangles) as [H1 H2];
    [reflexivity | reflexivity | reflexivity|].
  split; [exact H1|].
  apply H2; [reflexivity | apply CanonFacts.canonical_faithful].
Defined.

(** ** What the handler of [chromatic_polynomial] clears *)

Section Handler.

Variable L : list mpz.

Let same_live (w : world) : Prop := live w = L.
Let anything {A} : A -> Prop := fun _ => True.

Lemma sig_check_live : keeps same_live sig_check anything.
Proof.
  intros w Hw. unfold sig_check. destruct (signals w (ticks w)); simpl;
    [exact Hw | split; [exact Hw | exact I]].
Qed.

Lemma of_option_live {A} (o : option A) : keeps same_live (of_option o) anything.
Proof. eapply keeps_weaken; [apply keeps_of_option | intros; exact I]. Qed.

Lemma contract_loop_live rec num parent :
  (forall new t, keeps same_live (rec new t) anything) ->
  forall cs tot, keeps same_live (contract_loop rec num parent cs tot) anything.
Proof.
  intros Hrec. induction cs as [|[z x1] rest IH]; intros tot; cbn [contract_loop].
  - apply keeps_ret. exact I.
  - eapply keeps_bind; [apply sig_check_live|]. intros u _.
    eapply keeps_bind; [apply of_option_live|]. intros new _.
    eapply keeps_bind; [apply Hrec|]. intros t1 _. apply IH.
Qed.

(** [contract_and_count] initialises and clears nothing. *)
Lemma contract_and_count_live : forall n chords parent tot,
  keeps same_live (contract_and_count n chords parent tot) anything.
Proof.
  induction n as [|n IH]; intros chords parent tot; destruct chords as [|c cs];
    cbn [contract_and_count]; try apply of_option_live; try apply keeps_abort.
  eapply keeps_bind; [apply contract_loop_live; intros; apply IH|].
  intros t _. apply of_option_live.
Qed.

End Handler.

(** The loop of the handler, [for i in range(nverts): mpz_clear(tot[i])],
    returns and leaves every cell that is not one of [tot[0..nverts-1]]. *)
Lemma clear_tots : forall (l : list nat) (w : world),
  exists w',
    for_each (fun i => mpz_clear (Tot i)) l w = (Ret tt, w') /\
    forall c, In c (live w') <-> In c (live w) /\ forall i, In i l -> c <> Tot i.
Proof.
  induction l as [|i l IH]; intros w.
  - exists w. split; [reflexivity|]. intros c. split; [intros H; split; [exact H | intros i []]| tauto].
  - cbn [for_each]. unfold bind at 1. cbn [mpz_clear].
    match goal with |- context [for_each _ l ?w1] => destruct (IH w1) as (w' & E & H) end.
    exists w'. split; [exact E|]. intros c. rewrite H. cbn [live].
    rewrite List.filter_In, negb_true_iff. split.
    + intros [[Hc Hne] Hl]. split; [exact Hc|]. intros j [<-|Hj]; [|apply Hl, Hj].
      intros ->. cbn [mpz_eqb] in Hne. rewrite Nat.eqb_refl in Hne. discriminate.
    + intros [Hc Hl]. split; [split; [exact Hc|]|intros j Hj; apply Hl; right; exact Hj].
      destruct c as [j| | |]; cbn [mpz_eqb]; try reflexivity.
      apply Nat.eqb_neq. intros ->. apply (Hl j); [left|]; reflexivity.
Qed.

(** Whenever [contract_and_count] raises, the [try] statement of
    [chromatic_polynomial] raises the same exception, and of the cells that
    were initialised it has cleared [tot[0..nverts-1]] only: [tot[nverts]]
    is still initialised. *)
Lemma handler_leaves_last_entry (n : nat) (chords : list chord) (parent : list nat)
  (tot : list Z) (w w1 : world) (e : exn) :
  contract_and_count n chords parent tot w = (Abort (Raise e), w1) ->
  exists w2,
    try_except_reraise (contract_and_count n chords parent tot)
      (for_each (fun i => mpz_clear (Tot i)) (seq 0 n)) w
    = (Abort (Raise e), w2) /\
    (forall i, In (Tot i) (live w2) <-> In (Tot i) (live w) /\ (n <= i)%nat).
Proof.
  intros H.
  pose proof (contract_and_count_live (live w) n chords parent tot w eq_refl) as Hl.
  rewrite H in Hl.
  destruct (clear_tots (seq 0 n) w1) as (w2 & E & Hc).
  exists w2. unfold try_except_reraise. rewrite H, E. split; [reflexivity|].
  intros i. rewrite Hc, Hl. split; intros [Hi Hn]; (split; [exact Hi|]).
  - destruct (le_lt_dec n i) as [Hle|Hlt]; [exact Hle|].
    exfalso. apply (Hn i); [apply in_seq; lia | reflexivity].
  - intros j Hj [= ->]. apply in_seq in Hj. lia.
Qed.

(** ** The breadth first search, as its caller sees it *)

Section BfsResults.

Variables (g : Graph.t) (n : nat).
Hypothesis Hverts : Graph.verts g = seq 0 n.
Hypothesis Hn : (1 <= n)%nat.
Hypothesis Hconn : Graph.is_connected g = true.

(** X1. On a connected graph with the vertices [0, ..., n - 1], the breadth
    first search of [chromatic_polynomial] runs to its end without writing
    past the end of an array: [queue] and [parent] have [nverts] entries,
    the chord arrays [nedges - nverts + 1].  When it ends every vertex is
    in the queue, once, and the chords fit the room they were given. *)
Theorem bfs_visits_every_vertex_once :
  exists st, bfs g = Some st /\
    Permutation (seq 0 n) (queue st) /\
    length (parent st) = n /\
    (length (chords st) + n <= Graph.size g + 1)%nat.
Proof.
  destruct (BfsFacts.bfs_spec g n Hverts Hn Hconn)
    as (st & E & Hq & Hp & Hnd & Hlt & _ & _ & _ & _ & Hsz).
  exists st. split; [exact E|]. split; [|split; [exact Hp | lia]].
  apply Permutation_sym, Permutation.NoDup_Permutation_bis.
  - exact Hnd.
  - rewrite length_seq, Hq. lia.
  - intros u Hu. apply in_seq. specialize (Hlt u Hu). lia.
Qed.

(** X2. What the search records is the graph: [parent[i]] is a place of
    the queue before [i], and the parents do not decrease; the chords are
    stored with their higher end first, above the parent of that end, in
    strictly decreasing order; every tree edge and every chord joins two
    vertices that the graph joins, and every edge of the graph between
    two places of the queue is a tree edge or a chord. *)
Theorem bfs_records_the_edges (st : bfs_state) :
  bfs g = Some st ->
  (forall i, (1 <= i < n)%nat -> (nth i (parent st) 0 < i)%nat) /\
  (forall i j, (1 <= i <= j)%nat -> (j < n)%nat ->
     (nth i (parent st) 0 <= nth j (parent st) 0)%nat) /\
  StronglySorted (fun c d => chord_gt c d = true) (chords st) /\
  (forall c, In c (chords st) ->
     (nth c.1 (parent st) 0 < c.2)%nat /\ (c.2 < c.1)%nat /\ (c.1 < n)%nat) /\
  (forall a b, In (a, b) (tree_edges (parent st) n ++ chords st) ->
     Graph.has_edge g (nth a (queue st) 0%nat) (nth b (queue st) 0%nat) = true) /\
  (forall i j, (j < i < n)%nat ->
     Graph.has_edge g (nth i (queue st) 0%nat) (nth j (queue st) 0%nat) = true ->
     In (i, j) (tree_edges (parent st) n ++ chords st)).
Proof.
  intros E.
  destruct (BfsFacts.bfs_spec g n Hverts Hn Hconn)
    as (st' & E' & Hq & Hp & Hnd & Hlt & [P1 P2] & (C1 & C2 & C3) & Hb & Hf & Hsz).
  rewrite E in E'. injection E' as <-.
  split; [intros i Hi; apply P1; lia|].
  split; [intros i j Hij Hj; apply P2; [exact Hij | lia]|].
  split; [exact C2|].
  split; [intros c Hc; exact (proj1 (List.Forall_forall _ _) C3 c Hc)|].
  split; [intros a b Hab; apply (Hb a b Hab) | exact Hf].
Qed.

End BfsResults.

Lemma bfs_visits_every_vertex_once_witness :
  exists st,
    bfs square_diag = Some st /\
    Permutation (seq 0 4) (queue st) /\
    length (parent st) = 4%nat /\
    (length (chords st) + 4 <= Graph.size square_diag + 1)%nat.
Proof.
  apply (bfs_visits_every_vertex_once square_diag 4); [reflexivity | lia | reflexivity].
Defined.

Lemma bfs_records_the_edges_witness :
  let st := square_diag_bfs in
  (forall i, (1 <= i < 4)%nat -> (nth i (parent st) 0 < i)%nat) /\
  (forall i j, (1 <= i <= j)%nat -> (j < 4)%nat ->
     (nth i (parent st) 0 <= nth j (parent st) 0)%nat) /\
  StronglySorted (fun c d => chord_gt c d = true) (chords st) /\
  (forall c, In c (chords st) ->
     (nth c.1 (parent st) 0 < c.2)%nat /\ (c.2 < c.1)%nat /\ (c.1 < 4)%nat) /\
  (forall a b, In (a, b) (tree_edges (parent st) 4 ++ chords st) ->
     Graph.has_edge square_diag (nth a (queue st) 0%nat) (nth b (queue st) 0%nat) = true) /\
  (forall i j, (j < i < 4)%nat ->
     Graph.has_edge square_diag (nth i (queue st) 0%nat) (nth j (queue st) 0%nat) = true ->
     In (i, j) (tree_edges (parent st) 4 ++ chords st)).
Proof.
  apply (bfs_records_the_edges square_diag 4 eq_refl); [lia | reflexivity | reflexivity].
Defined.

(** ** [contract_and_count], as its caller sees it *)

Lemma tot_incr_nth tot n tot' :
  tot_incr tot n = Some tot' -> nth n tot' 0 = nth n tot 0 + 1.
Proof.
  unfold tot_incr. destruct (tot !! n) as [t|] eqn:E; [|discriminate].
  cbn [mbind option_bind]. intros [= <-].
  rewrite nth_insert_Z by (eapply lookup_lt_Some; exact E).
  rewrite Nat.eqb_refl, (nth_lookup tot n 0), E. reflexivity.
Qed.

Lemma contract_and_count_top n chords parent tot w tot' w' :
  contract_and_count n chords parent tot w = (Ret tot', w') ->
  nth n tot' 0 = nth n tot 0 + 1.
Proof.
  destruct chords as [|c cs].
  - destruct n; cbn [contract_and_count]; intros H; apply of_option_ret in H;
      apply tot_incr_nth, H.
  - destruct n as [|n]; cbn [contract_and_count]; [discriminate|].
    intros H. inv_bind H. apply of_option_ret in H.
    match goal with H1 : contract_loop _ _ _ _ _ _ = _ |- _ =>
      apply (contract_loop_bumped n) in H1;
        [destruct H1 as (lo & Hlo & (_ & _ & Hsame))
        | intros new t w1 t' w1' Hr; eapply contract_and_count_bumped, Hr] end.
    rewrite (tot_incr_nth _ _ _ H). rewrite Hsame by lia. reflexivity.
Qed.

(** X3. A call of [contract_and_count] that returns has only added to the
    histogram: no entry went down, the length is the same, the entries
    above [nverts] are as they were, [tot[nverts]] went up by exactly one,
    and the entries that went up are the sizes from some size up to
    [nverts], without a gap. *)
Theorem contract_and_count_increments (n : nat) (chords : list chord)
  (parent : list nat) (tot tot' : list Z) (w w' : world) :
  contract_and_count n chords parent tot w = (Ret tot', w') ->
  length tot' = length tot /\
  (forall j, nth j tot 0 <= nth j tot' 0) /\
  (forall j, (n < j)%nat -> nth j tot' 0 = nth j tot 0) /\
  nth n tot' 0 = nth n tot 0 + 1 /\
  (forall i j, (i <= j <= n)%nat -> nth i tot 0 < nth i tot' 0 -> nth j tot 0 < nth j tot' 0).
Proof.
  intros H. pose proof (contract_and_count_top _ _ _ _ _ _ _ H) as Htop.
  apply contract_and_count_bumped in H. destruct H as (lo & Hlo & (L & G & E)).
  split; [exact L|]. split.
  { intros j. destruct (le_lt_dec lo j) as [H1|H1].
    - destruct (le_lt_dec j n) as [H2|H2].
      + specialize (G j (conj H1 H2)). lia.
      + rewrite E by lia. lia.
    - rewrite E by lia. lia. }
  split; [intros j Hj; apply E; lia|]. split; [exact Htop|].
  intros i j Hij Hi. apply G. split; [|lia].
  destruct (le_lt_dec lo i) as [H1|H1]; [lia|]. rewrite E in Hi by lia. lia.
Qed.

Lemma contract_and_count_increments_witness :
  let tot' := [0; 0; 1; 2; 1] in
  length tot' = length (repeat 0 5) /\
  (forall j, nth j (repeat 0 5) 0 <= nth j tot' 0) /\
  (forall j, (4 < j)%nat -> nth j tot' 0 = nth j (repeat 0 5) 0) /\
  nth 4 tot' 0 = nth 4 (repeat 0 5) 0 + 1 /\
  (forall i j, (i <= j <= 4)%nat -> nth i (repeat 0 5) 0 < nth i tot' 0 ->
     nth j (repeat 0 5) 0 < nth j tot' 0).
Proof.
  apply (contract_and_count_increments 4 (chords square_diag_bfs) (parent square_diag_bfs)
           (repeat 0 5) [0; 0; 1; 2; 1] (caller_world square_diag)
           (snd (contract_and_count 4 (chords square_diag_bfs) (parent square_diag_bfs)
                   (repeat 0 5) (caller_world square_diag)))).
  vm_compute. reflexivity.
Defined.

(** X4. With the parents and the chords of a breadth first search, room in
    the histogram for [tot[nverts]] and no interrupt pending,
    [contract_and_count] returns: the chord and insertion arrays of
    [num_chords] entries are never written past their end.  The histogram
    it leaves stands for [(-1)^nverts] times the number of proper
    colourings of the tree with its chords more than the one it got, when a
    tree of size [i] counts for [(-1)^i * k * (k - 1)^(i - 1)]. *)
Theorem contract_and_count_expands (parent : list nat) (n : nat) (cs : list chord)
  (tot : list Z) (w : world) :
  parent_ok parent ->
  chords_ok parent n cs ->
  (1 <= n)%nat ->
  (n < length tot)%nat ->
  quiet w ->
  exists tot' w',
    contract_and_count n cs parent tot w = (Ret tot', w') /\
    forall k : nat,
      hist_value k tot'
      = hist_value k tot
        + alt n * Z.of_nat (count_colorings (Graph.mk (seq 0 n) (tree_edges parent n ++ cs)) k).
Proof.
  intros Hp Hc Hn Hl Hq.
  destruct (ContractFacts.contract_and_count_counts parent Hp n cs tot w Hc Hn Hl Hq)
    as (tot' & w' & E & _ & _ & _ & Hv).
  exists tot', w'. split; [exact E|]. intros k.
  rewrite Hv, Count.count_colorings_cntw. reflexivity.
Qed.

Lemma square_parent_ok : parent_ok (parent square_diag_bfs).
Proof.
  split.
  - intros i Hi. cbn in Hi. do 4 (destruct i as [|i]; [cbn; lia|]). lia.
  - intros i j Hij Hj. cbn in Hj.
    do 4 (destruct j as [|j]; [do 4 (destruct i as [|i]; [cbn; lia|]); lia|]). lia.
Qed.

Lemma square_chords_ok : chords_ok (parent square_diag_bfs) 4 (chords square_diag_bfs).
Proof.
  split; [cbn; lia|]. split.
  - repeat constructor.
  - repeat constructor; cbn; lia.
Qed.

Lemma contract_and_count_expands_witness :
  exists tot' w',
    contract_and_count 4 (chords square_diag_bfs) (parent square_diag_bfs) (repeat 0 5)
      (caller_world square_diag) = (Ret tot', w') /\
    forall k : nat,
      hist_value k tot'
      = hist_value k (repeat 0 5)
        + alt 4 * Z.of_nat (count_colorings
                              (Graph.mk (seq 0 4)
                                 (tree_edges (parent square_diag_bfs) 4
                                  ++ chords square_diag_bfs)) k).
Proof.
  apply (contract_and_count_expands (parent square_diag_bfs) 4 (chords square_diag_bfs)
           (repeat 0 5) (caller_world square_diag));
    [apply square_parent_ok | apply square_chords_ok | lia | cbn; lia | intros t; reflexivity].
Defined.

(** ** The assembly loop on every histogram *)

Section AssemblyGeneral.
Import Poly PolyFacts Count EvalFacts.

Lemma nonzeros_empty tot lo hi : (hi < lo)%nat -> nonzeros tot lo hi = 0%nat.
Proof.
  intros H. unfold nonzeros. replace (S hi - lo)%nat with 0%nat by lia. reflexivity.
Qed.

Lemma nonzeros_top tot lo h : (lo <= S h)%nat ->
  nonzeros tot lo (S h)
  = (nonzeros tot lo h + (if (nth (S h) tot 0 =? 0)%Z then 0 else 1))%nat.
Proof.
  intros H. unfold nonzeros.
  replace (S (S h) - lo)%nat with (S (S h - lo)) by lia.
  rewrite seq_S, List.filter_app, length_app.
  replace (lo + (S h - lo))%nat with (S h) by lia.
  cbn [List.filter]. destruct (nth (S h) tot 0 =? 0); reflexivity.
Qed.

Lemma assemble_body_zero tot i st : nth i tot 0 = 0 -> assemble_body tot i st = st.
Proof.
  intros H. destruct st as [m c]. unfold assemble_body. rewrite H. reflexivity.
Qed.

(** The rounds on the sizes from [n] down: the sign is turned once for
    every nonzero entry that is met. *)
Lemma assemble_steps_general tot : forall j n m c d,
  m * m = 1 -> (j <= n)%nat -> (n < length c)%nat ->
  fst (assemble_steps tot n j (m, c)) = m * alt (nonzeros tot (n - j + 1) n) /\
  nth d (snd (assemble_steps tot n j (m, c))) 0
  = nth d c 0
    + sumz j (fun t => nth (n - t) tot 0 * (m * alt (nonzeros tot (n - t) n))
                       * coeff (tree_poly (n - t)) d).
Proof.
  induction j as [|j IH]; intros n m c d Hm Hj Hl; cbn [assemble_steps].
  - rewrite nonzeros_empty by lia. cbn [sumz fst snd]. change (alt 0) with 1.
    split; ring.
  - destruct n as [|h]; [lia|].
    assert (Ht : forall lo, (lo <= S h)%nat ->
              alt (nonzeros tot lo (S h))
              = (if nth (S h) tot 0 =? 0 then 1 else -1) * alt (nonzeros tot lo h)).
    { intros lo Hlo. rewrite (nonzeros_top tot lo h Hlo).
      destruct (nth (S h) tot 0 =? 0).
      - rewrite Nat.add_0_r. ring.
      - rewrite Nat.add_1_r, alt_S. ring. }
    rewrite sumz_shift. rewrite Nat.sub_0_r.
    replace (S h - S j + 1)%nat with (h - j + 1)%nat by lia.
    replace (S h - 1)%nat with h by lia.
    destruct (Z.eqb_spec (nth (S h) tot 0) 0) as [E0|E0].
    + rewrite (assemble_body_zero tot (S h) (m, c) E0).
      destruct (IH h m c d Hm ltac:(lia) ltac:(lia)) as [H1 H2].
      rewrite H1, H2, E0, (Ht (h - j + 1)%nat) by lia.
      split; [ring|].
      replace (0 * (m * alt (nonzeros tot (S h) (S h))) * coeff (tree_poly (S h)) d)
        with 0 by ring.
      rewrite Z.add_0_l. f_equal.
      apply sumz_ext. intros t Hlt.
      replace (S h - S t)%nat with (h - t)%nat by lia.
      rewrite (Ht (h - t)%nat) by lia. ring.
    + destruct (assemble_body_spec tot (S h) m c Hm ltac:(lia) Hl E0) as [B1 B2].
      pose proof (assemble_body_keeps tot (S h) m c Hm) as [B3 B4].
      destruct (assemble_body tot (S h) (m, c)) as [m1 c1].
      cbn [fst snd] in B1, B2, B3, B4. subst m1.
      destruct (IH h (- m) c1 d B3 ltac:(lia) ltac:(lia)) as [H1 H2].
      rewrite H1, H2, B2, coeff_scale, (Ht (h - j + 1)%nat) by lia.
      assert (E1 : nonzeros tot (S h) (S h) = 1%nat).
      { rewrite nonzeros_top by lia. rewrite nonzeros_empty by lia.
        destruct (Z.eqb_spec (nth (S h) tot 0) 0); [contradiction | reflexivity]. }
      rewrite E1. change (alt 1) with (-1).
      split; [ring|]. rewrite <- Z.add_assoc. f_equal. f_equal; [ring|].
      apply sumz_ext. intros t Hlt.
      replace (S h - S t)%nat with (h - t)%nat by lia.
      rewrite (Ht (h - t)%nat) by lia. ring.
Qed.

(** X5. The coefficient vector that the assembly loop of
    [chromatic_polynomial] leaves, on every histogram: the tree size [i],
    from [nverts] down to 1, adds [tot[i] * s * x * (x - 1)^(i - 1)], where
    the sign [s] starts at [+1] and is turned at every size whose entry is
    not zero, the sizes with a zero entry leaving it as it is; [tot[0]] is
    never read. *)
Theorem assemble_on_every_histogram (tot : list Z) (n d : nat) :
  length (assemble tot n) = (n + 1)%nat /\
  nth d (assemble tot n) 0
  = sumz n (fun t => nth (n - t) tot 0 * (- alt (nonzeros tot (n - t) n))
                     * Poly.coeff (Poly.tree_poly (n - t)) d).
Proof.
  unfold assemble. rewrite assemble_from_steps.
  assert (Hm : -1 * -1 = 1) by reflexivity.
  destruct (assemble_steps_length tot n n (-1) (repeat 0 (n + 1)) Hm) as [_ Hl].
  destruct (assemble_steps_general tot n n (-1) (repeat 0 (n + 1)) d Hm (le_n n)
              ltac:(rewrite repeat_length; lia)) as [_ Hc].
  split; [rewrite Hl; apply repeat_length|].
  rewrite Hc, nth_repeat_0, Z.add_0_l. apply sumz_ext. intros t _. ring.
Qed.

End AssemblyGeneral.

(** A histogram with a gap: the sizes 4 and 2 occur, the size 3 does not.
    The size 2 gets the sign [-1], not [(-1)^(4 - 2)]. *)
Example assemble_with_a_gap :
  assemble [0; 0; 1; 0; 1] 4 = [0; 0; 2; -3; 1].
Proof. reflexivity. Qed.

(** ** The exact divisions of the assembly *)

Section Divisions.
Import PolyFacts.

Lemma binomial_divisions_spec m i : forall steps j coeff,
  m * m = 1 ->
  (1 <= j)%nat -> (j + steps = i)%nat ->
  coeff = alt (j - 1) * binom (i - 1) (j - 1) ->
  forall a b, In (a, b) (binomial_divisions m i j steps coeff) ->
    0 < b /\ exists t, (j <= t < i)%nat /\ b = Z.of_nat t /\
                       a = alt t * binom (i - 1) t * b.
Proof.
  induction steps as [|s IH]; intros j coeff Hm Hj Hi Hc a b H; [destruct H|].
  cbn [binomial_divisions] in H.
  assert (Hd : coeff * (Z.of_nat j - Z.of_nat i)
               = alt j * binom (i - 1) j * Z.of_nat j).
  { subst coeff.
    pose proof (binom_step (i - 1) (j - 1)) as Hb.
    replace (S (j - 1)) with j in Hb by lia.
    replace (alt (j - 1)) with (- alt j)
      by (replace j with (S (j - 1)) at 1 by lia; rewrite alt_S; lia).
    assert (Hb' : Z.of_nat j * binom (i - 1) j
                  = (Z.of_nat i - Z.of_nat j) * binom (i - 1) (j - 1))
      by (rewrite Hb; f_equal; lia).
    replace (alt j * binom (i - 1) j * Z.of_nat j)
      with (alt j * (Z.of_nat j * binom (i - 1) j)) by ring.
    rewrite Hb'. ring. }
  destruct H as [H|H].
  - injection H as <- <-. split; [lia|]. exists j. split; [lia|]. split; [reflexivity | exact Hd].
  - rewrite Hd, Z.div_mul in H by lia.
    assert (Hc' : alt j * binom (i - 1) j * m * m
                  = alt (S j - 1) * binom (i - 1) (S j - 1)).
    { replace (S j - 1)%nat with j by lia.
      replace (alt j * binom (i - 1) j * m * m)
        with (alt j * binom (i - 1) j * (m * m)) by ring.
      rewrite Hm. ring. }
    assert (Hj' : (1 <= S j)%nat) by lia.
    assert (Hi' : (S j + s = i)%nat) by lia.
    destruct (IH (S j) _ Hm Hj' Hi' Hc' a b H) as (Hb & t & Ht & E1 & E2).
    split; [exact Hb|]. exists t. split; [lia | auto].
Qed.

(** X6. Every [mpz_divexact_ui] of the assembly loop is exact: in the
    round of the tree size [i], the [j]-th division divides by [j] a
    multiple of [j], namely [(-1)^j * C(i - 1, j) * j], whatever the sign
    [m] is. *)
Theorem binomial_divisions_are_exact (m : Z) (i : nat) (a b : Z) :
  m * m = 1 ->
  In (a, b) (binomial_divisions m i 1 (i - 1) 1) ->
  0 < b /\ (b | a).
Proof.
  intros Hm H. destruct i as [|i]; [destruct H|].
  assert (Hc : 1 = alt (1 - 1) * binom (S i - 1) (1 - 1)).
  { change (1 - 1)%nat with 0%nat. rewrite binom_0_r. reflexivity. }
  assert (Hi : (1 + (S i - 1) = S i)%nat) by lia.
  destruct (binomial_divisions_spec m (S i) (S i - 1) 1 1 Hm (le_n 1) Hi Hc a b H)
    as (Hb & t & _ & _ & E).
  split; [exact Hb|]. exists (alt t * binom (S i - 1) t). exact E.
Qed.

End Divisions.

Lemma binomial_divisions_are_exact_witness : 0 < 2 /\ (2 | 6).
Proof.
  apply (binomial_divisions_are_exact 1 4 6 2); [reflexivity | right; left; reflexivity].
Defined.

(** ** The degree and the leading coefficient *)

Module Leading.
Import Poly PolyFacts Graph GraphFacts WfFacts.

Lemma mul_raw_zero p q :
  (forall d, coeff p d = 0) -> forall d, coeff (mul_raw p q) d = 0.
Proof.
  induction p as [|a p IH]; intros Hp d; cbn [mul_raw]; [apply coeff_nil|].
  rewrite coeff_add_raw, coeff_scale_raw, coeff_cons.
  pose proof (Hp 0%nat) as H0. rewrite coeff_cons in H0. subst a.
  destruct d as [|d]; [ring|]. rewrite IH; [ring|].
  intros d'. specialize (Hp (S d')). rewrite coeff_cons in Hp. exact Hp.
Qed.

(** The top coefficient of a product. *)
Lemma mul_raw_top q b : (forall d, (b < d)%nat -> coeff q d = 0) ->
  forall p a, (forall d, (a < d)%nat -> coeff p d = 0) ->
    coeff (mul_raw p q) (a + b) = coeff p a * coeff q b /\
    forall d, (a + b < d)%nat -> coeff (mul_raw p q) d = 0.
Proof.
  intros Hq. induction p as [|x p IH]; intros a Hp.
  - cbn [mul_raw]. rewrite !coeff_nil. split; [ring | intros; apply coeff_nil].
  - cbn [mul_raw].
    assert (Hp' : forall d, (a <= d)%nat -> coeff p d = 0).
    { intros d Hd. specialize (Hp (S d) ltac:(lia)). rewrite coeff_cons in Hp. exact Hp. }
    destruct a as [|a].
    + pose proof (mul_raw_zero p q (fun d => Hp' d ltac:(lia))) as Hz.
      split.
      * rewrite coeff_add_raw, coeff_scale_raw, !coeff_cons.
        cbn [Nat.add]. destruct b; [ring | rewrite Hz; ring].
      * intros d Hd. rewrite coeff_add_raw, coeff_scale_raw, coeff_cons.
        rewrite Hq by lia. destruct d; [lia | rewrite Hz; ring].
    + destruct (IH a) as [H1 H2]; [intros d Hd; apply Hp'; lia|].
      split.
      * rewrite coeff_add_raw, coeff_scale_raw. cbn [Nat.add]. rewrite !coeff_cons.
        rewrite Hq by lia. rewrite H1. ring.
      * intros d Hd. rewrite coeff_add_raw, coeff_scale_raw, coeff_cons.
        rewrite Hq by lia. destruct d; [lia|]. rewrite H2 by lia. ring.
Qed.

Lemma monic_mul p q a b : monic p a -> monic q b -> monic (mul p q) (a + b).
Proof.
  intros [P1 P2] [Q1 Q2]. destruct (mul_raw_top q b Q2 p a P2) as [H1 H2].
  unfold monic, mul. split.
  - rewrite coeff_norm, H1, P1, Q1. reflexivity.
  - intros d Hd. rewrite coeff_norm. apply H2, Hd.
Qed.

Lemma monic_one : monic one 0.
Proof.
  split; [reflexivity|]. intros [|d] Hd; [lia|]. unfold one. rewrite coeff_cons. apply coeff_nil.
Qed.

Lemma monic_prod ps ns :
  Forall2 monic ps ns -> monic (prod ps) (fold_right Nat.add 0%nat ns).
Proof.
  induction 1 as [|p n ps ns Hp _ IH]; [apply monic_one|].
  cbn [prod fold_right]. apply monic_mul; assumption.
Qed.

Lemma monic_tree_poly n : (1 <= n)%nat -> monic (tree_poly n) n.
Proof.
  intros Hn. split.
  - rewrite coeff_tree_poly by exact Hn.
    destruct (Nat.leb_spec 1 n); [|lia]. destruct (Nat.leb_spec n n); [|lia].
    cbn [andb]. rewrite Nat.sub_diag, binom_0_r. reflexivity.
  - intros d Hd. rewrite coeff_tree_poly by exact Hn.
    destruct (Nat.leb_spec d n); [lia|]. rewrite andb_false_r. reflexivity.
Qed.

(** The assembled polynomial, when one tree has all the vertices. *)
Lemma monic_assemble tot n :
  (1 <= n)%nat -> nth n tot 0 = 1 -> monic (of_coeffs (assemble tot n)) n.
Proof.
  intros Hn Ht.
  assert (Hm : -1 * -1 = 1) by reflexivity.
  assert (Hc : forall d,
            coeff (of_coeffs (assemble tot n)) d
            = sumz n (fun t => nth (n - t) tot 0 * (-1 * alt (nonzeros tot (n - t) n))
                               * coeff (tree_poly (n - t)) d)).
  { intros d. unfold of_coeffs. rewrite coeff_norm. unfold coeff at 1, assemble.
    rewrite assemble_from_steps.
    destruct (assemble_steps_general tot n n (-1) (repeat 0 (n + 1)) d Hm (le_n n)
                ltac:(rewrite repeat_length; lia)) as [_ H].
    rewrite H, nth_repeat_0. ring. }
  assert (Hz : forall d, (n <= d)%nat ->
            coeff (of_coeffs (assemble tot n)) d
            = nth n tot 0 * (-1 * alt (nonzeros tot n n)) * coeff (tree_poly n) d).
  { intros d Hd. rewrite Hc. destruct n as [|h]; [lia|].
    rewrite EvalFacts.sumz_shift, Nat.sub_0_r.
    rewrite (Count.sumz_ext h _ (fun _ => 0)).
    - rewrite Count.sumz_const. ring.
    - intros t Hlt. rewrite (coeff_tree_poly (S h - S t)) by lia.
      destruct (Nat.leb_spec d (S h - S t)); [lia|]. rewrite andb_false_r. ring. }
  assert (E1 : nonzeros tot n n = 1%nat).
  { destruct n as [|h]; [lia|]. rewrite nonzeros_top by lia. rewrite nonzeros_empty by lia.
    rewrite Ht. reflexivity. }
  destruct (monic_tree_poly n Hn) as [T1 T2].
  split.
  - rewrite Hz by lia. rewrite Ht, E1, T1. reflexivity.
  - intros d Hd. rewrite Hz by lia. rewrite T2 by exact Hd. ring.
Qed.

End Leading.

(** ** The degree of what the default algorithm returns *)

Module Degree.
Import Poly PolyFacts Graph GraphFacts WfFacts Components Leading.

Lemma read_inv l w g w' : read l w = (Ret g, w') -> heap w !! l = Some g /\ w' = w.
Proof.
  unfold read. destruct (heap w !! l); [|discriminate]. intros [= -> ->]. auto.
Qed.

Lemma alloc_inv g w l w' : alloc g w = (Ret l, w') -> heap w' !! l = Some g.
Proof. unfold alloc. intros [= <- <-]. cbn [heap]. apply lookup_insert_eq. Qed.

Lemma modify_inv l f w u w' :
  modify l f w = (Ret u, w') ->
  exists g, heap w !! l = Some g /\ heap w' !! l = Some (f g).
Proof.
  unfold modify. destruct (heap w !! l) as [g|]; [|discriminate].
  intros [= _ <-]. exists g. split; [reflexivity|]. cbn [heap]. apply lookup_insert_eq.
Qed.

Lemma try_ret_inv {A} (c : M A) h w a w' :
  try_except_reraise c h w = (Ret a, w') -> c w = (Ret a, w').
Proof.
  unfold try_except_reraise. destruct (c w) as [[b|[e| |]] w1]; try discriminate; auto.
  destruct (h w1) as [[u|x] w2]; discriminate.
Qed.

(** What [chromatic_polynomial_main] returns is assembled from a histogram
    that [contract_and_count] filled from zero. *)
Lemma main_result G w g p w' :
  heap w !! G = Some g ->
  chromatic_polynomial_main G w = (Ret p, w') ->
  exists st tot w1 w2,
    contract_and_count (order g) (chords st) (parent st) (repeat 0 (order g + 1)) w1
    = (Ret tot, w2) /\
    p = of_coeffs (assemble tot (order g)).
Proof.
  intros HG H. unfold chromatic_polynomial_main in H.
  apply bind_ret_inv in H. destruct H as (g0 & w0 & Hr & H).
  apply read_inv in Hr. destruct Hr as [Hr ->]. rewrite HG in Hr. injection Hr as <-.
  apply bind_ret_inv in H. destruct H as (l & w1 & Ha & H). apply alloc_inv in Ha.
  apply bind_ret_inv in H. destruct H as (u1 & w2 & Hm1 & H).
  apply modify_inv in Hm1. destruct Hm1 as (g1 & E1 & Hm1).
  rewrite Ha in E1. injection E1 as <-.
  apply bind_ret_inv in H. destruct H as (u2 & w3 & Hm2 & H).
  apply modify_inv in Hm2. destruct Hm2 as (g2 & E2 & Hm2).
  rewrite Hm1 in E2. injection E2 as <-.
  apply bind_ret_inv in H. destruct H as (g3 & w4 & Hr & H).
  apply read_inv in Hr. destruct Hr as [Hr ->]. rewrite Hm2 in Hr. injection Hr as <-.
  cbv zeta in H.
  assert (Ho : order (remove_loops (remove_multiple_edges (relabel g))) = order g).
  { unfold order, remove_loops, remove_multiple_edges, relabel. cbn [verts].
    apply length_seq. }
  rewrite !Ho in H.
  inv_bind H. injection H as <- _.
  match goal with Ht : try_except_reraise _ _ _ = _ |- _ =>
    apply try_ret_inv in Ht; rename Ht into Hcc end.
  do 4 eexists. split; [exact Hcc | reflexivity].
Qed.

Lemma main_monic G w g p w' :
  heap w !! G = Some g -> (1 <= order g)%nat ->
  chromatic_polynomial_main G w = (Ret p, w') -> monic p (order g).
Proof.
  intros HG Ho H. destruct (main_result G w g p w' HG H) as (st & tot & w1 & w2 & E & ->).
  apply monic_assemble; [exact Ho|].
  rewrite (contract_and_count_top _ _ _ _ _ _ _ E). rewrite nth_repeat_0. reflexivity.
Qed.

(** The components share out the vertices. *)
Lemma components_order g : List.NoDup (verts g) ->
  forall fuel todo,
    (length todo <= fuel)%nat -> List.NoDup todo -> incl todo (verts g) ->
    closed_set g todo ->
    fold_right Nat.add 0%nat (map order (components_from g fuel todo)) = length todo.
Proof.
  intros Hg. induction fuel as [|fuel IH]; intros todo Hlen Hnd Hincl Hcl.
  - destruct todo; [reflexivity | simpl in Hlen; lia].
  - destruct todo as [|v rest]; [reflexivity|].
    cbn [components_from map fold_right].
    set (c := component g v).
    set (B := List.filter (fun u => negb (memb u c)) rest).
    assert (Hv : In v (verts g)) by (apply Hincl; left; reflexivity).
    assert (Hvc : In v c) by apply component_seed.
    assert (Hcc : closed_set g c) by (apply component_closed, Hv).
    assert (Hct : incl c (v :: rest)).
    { apply component_in_closed; [exact Hcl | left; reflexivity | exact Hv]. }
    assert (HB : B = List.filter (fun u => negb (memb u c)) (v :: rest)).
    { simpl. rewrite (proj2 (memb_In v c) Hvc). reflexivity. }
    assert (HinB : forall x, In x B <-> In x (v :: rest) /\ ~ In x c).
    { intros x. rewrite HB, List.filter_In, negb_true_iff, memb_false. tauto. }
    assert (HclB : closed_set g B).
    { intros x y Hx Hy. apply HinB in Hx. destruct Hx as [Hx Hnx].
      apply HinB. split; [exact (Hcl x y Hx Hy)|].
      intros Hyc. apply Hnx. apply (Hcc y x Hyc).
      apply neighbor_sym; [apply Hincl, Hx | exact Hy]. }
    inversion Hnd as [|? ? Hvr Hnd']; subst.
    rewrite IH.
    + set (A := List.filter (fun u => memb u c) (v :: rest)).
      pose proof (Permutation_length (filter_partition (fun u => memb u c) (v :: rest)))
        as Hp.
      rewrite length_app in Hp. fold A in Hp. rewrite <- HB in Hp.
      assert (HA : length A = order (subgraph g c)).
      { unfold order, subgraph. cbn [verts]. apply Permutation_length.
        apply Permutation.NoDup_Permutation.
        - apply List.NoDup_filter, Hnd.
        - apply List.NoDup_filter, Hg.
        - intros x. unfold A. rewrite !List.filter_In, memb_In. split.
          + intros [_ Hx]. split; [apply (component_verts g v Hv), Hx | exact Hx].
          + intros [_ Hx]. split; [apply Hct, Hx | exact Hx]. }
      cbn [length] in Hp |- *. lia.
    + assert (Hle : (length B <= length rest)%nat) by apply filter_length_le.
      simpl in Hlen. lia.
    + apply List.NoDup_filter, Hnd'.
    + intros x Hx. apply HinB in Hx. apply Hincl, Hx.
    + exact HclB.
Qed.

Lemma closed_set_verts g : closed_set g (verts g).
Proof.
  intros x y _ Hy. apply in_neighbors in Hy. tauto.
Qed.

Lemma components_orders g : wf g = true ->
  fold_right Nat.add 0%nat (map order (connected_components_subgraphs g)) = order g.
Proof.
  intros Hwf. pose proof (proj1 (wf_spec g) Hwf) as [Hnd _].
  apply components_order; [exact Hnd | apply le_n | exact Hnd | apply incl_refl
                          | apply closed_set_verts].
Qed.

End Degree.

Section DefaultDegree.
Import Poly PolyFacts Graph GraphFacts WfFacts Leading Degree.

Variable canonical_label : Graph.t -> Graph.t.

Lemma keeps_frame_snd {A} (c : M A) (Q : A -> Prop) w0 :
  keeps (frame w0) c Q -> frame w0 (snd (c w0)).
Proof.
  intros H. specialize (H w0 (fun _ _ Hx => Hx)).
  destruct (c w0) as [[a|x] w1]; cbn [snd]; [apply H | exact H].
Qed.

Lemma mapM_calls_monic (f : nat -> M Poly.poly) :
  (forall h w c p w', heap w !! h = Some c -> wf c = true -> has_loops c = false ->
     f h w = (Ret p, w') -> monic p (order c)) ->
  (forall h w, frame w (snd (f h w))) ->
  forall hs cs, Forall2 (fun h c => True) hs cs ->
  forall w ps w',
    Forall2 (fun h c => heap w !! h = Some c) hs cs ->
    (forall c, In c cs -> wf c = true /\ has_loops c = false) ->
    mapM f hs w = (Ret ps, w') ->
    Forall2 monic ps (map order cs).
Proof.
  intros Hf Hfr hs cs HF. induction HF as [|h c hs cs _ _ IH]; intros w ps w' Hh Hc H.
  - simpl in H. injection H as <- _. constructor.
  - simpl in H. inv_bind H. injection H as <- _.
    match goal with H1 : f h w = _, H2 : mapM f hs _ = _ |- _ =>
      rename H1 into E1; rename H2 into E2 end.
    inversion Hh as [|? ? ? ? Hh0 Hh1]; subst.
    destruct (Hc c (or_introl eq_refl)) as [Hw Hl].
    pose proof (Hfr h w) as Hw1. rewrite E1 in Hw1. cbn [snd] in Hw1.
    cbn [map]. constructor.
    + exact (Hf _ _ _ _ _ Hh0 Hw Hl E1).
    + eapply IH; [|intros c' Hc'; apply Hc; right; exact Hc' | exact E2].
      eapply Forall2_impl; [exact Hh1|]. intros h' c' Hx. apply Hw1, Hx.
Qed.

Lemma default_monic depth steps : forall G w g p w',
  heap w !! G = Some g -> wf g = true -> has_loops g = false ->
  chromatic_polynomial canonical_label depth steps G "C" w = (Ret p, w') ->
  monic p (order g).
Proof.
  induction depth as [|depth IH]; intros G w g p w' Hg Hwf Hl H;
    cbn [chromatic_polynomial] in H.
  all: change (lower "C") with "c"%string in H;
    cbn [existsb negb String.eqb Ascii.eqb Bool.eqb orb] in H.
  all: unfold bind at 1 in H; rewrite (read_spec G w g Hg) in H.
  all: destruct (is_empty g) eqn:He;
    [injection H as <- _; unfold is_empty in He; apply Nat.eqb_eq in He; rewrite He;
     apply monic_one|].
  all: assert (Ho : (1 <= order g)%nat)
    by (unfold is_empty in He; apply Nat.eqb_neq in He; lia).
  all: rewrite Hl in H.
  all: destruct (is_connected g) eqn:Hc; cbn [negb] in H.
  all: try (destruct (is_tree g);
            [injection H as <- _; apply monic_tree_poly, Ho
            | eapply main_monic; eassumption]).
  all: destruct (mapM_alloc_spec (connected_components_subgraphs g) w)
         as (hs & w1 & Em & HF & _).
  all: unfold bind at 1 in H; rewrite Em in H.
  all: apply bind_ret_inv in H; destruct H as (ps & w2 & E2 & H); injection H as <- _.
  all: rewrite <- (components_orders g Hwf).
  all: apply monic_prod.
  all: eapply mapM_calls_monic; [| | | exact HF | | exact E2].
  all: try (eapply Forall2_impl; [exact HF | intros; exact I]).
  all: try (intros c Hcin; destruct (TopFacts.components_good g Hwf Hl c Hcin)
              as (A1 & A2 & _); split; assumption).
  - intros h w0 c q w0' _ _ _ E. discriminate.
  - intros h w0. exact (fun _ _ Hx => Hx).
  - intros h w0 c q w0' Hh Hwc Hlc E. exact (IH h w0 c q w0' Hh Hwc Hlc E).
  - intros h w0. eapply keeps_frame_snd, chromatic_polynomial_frame.
Qed.

(** X7. On a well formed graph without loops, with no interrupt pending
    and room for one nested call, the default algorithm returns a
    polynomial whose degree is the number of vertices and whose leading
    coefficient is 1. *)
Theorem result_is_monic (depth steps G : nat) (w : world) (g : Graph.t) :
  heap w !! G = Some g ->
  Graph.wf g = true ->
  Graph.has_loops g = false ->
  quiet w ->
  (1 <= depth)%nat ->
  exists p w',
    chromatic_polynomial canonical_label depth steps G "C" w = (Ret p, w') /\
    Poly.coeff p (Graph.order g) = 1 /\
    forall d, (Graph.order g < d)%nat -> Poly.coeff p d = 0.
Proof.
  intros Hg Hwf Hl Hq Hd.
  destruct (default_counts canonical_label depth steps G w g Hg Hwf Hq Hd)
    as (p & w' & E & _).
  exists p, w'. split; [exact E|].
  exact (default_monic depth steps G w g p w' Hg Hwf Hl E).
Qed.

End DefaultDegree.

Lemma result_is_monic_witness :
  exists p w',
    chromatic_polynomial Canon.canonical_label 1 0 0 "C" (caller_world two_triangles)
    = (Ret p, w') /\
    Poly.coeff p (Graph.order two_triangles) = 1 /\
    forall d, (Graph.order two_triangles < d)%nat -> Poly.coeff p d = 0.
Proof.
  apply (result_is_monic Canon.canonical_label 1 0 0 (caller_world two_triangles)
           two_triangles);
    [reflexivity | reflexivity | reflexivity | intros t; reflexivity | lia].
Defined.

(** ** The [mpz_t] cells of a call that returns *)

Section LiveOnly.

Variable canonical_label : Graph.t -> Graph.t.

(** An invariant that looks at the initialised cells only. *)
Variable Inv : world -> Prop.
Hypothesis Inv_live : forall w w', live w' = live w -> Inv w -> Inv w'.

Let anyv {A} : A -> Prop := fun _ => True.

Lemma read_cells l : keeps Inv (read l) anyv.
Proof.
  intros w Hw. unfold read. destruct (heap w !! l); simpl; [split; [exact Hw | exact I] | exact Hw].
Qed.

Lemma alloc_cells g : keeps Inv (alloc g) anyv.
Proof. intros w Hw. unfold alloc. split; [|exact I]. eapply Inv_live; [|exact Hw]. reflexivity. Qed.

Lemma modify_cells l f : keeps Inv (modify l f) anyv.
Proof.
  intros w Hw. unfold modify. destruct (heap w !! l); simpl; [|exact Hw].
  split; [|exact I]. eapply Inv_live; [|exact Hw]. reflexivity.
Qed.

Lemma sig_check_cells : keeps Inv sig_check anyv.
Proof.
  intros w Hw. unfold sig_check.
  destruct (signals w (ticks w)); simpl; [|split; [|exact I]];
    (eapply Inv_live; [|exact Hw]); reflexivity.
Qed.

Lemma get_key_cells d v : keeps Inv (get_key d v) anyv.
Proof.
  unfold get_key. destruct (DiGraph.get_vertex d v) as [[]|];
    first [apply keeps_ret; exact I | apply keeps_abort].
Qed.

Lemma get_poly_cells d v : keeps Inv (get_poly d v) anyv.
Proof.
  unfold get_poly. destruct (DiGraph.get_vertex d v) as [[]|];
    first [apply keeps_ret; exact I | apply keeps_abort].
Qed.

Lemma of_option_cells {A} (o : option A) : keeps Inv (of_option o) anyv.
Proof. eapply keeps_weaken; [apply keeps_of_option | intros; exact I]. Qed.

Lemma contract_loop_cells rec num parent :
  (forall new t, keeps Inv (rec new t) anyv) ->
  forall cs tot, keeps Inv (contract_loop rec num parent cs tot) anyv.
Proof.
  intros Hrec. induction cs as [|[z x1] rest IH]; intros tot; cbn [contract_loop].
  - apply keeps_ret. exact I.
  - eapply keeps_bind; [apply sig_check_cells|]. intros u _.
    eapply keeps_bind; [apply of_option_cells|]. intros new _.
    eapply keeps_bind; [apply Hrec|]. intros t1 _. apply IH.
Qed.

Lemma contract_and_count_cells : forall n chords parent tot,
  keeps Inv (contract_and_count n chords parent tot) anyv.
Proof.
  induction n as [|n IH]; intros chords parent tot; destruct chords as [|c cs];
    cbn [contract_and_count]; try apply of_option_cells; try apply keeps_abort.
  eapply keeps_bind; [apply contract_loop_cells; intros; apply IH|].
  intros t _. apply of_option_cells.
Qed.

Lemma spawn_components_cells v hs : forall d stk,
  keeps Inv (spawn_components v hs d stk) anyv.
Proof.
  induction hs as [|h hs IH]; intros d stk; cbn [spawn_components].
  - apply keeps_ret. exact I.
  - eapply keeps_bind; [apply alloc_cells|]. intros l _.
    destruct (DiGraph.add_vertex d) as [w1 d1]. apply IH.
Qed.

Lemma first_visit_cells st v stk :
  keeps Inv (first_visit canonical_label st v stk) anyv.
Proof.
  unfold first_visit.
  destruct (DiGraph.get_vertex (cD st) v) as [[l|k|p]|]; try apply keeps_abort.
  eapply keeps_bind; [apply read_cells|]. intros g _.
  destruct (cache st !! key_of canonical_label g); [apply keeps_ret; exact I|].
  destruct (Graph.is_empty g); [apply keeps_ret; exact I|].
  destruct (Graph.has_loops g); [apply keeps_ret; exact I|].
  destruct (negb (Graph.is_connected g)).
  { eapply keeps_bind; [apply spawn_components_cells|].
    intros [d2 stk2] _. apply keeps_ret. exact I. }
  destruct (Nat.eqb _ _); [apply keeps_ret; exact I|].
  destruct (DiGraph.add_vertex (cD st)) as [a d1].
  destruct (DiGraph.add_vertex d1) as [b d2].
  destruct (Graph.bridges g ++ Graph.edges g) as [|[u w1] ?]; [apply keeps_abort|].
  eapply keeps_bind; [apply modify_cells|]. intros u1 _.
  eapply keeps_bind; [apply read_cells|]. intros g1 _.
  eapply keeps_bind; [apply alloc_cells|]. intros la _.
  eapply keeps_bind; [apply modify_cells|]. intros u2 _.
  eapply keeps_bind; [apply modify_cells|]. intros u3 _.
  eapply keeps_bind; [apply modify_cells|]. intros u4 _.
  apply keeps_ret. exact I.
Qed.

Lemma cache_step_cells st entry stk :
  keeps Inv (cache_step canonical_label st entry stk) anyv.
Proof.
  destruct entry as [[firstseen v] c]. unfold cache_step.
  destruct firstseen; [apply first_visit_cells|].
  destruct (String.eqb (fst c) "*").
  { eapply keeps_bind; [apply get_key_cells|]. intros k _.
    eapply keeps_bind; [apply keeps_mapM; intros; apply get_poly_cells|]. intros ps _.
    apply keeps_ret. exact I. }
  destruct (String.eqb (fst c) "-"); [|apply keeps_abort].
  eapply keeps_bind; [apply get_key_cells|]. intros k _.
  destruct (snd c) as [|a [|b r]]; try apply keeps_abort.
  eapply keeps_bind; [apply get_poly_cells|]. intros pa _.
  eapply keeps_bind; [apply get_poly_cells|]. intros pb _.
  apply keeps_ret. exact I.
Qed.

Lemma cache_loop_cells fuel : forall st,
  keeps Inv (cache_loop canonical_label fuel st) anyv.
Proof.
  induction fuel as [|fuel IH]; intros st; simpl;
    destruct (stack st) as [|entry stk]; try (apply keeps_ret; exact I).
  - apply keeps_abort.
  - eapply keeps_bind; [apply cache_step_cells|]. intros st' _. apply IH.
Qed.

Lemma with_cache_cells fuel G :
  keeps Inv (chromatic_polynomial_with_cache canonical_label fuel G) anyv.
Proof.
  unfold chromatic_polynomial_with_cache.
  eapply keeps_bind; [apply read_cells|]. intros g _.
  destruct (Graph.is_empty g); [apply keeps_ret; exact I|].
  destruct (Graph.has_loops g); [apply keeps_ret; exact I|].
  eapply keeps_bind; [apply alloc_cells|]. intros G' _.
  eapply keeps_bind; [apply modify_cells|]. intros u _.
  eapply keeps_bind; [apply cache_loop_cells|]. intros st _. apply get_poly_cells.
Qed.

End LiveOnly.

Section Cells.

Variable canonical_label : Graph.t -> Graph.t.

Let whatever : abort -> world -> Prop := fun _ _ => True.

Lemma cells_live S w w' : live w' = live w -> cells S w -> cells S w'.
Proof. intros E H c. rewrite E. apply H. Qed.

(** A step that leaves the cells alone, in the form used below. *)
Lemma leaves_cells {A} S (c : M A) (Q : A -> Prop) :
  keeps (cells S) c Q -> hoare (cells S) c (fun _ => cells S) whatever.
Proof.
  intros H. eapply hoare_conseq; [exact H | intros w0 Hw0; exact Hw0 | intros a w [Hw _]; exact Hw|].
  intros; exact I.
Qed.

Lemma init_cells S c :
  hoare (cells S) (mpz_init c) (fun _ => cells (fun d => S d \/ d = c)) whatever.
Proof.
  intros w Hw d Hd. cbn [mpz_init live] in Hd. apply in_app_iff in Hd.
  destruct Hd as [Hd|[<-|[]]]; [left; apply Hw, Hd | right; reflexivity].
Qed.

Lemma mpz_eqb_eq c d : mpz_eqb c d = true <-> c = d.
Proof.
  destruct c, d; cbn [mpz_eqb]; try rewrite Nat.eqb_eq;
    split; try congruence; try discriminate; intros [=]; auto.
Qed.

Lemma clear_cells S c :
  hoare (cells S) (mpz_clear c) (fun _ => cells (fun d => S d /\ d <> c)) whatever.
Proof.
  intros w Hw d Hd. cbn [mpz_clear live] in Hd. apply List.filter_In in Hd.
  destruct Hd as [Hd Hne]. split; [apply Hw, Hd|].
  intros ->. apply negb_true_iff in Hne.
  assert (E : mpz_eqb c c = true) by (apply mpz_eqb_eq; reflexivity). congruence.
Qed.

Lemma for_each_init_cells (f : nat -> mpz) : forall l S,
  hoare (cells S) (for_each (fun i => mpz_init (f i)) l)
        (fun _ => cells (fun d => S d \/ exists i, In i l /\ d = f i)) whatever.
Proof.
  induction l as [|i l IH]; intros S; cbn [for_each].
  - intros w Hw d Hd. left. apply Hw, Hd.
  - eapply hoare_bind; [apply init_cells|]. intros u.
    eapply hoare_conseq; [apply IH | intros w0 Hw0; exact Hw0 | | intros; exact I].
    intros a w Hw d Hd. destruct (Hw d Hd) as [[H| ->]|(j & Hj & ->)]; [left; exact H| |].
    + right. exists i. split; [left|]; reflexivity.
    + right. exists j. split; [right; exact Hj | reflexivity].
Qed.

Lemma for_each_clear_cells : forall l S,
  hoare (cells S)
        (for_each (fun i => run mpz_clear (Tot i) then mpz_clear (Coeffs i)) l)
        (fun _ => cells (fun d => S d /\ forall i, In i l -> d <> Tot i /\ d <> Coeffs i))
        whatever.
Proof.
  induction l as [|i l IH]; intros S; cbn [for_each].
  - intros w Hw d Hd. split; [apply Hw, Hd | intros i []].
  - eapply hoare_bind.
    { eapply hoare_bind; [apply clear_cells|]. intros u. apply clear_cells. }
    intros u. eapply hoare_conseq; [apply IH | intros w0 Hw0; exact Hw0 | | intros; exact I].
    intros a w Hw d Hd. destruct (Hw d Hd) as [[[H H1] H2] H3].
    split; [exact H|]. intros j [<-|Hj]; [split; assumption | apply H3, Hj].
Qed.

Lemma try_cells {A} S (c : M A) (h : M unit) (Q : A -> Prop) :
  keeps (cells S) c Q ->
  hoare (cells S) (try_except_reraise c h) (fun _ => cells S) whatever.
Proof.
  intros H w Hw. unfold try_except_reraise. specialize (H w Hw).
  destruct (c w) as [[a|[e| |]] w1]; try exact I; [apply H|].
  destruct (h w1) as [[u|x] w2]; exact I.
Qed.

(** [chromatic_polynomial_main], when it returns, has cleared the cells it
    initialised. *)
Lemma main_cells S G :
  hoare (cells S) (chromatic_polynomial_main G) (fun _ => cells S) whatever.
Proof.
  unfold chromatic_polynomial_main.
  eapply hoare_bind; [eapply leaves_cells, read_cells|]. intros g0.
  eapply hoare_bind;
    [eapply leaves_cells, alloc_cells; intros; eapply cells_live; eassumption|].
  intros G'.
  eapply hoare_bind;
    [eapply leaves_cells, modify_cells; intros; eapply cells_live; eassumption|].
  intros u1.
  eapply hoare_bind;
    [eapply leaves_cells, modify_cells; intros; eapply cells_live; eassumption|].
  intros u2.
  eapply hoare_bind; [eapply leaves_cells, read_cells|]. intros g. cbv zeta.
  eapply hoare_bind; [apply init_cells|]. intros u3.
  eapply hoare_bind; [apply for_each_init_cells|]. intros u4.
  eapply hoare_bind; [apply init_cells|]. intros u5.
  eapply hoare_bind; [eapply leaves_cells, of_option_cells|]. intros st.
  eapply hoare_bind.
  { eapply try_cells, contract_and_count_cells. intros; eapply cells_live; eassumption. }
  intros tot.
  eapply hoare_bind; [apply for_each_init_cells|]. intros u6.
  eapply hoare_bind; [apply init_cells|]. intros u7.
  eapply hoare_bind; [apply init_cells|]. intros u8.
  eapply hoare_bind; [apply for_each_clear_cells|]. intros u9.
  eapply hoare_bind; [apply clear_cells|]. intros u10.
  eapply hoare_bind; [apply clear_cells|]. intros u11.
  intros w Hw d Hd. cbn [ret] in Hd.
  destruct (Hw d Hd) as [[[H Hcl] Hc1] Hc2].
  set (n := Graph.order g) in *.
  assert (Hr : forall i, (i <= n)%nat -> In i (range_incl 0 n)).
  { intros i Hi. unfold range_incl. apply in_seq. lia. }
  destruct H as [[[[[[H| ->]|(i & Hi & ->)]| ->]|(i & Hi & ->)]| ->]| ->];
    try congruence.
  - exfalso. exact (proj1 (Hcl 0%nat (Hr 0%nat ltac:(lia))) eq_refl).
  - apply in_seq in Hi. exfalso. exact (proj1 (Hcl i (Hr i ltac:(lia))) eq_refl).
  - exfalso. exact (proj1 (Hcl n (Hr n ltac:(lia))) eq_refl).
  - exfalso. exact (proj2 (Hcl i Hi) eq_refl).
Qed.

Lemma ret_cells {A} S (a : A) : hoare (cells S) (ret a) (fun _ => cells S) whatever.
Proof. intros w Hw. exact Hw. Qed.

Lemma default_cells S depth steps : forall G algorithm,
  hoare (cells S) (chromatic_polynomial canonical_label depth steps G algorithm)
        (fun _ => cells S) whatever.
Proof.
  assert (HL : forall w w', live w' = live w -> cells S w -> cells S w')
    by (intros; eapply cells_live; eassumption).
  induction depth as [|depth IH]; intros G algorithm; cbn [chromatic_polynomial].
  all: destruct (negb _); [apply hoare_abort; intros; exact I|].
  all: destruct (String.eqb _ _); [eapply leaves_cells, with_cache_cells, HL|].
  all: eapply hoare_bind; [eapply leaves_cells, read_cells|]; intros g.
  all: destruct (Graph.is_empty g); [apply ret_cells|].
  all: destruct (Graph.has_loops g); [apply ret_cells|].
  all: destruct (negb (Graph.is_connected g)).
  all: try (destruct (Graph.is_tree g); [apply ret_cells | apply main_cells]).
  all: eapply hoare_bind;
    [eapply leaves_cells, keeps_mapM; intros; apply alloc_cells, HL|]; intros hs.
  all: eapply hoare_bind; [|intros ps; apply ret_cells].
  all: eapply hoare_conseq;
    [apply (hoare_mapM (cells S) _ hs (fun _ => True) whatever)
    | intros w0 Hw0; exact Hw0 | intros a w [_ Hw]; exact Hw | intros; exact I].
  - intros h. apply hoare_abort. intros; exact I.
  - intros h. eapply hoare_conseq;
      [apply IH | intros w0 Hw0; exact Hw0 | intros a w Hw; split; [exact I | exact Hw]
      | intros; exact I].
Qed.

(** X8. A call of [chromatic_polynomial] that returns, with either
    algorithm, has cleared every [mpz_t] cell it initialised: if no cell
    was initialised when it was called, none is when it returns. *)
Theorem normal_return_leaves_no_cell (depth steps G : nat) (algorithm : string)
  (w w' : world) (p : Poly.poly) :
  live w = [] ->
  chromatic_polynomial canonical_label depth steps G algorithm w = (Ret p, w') ->
  live w' = [].
Proof.
  intros Hl H.
  pose proof (default_cells (fun _ => False) depth steps G algorithm w) as Hc.
  rewrite H in Hc.
  assert (Hw : cells (fun _ => False) w) by (intros c Hc'; rewrite Hl in Hc'; destruct Hc').
  specialize (Hc Hw). destruct (live w') as [|c r] eqn:E; [reflexivity|].
  exfalso. apply (Hc c). rewrite E. left. reflexivity.
Qed.

End Cells.

Lemma normal_return_leaves_no_cell_witness :
  live (snd (chromatic_polynomial Canon.canonical_label 1 0 0 "C" (caller_world square_diag)))
  = [].
Proof.
  apply (normal_return_leaves_no_cell Canon.canonical_label 1 0 0 "C"
           (caller_world square_diag) _ [0; -4; 8; -5; 1]).
  - reflexivity.
  - vm_compute. reflexivity.
Defined.

(** ** The values of the polynomial and the colourings *)

Section Colourable.
Import Graph Count Proper WfFacts Rename.

Lemma colorings_outside k : forall vs f0 f,
  In f (colorings k vs f0) -> forall x, ~ In x vs -> f x = f0 x.
Proof.
  induction vs as [|v vs IH]; intros f0 f H x Hx; cbn [colorings] in H.
  - destruct H as [<-|[]]. reflexivity.
  - apply in_flat_map in H. destruct H as (c & _ & H).
    rewrite (IH _ _ H x) by (intros Hin; apply Hx; right; exact Hin).
    unfold upd. destruct (Nat.eqb_spec x v) as [->|]; [|reflexivity].
    exfalso. apply Hx. left. reflexivity.
Qed.

Lemma colorings_below k : forall vs f0 f,
  In f (colorings k vs f0) -> forall x, In x vs -> (f x < k)%nat.
Proof.
  induction vs as [|v vs IH]; intros f0 f H x Hx; [destruct Hx|].
  cbn [colorings] in H. apply in_flat_map in H. destruct H as (c & Hc & H).
  destruct (in_dec Nat.eq_dec x vs) as [Hin|Hout]; [exact (IH _ _ H x Hin)|].
  rewrite (colorings_outside k vs _ f H x Hout).
  destruct Hx as [->|Hx]; [|contradiction].
  unfold upd. rewrite Nat.eqb_refl. apply in_seq in Hc. lia.
Qed.

Lemma colorings_complete k (h : nat -> nat) : forall vs f0,
  (forall x, In x vs -> (h x < k)%nat) ->
  exists f, In f (colorings k vs f0) /\ forall x, In x vs -> f x = h x.
Proof.
  induction vs as [|v vs IH]; intros f0 Hh.
  - exists f0. split; [left; reflexivity | intros x []].
  - destruct (IH (upd f0 v (h v))) as (f & Hf & Hfx);
      [intros x Hx; apply Hh; right; exact Hx|].
    exists f. split.
    + cbn [colorings]. apply in_flat_map. exists (h v). split; [|exact Hf].
      apply in_seq. specialize (Hh v (or_introl eq_refl)). lia.
    + intros x [<-|Hx]; [|apply Hfx, Hx].
      destruct (in_dec Nat.eq_dec v vs) as [Hin|Hout]; [apply Hfx, Hin|].
      rewrite (colorings_outside k vs _ f Hf v Hout). unfold upd.
      rewrite Nat.eqb_refl. reflexivity.
Qed.

(** The enumeration finds a proper colouring exactly when there is one. *)
Lemma count_positive g k :
  wf g = true ->
  ((0 < count_colorings g k)%nat <->
   exists f, (forall v, In v (verts g) -> (f v < k)%nat) /\ proper (edges g) f = true).
Proof.
  intros Hwf. pose proof (proj1 (wf_spec g) Hwf) as [_ Hc].
  unfold count_colorings. split.
  - intros H.
    destruct (List.filter (proper (edges g)) (colorings k (verts g) (fun _ => 0%nat)))
      as [|f r] eqn:E; [simpl in H; lia|].
    assert (Hf : In f (List.filter (proper (edges g))
                          (colorings k (verts g) (fun _ => 0%nat))))
      by (rewrite E; left; reflexivity).
    apply List.filter_In in Hf. destruct Hf as [Hf Hp].
    exists f. split; [|exact Hp]. intros v Hv. exact (colorings_below k _ _ f Hf v Hv).
  - intros (h & Hh & Hp).
    destruct (colorings_complete k h (verts g) (fun _ => 0%nat) Hh) as (f & Hf & Hfx).
    assert (Hin : In f (List.filter (proper (edges g))
                          (colorings k (verts g) (fun _ => 0%nat)))).
    { apply List.filter_In. split; [exact Hf|]. rewrite <- Hp.
      apply proper_agree. intros e He. destruct (Hc e He). split; apply Hfx; assumption. }
    destruct (List.filter _ _); [destruct Hin | simpl; lia].
Qed.

Variable canonical_label : Graph.t -> Graph.t.

(** X9. The polynomial that the default algorithm returns is positive at
    [k] exactly when the graph has a proper colouring with [k] colours:
    the least [k] at which it is positive is the chromatic number, as the
    examples of the source say. *)
Theorem positive_exactly_when_colourable (depth steps G : nat) (w : world)
  (g : Graph.t) :
  heap w !! G = Some g ->
  Graph.wf g = true ->
  quiet w ->
  (1 <= depth)%nat ->
  exists p w',
    chromatic_polynomial canonical_label depth steps G "C" w = (Ret p, w') /\
    forall k : nat,
      0 < Poly.eval p (Z.of_nat k) <->
      exists f, (forall v, In v (Graph.verts g) -> (f v < k)%nat) /\
                proper (Graph.edges g) f = true.
Proof.
  intros Hg Hwf Hq Hd.
  destruct (default_counts canonical_label depth steps G w g Hg Hwf Hq Hd)
    as (p & w' & E & _ & V).
  exists p, w'. split; [exact E|]. intros k.
  rewrite V, <- (count_positive g k Hwf). lia.
Qed.

End Colourable.

Lemma positive_exactly_when_colourable_witness :
  exists p w',
    chromatic_polynomial Canon.canonical_label 1 0 0 "C" (caller_world K3) = (Ret p, w') /\
    forall k : nat,
      0 < Poly.eval p (Z.of_nat k) <->
      exists f, (forall v, In v (Graph.verts K3) -> (f v < k)%nat) /\
                proper (Graph.edges K3) f = true.
Proof.
  apply (positive_exactly_when_colourable Canon.canonical_label 1 0 0 (caller_world K3) K3);
    [reflexivity | reflexivity | intros t; reflexivity | lia].
Defined.

(** ** Isomorphic graphs *)

Section Isomorphic.
Import Graph Count Proper WfFacts Rename RelabelFacts TreeChord PolyId.

(** The same graph after its vertices are renamed, in whatever order its
    vertices and edges are listed, has as many colourings. *)
Lemma count_isomorphic g h (f : nat -> nat) k :
  wf g = true -> wf h = true ->
  (forall x y, In x (verts g) -> In y (verts g) -> f x = f y -> x = y) ->
  Permutation (verts h) (map f (verts g)) ->
  same_edges (edges h) (map (fun e => (f e.1, f e.2)) (edges g)) ->
  count_colorings h k = count_colorings g k.
Proof.
  intros Hg Hh Hinj Hp Hs.
  pose proof (proj1 (wf_spec g) Hg) as [_ Hc].
  pose proof (proj1 (wf_spec h) Hh) as [Hnd _].
  apply Nat2Z.inj. rewrite !count_colorings_cntw.
  rewrite (cntw_perm k _ (wt_ext_ind_proper _) _ _ Hp Hnd).
  rewrite (cntw_same_edges k _ _ _ _ Hs).
  rewrite (cntw_ext_wt k _ _ (fun c => ind (proper (edges g)) (fun x => c (f x)))).
  2:{ intros c. unfold ind. rewrite (proper_map f (edges g) c). reflexivity. }
  apply (cntw_rename k f (fun x => In x (verts g)) (ind (proper (edges g)))).
  - exact Hinj.
  - intros c c' H. unfold ind. rewrite (proper_agree _ c c'); [reflexivity|].
    intros e He. destruct (Hc e He). split; apply H; assumption.
  - auto.
  - reflexivity.
Qed.

Variable canonical_label : Graph.t -> Graph.t.

(** X10. The default algorithm returns the same polynomial on isomorphic
    graphs: what it returns does not depend on the names of the vertices,
    on the order in which the vertices and the edges are listed, on the
    direction in which an edge is written or on how often it occurs. *)
Theorem isomorphic_graphs_same_polynomial (depth steps G H : nat) (w v : world)
  (g h : Graph.t) (f : nat -> nat) :
  heap w !! G = Some g -> heap v !! H = Some h ->
  Graph.wf g = true -> Graph.wf h = true ->
  (forall x y, In x (Graph.verts g) -> In y (Graph.verts g) -> f x = f y -> x = y) ->
  Permutation (Graph.verts h) (map f (Graph.verts g)) ->
  same_edges (Graph.edges h) (map (fun e => (f e.1, f e.2)) (Graph.edges g)) ->
  quiet w -> quiet v -> (1 <= depth)%nat ->
  exists p w' v',
    chromatic_polynomial canonical_label depth steps G "C" w = (Ret p, w') /\
    chromatic_polynomial canonical_label depth steps H "C" v = (Ret p, v').
Proof.
  intros HG HH Hg Hh Hinj Hp Hs Hqw Hqv Hd.
  destruct (default_counts canonical_label depth steps G w g HG Hg Hqw Hd)
    as (p & w' & Ep & Np & Vp).
  destruct (default_counts canonical_label depth steps H v h HH Hh Hqv Hd)
    as (q & v' & Eq & Nq & Vq).
  assert (q = p) as ->.
  { apply poly_eq; [exact Nq | exact Np|]. intros k.
    rewrite Vp, Vq, (count_isomorphic g h f k Hg Hh Hinj Hp Hs). reflexivity. }
  exists p, w', v'. split; assumption.
Qed.

End Isomorphic.

Lemma K3_renamed_edges :
  same_edges (Graph.edges K3_renamed)
             (map (fun e => ((5 + 2 * e.1)%nat, (5 + 2 * e.2)%nat)) (Graph.edges K3)).
Proof.
  split; intros e He; apply existsb_exists; cbn in He;
    repeat (destruct He as [<-|He]; [reflexivity|]); destruct He.
Qed.

Lemma isomorphic_graphs_same_polynomial_witness :
  exists p w' v',
    chromatic_polynomial Canon.canonical_label 1 0 0 "C" (caller_world K3) = (Ret p, w') /\
    chromatic_polynomial Canon.canonical_label 1 0 0 "C" (caller_world K3_renamed)
    = (Ret p, v').
Proof.
  apply (isomorphic_graphs_same_polynomial Canon.canonical_label 1 0 0 0
           (caller_world K3) (caller_world K3_renamed) K3 K3_renamed
           (fun x => (5 + 2 * x)%nat)).
  - reflexivity.
  - reflexivity.
  - reflexivity.
  - reflexivity.
  - intros x y _ _ E. lia.
  - exact (Permutation_cons_append [5; 7]%nat 9%nat).
  - exact K3_renamed_edges.
  - intros t. reflexivity.
  - intros t. reflexivity.
  - lia.
Defined.

(** ** The loop of the cached algorithm, whatever the labelling *)

Section Loop.
Import Graph GraphFacts EdgeFacts WfFacts.

Variable canonical_label : Graph.t -> Graph.t.



(** X12. On every well formed graph, with whatever labelling,
    [chromatic_polynomial_with_cache] returns a polynomial once its loop
    has enough rounds: the stack empties, and none of the exceptions of
    its body is raised. *)
Theorem with_cache_terminates (G : nat) (w : world) (g : Graph.t) :
  heap w !! G = Some g ->
  Graph.wf g = true ->
  exists n p w',
    forall fuel, (n <= fuel)%nat ->
      chromatic_polynomial_with_cache canonical_label fuel G w = (Ret p, w').
Proof.
  intros Hg Hwf. destruct (is_empty g) eqn:He.
  - exists 0%nat, Poly.one, w. intros fuel _. unfold chromatic_polynomial_with_cache.
    unfold bind. rewrite (read_spec G w g Hg), He. reflexivity.
  - assert (Ho : (1 <= order g)%nat)
      by (unfold is_empty in He; apply Nat.eqb_neq in He; lia).
    destruct (with_cache_const canonical_label G w g Hg Hwf Ho) as (n & p & w' & E & _).
    exists n, p, w'. intros fuel Hf.
    replace fuel with (n + (fuel - n))%nat by lia. apply E.
Qed.

(** X13. No round of the loop takes a key out of the cache: the keys that
    are stored when the loop starts are stored when it ends. *)
Theorem cache_keys_are_kept (fuel : nat) (st st' : cache_state) (w w' : world)
  (k : key) :
  cache_loop canonical_label fuel st w = (Ret st', w') ->
  is_Some (cache st !! k) ->
  is_Some (cache st' !! k).
Proof.
  revert st w. induction fuel as [|fuel IH]; intros st w H Hk; cbn [cache_loop] in H.
  - destruct (stack st); [|discriminate]. injection H as <- _. exact Hk.
  - destruct (stack st) as [|entry stk]; [injection H as <- _; exact Hk|].
    apply bind_ret_inv in H. destruct H as (st1 & w1 & Hs & H).
    apply cache_step_cache in Hs. destruct Hs as [Hkeep _].
    apply (IH st1 w1 H). apply Hkeep, Hk.
Qed.

End Loop.

Section CachedCorrect.

Variable canonical_label : Graph.t -> Graph.t.

(** X14. With a labelling whose keys tell apart the graphs with different
    numbers of colourings, [chromatic_polynomial_with_cache] returns on
    every well formed graph, once its loop has enough rounds, a polynomial
    whose value at every [k >= 0] is the number of proper colourings with
    [k] colours. *)
Theorem with_cache_counts_colorings (G : nat) (w : world) (g : Graph.t) :
  faithful canonical_label ->
  heap w !! G = Some g ->
  Graph.wf g = true ->
  exists n p w',
    (forall fuel, (n <= fuel)%nat ->
       chromatic_polynomial_with_cache canonical_label fuel G w = (Ret p, w')) /\
    forall k : nat, Poly.eval p (Z.of_nat k) = Z.of_nat (count_colorings g k).
Proof.
  intros Hf Hg Hwf.
  destruct (with_cache_counts canonical_label Hf G w g Hg Hwf) as (n & p & w' & E & _ & V).
  exists n, p, w'. split; [|exact V]. intros fuel Hle.
  replace fuel with (n + (fuel - n))%nat by lia. apply E.
Qed.

End CachedCorrect.

Lemma with_cache_terminates_witness :
  exists n p w',
    forall fuel, (n <= fuel)%nat ->
      chromatic_polynomial_with_cache Canon.canonical_label fuel 0 (caller_world square_diag)
      = (Ret p, w').
Proof.
  apply (with_cache_terminates Canon.canonical_label 0 (caller_world square_diag) square_diag);
    reflexivity.
Defined.

Lemma with_cache_counts_colorings_witness :
  exists n p w',
    (forall fuel, (n <= fuel)%nat ->
       chromatic_polynomial_with_cache Canon.canonical_label fuel 0 (caller_world square_diag)
       = (Ret p, w')) /\
    forall k : nat, Poly.eval p (Z.of_nat k) = Z.of_nat (count_colorings square_diag k).
Proof.
  apply (with_cache_counts_colorings Canon.canonical_label 0 (caller_world square_diag)
           square_diag);
    [apply CanonFacts.canonical_faithful | reflexivity | reflexivity].
Defined.



Lemma cache_keys_are_kept_witness :
  is_Some
    (cache (returned (cache_loop Canon.canonical_label 40
                        (root_state 0 {[ (∅ : key) := Poly.one ]}) (caller_world K3))
                     (root_state 0 ∅))
     !! (∅ : key)).
Proof.
  apply (cache_keys_are_kept Canon.canonical_label 40
           (root_state 0 {[ (∅ : key) := Poly.one ]})
           (returned (cache_loop Canon.canonical_label 40
                        (root_state 0 {[ (∅ : key) := Poly.one ]}) (caller_world K3))
                     (root_state 0 ∅))
           (caller_world K3)
           (snd (cache_loop Canon.canonical_label 40
                   (root_state 0 {[ (∅ : key) := Poly.one ]}) (caller_world K3)))
           ∅).
  - vm_compute. reflexivity.
  - exists Poly.one. reflexivity.
Defined.

(** ** Trees *)

Section Trees.
Import Graph GraphFacts EdgeFacts WfFacts RelabelFacts MainFacts.

Variable canonical_label : Graph.t -> Graph.t.

(** The copy that the algorithms work on, when the graph is a tree, is a
    tree too. *)
Lemma prepared_tree g :
  wf g = true -> has_loops g = false -> is_tree g = true ->
  is_connected (prepared g) = true /\
  Nat.eqb (order (prepared g)) (size (prepared g) + 1) = true.
Proof.
  intros Hwf Hl Ht. unfold is_tree in Ht.
  apply andb_true_iff in Ht. destruct Ht as [Ht Hconn].
  apply andb_true_iff in Ht. destruct Ht as [He Hsz].
  apply Nat.eqb_eq in Hsz. unfold is_empty in He. apply negb_true_iff, Nat.eqb_neq in He.
  pose proof (prepared_connected g Hwf Hl Hconn) as Hc'.
  split; [exact Hc'|].
  assert (Ho : order (prepared g) = order g).
  { unfold order. rewrite prepared_verts. apply length_seq. }
  destruct (BfsFacts.bfs_spec (prepared g) (order g) (prepared_verts g) ltac:(lia) Hc')
    as (st & _ & _ & _ & _ & _ & _ & _ & _ & _ & Hbound).
  pose proof (prepared_size g Hwf Hl) as Hs.
  apply Nat.eqb_eq. lia.
Qed.

(** X15. On a tree with [n] vertices both algorithms return
    [x * (x - 1)^(n - 1)] without expanding anything: the default
    algorithm returns before it copies the graph, and the cached algorithm
    in the first round of its loop. *)
Theorem tree_gets_the_closed_form (G : nat) (w : world) (g : Graph.t) :
  heap w !! G = Some g ->
  Graph.wf g = true ->
  Graph.has_loops g = false ->
  Graph.is_tree g = true ->
  (forall depth steps,
     chromatic_polynomial canonical_label depth steps G "C" w
     = (Ret (Poly.tree_poly (Graph.order g)), w)) /\
  (forall fuel, (1 <= fuel)%nat ->
     exists w',
       chromatic_polynomial_with_cache canonical_label fuel G w
       = (Ret (Poly.tree_poly (Graph.order g)), w')).
Proof.
  intros Hg Hwf Hl Ht.
  assert (He : is_empty g = false).
  { unfold is_tree in Ht. apply andb_true_iff in Ht. destruct Ht as [Ht _].
    apply andb_true_iff in Ht. destruct Ht as [Ht _]. apply negb_true_iff, Ht. }
  assert (Hc : is_connected g = true).
  { unfold is_tree in Ht. apply andb_true_iff in Ht. tauto. }
  split.
  - intros depth steps. destruct depth; cbn [chromatic_polynomial].
    all: change (lower "C") with "c"%string;
      cbn [existsb negb String.eqb Ascii.eqb Bool.eqb orb].
    all: unfold bind; rewrite (read_spec G w g Hg), He, Hl, Hc; cbn [negb].
    all: rewrite Ht; reflexivity.
  - intros fuel Hf. destruct fuel as [|fuel]; [lia|].
    destruct (prepared_tree g Hwf Hl Ht) as [Hc' Hs'].
    pose proof (prepared_no_loops g Hwf Hl) as Hl'.
    rewrite (prepared_eq g Hwf Hl) in Hc', Hs', Hl'.
    set (g' := remove_multiple_edges (relabel g)) in *.
    assert (Ho' : order g' = order g).
    { unfold g', order, remove_multiple_edges, relabel. cbn [verts]. apply length_seq. }
    assert (He' : is_empty g' = false) by (unfold is_empty in *; rewrite Ho'; exact He).
    destruct (alloc_spec (relabel g) w) as (G' & w1 & Ea & Hn & L1 & X1).
    destruct (modify_spec G' remove_multiple_edges w1 _ L1) as (w2 & Em & L2 & F2).
    fold g' in L2.
    exists w2. unfold chromatic_polynomial_with_cache.
    unfold bind at 1. rewrite (read_spec G w g Hg), He, Hl.
    unfold bind at 1. rewrite Ea. unfold bind at 1. rewrite Em.
    cbn [cache_loop stack cache_step first_visit cD].
    assert (Hv : DiGraph.get_vertex (DiGraph.set_vertex DiGraph.init1 0 (VGraph G')) 0
                 = Some (VGraph G')).
    { unfold DiGraph.get_vertex, DiGraph.set_vertex. cbn [DiGraph.assoc].
      apply lookup_insert_eq. }
    unfold first_visit. cbn [cD cache]. rewrite Hv.
    unfold bind. rewrite (read_spec G' w2 g' L2).
    rewrite lookup_empty, He', Hl', Hc'. cbn [negb]. rewrite Hs'.
    rewrite <- Ho'. generalize (Poly.tree_poly (order g')). intros p.
    destruct fuel; simpl; unfold get_poly, DiGraph.get_vertex; simpl;
      rewrite lookup_insert_eq; reflexivity.
Qed.

End Trees.

(** The star with three leaves. *)
Lemma tree_gets_the_closed_form_witness :
  let g := Graph.mk [0; 1; 2; 3]%nat [(0, 1); (0, 2); (0, 3)]%nat in
  (forall depth steps,
     chromatic_polynomial Canon.canonical_label depth steps 0 "C" (caller_world g)
     = (Ret (Poly.tree_poly (Graph.order g)), caller_world g)) /\
  (forall fuel, (1 <= fuel)%nat ->
     exists w',
       chromatic_polynomial_with_cache Canon.canonical_label fuel 0 (caller_world g)
       = (Ret (Poly.tree_poly (Graph.order g)), w')).
Proof.
  apply (tree_gets_the_closed_form Canon.canonical_label 0
           (caller_world (Graph.mk [0; 1; 2; 3]%nat [(0, 1); (0, 2); (0, 3)]%nat))
           (Graph.mk [0; 1; 2; 3]%nat [(0, 1); (0, 2); (0, 3)]%nat)); reflexivity.
Defined.

(** ** [contract_and_count] and the interrupts *)

Section Interrupts.
Import TreeChord ContractFacts.

Variable sigma : nat -> option exn.

Local Abbreviation pending := (fun w : world => signals w = sigma).
Local Abbreviation stopped := (fun (x : abort) (_ : world) => interrupt_of sigma x).

Lemma sig_check_pending : hoare pending sig_check (fun _ => pending) stopped.
Proof.
  intros w Hw. unfold sig_check. destruct (signals w (ticks w)) as [e|] eqn:E.
  - exists e, (ticks w). split; [reflexivity|]. rewrite <- Hw. exact E.
  - exact Hw.
Qed.

Lemma hoare_ret_bind {A B} (a : A) (k : A -> M B) P Q R :
  hoare P (k a) Q R -> hoare P (bind (ret a) k) Q R.
Proof. intros H w Hw. exact (H w Hw). Qed.

Variable parent : list nat.
Hypothesis Hp : parent_ok parent.

Lemma contract_loop_pending n num
  (IH : forall cs tot, chords_ok parent n cs -> (1 <= n)%nat -> (n < length tot)%nat ->
          hoare pending (contract_and_count n cs parent tot)
                (fun tot' w => pending w /\ length tot' = length tot) stopped) :
  forall cs tot,
    chords_ok parent (S n) cs -> (length cs <= num)%nat -> (n < length tot)%nat ->
    hoare pending
          (contract_loop (fun new t => contract_and_count n new parent t) num parent cs tot)
          (fun tot' w => pending w /\ length tot' = length tot) stopped.
Proof.
  induction cs as [|[z x1] rest IHcs]; intros tot Hok Hnum Hlen; cbn [contract_loop].
  - intros w Hw. split; [exact Hw | reflexivity].
  - eapply hoare_bind; [apply sig_check_pending|]. intros u.
    rewrite (contract_chord_spec parent (S n) z x1 rest Hp Hok num Hnum).
    cbn [of_option]. apply hoare_ret_bind.
    pose proof (contracted_ok parent (S n) z x1 rest Hp Hok) as Hc.
    replace (S n - 1)%nat with n in Hc by lia.
    pose proof (head_ok parent (S n) z x1 rest Hok) as (A1 & A2 & A3 & A4).
    eapply hoare_bind.
    + eapply hoare_conseq; [apply (IH _ tot Hc ltac:(lia) Hlen) | | |];
        [intros w0 Hw0; exact Hw0 | intros a w0 Hw0; exact Hw0 | intros x w0 Hx; exact Hx].
    + intros tot1. apply hoare_pre. intros w1 [Hw1 L1].
      eapply hoare_conseq;
        [apply (IHcs tot1 (chords_ok_tail parent _ _ _ Hok)
                  ltac:(simpl in Hnum; lia) ltac:(lia))
        | intros w0 ->; exact Hw1
        | intros a w0 [Hw0 L0]; split; [exact Hw0 | congruence]
        | intros x w0 Hx; exact Hx].
Qed.

Lemma contract_and_count_pending : forall n cs tot,
  chords_ok parent n cs -> (1 <= n)%nat -> (n < length tot)%nat ->
  hoare pending (contract_and_count n cs parent tot)
        (fun tot' w => pending w /\ length tot' = length tot) stopped.
Proof.
  induction n as [|n IH]; intros cs tot Hok Hn Hlen; [lia|].
  destruct cs as [|c cs]; cbn [contract_and_count].
  - destruct (tot_incr_some tot (S n) Hlen) as (tot' & E). rewrite E.
    intros w Hw. split; [exact Hw|]. apply (hist_incr _ _ _ E).
  - eapply hoare_bind.
    + apply (contract_loop_pending n (length (c :: cs)) IH (c :: cs) tot Hok (le_n _)).
      lia.
    + intros tot1. apply hoare_pre. intros w1 [Hw1 L1].
      destruct (tot_incr_some tot1 (S n) ltac:(lia)) as (tot' & E). rewrite E.
      intros w0 ->. split; [exact Hw1|].
      rewrite (proj1 (hist_incr _ _ _ E)). exact L1.
Qed.

End Interrupts.

(** X16. With the parents and the chords of a breadth first search and
    room in the histogram, whatever interrupts are pending,
    [contract_and_count] returns a histogram of the same length or stops
    with the exception that one of its [sig_check] met: it raises nothing
    of its own and reads or writes no array out of its bounds. *)
Theorem contract_and_count_stops_only_on_interrupt (parent : list nat) (n : nat)
  (cs : list chord) (tot : list Z) (w : world) :
  parent_ok parent ->
  chords_ok parent n cs ->
  (1 <= n)%nat ->
  (n < length tot)%nat ->
  match contract_and_count n cs parent tot w with
  | (Ret tot', _) => length tot' = length tot
  | (Abort x, _) => exists e t, x = Raise e /\ signals w t = Some e
  end.
Proof.
  intros Hp Hc Hn Hl.
  pose proof (contract_and_count_pending (signals w) parent Hp n cs tot Hc Hn Hl w eq_refl)
    as H.
  destruct (contract_and_count n cs parent tot w) as [[tot'|x] w']; [apply H | exact H].
Qed.

Lemma contract_and_count_stops_only_on_interrupt_witness :
  exists e t, Raise KeyboardInterrupt = Raise e /\
              signals (interrupted_world square_diag) t = Some e.
Proof.
  exact (contract_and_count_stops_only_on_interrupt (parent square_diag_bfs) 4
           (chords square_diag_bfs) (repeat 0 5) (interrupted_world square_diag)
           square_parent_ok square_chords_ok ltac:(lia) ltac:(cbn; lia)).
Defined.

(** ** The rounds of the cached algorithm *)

Section RoundFacts.

Variable canonical_label : Graph.t -> Graph.t.

Lemma runs_app T1 T2 st w st1 w1 st2 w2 :
  runs canonical_label T1 st w st1 w1 -> runs canonical_label T2 st1 w1 st2 w2 ->
  runs canonical_label (T1 ++ T2) st w st2 w2.
Proof.
  intros H1 H2. induction H1; simpl; [exact H2|]. econstructor; eauto.
Qed.

Lemma runs_one d c e stk w st' w' :
  cache_step canonical_label (CState d c (e :: stk)) e stk w = (Ret st', w') ->
  runs canonical_label [Round (CState d c (e :: stk)) w st' w']
       (CState d c (e :: stk)) w st' w'.
Proof.
  intros H. econstructor; [reflexivity | exact H | constructor].
Qed.

(** The rounds that the loop completes with the fuel it has are the first
    ones of the rounds that empty the stack. *)
Lemma runs_rounds T st w st' w' :
  runs canonical_label T st w st' w' -> stack st' = [] ->
  forall fuel, cache_rounds canonical_label fuel st w = take fuel T.
Proof.
  intros H Hs. induction H as [st w|st w entry stk st1 w1 T st' w' E1 E2 _ IH]; intros fuel.
  - destruct fuel; simpl; rewrite Hs; reflexivity.
  - destruct fuel; simpl; rewrite E1; [reflexivity|].
    rewrite E2. f_equal. apply IH, Hs.
Qed.

Lemma runs_is_round T st w st' w' :
  runs canonical_label T st w st' w' -> Forall (is_round canonical_label) T.
Proof.
  intros H. induction H as [|st w entry stk st1 w1 T st' w' E1 E2 _ IH]; constructor;
    [|exact IH].
  exists entry, stk. split; [exact E1 | exact E2].
Qed.

(** A first visit that finds the key of its node in the cache adopts the
    cached polynomial. *)
Lemma hit_adopts r k :
  is_round canonical_label r -> visits canonical_label k r ->
  is_Some (cache (r_before r) !! k) -> adopts k r.
Proof.
  destruct r as [st w st' w']. intros (entry & stk & Hs & Hc) Hv [p Hp].
  unfold visits, node_key, node_graph in Hv. cbn [r_before r_world r_after r_world'] in *.
  rewrite Hs in Hv. destruct entry as [[firstseen v] c].
  destruct firstseen; [|discriminate].
  destruct (DiGraph.get_vertex (cD st) v) as [[l|?|?]|] eqn:Ev; try discriminate.
  destruct (heap w !! l) as [h|] eqn:El; [|discriminate].
  cbn [option_map] in Hv. injection Hv as Hk.
  unfold cache_step, first_visit in Hc. rewrite Ev in Hc.
  unfold bind at 1, read in Hc. rewrite El, Hk, Hp in Hc.
  injection Hc as <- <-.
  exists v, c, stk, p. cbn [r_before r_world r_after r_world'].
  split; [exact Hs|]. split; [exact Hp|]. split; reflexivity.
Qed.

Lemma FOP_app {A} (R : A -> A -> Prop) (l1 l2 : list A) :
  ForallOrdPairs R l1 -> ForallOrdPairs R l2 ->
  (forall a b, In a l1 -> In b l2 -> R a b) ->
  ForallOrdPairs R (l1 ++ l2).
Proof.
  intros H1 H2 H. induction H1 as [|a l Ha _ IH]; simpl; [exact H2|].
  constructor.
  - apply List.Forall_app. split; [exact Ha|].
    apply List.Forall_forall. intros b Hb. apply H; [left; reflexivity | exact Hb].
  - apply IH. intros x y Hx Hy. apply H; [right; exact Hx | exact Hy].
Qed.

Lemma FOP_lookup {A} (R : A -> A -> Prop) (l : list A) : forall i j a b,
  ForallOrdPairs R l -> l !! i = Some a -> l !! j = Some b -> (i < j)%nat -> R a b.
Proof.
  induction l as [|x l IH]; intros i j a b H Hi Hj Hij; [discriminate|].
  inversion H as [|? ? Hx Hl]; subst.
  destruct j as [|j]; [lia|]. cbn in Hj.
  destruct i as [|i]; cbn in Hi.
  - injection Hi as <-. apply (proj1 (List.Forall_forall _ _) Hx).
    apply list_elem_of_In. eapply list_elem_of_lookup_2, Hj.
  - apply (IH i j a b Hl Hi Hj). lia.
Qed.

Lemma seg_ok_nil c : seg_ok canonical_label c [] c.
Proof.
  split; [auto|]. split; [constructor|]. split; [intros r k []|constructor].
Qed.

Lemma seg_ok_app c T1 c1 T2 c2 :
  seg_ok canonical_label c T1 c1 -> seg_ok canonical_label c1 T2 c2 ->
  seg_ok canonical_label c (T1 ++ T2) c2.
Proof.
  intros (M1 & L1 & A1 & P1) (M2 & L2 & A2 & P2).
  split; [auto|]. split; [|split].
  - apply List.Forall_app. split; [exact L1|].
    eapply List.Forall_impl; [|exact L2]. intros r Hr k Hk. apply Hr, M1, Hk.
  - intros r k Hr Hv. apply in_app_or in Hr. destruct Hr as [Hr|Hr].
    + apply M2. exact (A1 r k Hr Hv).
    + exact (A2 r k Hr Hv).
  - apply FOP_app; [exact P1 | exact P2|].
    intros r1 r2 H1 H2 k Hv1 Hv2.
    apply (proj1 (List.Forall_forall _ _) L2 r2 H2). exact (A1 r1 k H1 Hv1).
Qed.

(** A single round that stores the key of the node it visits, or finds it
    stored. *)
Lemma seg_ok_one c r c' :
  (forall k, is_Some (c !! k) -> is_Some (c' !! k)) ->
  (forall k, is_Some (c !! k) -> is_Some (cache (r_before r) !! k)) ->
  (forall k, visits canonical_label k r -> is_Some (c' !! k)) ->
  seg_ok canonical_label c [r] c'.
Proof.
  intros M L A. split; [exact M|]. split; [constructor; [exact L | constructor]|].
  split; [intros r' k [<-|[]]; apply A|].
  constructor; constructor.
Qed.

(** The rounds of a node that is expanded: the first visit, the rounds of
    the children, and the round that combines them. *)
Lemma seg_ok_node c r0 T c2 rl c' :
  seg_ok canonical_label c T c2 ->
  (forall k, is_Some (c !! k) -> is_Some (cache (r_before r0) !! k)) ->
  (forall k, is_Some (c2 !! k) -> is_Some (cache (r_before rl) !! k)) ->
  (forall k, is_Some (c2 !! k) -> is_Some (c' !! k)) ->
  (forall k, visits canonical_label k r0 -> is_Some (c' !! k)) ->
  node_key canonical_label rl = None ->
  (forall r k, In r T -> visits canonical_label k r0 -> ~ visits canonical_label k r) ->
  seg_ok canonical_label c (r0 :: T ++ [rl]) c'.
Proof.
  intros (M & L & A & P) L0 Ll M2 A0 Nl D.
  assert (Hnl : forall k, ~ visits canonical_label k rl).
  { intros k Hv. unfold visits in Hv. congruence. }
  split; [auto|]. split; [|split].
  - constructor; [exact L0|]. apply List.Forall_app. split; [exact L|].
    constructor; [|constructor]. intros k Hk. apply Ll, M, Hk.
  - intros r k [<-|Hr] Hv; [apply A0, Hv|].
    apply in_app_or in Hr. destruct Hr as [Hr|[<-|[]]].
    + apply M2. exact (A r k Hr Hv).
    + destruct (Hnl k Hv).
  - constructor.
    + apply List.Forall_app. split.
      * apply List.Forall_forall. intros r Hr k Hv0 Hv. destruct (D r k Hr Hv0 Hv).
      * constructor; [|constructor]. intros k _ Hv. destruct (Hnl k Hv).
    + apply FOP_app; [exact P | constructor; constructor|].
      intros r1 r2 _ [<-|[]] k _ Hv. destruct (Hnl k Hv).
Qed.

End RoundFacts.

(** ** The graphs below a graph have other keys *)

Section Below.
Import Graph GraphFacts EdgeFacts WfFacts RelabelFacts MainFacts Components TopFacts
       DelContract Admissible PolyId.

Variable canonical_label : Graph.t -> Graph.t.

Lemma below_trans h c g : below h c -> below c g -> below h g.
Proof.
  unfold below. intros [H1|[E1 C1]] [H2|[E2 C2]]; try (left; lia).
  right. split; [lia|]. rewrite E2 in C1. lia.
Qed.

(** With as many colours as it has vertices, a graph without loops has a
    proper colouring. *)
Lemma count_enough g k :
  wf g = true -> has_loops g = false -> (order g <= k)%nat ->
  (0 < count_colorings g k)%nat.
Proof.
  intros Hwf Hl Hk. apply count_positive; [exact Hwf|].
  pose proof (proj1 (wf_spec g) Hwf) as [_ Hc].
  exists (fun v => index_of v (verts g)). split.
  - intros v Hv. pose proof (index_of_lt v (verts g) Hv). unfold order in Hk. lia.
  - apply Proper.proper_spec. intros e He E.
    destruct (Hc e He) as [H1 H2].
    apply (proj1 (has_loops_false g) Hl e He).
    exact (index_of_inj _ _ _ H1 H2 E).
Qed.

(** The numbers of colourings tell the number of vertices: it is the
    degree of the polynomial that the default algorithm returns. *)
Lemma counts_order g h :
  wf g = true -> has_loops g = false -> wf h = true -> has_loops h = false ->
  (forall k, count_colorings g k = count_colorings h k) -> order g = order h.
Proof.
  intros Wg Lg Wh Lh H.
  assert (Hq : forall x, quiet (caller_world x)) by (intros x t; reflexivity).
  assert (Hh : forall x, heap (caller_world x) !! 0%nat = Some x)
    by (intros x; apply lookup_insert_eq).
  destruct (default_counts canonical_label 1 0 0 (caller_world g) g (Hh g) Wg (Hq g) (le_n 1))
    as (p & w1 & E1 & N1 & V1).
  destruct (default_counts canonical_label 1 0 0 (caller_world h) h (Hh h) Wh (Hq h) (le_n 1))
    as (q & w2 & E2 & N2 & V2).
  pose proof (default_monic canonical_label 1 0 0 _ g p w1 (Hh g) Wg Lg E1) as [Mg Zg].
  pose proof (default_monic canonical_label 1 0 0 _ h q w2 (Hh h) Wh Lh E2) as [Mh Zh].
  assert (Epq : p = q).
  { apply poly_eq; [exact N1 | exact N2|]. intros k. rewrite V1, V2, H. reflexivity. }
  subst q.
  destruct (lt_eq_lt_dec (order g) (order h)) as [[Hlt|Heq]|Hgt]; [|exact Heq|].
  - rewrite (Zg _ Hlt) in Mh. discriminate.
  - rewrite (Zh _ Hgt) in Mg. discriminate.
Qed.

Hypothesis Hfaith : faithful canonical_label.

Lemma below_differs h g :
  admissible h -> admissible g -> below h g ->
  key_of canonical_label h <> key_of canonical_label g.
Proof.
  intros Ha Hg Hb E. pose proof (Hfaith h g Ha Hg E) as Hc.
  destruct Ha as (Wh & Lh & _), Hg as (Wg & Lg & _).
  destruct Hb as [Hlt|[_ Hlt]].
  - pose proof (counts_order h g Wh Lh Wg Lg Hc). lia.
  - rewrite Hc in Hlt. lia.
Qed.

Lemma below_component g c :
  is_connected g = false -> In c (connected_components_subgraphs g) -> below c g.
Proof.
  intros Hd Hc. left. apply in_components in Hc. destruct Hc as (v & Hv & ->).
  destruct (component_misses g v Hd Hv) as (u & Hu & Hn).
  unfold order, subgraph. simpl.
  eapply filter_length_lt; [exact Hu | apply memb_false, Hn].
Qed.

Lemma below_reduce g u w :
  admissible g -> reduces g u w ->
  below (delete_edge g u w) g /\ below (contract_edge g u w) g.
Proof.
  intros Ha Hr. pose proof (reduces_edge g u w Hr) as He.
  destruct Hr as (_ & _ & Hc & Ht & _).
  pose proof Ha as (Hwf & Hl & Hs & Ho & _).
  assert (Hca : admissible (contract_edge g u w))
    by (apply contracted_admissible; assumption).
  destruct Hca as (Wc & Lc & _).
  assert (Eo : order (contract_edge g u w) = (order g - 1)%nat)
    by (apply contract_order; assumption).
  assert (H2 : (2 <= order g)%nat) by (eapply order_ge_2; eassumption).
  split.
  - right. split; [reflexivity|].
    pose proof (count_delete_contract g u w Hwf Hl Hs He (order g)) as Hdc.
    pose proof (count_enough (contract_edge g u w) (order g) Wc Lc ltac:(lia)). lia.
  - left. lia.
Qed.

End Below.

(** ** The rounds that resolve a node *)

Section Traced.
Import Graph GraphFacts EdgeFacts WfFacts RelabelFacts Components TopFacts Admissible.

Variable canonical_label : Graph.t -> Graph.t.
Hypothesis Hfaith : faithful canonical_label.

Lemma node_graph_first d c v c0 rest w l g st1 w1 :
  DiGraph.get_vertex d v = Some (VGraph l) -> heap w !! l = Some g ->
  node_graph (Round (CState d c ((true, v, c0) :: rest)) w st1 w1) = Some g.
Proof.
  intros Hv Hl. unfold node_graph. cbn [r_before r_world stack cD]. rewrite Hv. exact Hl.
Qed.

Lemma visits_first d c v c0 rest w l g st1 w1 k :
  DiGraph.get_vertex d v = Some (VGraph l) -> heap w !! l = Some g ->
  visits canonical_label k (Round (CState d c ((true, v, c0) :: rest)) w st1 w1) ->
  k = key_of canonical_label g.
Proof.
  intros Hv Hl H. unfold visits, node_key in H.
  rewrite (node_graph_first d c v c0 rest w l g st1 w1 Hv Hl) in H.
  cbn in H. congruence.
Qed.

Lemma visits_within_app P T1 T2 :
  visits_within P T1 -> visits_within P T2 -> visits_within P (T1 ++ T2).
Proof. intros H1 H2. apply List.Forall_app. split; assumption. Qed.

Lemma visits_within_impl (P P' : Graph.t -> Prop) T :
  (forall h, admissible h -> P h -> P' h) -> visits_within P T -> visits_within P' T.
Proof.
  intros H HT. eapply List.Forall_impl; [|exact HT].
  intros r Hr h Hh. destruct (Hr h Hh) as [Ha Hp]. split; [exact Ha | apply H; assumption].
Qed.

(** The rounds that resolve the children of a node, the last child first. *)
Lemma spawn_traced n v :
  resolves_traced canonical_label n ->
  forall hs d stk w c,
    (forall h, In h hs -> admissible h /\ (graph_measure h < n)%nat) ->
    dwf d -> In v (DiGraph.verts d) ->
    exists d1 stk1 w1 wps T c' w2,
      spawn_components v hs d stk w = (Ret (d1, stk1), w1) /\
      runs canonical_label T (CState d1 c stk1) w1
           (CState (with_children d v wps) c' stk) w2 /\
      (forall x, In x (map fst wps) -> ~ In x (DiGraph.verts d)) /\
      List.NoDup (map fst wps) /\ heap_ext w w2 /\
      seg_ok canonical_label c T c' /\
      visits_within (fun h => exists h0, In h0 hs /\ (h = h0 \/ below h h0)) T.
Proof.
  intros IHn. induction hs as [|h hs IH]; intros d stk w c Hhs Hd Hv.
  - exists d, stk, w, [], [], c, w. rewrite with_children_nil.
    split; [reflexivity|]. split; [constructor|].
    split; [intros x []|]. split; [constructor|]. split; [apply heap_ext_refl|].
    split; [apply seg_ok_nil | constructor].
  - destruct (alloc_spec h w) as (l1 & wa & Ealloc & Hnone & Hl1 & Hext1).
    destruct (DiGraphFacts.add_vertex_spec d) as (x & Eadd & Hfresh).
    cbn [spawn_components]. unfold bind at 1. rewrite Ealloc, Eadd.
    set (d3 := DiGraph.add_edge
                 (DiGraph.set_vertex
                    (DiGraph.mk (DiGraph.verts d ++ [x]) (DiGraph.assoc d) (DiGraph.edges d))
                    x (VGraph l1)) v x).
    assert (Hd3 : dwf d3) by (apply dwf_add_child; assumption).
    assert (Hv3 : In v (DiGraph.verts d3)) by (simpl; apply in_or_app; auto).
    destruct (IH d3 ((true, x, ("_"%string, [])) :: stk) wa c) as
      (d1 & stk1 & w1 & wps & T1 & c1 & w2 & Es & Hruns & Hfr & Hnd & Hext2 & Hseg1 & Hvis1);
      [intros h' Hh'; apply Hhs; right; exact Hh' | exact Hd3 | exact Hv3 |].
    assert (Hx : ~ In x (map fst wps)).
    { intros H. apply (Hfr x H). simpl. apply in_or_app. right. left. reflexivity. }
    destruct (Hhs h (or_introl eq_refl)) as [Hadm Hmeas].
    assert (Hgx : DiGraph.get_vertex (with_children d3 v wps) x = Some (VGraph l1)).
    { unfold DiGraph.get_vertex. rewrite DiGraphFacts.lookup_with_children.
      rewrite DiGraphFacts.find_none_not_in by exact Hx. simpl. apply lookup_insert_eq. }
    destruct (IHn h Hmeas Hadm (with_children d3 v wps) c1 x ("_"%string, []) stk w2 l1)
      as (st0 & w0 & T2 & p & c2 & w3 & Hruns2 & Hframe & Hseg2 & Hvis2).
    { exact Hgx. }
    { apply Hext2, Hl1. }
    { apply dwf_with_children; assumption. }
    { simpl. apply in_or_app. left. apply in_or_app. right. left. reflexivity. }
    { apply neighbor_out_nil. intros e He. simpl in He.
      destruct Hd as [Hde _].
      apply in_app_or in He. destruct He as [He|He].
      - apply in_app_or in He. destruct He as [He|[<-|[]]].
        + intros E. destruct (Hde e He) as [H1 _]. rewrite E in H1. contradiction.
        + simpl. intros E. rewrite E in Hv. contradiction.
      - apply in_map_iff in He. destruct He as (wp & <- & _). simpl.
        intros E. rewrite E in Hv. contradiction. }
    eexists d1, stk1, w1, ((x, p) :: wps), (T1 ++ _ :: T2), c2, w3.
    split; [exact Es|]. split.
    { eapply runs_app; [exact Hruns|].
      unfold d3 in Hruns2. rewrite with_children_cons in Hruns2 by exact Hx.
      exact Hruns2. }
    split.
    { intros y [<-|Hy]; [exact Hfresh|]. intros Hin. apply (Hfr y Hy).
      simpl. apply in_or_app. left. exact Hin. }
    split; [simpl; constructor; assumption|]. split.
    { eapply heap_frame_ext; [exact Hnone | | exact Hframe].
      eapply heap_ext_trans; eassumption. }
    split; [eapply seg_ok_app; eassumption|].
    apply visits_within_app.
    + eapply List.Forall_impl; [|exact Hvis1]. intros r Hr h' Hh'.
      destruct (Hr h' Hh') as (Ha & h0 & Hin & Hb). split; [exact Ha|].
      exists h0. split; [right; exact Hin | exact Hb].
    + constructor.
      * intros h' Hh'.
        rewrite (node_graph_first _ _ _ _ _ _ _ h _ _ Hgx (Hext2 _ _ Hl1)) in Hh'.
        injection Hh' as <-. split; [exact Hadm|].
        exists h. split; [left; reflexivity | left; reflexivity].
      * eapply List.Forall_impl; [|exact Hvis2]. intros r Hr h' Hh'.
        destruct (Hr h' Hh') as (Ha & Hb). split; [exact Ha|].
        exists h. split; [left; reflexivity | right; exact Hb].
Qed.

(** The rounds of a node whose graph is not connected: the first visit,
    the rounds of the components, and the round that multiplies. *)
Lemma split_traced n g d c v c0 rest w l :
  resolves_traced canonical_label n ->
  (forall h, In h (connected_components_subgraphs g) ->
     admissible h /\ (graph_measure h < n)%nat) ->
  splits g -> c !! key_of canonical_label g = None ->
  DiGraph.get_vertex d v = Some (VGraph l) -> heap w !! l = Some g ->
  dwf d -> In v (DiGraph.verts d) -> DiGraph.neighbor_out d v = [] ->
  exists st1 w1 T rl ps c1 w',
    runs canonical_label
         (Round (CState d c ((true, v, c0) :: rest)) w st1 w1 :: T ++ [rl])
         (CState d c ((true, v, c0) :: rest)) w
         (CState (DiGraph.set_vertex d v (VPoly (Poly.prod ps)))
                 (<[key_of canonical_label g := Poly.prod ps]> c1) rest) w' /\
    heap_frame l w w' /\
    seg_ok canonical_label c T c1 /\
    cache (r_before rl) = c1 /\ node_key canonical_label rl = None /\
    visits_within
      (fun h => exists h0, In h0 (connected_components_subgraphs g) /\
                           (h = h0 \/ below h h0)) T.
Proof.
  intros IHn Hcs Hsp Ek Hv Hl Hd Hin Hout.
  pose proof (eq_refl (first_visit canonical_label (CState d c ((true, v, c0) :: rest)) v rest w))
    as E.
  unfold first_visit at 2 in E. cbn [cD cache stack] in E. rewrite Hv in E.
  unfold bind at 1 in E. rewrite (read_spec l w g Hl) in E. rewrite Ek in E.
  destruct Hsp as (Ee & Elo & Ec). rewrite Ee, Elo, Ec in E. cbn [negb] in E.
  set (k := key_of canonical_label g) in *.
  assert (Hd1 : dwf (DiGraph.set_vertex d v (VKey k)))
    by (apply DiGraphFacts.dwf_set_vertex; assumption).
  destruct (spawn_traced n v IHn (connected_components_subgraphs g)
              (DiGraph.set_vertex d v (VKey k)) ((false, v, ("*"%string, [])) :: rest) w c)
    as (d1 & stk1 & w1 & wps & T & c1 & w2 & Es & Hruns & Hfr & Hnd & Hext & Hseg & Hvis);
    [exact Hcs | exact Hd1 | exact Hin |].
  unfold bind at 1 in E. rewrite Es in E. cbn in E.
  assert (Hlast :
    cache_step canonical_label
      (CState (with_children (DiGraph.set_vertex d v (VKey k)) v wps) c1
              ((false, v, ("*"%string, [])) :: rest))
      (false, v, ("*"%string, [])) rest w2
    = (Ret (CState (DiGraph.set_vertex d v (VPoly (Poly.prod (map snd wps))))
                   (<[k := Poly.prod (map snd wps)]> c1) rest), w2)).
  { unfold cache_step. cbn [fst snd String.eqb Ascii.eqb Bool.eqb].
    cbn [cD cache stack].
    assert (Hkey : get_key (with_children (DiGraph.set_vertex d v (VKey k)) v wps) v w2
                   = (Ret k, w2)).
    { unfold get_key, DiGraph.get_vertex. rewrite DiGraphFacts.lookup_with_children.
      rewrite DiGraphFacts.find_none_not_in
        by (intros H; exact (Hfr v H Hin)).
      simpl. rewrite lookup_insert_eq. reflexivity. }
    unfold bind at 1. rewrite Hkey.
    rewrite (DiGraphFacts.neighbor_out_with_children _ v wps)
      by (rewrite neighbor_out_set_vertex; exact Hout).
    unfold bind at 1. rewrite (mapM_get_poly _ _ _ Hnd w2).
    unfold ret. f_equal. unfold resolve. cbn [cD cache stack].
    rewrite neighbor_out_set_vertex.
    rewrite (DiGraphFacts.neighbor_out_with_children _ v wps)
      by (rewrite neighbor_out_set_vertex; exact Hout).
    rewrite (DiGraphFacts.delete_children _ v wps _ Hd1 Hin Hfr).
    rewrite set_vertex_twice. reflexivity. }
  eexists _, _, T, _, (map snd wps), c1, w2.
  split.
  { econstructor; [reflexivity | exact E |].
    eapply runs_app; [exact Hruns|]. apply runs_one. exact Hlast. }
  split; [apply heap_ext_frame, Hext|].
  split; [exact Hseg|]. split; [reflexivity|]. split; [reflexivity | exact Hvis].
Qed.

Lemma visits_graph r k :
  visits canonical_label k r ->
  exists h, node_graph r = Some h /\ key_of canonical_label h = k.
Proof.
  unfold visits, node_key. destruct (node_graph r) as [h|]; [|discriminate].
  cbn. intros [= <-]. exists h. auto.
Qed.

Lemma node_graph_none r : node_key canonical_label r = None -> node_graph r = None.
Proof. unfold node_key. destruct (node_graph r); [discriminate | reflexivity]. Qed.

(** No round below a node visits the key of the node. *)
Lemma below_no_repeat g T :
  admissible g -> visits_within (fun h => below h g) T ->
  forall r, In r T -> ~ visits canonical_label (key_of canonical_label g) r.
Proof.
  intros Ha HT r Hr Hv. apply visits_graph in Hv. destruct Hv as (h & Hh & Hk).
  destruct (proj1 (List.Forall_forall _ _) HT r Hr h Hh) as [Hah Hb].
  exact (below_differs canonical_label Hfaith h g Hah Ha Hb Hk).
Qed.

(** The loop resolves every pending node by such a stretch of rounds. *)
Lemma resolves_traced_all : forall n, resolves_traced canonical_label n.
Proof.
  induction n as [|n IHn]; intros g Hm Ha d c v c0 rest w l Hv Hl Hd Hin Hout; [lia|].
  set (st := CState d c ((true, v, c0) :: rest)).
  set (k := key_of canonical_label g).
  assert (Hvk : forall st1 w1 k', visits canonical_label k' (Round st w st1 w1) -> k' = k).
  { intros st1 w1 k'. apply (visits_first d c v c0 rest w l g st1 w1 k' Hv Hl). }
  assert (Hone : forall p c',
            first_visit canonical_label st v rest w
            = (Ret (CState (DiGraph.set_vertex d v (VPoly p)) c' rest), w) ->
            (forall k', is_Some (c !! k') -> is_Some (c' !! k')) ->
            is_Some (c' !! k) ->
            exists st1 w1 T p c' w',
              runs canonical_label (Round st w st1 w1 :: T) st w
                   (CState (DiGraph.set_vertex d v (VPoly p)) c' rest) w' /\
              heap_frame l w w' /\
              seg_ok canonical_label c (Round st w st1 w1 :: T) c' /\
              visits_within (fun h => below h g) T).
  { intros p c' E M A. eexists _, _, [], p, c', w.
    split; [econstructor; [reflexivity | exact E | constructor]|].
    split; [apply heap_ext_frame, heap_ext_refl|].
    split; [|constructor].
    apply seg_ok_one; [exact M | auto|].
    intros k' Hk'. rewrite (Hvk _ _ _ Hk'). exact A. }
  assert (Hbase : forall p,
            first_visit canonical_label st v rest w
            = (Ret (resolve st v k p rest), w) ->
            exists st1 w1 T p c' w',
              runs canonical_label (Round st w st1 w1 :: T) st w
                   (CState (DiGraph.set_vertex d v (VPoly p)) c' rest) w' /\
              heap_frame l w w' /\
              seg_ok canonical_label c (Round st w st1 w1 :: T) c' /\
              visits_within (fun h => below h g) T).
  { intros p E. apply (Hone p (<[k := p]> c) E).
    - intros k' Hk'. destruct (decide (k = k')) as [->|Hne];
        [rewrite lookup_insert_eq; eauto | rewrite lookup_insert_ne by exact Hne; exact Hk'].
    - rewrite lookup_insert_eq. eauto. }
  pose proof (eq_refl (first_visit canonical_label st v rest w)) as E.
  unfold first_visit at 2 in E. unfold st at 2 3 4 5 6 7 8 9 in E.
  cbn [cD cache stack] in E. rewrite Hv in E.
  unfold bind at 1 in E. rewrite (read_spec l w g Hl) in E. fold k in E.
  pose proof Ha as (Hwf & Hlo & Hsi & Hor & Hsz).
  destruct (c !! k) as [p|] eqn:Ek.
  { apply (Hone p c E); [auto | rewrite Ek; eauto]. }
  assert (Ee : is_empty g = false) by (unfold is_empty; apply Nat.eqb_neq; lia).
  rewrite Ee, Hlo in E.
  destruct (is_connected g) eqn:Ec; cbn [negb] in E.
  2:{ (* the product over the components *)
    clear Hbase Hone E.
    assert (Hsp : splits g) by (repeat split; assumption).
    destruct (split_traced n g d c v c0 rest w l IHn)
      as (st1 & w1 & T & rl & ps & c1 & w' & Hr & Hfr & Hseg & Hcl & Hnl & Hvis);
      try assumption.
    { intros h Hh. split; [eapply component_admissible; eassumption|].
      pose proof (component_subgraph_smaller g h Ec Hh). lia. }
    fold st k in Hr.
    assert (Hvw : visits_within (fun h => below h g) (T ++ [rl])).
    { apply visits_within_app.
      - eapply visits_within_impl; [|exact Hvis].
        intros h _ (h0 & Hh0 & [->|Hb]).
        + apply below_component; assumption.
        + eapply below_trans; [exact Hb | apply below_component; assumption].
      - constructor; [|constructor]. intros h Hh.
        rewrite (node_graph_none rl Hnl) in Hh. discriminate. }
    exists st1, w1, (T ++ [rl]), (Poly.prod ps), (<[k := Poly.prod ps]> c1), w'.
    split; [exact Hr|]. split; [exact Hfr|]. split; [|exact Hvw].
    apply (seg_ok_node canonical_label c _ T c1 rl); try assumption.
    - auto.
    - rewrite Hcl. auto.
    - intros k' Hk'. destruct (decide (k = k')) as [->|Hne];
        [rewrite lookup_insert_eq; eauto | rewrite lookup_insert_ne by exact Hne; exact Hk'].
    - intros k' Hk'. rewrite (Hvk _ _ _ Hk'), lookup_insert_eq. eauto.
    - intros r k' Hr' Hk'. rewrite (Hvk _ _ _ Hk').
      assert (HvT : visits_within (fun h => below h g) T).
      { apply List.Forall_app in Hvw. apply Hvw. }
      apply (below_no_repeat g T Ha HvT r Hr'). }
  destruct (Nat.eqb (order g) (size g + 1)) eqn:Et; [apply (Hbase _ E)|].
  (* deletion and contraction *)
  clear Hbase Hone E.
  destruct (bridges g ++ edges g) as [|[u x] r] eqn:Er.
  { exfalso. exact (connected_has_edge g Hwf Ee Ec Et Er). }
  assert (Hred : reduces g u x) by (repeat split; try assumption; exists r; exact Er).
  pose proof (reduces_edge g u x Hred) as Hedge.
  assert (Ha1 : admissible (delete_edge g u x)) by (apply deleted_admissible; assumption).
  assert (Ha2 : admissible (contract_edge g u x)) by (apply contracted_admissible; assumption).
  pose proof (delete_edge_measure g u x Hedge) as Hm1.
  assert (Hm2 : (graph_measure (contract_edge g u x) < graph_measure g)%nat).
  { pose proof (proj1 (wf_spec g) Hwf) as [_ Hcl]. destruct (Hcl _ Hedge) as [_ Hw].
    apply contract_measure; assumption. }
  destruct (below_reduce g u x Ha Hred) as [Hb1 Hb2].
  destruct (first_visit_reduce canonical_label d c ((true, v, c0) :: rest) v rest w l g u x
              Hv Hl Ek Hred)
    as (a & b & la & w1 & E & Hna & Hnb & Hab & Lb & La & Nla & Fr1).
  fold k st in E.
  set (d6 := split_node d v k a b la l) in *.
  assert (Hd6 : dwf d6).
  { destruct Hd as [Hde Hda]. split.
    - intros e He. unfold d6, split_node in *. simpl in *.
      apply in_app_or in He. destruct He as [He|[<-|[]]].
      + apply in_app_or in He. destruct He as [He|[<-|[]]].
        * destruct (Hde e He). split; apply in_or_app; left; apply in_or_app; auto.
        * simpl. split; apply in_or_app; left; apply in_or_app; [auto|right; left; reflexivity].
      + simpl. split; apply in_or_app; [left; apply in_or_app; auto | right; left; reflexivity].
    - intros y z. unfold d6, split_node. simpl. rewrite !lookup_insert.
      repeat case_decide; subst; intros Hy.
      + apply in_or_app. right. left. reflexivity.
      + apply in_or_app. left. apply in_or_app. right. left. reflexivity.
      + apply in_or_app. left. apply in_or_app. left. exact Hin.
      + apply in_or_app. left. apply in_or_app. left. exact (Hda y z Hy). }
  assert (Hedges : forall e, In e (DiGraph.edges d6) -> e.1 <> a /\ e.1 <> b).
  { intros e He. unfold d6, split_node in He. simpl in He. destruct Hd as [Hde _].
    apply in_app_or in He. destruct He as [He|[<-|[]]].
    - apply in_app_or in He. destruct He as [He|[<-|[]]].
      + destruct (Hde e He) as [H1 _]. split; intros E1; rewrite E1 in H1; contradiction.
      + simpl. split; intros E1; rewrite E1 in Hin; contradiction.
    - simpl. split; intros E1; rewrite E1 in Hin; contradiction. }
  (* the contracted graph first *)
  assert (Hgb : DiGraph.get_vertex d6 b = Some (VGraph l)).
  { unfold d6, split_node, DiGraph.get_vertex. simpl. apply lookup_insert_eq. }
  destruct (IHn (contract_edge g u x) ltac:(lia) Ha2 d6 c b ("_"%string, [])
              ((true, a, ("_"%string, [])) :: (false, v, ("-"%string, [a; b])) :: rest) w1 l)
    as (sb & wb & Tb & pb & c1 & w2 & R1 & Fr2 & Sg1 & V1).
  { exact Hgb. }
  { exact Lb. }
  { exact Hd6. }
  { unfold d6, split_node. simpl. apply in_or_app. right. left. reflexivity. }
  { apply neighbor_out_nil. intros e He. apply (Hedges e He). }
  (* then the graph without the edge *)
  assert (Hga : DiGraph.get_vertex (DiGraph.set_vertex d6 b (VPoly pb)) a = Some (VGraph la)).
  { unfold d6, split_node, DiGraph.get_vertex. simpl.
    rewrite lookup_insert_ne by congruence. rewrite lookup_insert_ne by congruence.
    apply lookup_insert_eq. }
  assert (Hla : heap w2 !! la = Some (delete_edge g u x)).
  { apply Fr2; [intros ->; congruence | exact La]. }
  destruct (IHn (delete_edge g u x) ltac:(lia) Ha1 (DiGraph.set_vertex d6 b (VPoly pb))
              c1 a ("_"%string, []) ((false, v, ("-"%string, [a; b])) :: rest) w2 la)
    as (sa & wa & Ta & pa & c2 & w3 & R2 & Fr3 & Sg2 & V2).
  { exact Hga. }
  { exact Hla. }
  { apply DiGraphFacts.dwf_set_vertex; [exact Hd6|].
    unfold d6, split_node. simpl. apply in_or_app. right. left. reflexivity. }
  { unfold d6, split_node. simpl. apply in_or_app. left. apply in_or_app. right. left. reflexivity. }
  { rewrite neighbor_out_set_vertex. apply neighbor_out_nil. intros e He. apply (Hedges e He). }
  unfold d6 in R2 at 3. rewrite split_node_resolved in R2 by exact Hab.
  assert (Hd1 : dwf (DiGraph.set_vertex d v (VKey k)))
    by (apply DiGraphFacts.dwf_set_vertex; assumption).
  assert (Hfr : forall y, In y (map fst [(a, pa); (b, pb)]) ->
                  ~ In y (DiGraph.verts (DiGraph.set_vertex d v (VKey k)))).
  { intros y [<-|[<-|[]]]; assumption. }
  assert (Hlast :
    cache_step canonical_label
      (CState (with_children (DiGraph.set_vertex d v (VKey k)) v [(a, pa); (b, pb)]) c2
              ((false, v, ("-"%string, [a; b])) :: rest))
      (false, v, ("-"%string, [a; b])) rest w3
    = (Ret (CState (DiGraph.set_vertex d v (VPoly (Poly.sub pa pb)))
                   (<[k := Poly.sub pa pb]> c2) rest), w3)).
  { unfold cache_step. cbn [fst snd String.eqb Ascii.eqb Bool.eqb].
    cbn [cD cache stack].
    assert (Hkey : get_key (with_children (DiGraph.set_vertex d v (VKey k)) v
                              [(a, pa); (b, pb)]) v w3 = (Ret k, w3)).
    { unfold get_key, DiGraph.get_vertex. rewrite DiGraphFacts.lookup_with_children.
      rewrite DiGraphFacts.find_none_not_in by (intros H; exact (Hfr v H Hin)).
      simpl. rewrite lookup_insert_eq. reflexivity. }
    unfold bind at 1. rewrite Hkey.
    assert (Hpa : get_poly (with_children (DiGraph.set_vertex d v (VKey k)) v
                              [(a, pa); (b, pb)]) a w3 = (Ret pa, w3)).
    { unfold get_poly, DiGraph.get_vertex. rewrite DiGraphFacts.lookup_with_children.
      simpl. rewrite Nat.eqb_refl. reflexivity. }
    assert (Hpb : get_poly (with_children (DiGraph.set_vertex d v (VKey k)) v
                              [(a, pa); (b, pb)]) b w3 = (Ret pb, w3)).
    { unfold get_poly, DiGraph.get_vertex. rewrite DiGraphFacts.lookup_with_children.
      simpl. destruct (Nat.eqb_spec a b); [contradiction|].
      rewrite Nat.eqb_refl. reflexivity. }
    unfold bind at 1. rewrite Hpa. unfold bind at 1. rewrite Hpb.
    unfold ret. f_equal. unfold resolve. cbn [cD cache stack].
    rewrite neighbor_out_set_vertex.
    rewrite (DiGraphFacts.neighbor_out_with_children _ v [(a, pa); (b, pb)])
      by (rewrite neighbor_out_set_vertex; exact Hout).
    rewrite (DiGraphFacts.delete_children _ v [(a, pa); (b, pb)] _ Hd1 Hin Hfr).
    rewrite set_vertex_twice. reflexivity. }
  match type of R1 with runs _ (?rb :: _) _ _ _ _ => set (rb0 := rb) in * end.
  match type of R2 with runs _ (?ra :: _) _ _ _ _ => set (ra0 := ra) in * end.
  set (TT := (rb0 :: Tb) ++ (ra0 :: Ta)).
  assert (HvT : visits_within (fun h => below h g) TT).
  { apply visits_within_app; constructor.
    - intros h Hh. unfold rb0 in Hh.
      rewrite (node_graph_first _ _ _ _ _ _ _ _ _ _ Hgb Lb) in Hh. injection Hh as <-.
      split; assumption.
    - eapply visits_within_impl; [|exact V1]. intros h _ Hb.
      exact (below_trans _ _ _ Hb Hb2).
    - intros h Hh. unfold ra0 in Hh.
      rewrite (node_graph_first _ _ _ _ _ _ _ _ _ _ Hga Hla) in Hh. injection Hh as <-.
      split; assumption.
    - eapply visits_within_impl; [|exact V2]. intros h _ Hb.
      exact (below_trans _ _ _ Hb Hb1). }
  eexists _, _, (TT ++ [_]), (Poly.sub pa pb), (<[k := Poly.sub pa pb]> c2), w3.
  split.
  { econstructor; [reflexivity | exact E |].
    eapply runs_app; [eapply runs_app; [exact R1 | exact R2]|].
    apply runs_one. exact Hlast. }
  split.
  { intros l' g' Hl' Hg'. apply Fr3; [intros ->; congruence|].
    apply Fr2; [exact Hl'|]. apply Fr1; [exact Hl' | exact Hg']. }
  split.
  - apply (seg_ok_node canonical_label c _ TT c2).
    + eapply seg_ok_app; eassumption.
    + auto.
    + auto.
    + intros k' Hk'. destruct (decide (k = k')) as [->|Hne];
        [rewrite lookup_insert_eq; eauto | rewrite lookup_insert_ne by exact Hne; exact Hk'].
    + intros k' Hk'. rewrite (Hvk _ _ _ Hk'), lookup_insert_eq. eauto.
    + reflexivity.
    + intros r0 k' Hr' Hk'. rewrite (Hvk _ _ _ Hk').
      apply (below_no_repeat g TT Ha HvT r0 Hr').
  - apply visits_within_app; [exact HvT|].
    constructor; [|constructor]. intros h Hh. discriminate.
Qed.

End Traced.

(** ** A key is computed once *)

Section AtMostOnce.
Import Graph GraphFacts EdgeFacts WfFacts RelabelFacts Components TopFacts Admissible.

Variable canonical_label : Graph.t -> Graph.t.
Hypothesis Hfaith : faithful canonical_label.

Lemma dedup_edges_nil es : dedup_edges es = [] -> es = [].
Proof.
  destruct es as [|e r]; [reflexivity|]. cbn [dedup_edges].
  destruct (dedup_edges r) as [|f r'] eqn:E; cbn [existsb]; [discriminate|].
  destruct (same_edge e f || existsb (same_edge e) r'); discriminate.
Qed.

Lemma root_size g : size (remove_multiple_edges (relabel g)) = 0%nat -> size g = 0%nat.
Proof.
  unfold size, remove_multiple_edges, relabel. cbn [edges].
  rewrite length_rev. intros H. apply length_zero_iff_nil, dedup_edges_nil in H.
  apply (f_equal (@length _)) in H. rewrite length_rev, length_map in H. exact H.
Qed.

(** The rounds of one call, all of them, and what is known of them for the
    key [k]. *)
Lemma root_rounds G w g k :
  heap w !! G = Some g -> wf g = true ->
  (size g = 0%nat ->
   (order g <= 1)%nat \/
   k <> key_of canonical_label (remove_multiple_edges (relabel g))) ->
  exists T,
    (forall fuel, with_cache_rounds canonical_label fuel G w = take fuel T) /\
    Forall (is_round canonical_label) T /\
    ForallOrdPairs
      (fun r1 r2 => visits canonical_label k r1 -> visits canonical_label k r2 ->
                    is_Some (cache (r_before r2) !! k)) T.
Proof.
  intros Hg Hw Hk. unfold with_cache_rounds.
  unfold bind at 1. rewrite (read_spec G w g Hg).
  destruct (is_empty g) eqn:He.
  { exists []. split; [intros fuel; destruct fuel; reflexivity|]. split; constructor. }
  destruct (has_loops g) eqn:Hl.
  { exists []. split; [intros fuel; destruct fuel; reflexivity|]. split; constructor. }
  cbn [orb].
  assert (Ho : (1 <= order g)%nat).
  { unfold is_empty in He. apply Nat.eqb_neq in He. lia. }
  destruct (alloc_spec (relabel g) w) as (G' & w1 & Ea & Hn & L1 & X1).
  destruct (modify_spec G' remove_multiple_edges w1 _ L1) as (w2 & Em & L2 & F2).
  destruct (root_facts g Hw Hl Ho) as (R1 & R2 & R3 & R4 & _).
  set (g' := remove_multiple_edges (relabel g)) in *.
  unfold bind at 1. rewrite Ea. unfold bind at 1. rewrite Em. cbn [ret].
  set (d := DiGraph.set_vertex DiGraph.init1 0 (VGraph G')).
  assert (Hd : dwf d).
  { split; simpl; [intros e [] |].
    intros x y. rewrite lookup_insert. case_decide; [subst; auto | rewrite lookup_empty; discriminate]. }
  assert (Hd0 : DiGraph.get_vertex d 0 = Some (VGraph G')).
  { unfold d, DiGraph.get_vertex. simpl. apply lookup_insert_eq. }
  assert (Hpairs : forall c T c', seg_ok canonical_label c T c' ->
            ForallOrdPairs
              (fun r1 r2 => visits canonical_label k r1 -> visits canonical_label k r2 ->
                            is_Some (cache (r_before r2) !! k)) T).
  { intros c T c' (_ & _ & _ & HP). clear -HP.
    induction HP as [|r T Hr _ IH]; constructor; [|exact IH].
    eapply List.Forall_impl; [|exact Hr]. intros r2 H. apply H. }
  assert (Hadm : admissible g' ->
            exists T,
              (forall fuel,
                 cache_rounds canonical_label fuel
                   (CState d ∅ [(true, 0%nat, ("_"%string, []))]) w2 = take fuel T) /\
              Forall (is_round canonical_label) T /\
              ForallOrdPairs
                (fun r1 r2 => visits canonical_label k r1 -> visits canonical_label k r2 ->
                              is_Some (cache (r_before r2) !! k)) T).
  { intros Ha.
    destruct (resolves_traced_all canonical_label Hfaith (S (graph_measure g')) g'
                ltac:(lia) Ha d ∅ 0%nat ("_"%string, []) [] w2 G' Hd0 L2 Hd
                ltac:(simpl; auto) eq_refl)
      as (st1 & w3 & T & p & c' & w' & Hr & _ & Hs & _).
    eexists. split; [intros fuel; eapply runs_rounds; [exact Hr | reflexivity]|].
    split; [eapply runs_is_round, Hr | eapply Hpairs, Hs]. }
  destruct (Nat.eq_dec (size g') 0%nat) as [Hs0|Hs0].
  2:{ apply Hadm. repeat split; auto. intros H. contradiction. }
  destruct (Nat.eq_dec (order g') 1%nat) as [Ho1|Ho1].
  { apply Hadm. repeat split; auto. }
  assert (Hkey : k <> key_of canonical_label g').
  { destruct (Hk (root_size g Hs0)) as [H|H]; [|exact H].
    exfalso. apply Ho1.
    assert (Eo : order g' = order g).
    { unfold g', order, remove_multiple_edges, relabel. cbn [verts]. apply length_seq. }
    lia. }
  assert (Hc : is_connected g' = false).
  { destruct (is_connected g') eqn:Hc; [|reflexivity]. exfalso. apply Ho1.
    apply connected_edgeless; assumption. }
  assert (He' : is_empty g' = false).
  { unfold is_empty. apply Nat.eqb_neq. lia. }
  destruct (split_traced canonical_label (graph_measure g') g' d ∅ 0%nat ("_"%string, []) []
              w2 G' (resolves_traced_all canonical_label Hfaith _))
    as (st1 & w3 & T & rl & ps & c1 & w' & Hr & _ & Hs & _ & Hnl & _); try assumption.
  { intros h Hh. split; [eapply component_admissible; eassumption|].
    apply component_subgraph_smaller; assumption. }
  { repeat split; assumption. }
  { apply lookup_empty. }
  { simpl. auto. }
  { reflexivity. }
  eexists. split; [intros fuel; eapply runs_rounds; [exact Hr | reflexivity]|].
  split; [eapply runs_is_round, Hr|].
  constructor.
  - apply List.Forall_forall. intros r2 _ Hv1 _.
    apply (visits_first canonical_label d ∅ 0%nat _ [] w2 G' g' st1 w3 k Hd0 L2) in Hv1.
    contradiction.
  - apply FOP_app; [eapply Hpairs, Hs | constructor; constructor|].
    intros r1 r2 _ [<-|[]] _ Hv. unfold visits in Hv. congruence.
Qed.

(** The rounds that are recorded are those of the loop: they lead from the
    state in which the loop starts to the state that it returns, with an
    empty stack. *)
Lemma cache_loop_rounds : forall fuel st w st' w',
  cache_loop canonical_label fuel st w = (Ret st', w') ->
  stack st' = [] /\
  runs canonical_label (cache_rounds canonical_label fuel st w) st w st' w'.
Proof.
  induction fuel as [|fuel IH]; intros st w st' w' H.
  - simpl in H. simpl. destruct (stack st) eqn:Es; [|discriminate].
    injection H as <- <-. split; [exact Es | constructor].
  - simpl in H. simpl. destruct (stack st) as [|entry stk] eqn:Es.
    + injection H as <- <-. split; [exact Es | constructor].
    + apply bind_ret_inv in H. destruct H as (st1 & w1 & E1 & H).
      rewrite E1. destruct (IH _ _ _ _ H) as [Hs Hr].
      split; [exact Hs|]. econstructor; eassumption.
Qed.

(** The rounds of a call are the rounds of its loop, and the call returns
    what they leave at the vertex 0. *)
Lemma with_cache_rounds_call fuel G w g p w' :
  heap w !! G = Some g -> is_empty g = false -> has_loops g = false ->
  chromatic_polynomial_with_cache canonical_label fuel G w = (Ret p, w') ->
  exists G' w0 st',
    runs canonical_label (with_cache_rounds canonical_label fuel G w)
         (root_state G' ∅) w0 st' w' /\
    stack st' = [] /\
    DiGraph.get_vertex (cD st') 0 = Some (VPoly p).
Proof.
  intros Hg He Hl H. unfold chromatic_polynomial_with_cache in H. unfold with_cache_rounds.
  unfold bind at 1 in H. unfold bind at 1. rewrite (read_spec G w g Hg) in *.
  rewrite He, Hl in *. cbn [orb].
  unfold bind at 1 in H. unfold bind at 1.
  destruct (alloc (relabel g) w) as [[G'|x] w1]; [|discriminate].
  unfold bind at 1 in H. unfold bind at 1.
  destruct (modify G' remove_multiple_edges w1) as [[u|x] w2]; [|discriminate].
  cbn [ret].
  apply bind_ret_inv in H. destruct H as (st' & w3 & Hloop & H).
  destruct (cache_loop_rounds _ _ _ _ _ Hloop) as [Hs Hr].
  unfold get_poly in H.
  destruct (DiGraph.get_vertex (cD st') 0) as [[?|?|q]|] eqn:Ev; try discriminate.
  injection H as <- <-.
  exists G', w2, st'. split; [exact Hr|]. split; [exact Hs | exact Ev].
Qed.

(** C7 (amended). When the keys tell apart the graphs with different
    numbers of colourings, a key is computed from scratch at most once in
    one call of [chromatic_polynomial_with_cache]: of two rounds of the
    loop that visit pending nodes with the same key [k], the later one
    adopts the polynomial that the cache holds under [k], and does nothing
    else.  The one key left out is the key of the input when the input has
    no edge and two vertices or more. *)
Theorem key_is_computed_at_most_once (fuel G : nat) (w : world) (g : Graph.t)
  (k : key) (i j : nat) (r1 r2 : round) :
  heap w !! G = Some g ->
  Graph.wf g = true ->
  (Graph.size g = 0%nat ->
   (Graph.order g <= 1)%nat \/
   k <> key_of canonical_label (Graph.remove_multiple_edges (Graph.relabel g))) ->
  with_cache_rounds canonical_label fuel G w !! i = Some r1 ->
  with_cache_rounds canonical_label fuel G w !! j = Some r2 ->
  (i < j)%nat ->
  visits canonical_label k r1 ->
  visits canonical_label k r2 ->
  adopts k r2.
Proof.
  intros Hg Hw Hk H1 H2 Hij V1 V2.
  destruct (root_rounds G w g k Hg Hw Hk) as (T & HT & HR & HP).
  rewrite HT in H1, H2.
  apply lookup_take_Some in H1. destruct H1 as [H1 _].
  apply lookup_take_Some in H2. destruct H2 as [H2 _].
  apply hit_adopts with (canonical_label := canonical_label); [|exact V2|].
  - apply (proj1 (List.Forall_forall _ _) HR).
    apply list_elem_of_In. eapply list_elem_of_lookup_2, H2.
  - exact (FOP_lookup _ T i j r1 r2 HP H1 H2 Hij V1 V2).
Qed.

End AtMostOnce.

Lemma key_is_computed_at_most_once_witness :
  adopts (key_of Canon.canonical_label K3)
    (nth 5 (with_cache_rounds Canon.canonical_label 10 0 (caller_world two_triangles))
         (Round (root_state 0 ∅) (caller_world K3) (root_state 0 ∅) (caller_world K3))).
Proof.
  apply (key_is_computed_at_most_once Canon.canonical_label CanonFacts.canonical_faithful
           10 0 (caller_world two_triangles) two_triangles
           (key_of Canon.canonical_label K3) 1 5
           (nth 1 (with_cache_rounds Canon.canonical_label 10 0 (caller_world two_triangles))
                (Round (root_state 0 ∅) (caller_world K3) (root_state 0 ∅) (caller_world K3)))).
  - reflexivity.
  - reflexivity.
  - intros H. vm_compute in H. discriminate.
  - vm_compute. reflexivity.
  - vm_compute. reflexivity.
  - lia.
  - vm_compute. reflexivity.
  - vm_compute. reflexivity.
Defined.

(** C7 (as stated). On two vertices without an edge, with the labelling
    [Canon.canonical_label], the rounds 0 and 1 of the call visit pending
    nodes with the same key, the empty edge set: the graph, which is
    expanded into its two components, and the first component, a single
    vertex.  The round 1 adopts nothing, as the cache is still empty: it
    computes the closed form of the tree.  The key is computed from scratch
    twice. *)
Lemma empty_key_is_computed_twice :
  ~ (forall (k : key) (i j : nat) (r1 r2 : round),
       with_cache_rounds Canon.canonical_label 10 0 (caller_world two_points) !! i = Some r1 ->
       with_cache_rounds Canon.canonical_label 10 0 (caller_world two_points) !! j = Some r2 ->
       (i < j)%nat ->
       visits Canon.canonical_label k r1 ->
       visits Canon.canonical_label k r2 ->
       adopts k r2).
Proof.
  intros H.
  set (d := Round (root_state 0 ∅) (caller_world K3) (root_state 0 ∅) (caller_world K3)).
  set (rs := with_cache_rounds Canon.canonical_label 10 0 (caller_world two_points)) in *.
  assert (Ha : adopts ∅ (nth 1 rs d)).
  { apply (H ∅ 0%nat 1%nat (nth 0 rs d) (nth 1 rs d)).
    - vm_compute. reflexivity.
    - vm_compute. reflexivity.
    - lia.
    - vm_compute. reflexivity.
    - vm_compute. reflexivity. }
  destruct Ha as (v & c & stk & p & _ & Hp & _).
  vm_compute in Hp. discriminate.
Qed.
